(** * Version management and compaction planning of pdlfs-common (version_set.cc)

    A shallow embedding of the version set of the LSM engine: file
    descriptors, the edit builder, the version ring with its reference
    counts, MANIFEST logging and recovery, and the compaction planner.

    Conventions of the embedding.
    - Machine integers are [Z] with their wrap-around written out
      ([uint32], [int32], [uint64], [int64]).
    - A C++ [assert] is compiled away (release build); the asserted
      conditions appear as hypotheses of the theorems that need them.
    - Objects of class [Version] live in a heap ([gmap] from addresses);
      [new] picks a fresh address and [delete] removes the object.
    - [FileMetaData::refs], used only to reclaim the descriptors' memory, is
      not modelled: descriptors are held by value.
    - A [double] is an IEEE 754 binary64 number with the operations of the
      Standard Library's specification of floating-point arithmetic
      (round to nearest even). *)

From Stdlib Require Import ZArith Strings.String Strings.Ascii.
From Stdlib Require Floats.SpecFloat.
From Stdlib Require Import Structures.OrderedTypeEx DecimalString.
From stdpp Require Import base option list gmap strings.

Local Open Scope Z_scope.

(** ** Machine integers *)

Definition uint32 (x : Z) : Z := x mod 2 ^ 32.
Definition uint64 (x : Z) : Z := x mod 2 ^ 64.
Definition int32 (x : Z) : Z := (x + 2 ^ 31) mod 2 ^ 32 - 2 ^ 31.
Definition int64 (x : Z) : Z := (x + 2 ^ 63) mod 2 ^ 64 - 2 ^ 63.

(** ** Doubles *)

Definition double : Type := SpecFloat.spec_float.

(** The conversion of an integer to [double]. *)
Definition double_of_Z (x : Z) : double :=
  SpecFloat.binary_normalize 53 1024 x 0 false.

Definition double_mul (a b : double) : double := SpecFloat.SFmul 53 1024 a b.
Definition double_div (a b : double) : double := SpecFloat.SFdiv 53 1024 a b.

(** [a > b] and [a >= b]; both are false when an operand is a NaN. *)
Definition double_gt (a b : double) : bool := SpecFloat.SFltb b a.
Definition double_ge (a b : double) : bool := SpecFloat.SFleb b a.

(** ** Three-way comparison results *)

Definition is_lt (c : comparison) : bool := match c with Lt => true | _ => false end.
Definition is_gt (c : comparison) : bool := match c with Gt => true | _ => false end.
Definition is_le (c : comparison) : bool := negb (is_gt c).
Definition is_ge (c : comparison) : bool := negb (is_lt c).

(** ** Comparators

    [Comparator] is the abstract interface of the user comparator
    ([Compare], [Name]). *)

Class Comparator := {
  Compare : string -> string -> comparison;
  Name : string
}.

(** The default comparator orders keys bytewise. *)
Definition BytewiseComparator : Comparator :=
  {| Compare := String.compare; Name := "leveldb.BytewiseComparator"%string |}.

(** ** Internal keys *)

Inductive ValueType := kTypeDeletion | kTypeValue.

Definition ValueType_code (t : ValueType) : Z :=
  match t with kTypeDeletion => 0 | kTypeValue => 1 end.

(** Modelled from the spec: the internal key of dbformat.h, the triple
    (user_key, sequence, kind).  An encoded key (a [Slice] holding
    [Encode()]) is represented by the key it encodes. *)
Record InternalKey := {
  user_key : string;
  sequence : Z;
  kind : ValueType
}.

Definition kMaxSequenceNumber : Z := 2 ^ 56 - 1.
Definition kValueTypeForSeek : ValueType := kTypeValue.

Definition PackSequenceAndType (k : InternalKey) : Z :=
  sequence k * 256 + ValueType_code (kind k).

(** Modelled from the spec: [InternalKeyComparator::Compare] of dbformat.cc,
    ascending user key, then descending (sequence, kind). *)
Definition icmp_Compare `{Comparator} (a b : InternalKey) : comparison :=
  match Compare (user_key a) (user_key b) with
  | Eq => Z.compare (PackSequenceAndType b) (PackSequenceAndType a)
  | r => r
  end.

(** ** File descriptors *)

(** Modelled from the spec: [FileMetaData] of version_edit.h
    ([number], [file_size], [seq_off] are u64, [allowed_seeks] is i32). *)
Record FileMetaData := {
  allowed_seeks : Z;
  number : Z;
  file_size : Z;
  seq_off : Z;
  smallest : InternalKey;
  largest : InternalKey
}.

Definition set_allowed_seeks (n : Z) (f : FileMetaData) : FileMetaData :=
  {| allowed_seeks := n; number := number f; file_size := file_size f;
     seq_off := seq_off f; smallest := smallest f; largest := largest f |}.

Definition set_smallest (k : InternalKey) (f : FileMetaData) : FileMetaData :=
  {| allowed_seeks := allowed_seeks f; number := number f;
     file_size := file_size f; seq_off := seq_off f; smallest := k;
     largest := largest f |}.

(** [TotalFileSize]: an [int64_t] accumulator over [uint64_t] sizes. *)
Definition TotalFileSize (files : list FileMetaData) : Z :=
  fold_left (fun sum f => int64 (sum + file_size f)) files 0.

(** ** FindFile: binary search over a level *)

Fixpoint FindFile_loop `{Comparator} (fuel : nat) (files : list FileMetaData)
    (key : InternalKey) (left right : Z) : option Z :=
  if left <? right then
    match fuel with
    | O => None
    | S fuel' =>
        let mid := uint32 (left + right) / 2 in
        match files !! Z.to_nat mid with
        | None => None
        | Some f =>
            if is_lt (icmp_Compare (largest f) key)
            then FindFile_loop fuel' files key (uint32 (mid + 1)) right
            else FindFile_loop fuel' files key left mid
        end
    end
  else Some right.

(** [left], [right] and [mid] are [uint32_t]; the result is an [int].  The
    result is [None] when the loop reads outside the vector or does not stop
    within [size + 1] rounds (possible only after 32-bit overflow). *)
Definition FindFile `{Comparator} (files : list FileMetaData)
    (key : InternalKey) : option Z :=
  int32 <$> FindFile_loop (S (length files)) files key 0
              (uint32 (Z.of_nat (length files))).

(** ** Versions *)

Definition SublevelPool := list (Z * Z).

Record Version := {
  files_ : list (list FileMetaData);
  refs_ : Z;
  file_to_compact_ : option FileMetaData;
  file_to_compact_level_ : Z;
  compaction_score_ : double;
  compaction_level_ : Z;
  input_pool_ : SublevelPool;
  output_pool_ : SublevelPool
}.

Definition level_files (files : list (list FileMetaData)) (level : nat)
  : list FileMetaData := default [] (files !! level).

(** One round of the loop of [Version::GetOverlappingInputs]: [rest] is
    [files_[level]] from index [i] on, [user_begin]/[user_end] are [None] when
    the corresponding bound is [NULL]. *)
Fixpoint GetOverlappingInputs_loop `{Comparator} (fuel : nat) (level : nat)
    (all rest : list FileMetaData) (user_begin user_end : option string)
    (inputs : list FileMetaData) : option (list FileMetaData) :=
  match rest with
  | [] => Some inputs
  | f :: rest' =>
      match fuel with
      | O => None
      | S fuel' =>
          let file_start := user_key (smallest f) in
          let file_limit := user_key (largest f) in
          if match user_begin with
             | Some b => is_lt (Compare file_limit b)
             | None => false
             end
          then GetOverlappingInputs_loop fuel' level all rest'
                 user_begin user_end inputs
          else if match user_end with
                  | Some e => is_gt (Compare file_start e)
                  | None => false
                  end
          then GetOverlappingInputs_loop fuel' level all rest'
                 user_begin user_end inputs
          else
            if (level =? 0)%nat then
              if match user_begin with
                 | Some b => is_lt (Compare file_start b)
                 | None => false
                 end
              then GetOverlappingInputs_loop fuel' level all all
                     (Some file_start) user_end []
              else if match user_end with
                      | Some e => is_gt (Compare file_limit e)
                      | None => false
                      end
              then GetOverlappingInputs_loop fuel' level all all
                     user_begin (Some file_limit) []
              else GetOverlappingInputs_loop fuel' level all rest'
                     user_begin user_end (inputs ++ [f])
            else GetOverlappingInputs_loop fuel' level all rest'
                   user_begin user_end (inputs ++ [f])
      end
  end.

(** Enough rounds for any level of [n] files: every restart moves a bound
    onto a file end point that it had not reached, so there are at most
    [2 * n] restarts of at most [n] rounds each. *)
Definition GetOverlappingInputs_fuel (n : nat) : nat :=
  ((2 * n + 1) * S n)%nat.

Definition GetOverlappingInputs `{Comparator} (files : list (list FileMetaData))
    (level : nat) (begin_ end_ : option InternalKey)
  : option (list FileMetaData) :=
  let fs := level_files files level in
  GetOverlappingInputs_loop (GetOverlappingInputs_fuel (length fs)) level
    fs fs (user_key <$> begin_) (user_key <$> end_) [].

(** ** Options *)

(** Modelled from the spec: the fields of [DBOptions] that the version set
    reads (options.h is not among the sources).  [kMaxMemCompactLevel], a
    constant of namespace [config], is carried along with them. *)
Record Options := {
  enable_sublevel : bool;
  rotating_manifest : bool;
  enable_should_stop_before : bool;
  level_factor : Z;
  table_file_size : Z;
  l0_compaction_trigger : Z;
  l1_compaction_trigger : Z;
  kMaxMemCompactLevel : nat
}.

Definition MaxGrandParentOverlapBytes (options : Options) : Z :=
  int64 (level_factor options * table_file_size options).

Definition ExpandedCompactionByteSizeLimit (options : Options) : Z :=
  int64 ((2 * (level_factor options + 2) + 1) * table_file_size options).

(** [MaxBytesForLevel]: the product of the two options is converted to
    [double], and every round multiplies by [level_factor], converted to
    [double].  The product itself is an integer product of two fields of
    options.h, which is not among the sources; it is taken without
    wrap-around. *)
Fixpoint MaxBytesForLevel_loop (options : Options) (n : nat) (result : double)
  : double :=
  match n with
  | O => result
  | S n' => MaxBytesForLevel_loop options n'
              (double_mul result (double_of_Z (level_factor options)))
  end.

Definition MaxBytesForLevel (options : Options) (level : nat) : double :=
  MaxBytesForLevel_loop options (level - 1)
    (double_of_Z (l1_compaction_trigger options * table_file_size options)).

Definition MaxCompactionSizeForLevel (options : Options) (level : nat) : Z :=
  int64 (level_factor options * table_file_size options).

Definition MaxFileSizeForLevel (options : Options) (level : nat) : Z :=
  uint64 (table_file_size options).

(** [Version::Version]: an empty version, not yet referenced. *)
Definition Version_new (options : Options) : Version :=
  {| files_ := replicate (if enable_sublevel options then 2%nat
                          else S (kMaxMemCompactLevel options)) [];
     refs_ := 0;
     file_to_compact_ := None;
     file_to_compact_level_ := -1;
     compaction_score_ := double_of_Z (-1);
     compaction_level_ := -1;
     input_pool_ := if enable_sublevel options then [(0, 1); (1, 1)] else [];
     output_pool_ := if enable_sublevel options then [(0, 1); (2, 0)] else [] |}.

(** ** Version edits *)

Module VersionEdit.
(** Modelled from the spec: the fields of [VersionEdit] (version_edit.h).  A
    pair [has_x_], [x_] is an [option]; [deleted_files_] and
    [updated_files_] list the elements of the [std::set] in its order. *)
Record t := {
  comparator_ : option string;
  log_number_ : option Z;
  prev_log_number_ : option Z;
  next_file_number_ : option Z;
  last_sequence_ : option Z;
  compact_pointers_ : list (nat * InternalKey);
  deleted_files_ : list (nat * Z);
  new_files_ : list (nat * FileMetaData);
  updated_files_ : list (nat * Z);
  truncate_key_ : InternalKey;
  max_level_ : Z
}.

Definition SetLogNumber (n : Z) (e : t) : t :=
  {| comparator_ := comparator_ e; log_number_ := Some n;
     prev_log_number_ := prev_log_number_ e;
     next_file_number_ := next_file_number_ e;
     last_sequence_ := last_sequence_ e;
     compact_pointers_ := compact_pointers_ e;
     deleted_files_ := deleted_files_ e; new_files_ := new_files_ e;
     updated_files_ := updated_files_ e; truncate_key_ := truncate_key_ e;
     max_level_ := max_level_ e |}.

Definition SetPrevLogNumber (n : Z) (e : t) : t :=
  {| comparator_ := comparator_ e; log_number_ := log_number_ e;
     prev_log_number_ := Some n;
     next_file_number_ := next_file_number_ e;
     last_sequence_ := last_sequence_ e;
     compact_pointers_ := compact_pointers_ e;
     deleted_files_ := deleted_files_ e; new_files_ := new_files_ e;
     updated_files_ := updated_files_ e; truncate_key_ := truncate_key_ e;
     max_level_ := max_level_ e |}.

Definition SetNextFile (n : Z) (e : t) : t :=
  {| comparator_ := comparator_ e; log_number_ := log_number_ e;
     prev_log_number_ := prev_log_number_ e;
     next_file_number_ := Some n;
     last_sequence_ := last_sequence_ e;
     compact_pointers_ := compact_pointers_ e;
     deleted_files_ := deleted_files_ e; new_files_ := new_files_ e;
     updated_files_ := updated_files_ e; truncate_key_ := truncate_key_ e;
     max_level_ := max_level_ e |}.

Definition SetLastSequence (n : Z) (e : t) : t :=
  {| comparator_ := comparator_ e; log_number_ := log_number_ e;
     prev_log_number_ := prev_log_number_ e;
     next_file_number_ := next_file_number_ e;
     last_sequence_ := Some n;
     compact_pointers_ := compact_pointers_ e;
     deleted_files_ := deleted_files_ e; new_files_ := new_files_ e;
     updated_files_ := updated_files_ e; truncate_key_ := truncate_key_ e;
     max_level_ := max_level_ e |}.
End VersionEdit.

(** ** The builder *)

Definition BySmallestKey `{Comparator} (f1 f2 : FileMetaData) : bool :=
  match icmp_Compare (smallest f1) (smallest f2) with
  | Lt => true
  | Gt => false
  | Eq => number f1 <? number f2
  end.

(** [FileSet] is a [std::set] ordered by [BySmallestKey]: a list kept in that
    order; inserting a file equivalent to one of the set changes nothing. *)
Fixpoint FileSet_insert `{Comparator} (f : FileMetaData)
    (s : list FileMetaData) : list FileMetaData :=
  match s with
  | [] => [f]
  | g :: s' =>
      if BySmallestKey f g then f :: g :: s'
      else if BySmallestKey g f then g :: FileSet_insert f s'
      else g :: s'
  end.

Record LevelState := {
  deleted_files : gset Z;
  added_files : list FileMetaData;
  updated_files : gset Z
}.

Definition LevelState_empty : LevelState :=
  {| deleted_files := ∅; added_files := []; updated_files := ∅ |}.

Definition InternalKey_empty : InternalKey :=
  {| user_key := ""%string; sequence := 0; kind := kTypeDeletion |}.

(** [base_] stands for [base_->files_]: a version's files do not change once
    it is built. *)
Record Builder := {
  base_ : list (list FileMetaData);
  levels_ : list LevelState;
  truncated_key_ : InternalKey
}.

Definition Builder_new (base : list (list FileMetaData)) : Builder :=
  {| base_ := base;
     levels_ := replicate (length base) LevelState_empty;
     truncated_key_ := InternalKey_empty |}.

(** [std::vector::resize] that only grows, as used by [Apply]. *)
Definition grow {A} (n : nat) (x : A) (l : list A) : list A :=
  l ++ replicate (n - length l) x.

Definition insert_deleted (n : Z) (ls : LevelState) : LevelState :=
  {| deleted_files := {[n]} ∪ deleted_files ls;
     added_files := added_files ls; updated_files := updated_files ls |}.

Definition insert_updated (n : Z) (ls : LevelState) : LevelState :=
  {| deleted_files := deleted_files ls; added_files := added_files ls;
     updated_files := {[n]} ∪ updated_files ls |}.

Definition insert_added `{Comparator} (f : FileMetaData) (ls : LevelState)
  : LevelState :=
  {| deleted_files := deleted_files ls ∖ {[number f]};
     added_files := FileSet_insert f (added_files ls);
     updated_files := updated_files ls |}.

(** The seek budget of a new file: an [int] computed from a [uint64_t]. *)
Definition initial_allowed_seeks (size : Z) : Z :=
  let seeks := int32 (size / 16384) in
  if seeks <? 100 then 100 else seeks.

(** [Builder::Apply].  It also updates [vset_->compact_pointer_], passed and
    returned here; an unset pointer (an empty string) is [None]. *)
Definition Apply `{Comparator} (options : Options) (edit : VersionEdit.t)
    (st : Builder * list (option InternalKey))
  : Builder * list (option InternalKey) :=
  let '(b, compact_pointer) := st in
  let max_level := VersionEdit.max_level_ edit in
  let compact_pointer1 :=
    if enable_sublevel options then compact_pointer
    else
      let cp :=
        if Z.of_nat (length compact_pointer) <=? max_level + 1
        then grow (Z.to_nat (max_level + 2)) None compact_pointer
        else compact_pointer in
      fold_left (fun cp '(level, key) => <[level := Some key]> cp)
        (VersionEdit.compact_pointers_ edit) cp in
  let levels1 :=
    if enable_sublevel options then levels_ b
    else if Z.of_nat (length (levels_ b)) <=? max_level + 1
    then grow (Z.to_nat (max_level + 2)) LevelState_empty (levels_ b)
    else levels_ b in
  let levels2 :=
    fold_left (fun ls '(level, n) => alter (insert_deleted n) level ls)
      (VersionEdit.deleted_files_ edit) levels1 in
  let levels3 :=
    fold_left (fun ls '(level, f) =>
                 alter (insert_added
                          (set_allowed_seeks
                             (initial_allowed_seeks (file_size f)) f)) level ls)
      (VersionEdit.new_files_ edit) levels2 in
  let levels4 :=
    fold_left (fun ls '(level, n) => alter (insert_updated n) level ls)
      (VersionEdit.updated_files_ edit) levels3 in
  ({| base_ := base_ b; levels_ := levels4;
      truncated_key_ := VersionEdit.truncate_key_ edit |}, compact_pointer1).

(** [Builder::MaybeAddFile], on the files [files] of [v->files_[level]]. *)
Definition MaybeAddFile (b : Builder) (level : nat)
    (files : list FileMetaData) (f : FileMetaData) : list FileMetaData :=
  let ls := default LevelState_empty (levels_ b !! level) in
  if bool_decide (number f ∈ deleted_files ls) then files
  else if bool_decide (number f ∈ updated_files ls)
  then files ++ [set_smallest (truncated_key_ b) f]
  else files ++ [f].

(** [std::upper_bound(base_iter, base_end, f, cmp)] on a range ordered by
    [cmp]: the files before the first one that [f] precedes, and the rest. *)
Fixpoint upper_bound `{Comparator} (f : FileMetaData)
    (base : list FileMetaData) : list FileMetaData * list FileMetaData :=
  match base with
  | [] => ([], [])
  | g :: base' =>
      if BySmallestKey f g then ([], base)
      else let '(before, rest) := upper_bound f base' in (g :: before, rest)
  end.

(** The merge of [SaveTo] for one level: [added] from [added_iter] on,
    [base] from [base_iter] on, [files] the level built so far. *)
Fixpoint SaveTo_merge `{Comparator} (b : Builder) (level : nat)
    (added base files : list FileMetaData) : list FileMetaData :=
  match added with
  | [] => fold_left (MaybeAddFile b level) base files
  | f :: added' =>
      let '(before, rest) := upper_bound f base in
      SaveTo_merge b level added' rest
        (MaybeAddFile b level (fold_left (MaybeAddFile b level) before files) f)
  end.

Definition SaveTo_level `{Comparator} (b : Builder) (level : nat)
    (files : list FileMetaData) : list FileMetaData :=
  let added := added_files (default LevelState_empty (levels_ b !! level)) in
  if (level <? length (base_ b))%nat
  then SaveTo_merge b level added (level_files (base_ b) level) files
  else fold_left (MaybeAddFile b level) added files.

Definition set_files (files : list (list FileMetaData)) (v : Version) : Version :=
  {| files_ := files; refs_ := refs_ v;
     file_to_compact_ := file_to_compact_ v;
     file_to_compact_level_ := file_to_compact_level_ v;
     compaction_score_ := compaction_score_ v;
     compaction_level_ := compaction_level_ v;
     input_pool_ := input_pool_ v; output_pool_ := output_pool_ v |}.

(** [Builder::SaveTo]. *)
Definition SaveTo `{Comparator} (b : Builder) (v : Version) : Version :=
  let files :=
    if (length (files_ v) <? length (levels_ b))%nat
    then grow (length (levels_ b)) [] (files_ v)
    else files_ v in
  set_files
    (fold_left (fun fs level => alter (SaveTo_level b level) level fs)
       (seq 0 (length (levels_ b))) files) v.

(** The block shared by [LogAndApply] and [ForeighApply]: a builder over
    the current version applies the edit and saves into a new version. *)
Definition BuildVersion `{Comparator} (options : Options)
    (base : list (list FileMetaData)) (compact_pointer : list (option InternalKey))
    (edit : VersionEdit.t) : Version * list (option InternalKey) :=
  let '(b, compact_pointer') :=
    Apply options edit (Builder_new base, compact_pointer) in
  (SaveTo b (Version_new options), compact_pointer').

(** The versions that a sequence of edits produces, one after the other. *)
Fixpoint versions_of_edits `{Comparator} (options : Options) (v : Version)
    (compact_pointer : list (option InternalKey)) (edits : list VersionEdit.t)
  : list Version :=
  match edits with
  | [] => []
  | edit :: edits' =>
      let '(v', compact_pointer') :=
        BuildVersion options (files_ v) compact_pointer edit in
      v' :: versions_of_edits options v' compact_pointer' edits'
  end.

(** ** Status *)

(** Modelled from the spec: [Status] of status.h.  A status made from two
    messages holds them joined by a colon and a space. *)
Inductive Status :=
| OK
| NotFound (msg : string)
| Corruption (msg : string)
| NotSupported (msg : string)
| InvalidArgument (msg : string)
| IOError (msg : string).

Definition ok (s : Status) : bool := match s with OK => true | _ => false end.

(** ** The sublevel routines

    [ReorganizeSublevels] and [SetupSublevelInputs], the two routines of the
    experimental sublevel mode, are kept abstract: the first returns the new
    [files_], [input_pool_] and [output_pool_] of the version, the second the
    [inputs_] of the plan; each returns [None] when it calls [abort()]. *)
Class SublevelMode := {
  ReorganizeSublevels :
    Version -> VersionEdit.t -> Version ->
    option (list (list FileMetaData) * SublevelPool * SublevelPool);
  SetupSublevelInputs :
    Version -> nat -> list (list FileMetaData) -> option (list (list FileMetaData))
}.

(** ** The environment *)

(** The [Env] as far as the version set touches it: the names of the files
    that exist and the records appended to descriptor logs. *)
Record Env := {
  env_files : gset string;
  env_records : list (string * VersionEdit.t)
}.

Definition Env_create (name : string) (env : Env) : Env :=
  {| env_files := {[name]} ∪ env_files env; env_records := env_records env |}.

Definition DeleteFile (name : string) (env : Env) : Env :=
  {| env_files := env_files env ∖ {[name]}; env_records := env_records env |}.

Definition Env_append (name : string) (edit : VersionEdit.t) (env : Env) : Env :=
  {| env_files := env_files env;
     env_records := env_records env ++ [(name, edit)] |}.

Definition FileExists (name : string) (env : Env) : bool :=
  bool_decide (name ∈ env_files env).

(** Modelled from the spec: the file names of dbfiles.h, [MANIFEST-<6-digit>]
    and [CURRENT] inside the database directory. *)
Definition six_digits (n : Z) : string :=
  let d := NilEmpty.string_of_uint (N.to_uint (Z.to_N n)) in
  let d := if String.eqb d "" then "0"%string else d in
  String.append
    (string_of_list_ascii (List.repeat "0"%char (6 - String.length d))) d.

Definition DescriptorFileName (dbname : string) (n : Z) : string :=
  String.append dbname (String.append "/MANIFEST-" (six_digits n)).

Definition CurrentFileName (dbname : string) : string :=
  String.append dbname "/CURRENT".

(** ** The version set *)

Record VersionSet := {
  dbname_ : string;
  options_ : Options;
  next_file_number_ : Z;
  manifest_file_number_ : Z;
  last_sequence_ : Z;
  log_number_ : Z;
  prev_log_number_ : Z;
  descriptor_file_ : option string;
  descriptor_log_ : option string;
  heap_ : gmap nat Version;
  dummy_versions_ : list nat;
  current_ : option nat;
  compact_pointer_ : list (option InternalKey);
  env_ : Env
}.

Definition set_heap (h : gmap nat Version) (ring : list nat) (vs : VersionSet)
  : VersionSet :=
  {| dbname_ := dbname_ vs; options_ := options_ vs;
     next_file_number_ := next_file_number_ vs;
     manifest_file_number_ := manifest_file_number_ vs;
     last_sequence_ := last_sequence_ vs; log_number_ := log_number_ vs;
     prev_log_number_ := prev_log_number_ vs;
     descriptor_file_ := descriptor_file_ vs;
     descriptor_log_ := descriptor_log_ vs;
     heap_ := h; dummy_versions_ := ring; current_ := current_ vs;
     compact_pointer_ := compact_pointer_ vs; env_ := env_ vs |}.

Definition set_current (c : option nat) (vs : VersionSet) : VersionSet :=
  {| dbname_ := dbname_ vs; options_ := options_ vs;
     next_file_number_ := next_file_number_ vs;
     manifest_file_number_ := manifest_file_number_ vs;
     last_sequence_ := last_sequence_ vs; log_number_ := log_number_ vs;
     prev_log_number_ := prev_log_number_ vs;
     descriptor_file_ := descriptor_file_ vs;
     descriptor_log_ := descriptor_log_ vs;
     heap_ := heap_ vs; dummy_versions_ := dummy_versions_ vs; current_ := c;
     compact_pointer_ := compact_pointer_ vs; env_ := env_ vs |}.

Definition set_compact_pointer (cp : list (option InternalKey)) (vs : VersionSet)
  : VersionSet :=
  {| dbname_ := dbname_ vs; options_ := options_ vs;
     next_file_number_ := next_file_number_ vs;
     manifest_file_number_ := manifest_file_number_ vs;
     last_sequence_ := last_sequence_ vs; log_number_ := log_number_ vs;
     prev_log_number_ := prev_log_number_ vs;
     descriptor_file_ := descriptor_file_ vs;
     descriptor_log_ := descriptor_log_ vs;
     heap_ := heap_ vs; dummy_versions_ := dummy_versions_ vs;
     current_ := current_ vs; compact_pointer_ := cp; env_ := env_ vs |}.

Definition set_descriptor (file log : option string) (env : Env) (vs : VersionSet)
  : VersionSet :=
  {| dbname_ := dbname_ vs; options_ := options_ vs;
     next_file_number_ := next_file_number_ vs;
     manifest_file_number_ := manifest_file_number_ vs;
     last_sequence_ := last_sequence_ vs; log_number_ := log_number_ vs;
     prev_log_number_ := prev_log_number_ vs;
     descriptor_file_ := file; descriptor_log_ := log;
     heap_ := heap_ vs; dummy_versions_ := dummy_versions_ vs;
     current_ := current_ vs; compact_pointer_ := compact_pointer_ vs;
     env_ := env |}.

Definition set_counters (next_file manifest_file last_seq log prev_log : Z)
    (vs : VersionSet) : VersionSet :=
  {| dbname_ := dbname_ vs; options_ := options_ vs;
     next_file_number_ := next_file;
     manifest_file_number_ := manifest_file;
     last_sequence_ := last_seq; log_number_ := log;
     prev_log_number_ := prev_log;
     descriptor_file_ := descriptor_file_ vs;
     descriptor_log_ := descriptor_log_ vs;
     heap_ := heap_ vs; dummy_versions_ := dummy_versions_ vs;
     current_ := current_ vs; compact_pointer_ := compact_pointer_ vs;
     env_ := env_ vs |}.

Definition set_refs (n : Z) (v : Version) : Version :=
  {| files_ := files_ v; refs_ := n;
     file_to_compact_ := file_to_compact_ v;
     file_to_compact_level_ := file_to_compact_level_ v;
     compaction_score_ := compaction_score_ v;
     compaction_level_ := compaction_level_ v;
     input_pool_ := input_pool_ v; output_pool_ := output_pool_ v |}.

Definition set_layout (layout : list (list FileMetaData) * SublevelPool * SublevelPool)
    (v : Version) : Version :=
  {| files_ := layout.1.1; refs_ := refs_ v;
     file_to_compact_ := file_to_compact_ v;
     file_to_compact_level_ := file_to_compact_level_ v;
     compaction_score_ := compaction_score_ v;
     compaction_level_ := compaction_level_ v;
     input_pool_ := layout.1.2; output_pool_ := layout.2 |}.

Definition set_compaction (level : Z) (score : double) (v : Version) : Version :=
  {| files_ := files_ v; refs_ := refs_ v;
     file_to_compact_ := file_to_compact_ v;
     file_to_compact_level_ := file_to_compact_level_ v;
     compaction_score_ := score;
     compaction_level_ := level;
     input_pool_ := input_pool_ v; output_pool_ := output_pool_ v |}.

(** [new Version(this)]: the object is placed at an address that holds no
    live version. *)
Definition Version_alloc (v : Version) (vs : VersionSet) : nat * VersionSet :=
  let a := fresh (dom (heap_ vs)) in
  (a, set_heap (<[a := v]> (heap_ vs)) (dummy_versions_ vs) vs).

(** [delete v]: the destructor takes the version out of the ring. *)
Definition Version_delete (a : nat) (vs : VersionSet) : VersionSet :=
  set_heap (delete a (heap_ vs))
    (List.filter (fun x => negb (x =? a)%nat) (dummy_versions_ vs)) vs.

Definition Version_Ref (a : nat) (vs : VersionSet) : VersionSet :=
  set_heap (alter (fun v => set_refs (refs_ v + 1) v) a (heap_ vs))
    (dummy_versions_ vs) vs.

Definition Version_Unref (a : nat) (vs : VersionSet) : VersionSet :=
  let vs' := set_heap (alter (fun v => set_refs (refs_ v - 1) v) a (heap_ vs))
               (dummy_versions_ vs) vs in
  match heap_ vs' !! a with
  | Some v => if refs_ v =? 0 then Version_delete a vs' else vs'
  | None => vs'
  end.

(** [VersionSet::AppendVersion]. *)
Definition AppendVersion (v : nat) (vs : VersionSet) : VersionSet :=
  let vs1 := match current_ vs with
             | Some c => Version_Unref c vs
             | None => vs
             end in
  let vs2 := Version_Ref v (set_current (Some v) vs1) in
  set_heap (heap_ vs2) (dummy_versions_ vs2 ++ [v]) vs2.

(** [VersionSet::VersionSet]. *)
Definition VersionSet_new (dbname : string) (options : Options) (env : Env)
  : VersionSet :=
  let vs :=
    {| dbname_ := dbname; options_ := options;
       next_file_number_ := 2; manifest_file_number_ := 0;
       last_sequence_ := 0; log_number_ := 0; prev_log_number_ := 0;
       descriptor_file_ := None; descriptor_log_ := None;
       heap_ := ∅; dummy_versions_ := []; current_ := None;
       compact_pointer_ :=
         replicate (if enable_sublevel options then 0%nat
                    else S (kMaxMemCompactLevel options)) None;
       env_ := env |} in
  let '(v, vs1) := Version_alloc (Version_new options) vs in
  AppendVersion v vs1.

(** The version that [current_] points to. *)
Definition current_version (vs : VersionSet) : option Version :=
  current_ vs ≫= (fun c => heap_ vs !! c).

Definition MarkFileNumberUsed (n : Z) (vs : VersionSet) : VersionSet :=
  if next_file_number_ vs <=? n
  then set_counters (uint64 (n + 1)) (manifest_file_number_ vs)
         (last_sequence_ vs) (log_number_ vs) (prev_log_number_ vs) vs
  else vs.

(** ** Finalize *)

Definition pool_bytes (files : list (list FileMetaData)) (pool : SublevelPool)
    (level : nat) : Z :=
  let '(first, second) := default (0, 0) (pool !! level) in
  fold_left (fun bytes i =>
               uint64 (bytes + TotalFileSize (level_files files (Z.to_nat first + i))))
    (seq 0 (Z.to_nat second)) 0.

(** The score of a level in [Finalize]: the number of files of level 0 over
    [l0_compaction_trigger], the bytes of another level, a [uint64_t], over
    [MaxBytesForLevel]; the operands are converted to [double] and the
    division is that of [double] (a division by zero gives an infinity or a
    NaN). *)
Definition level_score (options : Options) (v : Version) (level : nat) : double :=
  if (level =? 0)%nat
  then double_div (double_of_Z (Z.of_nat (length (level_files (files_ v) 0))))
         (double_of_Z (l0_compaction_trigger options))
  else if enable_sublevel options
  then double_div
         (double_of_Z (uint64 (pool_bytes (files_ v) (input_pool_ v) level
                               + pool_bytes (files_ v) (output_pool_ v) level)))
         (MaxBytesForLevel options level)
  else double_div
         (double_of_Z (uint64 (TotalFileSize (level_files (files_ v) level))))
         (MaxBytesForLevel options level).

(** [VersionSet::Finalize]: the first level with the greatest score, when
    that score is greater than -1. *)
Definition Finalize (options : Options) (v : Version) : Version :=
  let levels :=
    if enable_sublevel options then (length (input_pool_ v) - 1)%nat
    else (length (files_ v) - 1)%nat in
  let '(best_level, best_score) :=
    fold_left (fun '(best_level, best_score) level =>
                 let score := level_score options v level in
                 if double_gt score best_score then (Z.of_nat level, score)
                 else (best_level, best_score))
      (seq 0 levels) (-1, double_of_Z (-1)) in
  set_compaction best_level best_score v.

(** ** Compactions *)

(** Modelled from the spec: an empty [VersionEdit] and [SetCompactPointer]
    (version_edit.h), which records the pointer and raises [max_level_]. *)
Definition VersionEdit_empty : VersionEdit.t :=
  {| VersionEdit.comparator_ := None; VersionEdit.log_number_ := None;
     VersionEdit.prev_log_number_ := None;
     VersionEdit.next_file_number_ := None;
     VersionEdit.last_sequence_ := None;
     VersionEdit.compact_pointers_ := []; VersionEdit.deleted_files_ := [];
     VersionEdit.new_files_ := []; VersionEdit.updated_files_ := [];
     VersionEdit.truncate_key_ := InternalKey_empty;
     VersionEdit.max_level_ := -1 |}.

Definition SetCompactPointer (level : nat) (key : InternalKey)
    (e : VersionEdit.t) : VersionEdit.t :=
  {| VersionEdit.comparator_ := VersionEdit.comparator_ e;
     VersionEdit.log_number_ := VersionEdit.log_number_ e;
     VersionEdit.prev_log_number_ := VersionEdit.prev_log_number_ e;
     VersionEdit.next_file_number_ := VersionEdit.next_file_number_ e;
     VersionEdit.last_sequence_ := VersionEdit.last_sequence_ e;
     VersionEdit.compact_pointers_ :=
       VersionEdit.compact_pointers_ e ++ [(level, key)];
     VersionEdit.deleted_files_ := VersionEdit.deleted_files_ e;
     VersionEdit.new_files_ := VersionEdit.new_files_ e;
     VersionEdit.updated_files_ := VersionEdit.updated_files_ e;
     VersionEdit.truncate_key_ := VersionEdit.truncate_key_ e;
     VersionEdit.max_level_ := Z.max (VersionEdit.max_level_ e) (Z.of_nat level) |}.

Module Compaction.
Record t := {
  options_ : Options;
  level_ : nat;
  base_input_sublevel_ : Z;
  output_sublevel_ : Z;
  max_output_file_size_ : Z;
  max_grand_parent_overlap_bytes_ : Z;
  max_compaction_size_ : Z;
  input_version_ : option nat;
  edit_ : VersionEdit.t;
  inputs_ : list (list FileMetaData);
  grandparents_ : list FileMetaData;
  grandparent_index_ : Z;
  seen_key_ : bool;
  overlapped_bytes_ : Z;
  level_ptrs_ : list Z
}.

Definition set_inputs (inputs : list (list FileMetaData)) (c : t) : t :=
  {| options_ := options_ c; level_ := level_ c;
     base_input_sublevel_ := base_input_sublevel_ c;
     output_sublevel_ := output_sublevel_ c;
     max_output_file_size_ := max_output_file_size_ c;
     max_grand_parent_overlap_bytes_ := max_grand_parent_overlap_bytes_ c;
     max_compaction_size_ := max_compaction_size_ c;
     input_version_ := input_version_ c; edit_ := edit_ c;
     inputs_ := inputs; grandparents_ := grandparents_ c;
     grandparent_index_ := grandparent_index_ c; seen_key_ := seen_key_ c;
     overlapped_bytes_ := overlapped_bytes_ c; level_ptrs_ := level_ptrs_ c |}.

Definition set_grandparents (gp : list FileMetaData) (e : VersionEdit.t) (c : t) : t :=
  {| options_ := options_ c; level_ := level_ c;
     base_input_sublevel_ := base_input_sublevel_ c;
     output_sublevel_ := output_sublevel_ c;
     max_output_file_size_ := max_output_file_size_ c;
     max_grand_parent_overlap_bytes_ := max_grand_parent_overlap_bytes_ c;
     max_compaction_size_ := max_compaction_size_ c;
     input_version_ := input_version_ c; edit_ := e;
     inputs_ := inputs_ c; grandparents_ := gp;
     grandparent_index_ := grandparent_index_ c; seen_key_ := seen_key_ c;
     overlapped_bytes_ := overlapped_bytes_ c; level_ptrs_ := level_ptrs_ c |}.

(** Modelled from the spec: [num_input_files] of version_set.h, the number
    of files of one input vector, as an [int]. *)
Definition num_input_files (c : t) (which : nat) : Z :=
  int32 (Z.of_nat (length (level_files (inputs_ c) which))).

(** The loop of [TotalNumInputFiles] over one input vector when
    [need_truncate] holds. *)
Fixpoint count_before `{Comparator} (truncate_key : InternalKey)
    (files : list FileMetaData) (count : Z) : Z :=
  match files with
  | [] => count
  | f :: files' =>
      if is_lt (icmp_Compare (smallest f) truncate_key)
      then count_before truncate_key files' (int32 (count + 1))
      else count
  end.

Definition TotalNumInputFiles `{Comparator} (c : t) (need_truncate : bool)
    (truncate_key : option InternalKey) : Z :=
  fold_left (fun count files =>
               if need_truncate
               then count_before (default InternalKey_empty truncate_key) files count
               else int32 (count + Z.of_nat (length files)))
    (inputs_ c) 0.

(** [Compaction::IsTrivialMove]. *)
Definition IsTrivialMove `{Comparator} (c : t) : bool :=
  if negb (enable_sublevel (options_ c))
  then (num_input_files c 0 =? 1) && (num_input_files c 1 =? 0) &&
       (negb (enable_should_stop_before (options_ c)) ||
        (TotalFileSize (grandparents_ c) <=? max_grand_parent_overlap_bytes_ c))
  else TotalNumInputFiles c false None =? 1.
End Compaction.

(** [Compaction::Compaction]: the plan refers to the current version and
    takes a reference to it. *)
Definition Compaction_new (options : Options) (level : nat) (vs : VersionSet)
  : Compaction.t * VersionSet :=
  let cur := default (Version_new options) (current_version vs) in
  let sub := enable_sublevel options in
  ({| Compaction.options_ := options;
      Compaction.level_ := level;
      Compaction.base_input_sublevel_ :=
        if sub then (default (0, 0) (output_pool_ cur !! level)).1 else -1;
      Compaction.output_sublevel_ :=
        if sub then (default (0, 0) (input_pool_ cur !! S level)).1 else -1;
      Compaction.max_output_file_size_ := MaxFileSizeForLevel options level;
      Compaction.max_grand_parent_overlap_bytes_ :=
        MaxGrandParentOverlapBytes options;
      Compaction.max_compaction_size_ :=
        if sub then MaxCompactionSizeForLevel options level else -1;
      Compaction.input_version_ := current_ vs;
      Compaction.edit_ := VersionEdit_empty;
      Compaction.inputs_ :=
        replicate (if sub
                   then Z.to_nat (default (0, 0) (output_pool_ cur !! level)).2
                   else 2%nat) [];
      Compaction.grandparents_ := [];
      Compaction.grandparent_index_ := 0;
      Compaction.seen_key_ := false;
      Compaction.overlapped_bytes_ := 0;
      Compaction.level_ptrs_ :=
        replicate (if sub then 0%nat else length (files_ cur)) 0 |},
   match current_ vs with
   | Some c => Version_Ref c vs
   | None => vs
   end).

(** [VersionSet::GetRange]; on an empty vector both keys stay cleared. *)
Definition GetRange `{Comparator} (inputs : list FileMetaData)
  : InternalKey * InternalKey :=
  match inputs with
  | [] => (InternalKey_empty, InternalKey_empty)
  | f :: inputs' =>
      fold_left (fun '(s, l) f =>
                   (if is_lt (icmp_Compare (smallest f) s) then smallest f else s,
                    if is_gt (icmp_Compare (largest f) l) then largest f else l))
        inputs' (smallest f, largest f)
  end.

Definition GetRange2 `{Comparator} (inputs1 inputs2 : list FileMetaData)
  : InternalKey * InternalKey := GetRange (inputs1 ++ inputs2).

(** [VersionSet::SetupOtherInputs], on the files [files] of the current
    version.  The result is [None] when a sweep of [GetOverlappingInputs]
    does not end. *)
Definition SetupOtherInputs `{Comparator} (c : Compaction.t) (vs : VersionSet)
  : option (Compaction.t * VersionSet) :=
  let options := options_ vs in
  let files := files_ (default (Version_new options) (current_version vs)) in
  let level := Compaction.level_ c in
  let inputs0 := level_files (Compaction.inputs_ c) 0 in
  let '(smallest0, largest0) := GetRange inputs0 in
  inputs1 ← GetOverlappingInputs files (S level) (Some smallest0) (Some largest0);
  let '(all_start, all_limit) := GetRange2 inputs0 inputs1 in
  '(inputs0', inputs1', largest', all_start', all_limit') ←
    (if negb (bool_decide (inputs1 = []))
     then
       expanded0 ← GetOverlappingInputs files level (Some all_start) (Some all_limit);
       let inputs1_size := TotalFileSize inputs1 in
       let expanded0_size := TotalFileSize expanded0 in
       if (length inputs0 <? length expanded0)%nat &&
          (int64 (inputs1_size + expanded0_size)
           <? ExpandedCompactionByteSizeLimit options)
       then
         let '(new_start, new_limit) := GetRange expanded0 in
         expanded1 ← GetOverlappingInputs files (S level)
                       (Some new_start) (Some new_limit);
         if (length expanded1 =? length inputs1)%nat
         then
           let '(all_start2, all_limit2) := GetRange2 expanded0 expanded1 in
           Some (expanded0, expanded1, new_limit, all_start2, all_limit2)
         else Some (inputs0, inputs1, largest0, all_start, all_limit)
       else Some (inputs0, inputs1, largest0, all_start, all_limit)
     else Some (inputs0, inputs1, largest0, all_start, all_limit));
  grandparents ←
    (if (level + 2 <? length files)%nat
     then GetOverlappingInputs files (level + 2) (Some all_start') (Some all_limit')
     else Some (Compaction.grandparents_ c));
  Some (Compaction.set_grandparents grandparents
          (SetCompactPointer level largest' (Compaction.edit_ c))
          (Compaction.set_inputs
             (<[1%nat := inputs1']> (<[0%nat := inputs0']> (Compaction.inputs_ c))) c),
        set_compact_pointer (<[level := Some largest']> (compact_pointer_ vs)) vs).

(** The first file after the compact pointer, if any; an unset pointer (an
    empty string) is before every file. *)
Fixpoint first_after `{Comparator} (pointer : option InternalKey)
    (files : list FileMetaData) : option FileMetaData :=
  match files with
  | [] => None
  | f :: files' =>
      if match pointer with
         | None => true
         | Some p => is_gt (icmp_Compare (largest f) p)
         end
      then Some f
      else first_after pointer files'
  end.

(** How [PickCompaction] was triggered. *)
Inductive Trigger := SizeTriggered | SeekTriggered.

(** The first half of [VersionSet::PickCompaction]: the trigger, the level
    and the plan with its seed in [inputs_[0]].  The outer [None] is a run
    that leaves defined behaviour (no current version, a negative level, an
    index outside a vector) or aborts; [Some None] is the result [NULL]. *)
Definition PickCompaction_seed `{Comparator} `{SublevelMode}
    (allow_seek_compaction : bool) (vs : VersionSet)
  : option (option (Trigger * Compaction.t * VersionSet)) :=
  cur ← current_version vs;
  let options := options_ vs in
  let size_compaction := double_ge (compaction_score_ cur) (double_of_Z 1) in
  let seek_compaction := bool_decide (file_to_compact_ cur <> None) in
  if size_compaction then
    if compaction_level_ cur <? 0 then None
    else
      let level := Z.to_nat (compaction_level_ cur) in
      let '(c, vs1) := Compaction_new options level vs in
      if enable_sublevel options then
        inputs ← SetupSublevelInputs cur level (Compaction.inputs_ c);
        Some (Some (SizeTriggered, Compaction.set_inputs inputs c, vs1))
      else
        files ← files_ cur !! level;
        pointer ← compact_pointer_ vs !! level;
        seed ← match first_after pointer files with
                | Some f => Some f
                | None => files !! 0%nat
                end;
        Some (Some (SizeTriggered,
                    Compaction.set_inputs
                      (alter (fun inputs => inputs ++ [seed]) 0%nat
                         (Compaction.inputs_ c)) c,
                    vs1))
  else if allow_seek_compaction && seek_compaction then
    f ← file_to_compact_ cur;
    if file_to_compact_level_ cur <? 0 then None
    else
      let level := Z.to_nat (file_to_compact_level_ cur) in
      let '(c, vs1) := Compaction_new options level vs in
      Some (Some (SeekTriggered,
                  Compaction.set_inputs
                    (alter (fun inputs => inputs ++ [f]) 0%nat (Compaction.inputs_ c)) c,
                  vs1))
  else Some None.

(** [VersionSet::PickCompaction]. *)
Definition PickCompaction `{Comparator} `{SublevelMode}
    (allow_seek_compaction : bool) (vs : VersionSet)
  : option (option (Compaction.t * VersionSet)) :=
  seed ← PickCompaction_seed allow_seek_compaction vs;
  match seed with
  | None => Some None
  | Some (_, c, vs1) =>
      if negb (enable_sublevel (options_ vs)) then
        cur ← current_version vs1;
        c1 ← (if (Compaction.level_ c =? 0)%nat
              then
                let '(smallest0, largest0) :=
                  GetRange (level_files (Compaction.inputs_ c) 0) in
                inputs0 ← GetOverlappingInputs (files_ cur) 0
                            (Some smallest0) (Some largest0);
                Some (Compaction.set_inputs
                        (<[0%nat := inputs0]> (Compaction.inputs_ c)) c)
              else Some c);
        Some <$> SetupOtherInputs c1 vs1
      else Some (Some (c, vs1))
  end.

(** The loop of [CompactRange] that cuts the inputs once their total size
    reaches [limit]; [total] is a [uint64_t]. *)
Fixpoint CompactRange_truncate (limit total : Z) (inputs : list FileMetaData)
  : list FileMetaData :=
  match inputs with
  | [] => []
  | f :: inputs' =>
      let total' := uint64 (total + file_size f) in
      if limit <=? total' then [f]
      else f :: CompactRange_truncate limit total' inputs'
  end.

(** The inputs that [CompactRange] seeds the plan with. *)
Definition CompactRange_inputs `{Comparator} (level : nat)
    (begin_ end_ : option InternalKey) (vs : VersionSet)
  : option (list FileMetaData) :=
  cur ← current_version vs;
  inputs ← GetOverlappingInputs (files_ cur) level begin_ end_;
  Some (if (0 <? level)%nat
        then CompactRange_truncate (MaxFileSizeForLevel (options_ vs) level) 0 inputs
        else inputs).

(** [VersionSet::CompactRange]; the outer [None] is as for
    [PickCompaction_seed]. *)
Definition CompactRange `{Comparator} (level : nat)
    (begin_ end_ : option InternalKey) (vs : VersionSet)
  : option (option (Compaction.t * VersionSet)) :=
  if enable_sublevel (options_ vs) then Some None
  else
    inputs ← CompactRange_inputs level begin_ end_ vs;
    if bool_decide (inputs = []) then Some None
    else
      let '(c, vs1) := Compaction_new (options_ vs) level vs in
      Some <$> SetupOtherInputs
                 (Compaction.set_inputs (<[0%nat := inputs]> (Compaction.inputs_ c)) c)
                 vs1.

(** ** Writing the MANIFEST *)

(** What the environment answers to the calls of [LogAndApply], in the
    order of the calls. *)
Record ManifestIO := {
  io_NewWritableFile : Status;
  io_WriteSnapshot : Status;
  io_AddRecord : Status;
  io_Sync : Status;
  io_SetCurrentFile : Status
}.

(** Modelled from the spec: [VersionEdit::AddFile] (version_edit.h), which
    appends a descriptor with a default seek budget and raises
    [max_level_]. *)
Definition AddFile (level : nat) (f : FileMetaData) (e : VersionEdit.t)
  : VersionEdit.t :=
  {| VersionEdit.comparator_ := VersionEdit.comparator_ e;
     VersionEdit.log_number_ := VersionEdit.log_number_ e;
     VersionEdit.prev_log_number_ := VersionEdit.prev_log_number_ e;
     VersionEdit.next_file_number_ := VersionEdit.next_file_number_ e;
     VersionEdit.last_sequence_ := VersionEdit.last_sequence_ e;
     VersionEdit.compact_pointers_ := VersionEdit.compact_pointers_ e;
     VersionEdit.deleted_files_ := VersionEdit.deleted_files_ e;
     VersionEdit.new_files_ :=
       VersionEdit.new_files_ e ++ [(level, set_allowed_seeks (2 ^ 30) f)];
     VersionEdit.updated_files_ := VersionEdit.updated_files_ e;
     VersionEdit.truncate_key_ := VersionEdit.truncate_key_ e;
     VersionEdit.max_level_ := Z.max (VersionEdit.max_level_ e) (Z.of_nat level) |}.

Definition SetComparatorName (name : string) (e : VersionEdit.t) : VersionEdit.t :=
  {| VersionEdit.comparator_ := Some name;
     VersionEdit.log_number_ := VersionEdit.log_number_ e;
     VersionEdit.prev_log_number_ := VersionEdit.prev_log_number_ e;
     VersionEdit.next_file_number_ := VersionEdit.next_file_number_ e;
     VersionEdit.last_sequence_ := VersionEdit.last_sequence_ e;
     VersionEdit.compact_pointers_ := VersionEdit.compact_pointers_ e;
     VersionEdit.deleted_files_ := VersionEdit.deleted_files_ e;
     VersionEdit.new_files_ := VersionEdit.new_files_ e;
     VersionEdit.updated_files_ := VersionEdit.updated_files_ e;
     VersionEdit.truncate_key_ := VersionEdit.truncate_key_ e;
     VersionEdit.max_level_ := VersionEdit.max_level_ e |}.

(** The edit that [WriteSnapshot] writes: the comparator, the compact
    pointers that are set and every file of the current version. *)
Definition SnapshotEdit `{Comparator} (vs : VersionSet) : VersionEdit.t :=
  let cur := default (Version_new (options_ vs)) (current_version vs) in
  let e1 := SetComparatorName Name VersionEdit_empty in
  let e2 :=
    fold_left (fun e '(level, pointer) =>
                 match pointer with
                 | Some key => SetCompactPointer level key e
                 | None => e
                 end)
      (imap (fun level pointer => (level, pointer)) (compact_pointer_ vs)) e1 in
  fold_left (fun e '(level, files) =>
               fold_left (fun e f => AddFile level f e) files e)
    (imap (fun level files => (level, files)) (files_ cur)) e2.

(** The block shared by [LogAndApply] and [ForeighApply]: a new version is
    allocated, a builder over the current version (which it references while
    it lives) applies the edit and saves into the new version, and in sublevel
    mode the sublevels are reorganized; [LogAndApply] then finalizes the new
    version.  The result is the address of the new version; it is [None]
    when there is no current version or [ReorganizeSublevels] aborts. *)
Definition NewVersionFromEdit `{Comparator} `{SublevelMode} (finalize : bool)
    (edit : VersionEdit.t) (vs : VersionSet) : option (nat * VersionSet) :=
  let options := options_ vs in
  let '(v, vs) := Version_alloc (Version_new options) vs in
  cur ← current_ vs;
  base ← heap_ vs !! cur;
  let vs := Version_Ref cur vs in
  let '(b, compact_pointer) :=
    Apply options edit (Builder_new (files_ base), compact_pointer_ vs) in
  let vs := set_compact_pointer compact_pointer vs in
  let saved := SaveTo b (Version_new options) in
  saved ← (if enable_sublevel options
           then (fun layout => set_layout layout saved)
                  <$> ReorganizeSublevels base edit saved
           else Some saved);
  let vs := Version_Unref cur vs in
  let saved := if finalize then Finalize options saved else saved in
  Some (v, set_heap (<[v := saved]> (heap_ vs)) (dummy_versions_ vs) vs).

(** The defaults that [LogAndApply] fills into the edit. *)
Definition LogAndApply_fill (edit : VersionEdit.t) (vs : VersionSet)
  : VersionEdit.t :=
  let edit :=
    match VersionEdit.log_number_ edit with
    | Some _ => edit
    | None => VersionEdit.SetLogNumber (log_number_ vs) edit
    end in
  let edit :=
    match VersionEdit.prev_log_number_ edit with
    | Some _ => edit
    | None => VersionEdit.SetPrevLogNumber (prev_log_number_ vs) edit
    end in
  VersionEdit.SetLastSequence (last_sequence_ vs)
    (VersionEdit.SetNextFile (next_file_number_ vs) edit).

(** The part of [LogAndApply] that writes: a new descriptor file with its
    snapshot when no descriptor log is open, then the record of the edit and
    the sync, then the installation of a new descriptor file.  The result is
    the status, the edit, [new_manifest_file] and the new state. *)
Definition LogAndApply_write `{Comparator} (edit : VersionEdit.t)
    (io : ManifestIO) (vs : VersionSet)
  : Status * VersionEdit.t * string * VersionSet :=
  let options := options_ vs in
  let new_manifest_file :=
    match descriptor_log_ vs with
    | None => DescriptorFileName (dbname_ vs) (manifest_file_number_ vs)
    | Some _ => ""%string
    end in
  let '(s, edit, vs) :=
    match descriptor_log_ vs with
    | None =>
        let edit := VersionEdit.SetNextFile (next_file_number_ vs) edit in
        let s := io_NewWritableFile io in
        if ok s then
          let vs := set_descriptor (Some new_manifest_file) (Some new_manifest_file)
                      (Env_create new_manifest_file (env_ vs)) vs in
          let s := io_WriteSnapshot io in
          (s, edit,
           if ok s
           then set_descriptor (descriptor_file_ vs) (descriptor_log_ vs)
                  (Env_append new_manifest_file (SnapshotEdit vs) (env_ vs)) vs
           else vs)
        else (s, edit, vs)
    | Some _ => (OK, edit, vs)
    end in
  let '(s, vs) :=
    if ok s then
      let s := io_AddRecord io in
      if ok s then
        (io_Sync io,
         set_descriptor (descriptor_file_ vs) (descriptor_log_ vs)
           (Env_append (default ""%string (descriptor_log_ vs)) edit (env_ vs)) vs)
      else (s, vs)
    else (s, vs) in
  let '(s, vs) :=
    if ok s && negb (String.eqb new_manifest_file "") then
      if negb (rotating_manifest options) then
        let s := io_SetCurrentFile io in
        (s, if ok s
            then set_descriptor (descriptor_file_ vs) (descriptor_log_ vs)
                   (Env_create (CurrentFileName (dbname_ vs)) (env_ vs)) vs
            else vs)
      else
        (s, set_descriptor (descriptor_file_ vs) (descriptor_log_ vs)
              (DeleteFile (CurrentFileName (dbname_ vs))
                 (DeleteFile
                    (DescriptorFileName (dbname_ vs) (3 - manifest_file_number_ vs))
                    (env_ vs))) vs)
    else (s, vs) in
  (s, edit, new_manifest_file, vs).

(** [VersionSet::LogAndApply].  The result is the status, the edit as the
    call leaves it and the new state. *)
Definition LogAndApply `{Comparator} `{SublevelMode} (edit : VersionEdit.t)
    (io : ManifestIO) (vs : VersionSet)
  : option (Status * VersionEdit.t * VersionSet) :=
  let edit := LogAndApply_fill edit vs in
  '(v, vs) ← NewVersionFromEdit true edit vs;
  let '(s, edit, new_manifest_file, vs) := LogAndApply_write edit io vs in
  if ok s then
    let vs := AppendVersion v vs in
    Some (s, edit,
          set_counters (next_file_number_ vs) (manifest_file_number_ vs)
            (last_sequence_ vs)
            (default 0 (VersionEdit.log_number_ edit))
            (default 0 (VersionEdit.prev_log_number_ edit)) vs)
  else
    let vs := Version_delete v vs in
    Some (s, edit,
          if negb (String.eqb new_manifest_file "")
          then set_descriptor None None (DeleteFile new_manifest_file (env_ vs)) vs
          else vs).

(** [VersionSet::ForeighApply]. *)
Definition ForeighApply `{Comparator} `{SublevelMode} (edit : VersionEdit.t)
    (vs : VersionSet) : option (Status * VersionSet) :=
  if match VersionEdit.comparator_ edit with
     | Some name => negb (String.eqb name Name)
     | None => false
     end
  then Some (InvalidArgument
               (String.append (default ""%string (VersionEdit.comparator_ edit))
                  (String.append " does not match existing comparator : " Name)),
             vs)
  else
    let next_file_number :=
      default (next_file_number_ vs) (VersionEdit.next_file_number_ edit) in
    let last_sequence :=
      default (last_sequence_ vs) (VersionEdit.last_sequence_ edit) in
    let log_number := default (log_number_ vs) (VersionEdit.log_number_ edit) in
    let prev_log_number :=
      default (prev_log_number_ vs) (VersionEdit.prev_log_number_ edit) in
    '(v, vs) ← NewVersionFromEdit false edit vs;
    let vs := AppendVersion v vs in
    Some (OK, set_counters next_file_number (manifest_file_number_ vs)
                last_sequence log_number prev_log_number vs).

(** ** Recovery *)

(** What the log reader yields from a descriptor file: a record with the
    status of [DecodeFrom] and the edit as decoded so far, or a corruption
    that the reader reports. *)
Inductive ReadItem :=
| ReadRecord (decoded : Status) (edit : VersionEdit.t)
| ReadCorruption (reported : Status).

(** What the environment answers to the calls of [Recover]. *)
Record RecoverIO := {
  io_ReadCurrent : Status * string;
  io_NewSequentialFile : string -> Status;
  io_Records : string -> list ReadItem
}.

(** The state of the loop that reads one descriptor; a pair [have_x], [x] is
    an [option]. *)
Record ReadState := {
  rs_status : Status;
  rs_builder : Builder;
  rs_compact_pointer : list (option InternalKey);
  rs_log_number : option Z;
  rs_prev_log_number : option Z;
  rs_next_file : option Z;
  rs_last_sequence : option Z
}.

Definition latest (new old : option Z) : option Z :=
  match new with Some _ => new | None => old end.

(** One item of the reading loop of [Recover]; once the status is an error
    the loop is left. *)
Definition Recover_read `{Comparator} (options : Options) (st : ReadState)
    (item : ReadItem) : ReadState :=
  if negb (ok (rs_status st)) then st
  else
    match item with
    | ReadCorruption reported =>
        {| rs_status := reported; rs_builder := rs_builder st;
           rs_compact_pointer := rs_compact_pointer st;
           rs_log_number := rs_log_number st;
           rs_prev_log_number := rs_prev_log_number st;
           rs_next_file := rs_next_file st;
           rs_last_sequence := rs_last_sequence st |}
    | ReadRecord decoded edit =>
        let s :=
          if ok decoded then
            match VersionEdit.comparator_ edit with
            | Some name =>
                if negb (String.eqb name Name)
                then InvalidArgument
                       (String.append name
                          (String.append " does not match existing comparator : " Name))
                else decoded
            | None => decoded
            end
          else decoded in
        let '(b, compact_pointer) :=
          if ok s
          then Apply options edit (rs_builder st, rs_compact_pointer st)
          else (rs_builder st, rs_compact_pointer st) in
        {| rs_status := s; rs_builder := b;
           rs_compact_pointer := compact_pointer;
           rs_log_number := latest (VersionEdit.log_number_ edit) (rs_log_number st);
           rs_prev_log_number :=
             latest (VersionEdit.prev_log_number_ edit) (rs_prev_log_number st);
           rs_next_file :=
             latest (VersionEdit.next_file_number_ edit) (rs_next_file st);
           rs_last_sequence :=
             latest (VersionEdit.last_sequence_ edit) (rs_last_sequence st) |}
    end.

(** The check of the counters that follows the reading loop. *)
Definition Recover_check (st : ReadState) : Status :=
  if ok (rs_status st) then
    match rs_next_file st, rs_log_number st, rs_last_sequence st with
    | None, _, _ => Corruption "no next_file entry in descriptor"
    | _, None, _ => Corruption "no log_number entry in descriptor"
    | _, _, None => Corruption "no last_seq_number entry in descriptor"
    | _, _, _ => rs_status st
    end
  else rs_status st.

(** The outcome of one candidate: its status and, when the status is [OK],
    the builder kept in [candidates[i]] with the four counters. *)
Record Candidate := {
  cand_status : Status;
  cand_builder : Builder;
  cand_next_file : Z;
  cand_last_seq : Z;
  cand_log_number : Z;
  cand_prev_log_number : Z
}.

(** One descriptor that could be opened: read it, fold its edits into a
    builder over [current] and check the counters. *)
Definition Recover_candidate `{Comparator} (items : list ReadItem)
    (base : list (list FileMetaData)) (vs : VersionSet) : Candidate * VersionSet :=
  let st :=
    fold_left (Recover_read (options_ vs)) items
      {| rs_status := OK; rs_builder := Builder_new base;
         rs_compact_pointer := compact_pointer_ vs;
         rs_log_number := None; rs_prev_log_number := None;
         rs_next_file := None; rs_last_sequence := None |} in
  let vs := set_compact_pointer (rs_compact_pointer st) vs in
  let prev_log_number := default 0 (rs_prev_log_number st) in
  let log_number := default 0 (rs_log_number st) in
  ({| cand_status := Recover_check st; cand_builder := rs_builder st;
      cand_next_file := default 0 (rs_next_file st);
      cand_last_seq := default 0 (rs_last_sequence st);
      cand_log_number := log_number;
      cand_prev_log_number := prev_log_number |},
   if ok (rs_status st)
   then MarkFileNumberUsed log_number (MarkFileNumberUsed prev_log_number vs)
   else vs).

(** The name that CURRENT holds, when it ends with a newline. *)
Fixpoint strip_newline (s : string) : option string :=
  match s with
  | EmptyString => None
  | String c EmptyString => if Ascii.eqb c "010"%char then Some EmptyString else None
  | String c s' => String c <$> strip_newline s'
  end.

(** The selection kept across the candidates of [Recover]. *)
Record Selection := {
  selected : option (nat * Builder);
  final_next_file : Z;
  final_last_seq : Z;
  final_log_number : Z;
  final_prev_log_number : Z
}.

(** The body of the loop of [Recover] for the candidate [i] named [name];
    [cur] is the version that was current when [Recover] started, [kept]
    counts the builders kept in [candidates]. *)
Definition Recover_step `{Comparator} (io : RecoverIO) (cur : nat)
    (base : list (list FileMetaData))
    (acc : VersionSet * Status * Selection * nat) (candidate : nat * string)
  : VersionSet * Status * Selection * nat :=
  let '(vs, status, sel, kept) := acc in
  let '(i, name) := candidate in
  if String.eqb name "" then acc
  else
    let s := io_NewSequentialFile io name in
    if ok s then
      let vs := Version_Ref cur vs in
      let '(cand, vs) := Recover_candidate (io_Records io name) base vs in
      let s := cand_status cand in
      if ok s then
        let sel :=
          if (final_last_seq sel <=? cand_last_seq cand) &&
             (final_next_file sel <=? cand_next_file cand) &&
             (final_log_number sel <=? cand_log_number cand) &&
             (final_prev_log_number sel <=? cand_prev_log_number cand)
          then {| selected := Some (i, cand_builder cand);
                  final_next_file := cand_next_file cand;
                  final_last_seq := cand_last_seq cand;
                  final_log_number := cand_log_number cand;
                  final_prev_log_number := cand_prev_log_number cand |}
          else sel in
        (vs, status, sel, S kept)
      else
        (Version_Unref cur vs, if ok status then s else status, sel, kept)
    else (vs, if ok status then s else status, sel, kept).

(** [VersionSet::Recover]. *)
Definition Recover `{Comparator} (io : RecoverIO) (vs : VersionSet)
  : option (Status * VersionSet) :=
  let dbname := dbname_ vs in
  let options := options_ vs in
  let name0 := if FileExists (DescriptorFileName dbname 1) (env_ vs)
               then DescriptorFileName dbname 1 else ""%string in
  let name1 := if FileExists (DescriptorFileName dbname 2) (env_ vs)
               then DescriptorFileName dbname 2 else ""%string in
  let '(name2, status) :=
    if FileExists (CurrentFileName dbname) (env_ vs) then
      let '(s, current) := io_ReadCurrent io in
      let '(s, name2) :=
        if ok s && negb (String.eqb current "") then
          match strip_newline current with
          | None => (Corruption "CURRENT file does not end with newline", ""%string)
          | Some current =>
              let name2 := String.append dbname (String.append "/" current) in
              (s, if String.eqb name2 name0 || String.eqb name2 name1
                  then ""%string else name2)
          end
        else (s, ""%string) in
      (name2, if ok s then OK else s)
    else (""%string, OK) in
  cur ← current_ vs;
  base ← heap_ vs !! cur;
  let vs := Version_Ref cur vs in
  let '(vs, status, sel, kept) :=
    fold_left (Recover_step io cur (files_ base))
      [(0%nat, name0); (1%nat, name1); (2%nat, name2)]
      (vs, status,
       {| selected := None; final_next_file := 0; final_last_seq := 0;
          final_log_number := 0; final_prev_log_number := 0 |}, 0%nat) in
  let '(status, vs) :=
    if ok status then
      match selected sel with
      | None =>
          (Corruption (String.append dbname ": no valid manifest available"), vs)
      | Some (i, b) =>
          let '(v, vs) := Version_alloc (Version_new options) vs in
          let vs := set_heap
                      (<[v := Finalize options (SaveTo b (Version_new options))]>
                         (heap_ vs)) (dummy_versions_ vs) vs in
          let vs := AppendVersion v vs in
          (status,
           if negb (rotating_manifest options)
           then set_counters (uint64 (final_next_file sel + 1)) (final_next_file sel)
                  (final_last_seq sel) (final_log_number sel)
                  (final_prev_log_number sel) vs
           else set_counters (final_next_file sel)
                  (if (i =? 0)%nat then 2 else 1)
                  (final_last_seq sel) (final_log_number sel)
                  (final_prev_log_number sel) vs)
      end
    else (status, vs) in
  Some (status, Nat.iter (S kept) (Version_Unref cur) vs).

(** ** Overlap queries on a level *)

(** [AfterFile] and [BeforeFile]; a [NULL] user key is [None]. *)
Definition AfterFile `{Comparator} (key : option string) (f : FileMetaData) : bool :=
  match key with
  | Some k => is_gt (Compare k (user_key (largest f)))
  | None => false
  end.

Definition BeforeFile `{Comparator} (key : option string) (f : FileMetaData) : bool :=
  match key with
  | Some k => is_lt (Compare k (user_key (smallest f)))
  | None => false
  end.

(** The loop of [SomeFileOverlapsRange] over files that may overlap each
    other. *)
Fixpoint SomeFileOverlapsRange_scan `{Comparator} (files : list FileMetaData)
    (smallest_user_key largest_user_key : option string) : bool :=
  match files with
  | [] => false
  | f :: files' =>
      if AfterFile smallest_user_key f || BeforeFile largest_user_key f
      then SomeFileOverlapsRange_scan files' smallest_user_key largest_user_key
      else true
  end.

(** [SomeFileOverlapsRange]; [index] is a [uint32_t] set from the [int] that
    [FindFile] returns.  The result is [None] when [FindFile] has none or
    [files[index]] is outside the vector. *)
Definition SomeFileOverlapsRange `{Comparator} (disjoint_sorted_files : bool)
    (files : list FileMetaData) (smallest_user_key largest_user_key : option string)
  : option bool :=
  if negb disjoint_sorted_files
  then Some (SomeFileOverlapsRange_scan files smallest_user_key largest_user_key)
  else
    index ← match smallest_user_key with
            | Some k =>
                uint32 <$> FindFile files
                             {| user_key := k; sequence := kMaxSequenceNumber;
                                kind := kValueTypeForSeek |}
            | None => Some 0
            end;
    if Z.of_nat (length files) <=? index then Some false
    else f ← files !! Z.to_nat index;
         Some (negb (BeforeFile largest_user_key f)).




(** ** The block builder (block_builder.cc)

    Keys, values and the buffer are sequences of bytes.  The routines of
    coding.h and crc32c.h that the builder calls are kept abstract, with the
    reader's [GetVarint32] beside them. *)

Class Coding := {
  PutVarint32 : Z -> list Byte.byte;
  GetVarint32 : list Byte.byte -> option (Z * list Byte.byte);
  PutFixed32 : Z -> list Byte.byte;
  crc32c_Value : list Byte.byte -> Z;
  crc32c_Extend : Z -> list Byte.byte -> Z;
  crc32c_Mask : Z -> Z
}.

(** The loop of [Add] that counts the bytes that [key] shares with the last
    key. *)
Fixpoint shared_prefix (last_key key : list Byte.byte) : nat :=
  match last_key, key with
  | x :: last_key', y :: key' =>
      if Byte.eqb x y then S (shared_prefix last_key' key') else 0%nat
  | _, _ => 0%nat
  end.

(** [kBlockTrailerSize] and [kNoCompression] of format.h: a trailer of one
    byte for the type and four for the checksum. *)
Definition kBlockTrailerSize : Z := 5.
Definition kNoCompression : Byte.byte := Byte.x00.

Module BlockBuilder.
(** [cmp_], which only the assertions of [Add] read, is left out. *)
Record t := {
  restart_interval_ : Z;
  buffer_ : list Byte.byte;
  restarts_ : list Z;
  counter_ : Z;
  finished_ : bool;
  last_key_ : list Byte.byte
}.

(** [BlockBuilder::BlockBuilder]. *)
Definition new (restart_interval : Z) : t :=
  {| restart_interval_ := if restart_interval <? 1 then 1 else restart_interval;
     buffer_ := []; restarts_ := [0]; counter_ := 0; finished_ := false;
     last_key_ := [] |}.

Definition Reset (b : t) : t :=
  {| restart_interval_ := restart_interval_ b;
     buffer_ := []; restarts_ := [0]; counter_ := 0; finished_ := false;
     last_key_ := [] |}.

(** The sizes are [size_t]. *)
Definition CurrentSizeEstimate (b : t) : Z :=
  if negb (finished_ b)
  then uint64 (uint64 (Z.of_nat (length (buffer_ b))
                       + uint64 (Z.of_nat (length (restarts_ b)) * 4)) + 4)
  else Z.of_nat (length (buffer_ b)).

(** [Finish]: the restart array and its size are appended. *)
Definition Finish `{Coding} (b : t) : t :=
  {| restart_interval_ := restart_interval_ b;
     buffer_ := fold_left (fun buffer r => buffer ++ PutFixed32 r) (restarts_ b)
                  (buffer_ b)
                ++ PutFixed32 (uint32 (Z.of_nat (length (restarts_ b))));
     restarts_ := restarts_ b; counter_ := counter_ b; finished_ := true;
     last_key_ := last_key_ b |}.

(** [Finalize]: the trailer, then zeros up to [padding_target]. *)
Definition Finalize `{Coding} (padding_target : Z) (b : t) : t :=
  let contents := buffer_ b in
  let crc := crc32c_Extend (crc32c_Value contents) [kNoCompression] in
  let buffer := contents ++ kNoCompression :: PutFixed32 (crc32c_Mask crc) in
  {| restart_interval_ := restart_interval_ b;
     buffer_ := if Z.of_nat (length buffer) <? padding_target
                then buffer ++ replicate (Z.to_nat padding_target - length buffer)
                                 Byte.x00
                else buffer;
     restarts_ := restarts_ b; counter_ := counter_ b; finished_ := finished_ b;
     last_key_ := last_key_ b |}.

(** [Add]; the three lengths are passed to [PutVarint32] as [uint32_t]. *)
Definition Add `{Coding} (key value : list Byte.byte) (b : t) : t :=
  let sharing := counter_ b <? restart_interval_ b in
  let shared := if sharing then shared_prefix (last_key_ b) key else 0%nat in
  let restarts :=
    if sharing then restarts_ b
    else restarts_ b ++ [uint32 (Z.of_nat (length (buffer_ b)))] in
  let counter := if sharing then counter_ b else 0 in
  let non_shared := (length key - shared)%nat in
  {| restart_interval_ := restart_interval_ b;
     buffer_ := buffer_ b
                ++ PutVarint32 (uint32 (Z.of_nat shared))
                ++ PutVarint32 (uint32 (Z.of_nat non_shared))
                ++ PutVarint32 (uint32 (Z.of_nat (length value)))
                ++ drop shared key ++ value;
     restarts_ := restarts;
     counter_ := int32 (counter + 1);
     finished_ := finished_ b;
     last_key_ := take shared (last_key_ b) ++ drop shared key |}.

(** A sequence of calls of [Add]. *)
Definition AddAll `{Coding} (entries : list (list Byte.byte * list Byte.byte))
    (b : t) : t :=
  fold_left (fun b kv => Add kv.1 kv.2 b) entries b.
End BlockBuilder.

(** ** Queries of a running compaction *)

Definition set_level_ptrs (ptrs : list Z) (c : Compaction.t) : Compaction.t :=
  {| Compaction.options_ := Compaction.options_ c;
     Compaction.level_ := Compaction.level_ c;
     Compaction.base_input_sublevel_ := Compaction.base_input_sublevel_ c;
     Compaction.output_sublevel_ := Compaction.output_sublevel_ c;
     Compaction.max_output_file_size_ := Compaction.max_output_file_size_ c;
     Compaction.max_grand_parent_overlap_bytes_ :=
       Compaction.max_grand_parent_overlap_bytes_ c;
     Compaction.max_compaction_size_ := Compaction.max_compaction_size_ c;
     Compaction.input_version_ := Compaction.input_version_ c;
     Compaction.edit_ := Compaction.edit_ c;
     Compaction.inputs_ := Compaction.inputs_ c;
     Compaction.grandparents_ := Compaction.grandparents_ c;
     Compaction.grandparent_index_ := Compaction.grandparent_index_ c;
     Compaction.seen_key_ := Compaction.seen_key_ c;
     Compaction.overlapped_bytes_ := Compaction.overlapped_bytes_ c;
     Compaction.level_ptrs_ := ptrs |}.

Definition set_stop_state (index : Z) (seen_key : bool) (overlapped : Z)
    (c : Compaction.t) : Compaction.t :=
  {| Compaction.options_ := Compaction.options_ c;
     Compaction.level_ := Compaction.level_ c;
     Compaction.base_input_sublevel_ := Compaction.base_input_sublevel_ c;
     Compaction.output_sublevel_ := Compaction.output_sublevel_ c;
     Compaction.max_output_file_size_ := Compaction.max_output_file_size_ c;
     Compaction.max_grand_parent_overlap_bytes_ :=
       Compaction.max_grand_parent_overlap_bytes_ c;
     Compaction.max_compaction_size_ := Compaction.max_compaction_size_ c;
     Compaction.input_version_ := Compaction.input_version_ c;
     Compaction.edit_ := Compaction.edit_ c;
     Compaction.inputs_ := Compaction.inputs_ c;
     Compaction.grandparents_ := Compaction.grandparents_ c;
     Compaction.grandparent_index_ := index;
     Compaction.seen_key_ := seen_key;
     Compaction.overlapped_bytes_ := overlapped;
     Compaction.level_ptrs_ := Compaction.level_ptrs_ c |}.

Definition set_input_version (v : option nat) (c : Compaction.t) : Compaction.t :=
  {| Compaction.options_ := Compaction.options_ c;
     Compaction.level_ := Compaction.level_ c;
     Compaction.base_input_sublevel_ := Compaction.base_input_sublevel_ c;
     Compaction.output_sublevel_ := Compaction.output_sublevel_ c;
     Compaction.max_output_file_size_ := Compaction.max_output_file_size_ c;
     Compaction.max_grand_parent_overlap_bytes_ :=
       Compaction.max_grand_parent_overlap_bytes_ c;
     Compaction.max_compaction_size_ := Compaction.max_compaction_size_ c;
     Compaction.input_version_ := v;
     Compaction.edit_ := Compaction.edit_ c;
     Compaction.inputs_ := Compaction.inputs_ c;
     Compaction.grandparents_ := Compaction.grandparents_ c;
     Compaction.grandparent_index_ := Compaction.grandparent_index_ c;
     Compaction.seen_key_ := Compaction.seen_key_ c;
     Compaction.overlapped_bytes_ := Compaction.overlapped_bytes_ c;
     Compaction.level_ptrs_ := Compaction.level_ptrs_ c |}.

(** The inner loop of [IsBaseLevelForKey] over the files of one level, from
    the pointer of the level on: the pointer passes the files that end
    before the key; the answer is [false] when the key falls in the range of
    the file at which the pointer stops.  The pointer is a [size_t] below
    the size of the vector, so that its increment does not wrap. *)
Fixpoint IsBaseLevelForKey_scan `{Comparator} (fuel : nat) (key : string)
    (files : list FileMetaData) (ptr : Z) : option (bool * Z) :=
  if ptr <? Z.of_nat (length files) then
    match fuel, files !! Z.to_nat ptr with
    | S fuel', Some f =>
        if is_le (Compare key (user_key (largest f))) then
          if is_ge (Compare key (user_key (smallest f)))
          then Some (false, ptr)
          else Some (true, ptr)
        else IsBaseLevelForKey_scan fuel' key files (ptr + 1)
    | _, _ => None
    end
  else Some (true, ptr).

(** The loop over the levels from [level_ + 2] on; [levels] are the file
    vectors of the levels from [lvl] on.  Reading [level_ptrs_[lvl]] outside
    the vector of pointers is undefined ([None]). *)
Fixpoint IsBaseLevelForKey_levels `{Comparator} (key : string)
    (levels : list (list FileMetaData)) (lvl : nat) (ptrs : list Z)
  : option (bool * list Z) :=
  match levels with
  | [] => Some (true, ptrs)
  | files :: levels' =>
      match ptrs !! lvl with
      | None => None
      | Some ptr =>
          match IsBaseLevelForKey_scan (length files) key files ptr with
          | None => None
          | Some (true, ptr') =>
              IsBaseLevelForKey_levels key levels' (S lvl) (<[lvl := ptr']> ptrs)
          | Some (false, ptr') => Some (false, <[lvl := ptr']> ptrs)
          end
      end
  end.

(** [Compaction::IsBaseLevelForKey]: the answer and the compaction with its
    level pointers advanced.  [None] when the input version has been
    released or a pointer is read outside [level_ptrs_]. *)
Definition IsBaseLevelForKey `{Comparator} (key : string) (c : Compaction.t)
    (vs : VersionSet) : option (bool * Compaction.t) :=
  match Compaction.input_version_ c ≫= (fun a => heap_ vs !! a) with
  | None => None
  | Some v =>
      let lvl := (Compaction.level_ c + 2)%nat in
      match IsBaseLevelForKey_levels key (drop lvl (files_ v)) lvl
              (Compaction.level_ptrs_ c) with
      | None => None
      | Some (r, ptrs) => Some (r, set_level_ptrs ptrs c)
      end
  end.

(** The loop of [ShouldStopBefore] over the grandparents, from
    [grandparent_index_] on: it passes the files that end before the key and
    adds their sizes to [overlapped_bytes_] (an [int64_t]) once a key has
    been seen. *)
Fixpoint ShouldStopBefore_scan `{Comparator} (fuel : nat)
    (internal_key : InternalKey) (grandparents : list FileMetaData)
    (seen_key : bool) (index overlapped : Z) : option (Z * Z) :=
  if index <? Z.of_nat (length grandparents) then
    match fuel, grandparents !! Z.to_nat index with
    | S fuel', Some f =>
        if is_gt (icmp_Compare internal_key (largest f))
        then ShouldStopBefore_scan fuel' internal_key grandparents seen_key
               (index + 1)
               (if seen_key then int64 (overlapped + file_size f) else overlapped)
        else Some (index, overlapped)
    | _, _ => None
    end
  else Some (index, overlapped).

(** [Compaction::ShouldStopBefore].  [None] when the comparator is read
    through a released input version. *)
Definition ShouldStopBefore `{Comparator} (internal_key : InternalKey)
    (c : Compaction.t) (vs : VersionSet) : option (bool * Compaction.t) :=
  if negb (enable_should_stop_before (Compaction.options_ c)) then Some (false, c)
  else if enable_sublevel (Compaction.options_ c) then Some (false, c)
  else
    match Compaction.input_version_ c ≫= (fun a => heap_ vs !! a) with
    | None => None
    | Some _ =>
        match ShouldStopBefore_scan (length (Compaction.grandparents_ c))
                internal_key (Compaction.grandparents_ c)
                (Compaction.seen_key_ c) (Compaction.grandparent_index_ c)
                (Compaction.overlapped_bytes_ c) with
        | None => None
        | Some (index, overlapped) =>
            if Compaction.max_grand_parent_overlap_bytes_ c <? overlapped
            then Some (true, set_stop_state index true 0 c)
            else Some (false, set_stop_state index true overlapped c)
        end
    end.

(** [Compaction::ReleaseInputs]. *)
Definition ReleaseInputs (c : Compaction.t) (vs : VersionSet)
  : Compaction.t * VersionSet :=
  match Compaction.input_version_ c with
  | Some a => (set_input_version None c, Version_Unref a vs)
  | None => (c, vs)
  end.

(** ** Live files *)

(** The loops of [AddLiveFiles] over the levels and the files of one
    version. *)
Definition AddLiveFiles_version (v : Version) (live : gset Z) : gset Z :=
  fold_left (fun live files =>
               fold_left (fun live f => {[number f]} ∪ live) files live)
    (files_ v) live.

(** [VersionSet::AddLiveFiles]: the numbers of the files of every version of
    the ring, from the oldest on, are inserted into [live].  [None] when the
    ring names a version that is not allocated. *)
Definition AddLiveFiles (vs : VersionSet) (live : gset Z) : option (gset Z) :=
  fold_left (fun acc a =>
               live ← acc;
               v ← heap_ vs !! a;
               Some (AddLiveFiles_version v live))
    (dummy_versions_ vs) (Some live).

(** ** Files that may hold a key *)

(** [NewestFirst]: the order of [std::sort] over the level-0 files that
    hold the key. *)
Definition NewestFirst (a b : FileMetaData) : bool := number b <? number a.

(** [std::sort(tmp.begin(), tmp.end(), NewestFirst)].  [std::sort] leaves
    the order of files with the same number open; here they keep the order
    that they have in the level. *)
Fixpoint sort_insert (f : FileMetaData) (sorted : list FileMetaData)
  : list FileMetaData :=
  match sorted with
  | [] => [f]
  | g :: sorted' =>
      if NewestFirst g f then g :: sort_insert f sorted' else f :: sorted
  end.

Definition sort_NewestFirst (tmp : list FileMetaData) : list FileMetaData :=
  fold_right sort_insert [] tmp.

(** The calls of the callback [func] over the files of [tmp]; the
    callback is a function from the state behind [arg] to the new state and
    its answer, and the loop is left when it answers [false]. *)
Fixpoint ForEachOverlapping_calls {A : Type}
    (func : A -> nat -> FileMetaData -> A * bool) (level : nat)
    (tmp : list FileMetaData) (arg : A) : A * bool :=
  match tmp with
  | [] => (arg, true)
  | f :: tmp' =>
      let '(arg', continue) := func arg level f in
      if continue then ForEachOverlapping_calls func level tmp' arg'
      else (arg', false)
  end.

(** The loop of [ForEachOverlapping] over the levels from 1 on; [levels]
    are the file vectors of the levels from [level] on.  The index that
    [FindFile] returns is held in a [uint32_t]. *)
Fixpoint ForEachOverlapping_levels {A : Type} `{Comparator}
    (func : A -> nat -> FileMetaData -> A * bool)
    (key : string) (internal_key : InternalKey)
    (levels : list (list FileMetaData)) (level : nat) (arg : A) : option A :=
  match levels with
  | [] => Some arg
  | files :: levels' =>
      if (length files =? 0)%nat
      then ForEachOverlapping_levels func key internal_key levels' (S level) arg
      else
        match FindFile files internal_key with
        | None => None
        | Some r =>
            let index := uint32 r in
            if index <? Z.of_nat (length files) then
              match files !! Z.to_nat index with
              | None => None
              | Some f =>
                  if is_lt (Compare key (user_key (smallest f)))
                  then ForEachOverlapping_levels func key internal_key levels'
                         (S level) arg
                  else
                    let '(arg', continue) := func arg level f in
                    if continue
                    then ForEachOverlapping_levels func key internal_key levels'
                           (S level) arg'
                    else Some arg'
              end
            else ForEachOverlapping_levels func key internal_key levels'
                   (S level) arg
        end
  end.

(** [Version::ForEachOverlapping] over the file vectors [files_] of a
    version.  [None] when [files_[0]] does not exist or [FindFile] leaves
    defined behaviour. *)
Definition ForEachOverlapping {A : Type} `{Comparator}
    (files_ : list (list FileMetaData)) (key : string)
    (internal_key : InternalKey) (arg : A)
    (func : A -> nat -> FileMetaData -> A * bool) : option A :=
  match files_ with
  | [] => None
  | level0 :: levels =>
      let tmp :=
        List.filter (fun f => is_ge (Compare key (user_key (smallest f))) &&
                              is_le (Compare key (user_key (largest f)))) level0 in
      let '(arg', continue) :=
        ForEachOverlapping_calls func 0 (sort_NewestFirst tmp) arg in
      if continue
      then ForEachOverlapping_levels func key internal_key levels 1 arg'
      else Some arg'
  end.

(** ** Objects as files (osd.cc) *)

(** [strrchr(a, c)] for a character [c] other than NUL: the index of the
    last [c] of the C string at [a], which ends at the first NUL. *)
Fixpoint strrchr (a : list ascii) (c : ascii) : option nat :=
  match a with
  | [] => None
  | x :: a' =>
      if Ascii.eqb x "000"%char then None
      else match strrchr a' c with
           | Some i => Some (S i)
           | None => if Ascii.eqb x c then Some 0%nat else None
           end
  end.

(** [ResolvePath]: the path is cut at its last slash into [parent] and
    [base]; a path whose only slash is the first character has the parent
    "/".  The bytes of [path] are followed by a NUL, as those of a
    [std::string] are.  [None] when the path has no slash: then [strrchr]
    returns [NULL], which the code takes for a position in the path.  The
    function returns [true] in every other case. *)
Definition ResolvePath (path : list ascii) : option (list ascii * list ascii) :=
  match strrchr path "/"%char with
  | None => None
  | Some b =>
      let base := drop (S b) path in
      Some (if (b =? 0)%nat then ["/"%char] else take b path, base)
  end.

(** Modelled from the spec: a [SequentialFile] of env.h, whose [Read(n)]
    returns a status and a fragment of at most [n] bytes and moves the
    position of the file. *)
Class SequentialFile (F : Type) := {
  Read : F -> Z -> Status * list Byte.byte * F
}.

Definition kBufferSize : Z := 8192.

(** The loop of [ReadFileToString]: fragments are appended to [data] until a
    read fails or returns the empty fragment.  [None] when the loop does not
    end within [fuel] reads. *)
Fixpoint ReadFileToString_loop {F : Type} `{SequentialFile F} (fuel : nat)
    (file : F) (data : list Byte.byte) : option (Status * list Byte.byte) :=
  match fuel with
  | O => None
  | S fuel' =>
      let '(s, fragment, file') := Read file kBufferSize in
      if negb (ok s) then Some (s, data)
      else
        let data' := data ++ fragment in
        if bool_decide (fragment = []) then Some (s, data')
        else ReadFileToString_loop fuel' file' data'
  end.

(** [ReadFileToString(osd, name, data)]: [opened] is what
    [osd->NewSequentialObj(name, &file)] answers; the result is the status
    and [*data]. *)
Definition ReadFileToString {F : Type} `{SequentialFile F} (fuel : nat)
    (opened : Status * option F) : option (Status * list Byte.byte) :=
  match opened with
  | (s, Some file) =>
      if negb (ok s) then Some (s, []) else ReadFileToString_loop fuel file []
  | (s, None) => if negb (ok s) then Some (s, []) else None
  end.

(** [Compaction::GetTheOnlyFile]: the first file of the first input vector
    that is not empty; [None] is the [NULL] that the function returns, after
    an assertion that is compiled away, when every input is empty. *)
Fixpoint GetTheOnlyFile_loop (inputs : list (list FileMetaData))
  : option FileMetaData :=
  match inputs with
  | [] => None
  | files :: inputs' =>
      match files with
      | f :: _ => Some f
      | [] => GetTheOnlyFile_loop inputs'
      end
  end.

Definition GetTheOnlyFile (c : Compaction.t) : option FileMetaData :=
  GetTheOnlyFile_loop (Compaction.inputs_ c).

(** ** Predicates of the statements *)

(** A level sorted ascending by largest key. *)
Definition sorted_by_largest `{Comparator} (files : list FileMetaData) : Prop :=
  forall i j fi fj, (i <= j)%nat -> files !! i = Some fi -> files !! j = Some fj ->
    icmp_Compare (largest fi) (largest fj) <> Gt.

(** The two tests that skip a file, and the two that widen the range. *)
Definition before_range `{Comparator} (ub : option string) (f : FileMetaData) : bool :=
  match ub with
  | Some b => is_lt (Compare (user_key (largest f)) b)
  | None => false
  end.

Definition after_range `{Comparator} (ue : option string) (f : FileMetaData) : bool :=
  match ue with
  | Some e => is_gt (Compare (user_key (smallest f)) e)
  | None => false
  end.

Definition file_overlaps `{Comparator} (ub ue : option string) (f : FileMetaData) : bool :=
  negb (before_range ub f) && negb (after_range ue f).

Definition extends_begin `{Comparator} (ub : option string) (f : FileMetaData) : bool :=
  match ub with
  | Some b => is_lt (Compare (user_key (smallest f)) b)
  | None => false
  end.

Definition extends_end `{Comparator} (ue : option string) (f : FileMetaData) : bool :=
  match ue with
  | Some e => is_gt (Compare (user_key (largest f)) e)
  | None => false
  end.

(** A range is closed when no file that overlaps it reaches outside it. *)
Definition closed_range `{Comparator} (all : list FileMetaData) (ub ue : option string) : Prop :=
  forall f, In f all -> file_overlaps ub ue f = true ->
    extends_begin ub f = false /\ extends_end ue f = false.

(** [begin_le ub' ub]: the lower bound [ub'] is at or before [ub]
    ([None] is unbounded). *)
Definition begin_le `{Comparator} (ub' ub : option string) : Prop :=
  match ub', ub with
  | None, _ => True
  | Some b', Some b => Compare b' b <> Gt
  | Some _, None => False
  end.

Definition end_le `{Comparator} (ue ue' : option string) : Prop :=
  match ue', ue with
  | None, _ => True
  | Some e', Some e => Compare e e' <> Gt
  | Some _, None => False
  end.

Definition range_measure `{Comparator} (all : list FileMetaData) (ub ue : option string) : nat :=
  (length (List.filter (extends_begin ub) all) +
   length (List.filter (extends_end ue) all))%nat.

Definition file_wf `{Comparator} (f : FileMetaData) : Prop :=
  icmp_Compare (smallest f) (largest f) <> Gt.

Definition file_before `{Comparator} (f g : FileMetaData) : Prop :=
  icmp_Compare (largest f) (smallest g) = Lt.

Definition files_disjoint `{Comparator} (f g : FileMetaData) : Prop :=
  file_before f g \/ file_before g f.

Definition le_smallest `{Comparator} (f g : FileMetaData) : Prop :=
  icmp_Compare (smallest f) (smallest g) <> Gt.

Fixpoint pairwise {A} (R : A -> A -> Prop) (l : list A) : Prop :=
  match l with
  | [] => True
  | x :: l' => Forall (R x) l' /\ pairwise R l'
  end.

(** The files of every level from 1 on are disjoint and in key order. *)
Definition no_overlap `{Comparator} (v : Version) : Prop :=
  forall level fs i j fi fj, (1 <= level)%nat -> files_ v !! level = Some fs ->
    (i < j)%nat -> fs !! i = Some fi -> fs !! j = Some fj -> file_before fi fj.

(** A file of the base version survives an edit that does not delete its
    number at its level, or that adds a file under that number again. *)
Definition survives (edit : VersionEdit.t) (level : nat) (g : FileMetaData) : Prop :=
  In (level, number g) (VersionEdit.deleted_files_ edit) ->
  exists f, In (level, f) (VersionEdit.new_files_ edit) /\ number f = number g.

Definition same_level_disjoint `{Comparator} (x y : nat * FileMetaData) : Prop :=
  x.1 = y.1 -> (1 <= x.1)%nat -> files_disjoint x.2 y.2.

(** An edit is valid for a version when it names levels up to its
    [max_level_], updates no file (updates belong to sublevel mode), and its
    new files of a level from 1 on have [smallest <= largest] and overlap
    neither each other nor the surviving files of the level. *)
Definition valid_edit `{Comparator} (v : Version) (edit : VersionEdit.t) : Prop :=
  VersionEdit.updated_files_ edit = [] /\
  (forall level f, In (level, f) (VersionEdit.new_files_ edit) ->
     Z.of_nat level <= VersionEdit.max_level_ edit) /\
  (forall level n, In (level, n) (VersionEdit.deleted_files_ edit) ->
     Z.of_nat level <= VersionEdit.max_level_ edit) /\
  (forall level f, In (level, f) (VersionEdit.new_files_ edit) ->
     (1 <= level)%nat -> file_wf f) /\
  pairwise same_level_disjoint (VersionEdit.new_files_ edit) /\
  (forall level f g, In (level, f) (VersionEdit.new_files_ edit) ->
     (1 <= level)%nat -> In g (level_files (files_ v) level) ->
     survives edit level g -> files_disjoint f g).

Fixpoint valid_edits `{Comparator} (options : Options) (v : Version)
    (compact_pointer : list (option InternalKey)) (edits : list VersionEdit.t)
  : Prop :=
  match edits with
  | [] => True
  | edit :: edits' =>
      valid_edit v edit /\
      valid_edits options (BuildVersion options (files_ v) compact_pointer edit).1
        (BuildVersion options (files_ v) compact_pointer edit).2 edits'
  end.

(** The files that [MaybeAddFile] keeps at a level. *)
Definition keep (b : Builder) (level : nat) (f : FileMetaData) : bool :=
  negb (bool_decide
          (number f ∈ deleted_files (default LevelState_empty (levels_ b !! level)))).

(** The order in which [SaveTo] visits the files of a level. *)
Fixpoint merge_files `{Comparator} (added base : list FileMetaData)
  : list FileMetaData :=
  match added with
  | [] => base
  | f :: added' =>
      let '(before, rest) := upper_bound f base in
      before ++ f :: merge_files added' rest
  end.

(** The invariant of the levels from 1 on: files in key order, each with
    [smallest <= largest]. *)
Definition level_inv `{Comparator} (v : Version) : Prop :=
  forall level, (1 <= level)%nat ->
    pairwise file_before (level_files (files_ v) level) /\
    List.Forall file_wf (level_files (files_ v) level).

(** The bytes of a list of files, without wrap-around. *)
Definition total_bytes (files : list FileMetaData) : Z :=
  fold_right (fun f sum => file_size f + sum) 0 files.

(** [f] is after the compact pointer; an unset pointer is before every
    file. *)
Definition after_pointer `{Comparator} (pointer : option InternalKey)
    (f : FileMetaData) : Prop :=
  match pointer with
  | Some p => icmp_Compare (largest f) p = Gt
  | None => True
  end.

(** The seed of a size-triggered compaction: the first file of the level
    after the compact pointer, or the first file of the level when no file is
    after the pointer. *)
Definition is_seed `{Comparator} (pointer : option InternalKey)
    (files : list FileMetaData) (seed : FileMetaData) : Prop :=
  (exists i, files !! i = Some seed /\ after_pointer pointer seed /\
     forall j f, (j < i)%nat -> files !! j = Some f -> ~ after_pointer pointer f) \/
  ((forall f, In f files -> ~ after_pointer pointer f) /\ files !! 0%nat = Some seed).

(** A record that decodes and names the comparator of the database, if
    any. *)
Definition decodes_ok `{Comparator} (item : ReadItem) : Prop :=
  match item with
  | ReadRecord OK edit =>
      match VersionEdit.comparator_ edit with
      | Some name => name = Name
      | None => True
      end
  | _ => False
  end.

(** Some record of the descriptor supplies the counter [field]. *)
Definition supplied (field : VersionEdit.t -> option Z) (items : list ReadItem)
  : Prop :=
  exists decoded edit, In (ReadRecord decoded edit) items /\ field edit <> None.

(** The current version exists and is referenced. *)
Definition current_referenced (vs : VersionSet) : Prop :=
  exists c v, current_ vs = Some c /\ heap_ vs !! c = Some v /\ 1 <= refs_ v.

(** The states of a version set: it is constructed, and then versions are
    installed by [LogAndApply], [ForeighApply] and [Recover], and plans made
    by [PickCompaction] and [CompactRange] refer to the current version. *)
Inductive reachable `{Comparator} `{SublevelMode} : VersionSet -> Prop :=
| reachable_new dbname options env :
    reachable (VersionSet_new dbname options env)
| reachable_LogAndApply vs edit io s edit' vs' :
    reachable vs -> LogAndApply edit io vs = Some (s, edit', vs') ->
    reachable vs'
| reachable_ForeighApply vs edit s vs' :
    reachable vs -> ForeighApply edit vs = Some (s, vs') -> reachable vs'
| reachable_Recover vs io s vs' :
    reachable vs -> Recover io vs = Some (s, vs') -> reachable vs'
| reachable_PickCompaction vs allow_seek_compaction c vs' :
    reachable vs ->
    PickCompaction allow_seek_compaction vs = Some (Some (c, vs')) ->
    reachable vs'
| reachable_CompactRange vs level begin_ end_ c vs' :
    reachable vs -> CompactRange level begin_ end_ vs = Some (Some (c, vs')) ->
    reachable vs'.

(** The laws of a three-way comparison: a total preorder. *)
Class CmpLaws {A : Type} (cmp : A -> A -> comparison) : Prop := {
  cmp_refl : forall a, cmp a a = Eq;
  cmp_antisym : forall a b, cmp b a = CompOpp (cmp a b);
  cmp_le_trans : forall a b c, cmp a b <> Gt -> cmp b c <> Gt -> cmp a c <> Gt
}.

(** The three sets of a level of the builder. *)
Definition added_of (ls : list LevelState) (level : nat) : list FileMetaData :=
  added_files (default LevelState_empty (ls !! level)).

Definition deleted_of (ls : list LevelState) (level : nat) : gset Z :=
  deleted_files (default LevelState_empty (ls !! level)).

Definition updated_of (ls : list LevelState) (level : nat) : gset Z :=
  updated_files (default LevelState_empty (ls !! level)).

(** The three passes of [Apply] over an edit. *)
Local Abbreviation fold_deleted :=
  (fold_left (fun ls '(l, n) => alter (insert_deleted n) l ls)).
Local Abbreviation fold_updated :=
  (fold_left (fun ls '(l, n) => alter (insert_updated n) l ls)).
Local Abbreviation budgeted g :=
  (set_allowed_seeks (initial_allowed_seeks (file_size g)) g).
Local Abbreviation fold_added :=
  (fold_left (fun ls '(l, g) => alter (insert_added (budgeted g)) l ls)).

(** What no operation on the heap of versions changes. *)
Definition same_frame (vs vs' : VersionSet) : Prop :=
  dbname_ vs' = dbname_ vs /\ options_ vs' = options_ vs /\
  next_file_number_ vs' = next_file_number_ vs /\
  manifest_file_number_ vs' = manifest_file_number_ vs /\
  last_sequence_ vs' = last_sequence_ vs /\ log_number_ vs' = log_number_ vs /\
  prev_log_number_ vs' = prev_log_number_ vs /\
  descriptor_file_ vs' = descriptor_file_ vs /\
  descriptor_log_ vs' = descriptor_log_ vs /\
  current_ vs' = current_ vs /\ env_ vs' = env_ vs.

(** While [Recover] reads the candidates, the version that was current holds
    one reference for [Recover] and one for each builder that is kept. *)
Definition recover_inv (cur : nat) (r0 : Z) (acc : VersionSet * Status * Selection * nat)
  : Prop :=
  current_ acc.1.1.1 = Some cur /\
  exists b, heap_ acc.1.1.1 !! cur = Some b /\ refs_ b = r0 + 1 + Z.of_nat acc.2.

(** A file and a range of user keys intersect; an unset bound is open. *)
Definition in_user_range `{Comparator} (smallest_user_key largest_user_key : option string)
    (f : FileMetaData) : Prop :=
  AfterFile smallest_user_key f = false /\ BeforeFile largest_user_key f = false.

(** The range [s, l] covers the files and both ends are keys of files. *)
Definition covers `{Comparator} (files : list FileMetaData) (s l : InternalKey)
  : Prop :=
  (forall f, In f files ->
     icmp_Compare s (smallest f) <> Gt /\ icmp_Compare (largest f) l <> Gt) /\
  (exists f, In f files /\ s = smallest f) /\
  (exists f, In f files /\ l = largest f).

(** The edit deletes the number [n] at [level] and adds no file under it. *)
Definition deleted_by (edit : VersionEdit.t) (level : nat) (n : Z) : Prop :=
  In (level, n) (VersionEdit.deleted_files_ edit) /\
  forall f, In (level, f) (VersionEdit.new_files_ edit) -> number f <> n.

(** New files of one level have different numbers. *)
Definition distinct_numbers (x y : nat * FileMetaData) : Prop :=
  x.1 = y.1 -> number x.2 <> number y.2.

(** An edit that names levels up to its [max_level_] and updates no file. *)
Definition edit_in_range (edit : VersionEdit.t) : Prop :=
  VersionEdit.updated_files_ edit = [] /\
  (forall level f, In (level, f) (VersionEdit.new_files_ edit) ->
     Z.of_nat level <= VersionEdit.max_level_ edit) /\
  (forall level n, In (level, n) (VersionEdit.deleted_files_ edit) ->
     Z.of_nat level <= VersionEdit.max_level_ edit).

(** A level in the order of the builder: by smallest key, then by number. *)
Definition builder_order `{Comparator} (files : list FileMetaData) : Prop :=
  pairwise (fun f g => BySmallestKey f g = true) files.

(** The entries of a list of pairs (level, x) that name [level]. *)
Definition at_level {A} (level : nat) (l : list (nat * A)) : list A :=
  omap (fun x => if decide (x.1 = level) then Some x.2 else None) l.

(** What the block builder needs of the coding routines: a varint can be
    read back in front of any bytes, and a fixed 32-bit word has four
    bytes. *)
Class CodingLaws `{Coding} : Prop := {
  GetVarint32_PutVarint32 : forall x rest,
    0 <= x < 2 ^ 32 -> GetVarint32 (PutVarint32 x ++ rest) = Some (x, rest);
  PutFixed32_length : forall x, length (PutFixed32 x) = 4%nat
}.

(** The reader of the entries of a block, as the format is documented in
    block_builder.cc: an entry is [shared], [non_shared] and [value_length]
    as varints, then the unshared bytes of the key and the value; the key is
    the first [shared] bytes of the previous key followed by the unshared
    bytes.  The result is [None] when the data cannot be read. *)
Fixpoint decode_entries_loop `{Coding} (fuel : nat) (data prev_key : list Byte.byte)
  : option (list (list Byte.byte * list Byte.byte)) :=
  match data with
  | [] => Some []
  | _ =>
      match fuel with
      | O => None
      | S fuel' =>
          '(shared, d1) ← GetVarint32 data;
          '(non_shared, d2) ← GetVarint32 d1;
          '(value_length, d3) ← GetVarint32 d2;
          if (Z.of_nat (length prev_key) <? shared)
             || (Z.of_nat (length d3) <? non_shared + value_length)
          then None
          else
            let key := take (Z.to_nat shared) prev_key
                       ++ take (Z.to_nat non_shared) d3 in
            let value := take (Z.to_nat value_length)
                           (drop (Z.to_nat non_shared) d3) in
            rest ← decode_entries_loop fuel'
                     (drop (Z.to_nat non_shared + Z.to_nat value_length) d3) key;
            Some ((key, value) :: rest)
      end
  end.

(** Reading starts at a restart point, where no previous key is needed. *)
Definition decode_entries `{Coding} (data : list Byte.byte)
  : option (list (list Byte.byte * list Byte.byte)) :=
  decode_entries_loop (length data) data [].

(** Keys and values whose lengths fit [uint32_t]. *)
Definition entry_fits (kv : list Byte.byte * list Byte.byte) : Prop :=
  Z.of_nat (length kv.1) < 2 ^ 32 /\ Z.of_nat (length kv.2) < 2 ^ 32.

(** The previous key that a reader may hold at the state [b]: the last key
    when the next entry shares a prefix, any key when it is a restart. *)
Definition reader_key (b : BlockBuilder.t) (prev : list Byte.byte) : Prop :=
  (BlockBuilder.counter_ b <? BlockBuilder.restart_interval_ b) = true ->
  prev = BlockBuilder.last_key_ b.

(** The user key lies in the range of user keys of the file, as
    [IsBaseLevelForKey] tests it. *)
Definition key_in_file `{Comparator} (key : string) (f : FileMetaData) : Prop :=
  Compare key (user_key (largest f)) <> Gt /\
  Compare key (user_key (smallest f)) <> Lt.

(** A pointer into a level is behind [key]: it is within the level and the
    files before it end before [key]. *)
Definition files_behind `{Comparator} (files : list FileMetaData) (ptr : Z)
    (key : string) : Prop :=
  0 <= ptr <= Z.of_nat (length files) /\
  forall i f, files !! i = Some f -> Z.of_nat i < ptr ->
    Compare key (user_key (largest f)) = Gt.

(** The level pointers [ptrs] are behind [key] on the levels from [lvl] on. *)
Definition ptrs_behind `{Comparator} (all : list (list FileMetaData)) (lvl : nat)
    (ptrs : list Z) (key : string) : Prop :=
  forall l files, (lvl <= l)%nat -> all !! l = Some files ->
    exists ptr, ptrs !! l = Some ptr /\ files_behind files ptr key.

(** No file of the levels from [lvl] on holds [key] in its range. *)
Definition key_below `{Comparator} (all : list (list FileMetaData)) (lvl : nat)
    (key : string) : Prop :=
  forall l files f, (lvl <= l)%nat -> all !! l = Some files -> In f files ->
    ~ key_in_file key f.

(** A level in the order of the smallest user keys of its files. *)
Definition sorted_by_smallest_user_key `{Comparator} (files : list FileMetaData)
  : Prop :=
  forall i j fi fj, (i <= j)%nat -> files !! i = Some fi -> files !! j = Some fj ->
    Compare (user_key (smallest fi)) (user_key (smallest fj)) <> Gt.

(** What a failed [Recover] keeps of the version set: everything but
    [next_file_number_] and the compact pointers. *)
Definition Recover_keeps (vs vs' : VersionSet) : Prop :=
  heap_ vs' = heap_ vs /\ dummy_versions_ vs' = dummy_versions_ vs /\
  current_ vs' = current_ vs /\
  manifest_file_number_ vs' = manifest_file_number_ vs /\
  last_sequence_ vs' = last_sequence_ vs /\ log_number_ vs' = log_number_ vs /\
  prev_log_number_ vs' = prev_log_number_ vs /\
  descriptor_file_ vs' = descriptor_file_ vs /\
  descriptor_log_ vs' = descriptor_log_ vs /\ env_ vs' = env_ vs /\
  dbname_ vs' = dbname_ vs /\ options_ vs' = options_ vs.

(** The descriptor file [name] can be opened and is accepted as a candidate,
    whatever the version it is read over. *)
Definition descriptor_accepted `{Comparator} (io : RecoverIO) (name : string) : Prop :=
  io_NewSequentialFile io name = OK /\
  forall base vs, cand_status (Recover_candidate (io_Records io name) base vs).1 = OK.

(** The invariant of the loop of [Recover] over the candidates: the version
    that was current holds one reference for [Recover] and one for each
    builder kept, and nothing else of the version set has changed but
    [next_file_number_] and the compact pointers. *)
Definition recover_frame (vs0 : VersionSet) (cur : nat) (base0 : Version)
    (acc : VersionSet * Status * Selection * nat) : Prop :=
  heap_ acc.1.1.1
  = <[cur := set_refs (refs_ base0 + 1 + Z.of_nat acc.2) base0]> (heap_ vs0) /\
  dummy_versions_ acc.1.1.1 = dummy_versions_ vs0 /\
  current_ acc.1.1.1 = current_ vs0 /\
  manifest_file_number_ acc.1.1.1 = manifest_file_number_ vs0 /\
  last_sequence_ acc.1.1.1 = last_sequence_ vs0 /\
  log_number_ acc.1.1.1 = log_number_ vs0 /\
  prev_log_number_ acc.1.1.1 = prev_log_number_ vs0 /\
  descriptor_file_ acc.1.1.1 = descriptor_file_ vs0 /\
  descriptor_log_ acc.1.1.1 = descriptor_log_ vs0 /\
  env_ acc.1.1.1 = env_ vs0 /\
  dbname_ acc.1.1.1 = dbname_ vs0 /\ options_ acc.1.1.1 = options_ vs0.

(** The ring of versions is sound: it names the current version, and every
    version it names is allocated. *)
Definition ring_ok (vs : VersionSet) : Prop :=
  (forall c, current_ vs = Some c -> In c (dummy_versions_ vs)) /\
  forall a, In a (dummy_versions_ vs) -> is_Some (heap_ vs !! a).

(** The file number [n] is the number of a file of the version [v]. *)
Definition file_number_of (v : Version) (n : Z) : Prop :=
  exists level files f,
    files_ v !! level = Some files /\ In f files /\ number f = n.

(** The calls of a callback over a list of files with their levels, until
    it answers [false]. *)
Fixpoint visit_until {A : Type} (func : A -> nat -> FileMetaData -> A * bool)
    (visits : list (nat * FileMetaData)) (arg : A) : A :=
  match visits with
  | [] => arg
  | (level, f) :: visits' =>
      let '(arg', continue) := func arg level f in
      if continue then visit_until func visits' arg' else arg'
  end.

(** The file of a sorted level that may hold the key: the first file whose
    largest key is not below the internal key, when the user key is not
    below its smallest user key. *)
Definition level_candidate `{Comparator} (key : string) (internal_key : InternalKey)
    (files : list FileMetaData) (f : FileMetaData) : Prop :=
  exists idx : nat,
    files !! idx = Some f /\
    (forall j g, files !! j = Some g -> (j < idx)%nat ->
       icmp_Compare (largest g) internal_key = Lt) /\
    icmp_Compare (largest f) internal_key <> Lt /\
    Compare key (user_key (smallest f)) <> Lt.

(** Newest first: descending file numbers. *)
Definition newer_or_same (a b : FileMetaData) : Prop := number b <= number a.

(** A sequential file that serves [contents]: every read of [n > 0] bytes
    succeeds with the next [n] bytes, or with those that are left. *)
Class ServesContents (F : Type) `{SequentialFile F}
    (contents : F -> list Byte.byte) : Prop := {
  Read_contents : forall (file : F) (n : Z), 0 < n ->
    exists file',
      Read file n = (OK, take (Z.to_nat n) (contents file), file') /\
      contents file' = drop (Z.to_nat n) (contents file)
}.

(** No new file of the edit takes the number of a file that the level
    already holds. *)
Definition new_numbers_unused (edit : VersionEdit.t)
    (base : list (list FileMetaData)) : Prop :=
  forall level f0 f, In (level, f0) (VersionEdit.new_files_ edit) ->
    In f (level_files base level) -> number f0 <> number f.

(** The plan [c] at [level] that [PickCompaction] makes of the seed: the
    files of its first input vector are the seed or files of the level, and
    the seed is among them when it is a file of the level with
    [smallest <= largest]. *)
Definition plan_of_seed `{Comparator} (cur : Version) (level : nat)
    (seed : FileMetaData) (c : Compaction.t) : Prop :=
  Compaction.level_ c = level /\
  (forall f, In f (level_files (Compaction.inputs_ c) 0) ->
     f = seed \/ In f (level_files (files_ cur) level)) /\
  (file_wf seed -> In seed (level_files (files_ cur) level) ->
   In seed (level_files (Compaction.inputs_ c) 0)).

(** A record of the descriptor that the reader returns and [DecodeFrom]
    accepts. *)
Definition decodes (item : ReadItem) : Prop :=
  match item with
  | ReadRecord OK _ => True
  | _ => False
  end.

(** ** Sample data

    A small database used to run the model: the bytewise comparator, no
    sublevels, table files of 5 bytes. *)

Definition no_sublevels : SublevelMode :=
  {| ReorganizeSublevels := fun _ _ _ => None;
     SetupSublevelInputs := fun _ _ _ => None |}.

Definition sample_key (k : string) (seq : Z) : InternalKey :=
  {| user_key := k; sequence := seq; kind := kTypeValue |}.

Definition sample_file (n size : Z) (first last : string) : FileMetaData :=
  {| allowed_seeks := 2 ^ 30; number := n; file_size := size; seq_off := 0;
     smallest := sample_key first 1; largest := sample_key last 1 |}.

Definition sample_options : Options :=
  {| enable_sublevel := false; rotating_manifest := false;
     enable_should_stop_before := false; level_factor := 10;
     table_file_size := 5; l0_compaction_trigger := 4;
     l1_compaction_trigger := 5; kMaxMemCompactLevel := 2 |}.

Definition sample_edit (deleted : list (nat * Z)) (new : list (nat * FileMetaData))
    (max_level : Z) : VersionEdit.t :=
  {| VersionEdit.comparator_ := None; VersionEdit.log_number_ := None;
     VersionEdit.prev_log_number_ := None;
     VersionEdit.next_file_number_ := None;
     VersionEdit.last_sequence_ := None;
     VersionEdit.compact_pointers_ := []; VersionEdit.deleted_files_ := deleted;
     VersionEdit.new_files_ := new; VersionEdit.updated_files_ := [];
     VersionEdit.truncate_key_ := InternalKey_empty;
     VersionEdit.max_level_ := max_level |}.

(** A database directory that holds MANIFEST-000001. *)
Definition sample_env : Env :=
  {| env_files := {[DescriptorFileName "db" 1]}; env_records := [] |}.

Definition sample_vs : VersionSet := VersionSet_new "db" sample_options sample_env.

(** A descriptor with one record, which supplies [log_number],
    [next_file_number] and [last_sequence] but no [prev_log_number]. *)
Definition sample_record : VersionEdit.t :=
  VersionEdit.SetLastSequence 50
    (VersionEdit.SetNextFile 10
       (VersionEdit.SetLogNumber 9
          (sample_edit [] [(1%nat, sample_file 7 10 "a" "c");
                           (3%nat, sample_file 8 1000 "b" "d")] 3))).

Definition sample_descriptor : list ReadItem := [ReadRecord OK sample_record].

Definition sample_recover_io : RecoverIO :=
  {| io_ReadCurrent := (OK, ""%string);
     io_NewSequentialFile := fun _ => OK;
     io_Records := fun _ => sample_descriptor |}.

(** The version set after recovery from that descriptor. *)
Definition sample_recovered : VersionSet :=
  match @Recover BytewiseComparator sample_recover_io sample_vs with
  | Some (_, vs) => vs
  | None => sample_vs
  end.

(** The plan of a manual compaction of level 1 of the recovered database,
    and the state after planning. *)
Definition sample_compaction : Compaction.t :=
  match @CompactRange BytewiseComparator 1 None None sample_recovered with
  | Some (Some (c, _)) => c
  | _ => (Compaction_new sample_options 1 sample_recovered).1
  end.

Definition sample_planned : VersionSet :=
  match @CompactRange BytewiseComparator 1 None None sample_recovered with
  | Some (Some (_, vs)) => vs
  | _ => sample_recovered
  end.

(** A second database, recovered from a descriptor with three tables of 3, 4
    and 4 bytes at level 1, and the plan of a manual compaction of its
    level 1. *)
Definition sample_wide_io : RecoverIO :=
  {| io_ReadCurrent := (OK, ""%string);
     io_NewSequentialFile := fun _ => OK;
     io_Records := fun _ =>
       [ReadRecord OK
          (VersionEdit.SetLastSequence 50
             (VersionEdit.SetNextFile 10
                (VersionEdit.SetLogNumber 9
                   (sample_edit [] [(1%nat, sample_file 7 3 "a" "c");
                                    (1%nat, sample_file 9 4 "d" "f");
                                    (1%nat, sample_file 8 4 "g" "i")] 1))))] |}.

Definition sample_wide : VersionSet :=
  match @Recover BytewiseComparator sample_wide_io sample_vs with
  | Some (_, vs) => vs
  | None => sample_vs
  end.

Definition sample_wide_compaction : Compaction.t :=
  match @CompactRange BytewiseComparator 1 None None sample_wide with
  | Some (Some (c, _)) => c
  | _ => (Compaction_new sample_options 1 sample_wide).1
  end.

Definition sample_wide_planned : VersionSet :=
  match @CompactRange BytewiseComparator 1 None None sample_wide with
  | Some (Some (_, vs)) => vs
  | _ => sample_wide
  end.

(** A MANIFEST on which appending a record fails. *)
Definition sample_failing_io : ManifestIO :=
  {| io_NewWritableFile := OK; io_WriteSnapshot := OK;
     io_AddRecord := IOError "disk full"; io_Sync := OK;
     io_SetCurrentFile := OK |}.

Definition sample_working_io : ManifestIO :=
  {| io_NewWritableFile := OK; io_WriteSnapshot := OK; io_AddRecord := OK;
     io_Sync := OK; io_SetCurrentFile := OK |}.

(** Four new tables at level 0, which reach the level-0 trigger. *)
Definition sample_flush : VersionEdit.t :=
  sample_edit []
    [(0%nat, sample_file 11 3 "a" "b"); (0%nat, sample_file 12 3 "c" "d");
     (0%nat, sample_file 13 3 "e" "f"); (0%nat, sample_file 14 3 "g" "h")] 0.

Definition sample_flushed : VersionSet :=
  match @LogAndApply BytewiseComparator no_sublevels sample_flush
          sample_working_io sample_recovered with
  | Some (_, _, vs) => vs
  | None => sample_recovered
  end.

Definition sample_current : Version :=
  default (Version_new sample_options) (current_version sample_flushed).

(** Two edits of level 1: the first adds the tables 7 and 8, the second
    replaces table 7 by table 9. *)
Definition sample_edits : list VersionEdit.t :=
  [sample_edit [] [(1%nat, sample_file 8 4 "g" "i");
                   (1%nat, sample_file 7 4 "a" "c")] 1;
   sample_edit [(1%nat, 7)] [(1%nat, sample_file 9 4 "d" "f")] 1].

Definition sample_level : list FileMetaData :=
  [sample_file 7 4 "a" "c"; sample_file 9 4 "d" "f"; sample_file 8 4 "g" "i"].

Definition sample_level0 : list (list FileMetaData) :=
  [[sample_file 11 3 "a" "c"; sample_file 12 3 "f" "h";
    sample_file 13 3 "b" "e"; sample_file 14 3 "k" "m"]; []].

Definition sample_base : Version :=
  default (Version_new sample_options) (current_version sample_recovered).

(** An edit that adds one table of [size] bytes at level 1 to an empty
    builder. *)
Definition sample_add (size : Z) : VersionEdit.t :=
  sample_edit [] [(1%nat, sample_file 7 size "a" "c")] 1.

Definition sample_builder : Builder :=
  Builder_new (files_ (Version_new sample_options)).

(** Four levels, of which level 1 holds the three tables of [sample_level]. *)
Definition sample_levels : list (list FileMetaData) := [[]; sample_level; []; []].

(** The levels of a version with the tables 7 and 8 at level 1, and the edit
    that replaces table 7 by table 9. *)
Definition sample_base_levels : list (list FileMetaData) :=
  [[]; [sample_file 7 4 "a" "c"; sample_file 8 4 "g" "i"]; []].

Definition sample_replace : VersionEdit.t :=
  sample_edit [(1%nat, 7)] [(1%nat, sample_file 9 4 "d" "f")] 1.

Definition sample_wide_base : Version :=
  default (Version_new sample_options) (current_version sample_wide).

(** A coding for running the block builder: varints of seven bits a byte,
    least significant first, and little-endian fixed words.  The checksum is
    a stand-in. *)
Definition byte_of_Z (x : Z) : Byte.byte :=
  default Byte.x00 (Byte.of_N (Z.to_N (x mod 256))).

Definition Z_of_byte (b : Byte.byte) : Z := Z.of_N (Byte.to_N b).

Fixpoint sample_PutVarint (fuel : nat) (v : Z) : list Byte.byte :=
  match fuel with
  | O => []
  | S fuel' =>
      if v <? 128 then [byte_of_Z v]
      else byte_of_Z (v mod 128 + 128) :: sample_PutVarint fuel' (v / 128)
  end.

Fixpoint sample_GetVarint (fuel : nat) (unit result : Z) (p : list Byte.byte)
  : option (Z * list Byte.byte) :=
  match fuel, p with
  | S fuel', b :: p' =>
      if 128 <=? Z_of_byte b
      then sample_GetVarint fuel' (unit * 128)
             (result + (Z_of_byte b - 128) * unit) p'
      else Some (result + Z_of_byte b * unit, p')
  | _, _ => None
  end.

Definition sample_coding : Coding :=
  {| PutVarint32 := sample_PutVarint 5;
     GetVarint32 := sample_GetVarint 5 1 0;
     PutFixed32 := fun x => [byte_of_Z x; byte_of_Z (x / 2 ^ 8);
                             byte_of_Z (x / 2 ^ 16); byte_of_Z (x / 2 ^ 24)];
     crc32c_Value := fun data => Z.of_nat (length data);
     crc32c_Extend := fun crc data => crc + Z.of_nat (length data);
     crc32c_Mask := fun crc => crc |}.

(** Three entries with keys that share prefixes. *)
Definition sample_entries : list (list Byte.byte * list Byte.byte) :=
  [(list_byte_of_string "apple", list_byte_of_string "1");
   (list_byte_of_string "apply", list_byte_of_string "22");
   (list_byte_of_string "bat", list_byte_of_string "")].

Definition sample_block : BlockBuilder.t :=
  @BlockBuilder.AddAll sample_coding sample_entries (BlockBuilder.new 2).

(** A third database, with the check of the grandparents enabled: one table
    at level 1 and three tables of 30 bytes at level 3; the plan of a manual
    compaction of its level 1, and the plan after its first key. *)
Definition sample_stop_options : Options :=
  {| enable_sublevel := false; rotating_manifest := false;
     enable_should_stop_before := true; level_factor := 10;
     table_file_size := 5; l0_compaction_trigger := 4;
     l1_compaction_trigger := 5; kMaxMemCompactLevel := 2 |}.

Definition sample_stop_io : RecoverIO :=
  {| io_ReadCurrent := (OK, ""%string);
     io_NewSequentialFile := fun _ => OK;
     io_Records := fun _ =>
       [ReadRecord OK
          (VersionEdit.SetLastSequence 50
             (VersionEdit.SetNextFile 30
                (VersionEdit.SetLogNumber 9
                   (sample_edit [] [(1%nat, sample_file 7 10 "a" "z");
                                    (3%nat, sample_file 21 30 "b" "c");
                                    (3%nat, sample_file 22 30 "e" "f");
                                    (3%nat, sample_file 23 30 "h" "i")] 3))))] |}.

Definition sample_stop : VersionSet :=
  match @Recover BytewiseComparator sample_stop_io
          (VersionSet_new "db" sample_stop_options sample_env) with
  | Some (_, vs) => vs
  | None => sample_vs
  end.

Definition sample_stop_compaction : Compaction.t :=
  match @CompactRange BytewiseComparator 1 None None sample_stop with
  | Some (Some (c, _)) => c
  | _ => (Compaction_new sample_stop_options 1 sample_stop).1
  end.

Definition sample_stop_planned : VersionSet :=
  match @CompactRange BytewiseComparator 1 None None sample_stop with
  | Some (Some (_, vs)) => vs
  | _ => sample_stop
  end.

Definition sample_stop_started : Compaction.t :=
  match @ShouldStopBefore BytewiseComparator (sample_key "a" 1)
          sample_stop_compaction sample_stop_planned with
  | Some (_, c) => c
  | None => sample_stop_compaction
  end.

Definition sample_stop_version : Version :=
  default (Version_new sample_stop_options) (current_version sample_stop_planned).

(** A database directory whose descriptor cannot be opened. *)
Definition sample_unreadable_io : RecoverIO :=
  {| io_ReadCurrent := (OK, ""%string);
     io_NewSequentialFile := fun _ => IOError "unreadable";
     io_Records := fun _ => sample_descriptor |}.

(** A callback that notes the level and the number of every file it is
    offered and never stops the search. *)
Definition sample_note (seen : list (nat * Z)) (level : nat) (f : FileMetaData)
  : list (nat * Z) * bool :=
  (seen ++ [(level, number f)], true).

(** A file held in memory: its state is what is left to read. *)
#[local] Instance sample_file_in_memory : SequentialFile (list Byte.byte) :=
  {| Read := fun rest n => (OK, take (Z.to_nat n) rest, drop (Z.to_nat n) rest) |}.

Definition sample_path : list ascii := list_ascii_of_string "/db/MANIFEST-000001".

(** * Properties *)

(** ** Laws of comparators *)

Section CmpTheory.
Context {A : Type} (cmp : A -> A -> comparison) {L : CmpLaws cmp}.

Lemma cmp_gt_lt a b : cmp a b = Gt <-> cmp b a = Lt.
Proof. rewrite (cmp_antisym (cmp:=cmp) a b). destruct (cmp a b); simpl; split; congruence. Qed.

Lemma cmp_eq_sym a b : cmp a b = Eq -> cmp b a = Eq.
Proof. intros E. rewrite (cmp_antisym (cmp:=cmp) a b), E. reflexivity. Qed.

Lemma cmp_lt_le_trans a b c : cmp a b = Lt -> cmp b c <> Gt -> cmp a c = Lt.
Proof.
  intros Hab Hbc.
  assert (Hac : cmp a c <> Gt) by (apply (cmp_le_trans (cmp:=cmp) a b c); congruence).
  destruct (cmp a c) eqn:E; try congruence.
  exfalso. apply (cmp_le_trans (cmp:=cmp) b c a); try assumption.
  - rewrite (cmp_eq_sym _ _ E). discriminate.
  - apply cmp_gt_lt. assumption.
Qed.

Lemma cmp_le_lt_trans a b c : cmp a b <> Gt -> cmp b c = Lt -> cmp a c = Lt.
Proof.
  intros Hab Hbc.
  assert (Hac : cmp a c <> Gt) by (apply (cmp_le_trans (cmp:=cmp) a b c); congruence).
  destruct (cmp a c) eqn:E; try congruence.
  exfalso. apply (cmp_le_trans (cmp:=cmp) c a b); try assumption.
  - rewrite (cmp_eq_sym _ _ E). discriminate.
  - apply cmp_gt_lt. assumption.
Qed.

Lemma cmp_lt_trans a b c : cmp a b = Lt -> cmp b c = Lt -> cmp a c = Lt.
Proof. intros Hab Hbc. apply (cmp_lt_le_trans a b c); congruence. Qed.

Lemma cmp_eq_trans a b c : cmp a b = Eq -> cmp b c = Eq -> cmp a c = Eq.
Proof.
  intros Hab Hbc.
  assert (H1 : cmp a c <> Gt) by (apply (cmp_le_trans (cmp:=cmp) a b c); congruence).
  assert (H2 : cmp c a <> Gt).
  { apply (cmp_le_trans (cmp:=cmp) c b a).
    - rewrite (cmp_eq_sym _ _ Hbc). discriminate.
    - rewrite (cmp_eq_sym _ _ Hab). discriminate. }
  destruct (cmp a c) eqn:E; try congruence.
  exfalso. apply H2. apply cmp_gt_lt. assumption.
Qed.

Lemma cmp_lt_irrefl a : cmp a a <> Lt.
Proof. rewrite (cmp_refl (cmp:=cmp)). discriminate. Qed.

Lemma cmp_not_lt_ge a b : cmp a b <> Lt <-> cmp b a <> Gt.
Proof. rewrite cmp_gt_lt. tauto. Qed.
End CmpTheory.

(** The bytewise comparator is a total order. *)
Lemma String_compare_laws : CmpLaws String.compare.
Proof.
  split.
  - intros a. apply String_as_OT.cmp_eq. reflexivity.
  - intros a b. apply String_as_OT.cmp_antisym.
  - intros a b c Hab Hbc Hac.
    assert (Hca : String_as_OT.lt c a).
    { apply String_as_OT.cmp_lt. unfold String_as_OT.cmp.
      rewrite String_as_OT.cmp_antisym. unfold String_as_OT.cmp.
      rewrite Hac. reflexivity. }
    destruct (String.compare a b) eqn:Eab; try congruence.
    + apply String_as_OT.cmp_eq in Eab. subst b.
      destruct (String.compare a c) eqn:E; congruence.
    + apply String_as_OT.cmp_lt in Eab.
      assert (Hcb : String_as_OT.lt c b)
        by (eapply String_as_OT.lt_trans; eassumption).
      apply String_as_OT.cmp_lt in Hcb. unfold String_as_OT.cmp in Hcb.
      apply Hbc. rewrite String_as_OT.cmp_antisym. unfold String_as_OT.cmp.
      rewrite Hcb. reflexivity.
Qed.

Lemma BytewiseComparator_laws : CmpLaws (@Compare BytewiseComparator).
Proof. exact String_compare_laws. Qed.

(** The internal-key comparator inherits the order laws of the user
    comparator. *)
Lemma icmp_laws `{Comparator} : CmpLaws Compare -> CmpLaws icmp_Compare.
Proof.
  intros L. split.
  - intros a. unfold icmp_Compare. rewrite (cmp_refl (cmp:=Compare)). apply Z.compare_refl.
  - intros a b. unfold icmp_Compare.
    rewrite (cmp_antisym (cmp:=Compare) (user_key a) (user_key b)).
    destruct (Compare (user_key a) (user_key b)); simpl; try reflexivity.
    apply Z.compare_antisym.
  - intros a b c. unfold icmp_Compare.
    destruct (Compare (user_key a) (user_key b)) eqn:Eab;
      destruct (Compare (user_key b) (user_key c)) eqn:Ebc;
      try congruence; intros Hab Hbc.
    + rewrite (cmp_eq_trans Compare _ _ _ Eab Ebc).
      rewrite Z.compare_gt_iff in *. lia.
    + rewrite (cmp_le_lt_trans Compare (user_key a) (user_key b) (user_key c));
        congruence.
    + rewrite (cmp_lt_le_trans Compare (user_key a) (user_key b) (user_key c));
        congruence.
    + rewrite (cmp_lt_trans Compare _ _ _ Eab Ebc). discriminate.
Qed.

(** ** FindFile *)


Lemma uint32_small x : 0 <= x < 2 ^ 32 -> uint32 x = x.
Proof. intros. unfold uint32. apply Z.mod_small. assumption. Qed.

Lemma int32_small x : 0 <= x < 2 ^ 31 -> int32 x = x.
Proof. intros. unfold int32. rewrite Z.mod_small; lia. Qed.

Lemma FindFile_loop_spec `{Comparator} (L : CmpLaws Compare) files key :
  sorted_by_largest files ->
  Z.of_nat (length files) < 2 ^ 31 ->
  forall fuel left right,
    0 <= left <= right -> right <= Z.of_nat (length files) ->
    right - left <= Z.of_nat fuel ->
    (forall j f, files !! j = Some f -> Z.of_nat j < left ->
       icmp_Compare (largest f) key = Lt) ->
    (forall j f, files !! j = Some f -> right <= Z.of_nat j ->
       icmp_Compare (largest f) key <> Lt) ->
    exists i, FindFile_loop fuel files key left right = Some i /\
      left <= i <= right /\
      (forall j f, files !! j = Some f -> Z.of_nat j < i ->
         icmp_Compare (largest f) key = Lt) /\
      (forall j f, files !! j = Some f -> i <= Z.of_nat j ->
         icmp_Compare (largest f) key <> Lt).
Proof.
  intros Hsorted Hsize. pose proof (icmp_laws L) as LI.
  induction fuel as [|fuel IH]; intros left right Hlr Hr Hfuel Hlo Hhi.
  - assert (left = right) by lia. subst. simpl.
    rewrite Z.ltb_irrefl. exists right. repeat split; auto; lia.
  - simpl. destruct (Z.ltb_spec left right) as [Hlt|Hge].
    2:{ assert (left = right) by lia. subst. exists right.
        repeat split; auto; lia. }
    rewrite (uint32_small (left + right)) by lia.
    assert (Hmid : left <= (left + right) / 2 < right).
    { split; [apply Z.div_le_lower_bound | apply Z.div_lt_upper_bound]; lia. }
    set (mid := (left + right) / 2) in *.
    destruct (files !! Z.to_nat mid) as [f|] eqn:Ef.
    2:{ apply lookup_ge_None in Ef. lia. }
    destruct (icmp_Compare (largest f) key) eqn:Ec; simpl.
    + destruct (IH left mid) as (i & Hi & Hb & H1 & H2); try lia; auto.
      { intros j g Hg Hj. assert (Hle : (Z.to_nat mid <= j)%nat) by lia.
        pose proof (Hsorted _ _ _ _ Hle Ef Hg) as Hs. intros Hc.
        rewrite (cmp_le_lt_trans icmp_Compare _ _ _ Hs Hc) in Ec. discriminate. }
      exists i. repeat split; auto; lia.
    + rewrite (uint32_small (mid + 1)) by lia.
      destruct (IH (mid + 1) right) as (i & Hi & Hb & H1 & H2); try lia; auto.
      { intros j g Hg Hj. assert (Hle : (j <= Z.to_nat mid)%nat) by lia.
        pose proof (Hsorted _ _ _ _ Hle Hg Ef) as Hs.
        apply (cmp_le_lt_trans icmp_Compare _ _ _ Hs Ec). }
      exists i. repeat split; auto; lia.
    + destruct (IH left mid) as (i & Hi & Hb & H1 & H2); try lia; auto.
      { intros j g Hg Hj. assert (Hle : (Z.to_nat mid <= j)%nat) by lia.
        pose proof (Hsorted _ _ _ _ Hle Ef Hg) as Hs. intros Hc.
        rewrite (cmp_le_lt_trans icmp_Compare _ _ _ Hs Hc) in Ec. discriminate. }
      exists i. repeat split; auto; lia.
Qed.

(** C9.  On a vector of files sorted ascending by largest key whose size fits
    the index type of the search, [FindFile] returns the smallest index whose
    file has a largest key at or after [key], and the size of the vector when
    there is none: every file before the index has a largest key before
    [key], every file from the index on has not. *)
Theorem FindFile_smallest_index `{Comparator} (L : CmpLaws Compare)
    (files : list FileMetaData) (key : InternalKey) :
  Z.of_nat (length files) < 2 ^ 31 ->
  sorted_by_largest files ->
  exists i : nat,
    FindFile files key = Some (Z.of_nat i) /\ (i <= length files)%nat /\
    (forall j f, files !! j = Some f -> (j < i)%nat ->
       icmp_Compare (largest f) key = Lt) /\
    (forall j f, files !! j = Some f -> (i <= j)%nat ->
       icmp_Compare (largest f) key <> Lt).
Proof.
  intros Hsize Hsorted.
  destruct (FindFile_loop_spec L files key Hsorted Hsize (S (length files)) 0
              (Z.of_nat (length files))) as (i & Hi & Hb & H1 & H2);
    try lia.
  - intros j f Hf Hj. apply lookup_lt_Some in Hf. lia.
  - unfold FindFile. rewrite (uint32_small (Z.of_nat (length files))) by lia.
    rewrite Hi. simpl. exists (Z.to_nat i).
    rewrite int32_small by lia. rewrite Z2Nat.id by lia.
    repeat split; try lia.
    + intros j f Hf Hj. apply (H1 j f Hf). lia.
    + intros j f Hf Hj. apply (H2 j f Hf). lia.
Qed.

(** ** GetOverlappingInputs at level 0 *)

Section Overlap.
Context `{Comparator} (L : CmpLaws Compare).










Lemma filter_length_le {A} (p : A -> bool) l :
  (length (List.filter p l) <= length l)%nat.
Proof. induction l as [|x l IH]; simpl; [lia|]. destruct (p x); simpl; lia. Qed.

Lemma filter_length_mono {A} (p q : A -> bool) l :
  (forall x, In x l -> p x = true -> q x = true) ->
  (length (List.filter p l) <= length (List.filter q l))%nat.
Proof.
  induction l as [|x l IH]; simpl; intros Hpq; [lia|].
  assert (IH' := IH (fun y Hy => Hpq y (or_intror Hy))).
  destruct (p x) eqn:Ep.
  - rewrite (Hpq x (or_introl eq_refl) Ep). simpl. lia.
  - destruct (q x); simpl; lia.
Qed.

Lemma filter_length_lt {A} (p q : A -> bool) l x :
  (forall y, In y l -> p y = true -> q y = true) ->
  In x l -> p x = false -> q x = true ->
  (length (List.filter p l) < length (List.filter q l))%nat.
Proof.
  induction l as [|y l IH]; simpl; intros Hpq Hin Hp Hq; [tauto|].
  assert (Hpq' : forall z, In z l -> p z = true -> q z = true)
    by (intros z Hz; apply Hpq; right; exact Hz).
  destruct Hin as [->|Hin].
  - rewrite Hp, Hq. simpl.
    pose proof (filter_length_mono p q l Hpq'). lia.
  - specialize (IH Hpq' Hin Hp Hq).
    destruct (p y) eqn:Ep.
    + rewrite (Hpq y (or_introl eq_refl) Ep). simpl. lia.
    + destruct (q y); simpl; lia.
Qed.

Lemma range_measure_bound all ub ue :
  (range_measure all ub ue <= 2 * length all)%nat.
Proof.
  unfold range_measure.
  pose proof (filter_length_le (extends_begin ub) all).
  pose proof (filter_length_le (extends_end ue) all). lia.
Qed.

Lemma is_lt_true c : is_lt c = true <-> c = Lt.
Proof. destruct c; simpl; split; congruence. Qed.

Lemma is_gt_true c : is_gt c = true <-> c = Gt.
Proof. destruct c; simpl; split; congruence. Qed.

Lemma is_lt_false c : is_lt c = false <-> c <> Lt.
Proof. destruct c; simpl; split; congruence. Qed.

Lemma is_gt_false c : is_gt c = false <-> c <> Gt.
Proof. destruct c; simpl; split; congruence. Qed.

(** Moving the lower bound down onto the start of a file lowers the
    measure. *)
Lemma measure_begin_decreases all b ue f :
  In f all -> Compare (user_key (smallest f)) b = Lt ->
  (range_measure all (Some (user_key (smallest f))) ue
   < range_measure all (Some b) ue)%nat.
Proof.
  intros Hin Hlt. unfold range_measure.
  enough (length (List.filter (extends_begin (Some (user_key (smallest f)))) all)
          < length (List.filter (extends_begin (Some b)) all))%nat by lia.
  apply filter_length_lt with (x := f); auto; simpl.
  - intros g _ Hg. apply is_lt_true in Hg. apply is_lt_true.
    eapply (cmp_lt_trans Compare); eassumption.
  - apply is_lt_false. rewrite (cmp_refl (cmp:=Compare)). discriminate.
  - apply is_lt_true. assumption.
Qed.

Lemma measure_end_decreases all ub e f :
  In f all -> Compare (user_key (largest f)) e = Gt ->
  (range_measure all ub (Some (user_key (largest f)))
   < range_measure all ub (Some e))%nat.
Proof.
  intros Hin Hgt. unfold range_measure.
  enough (length (List.filter (extends_end (Some (user_key (largest f)))) all)
          < length (List.filter (extends_end (Some e)) all))%nat by lia.
  apply filter_length_lt with (x := f); auto; simpl.
  - intros g _ Hg. apply is_gt_true in Hg. apply is_gt_true.
    apply (cmp_gt_lt Compare) in Hg. apply (cmp_gt_lt Compare) in Hgt.
    apply (cmp_gt_lt Compare).
    eapply (cmp_lt_trans Compare); eassumption.
  - apply is_gt_false. rewrite (cmp_refl (cmp:=Compare)). discriminate.
  - apply is_gt_true. assumption.
Qed.

(** Widening a range keeps the files that overlap it. *)
Lemma file_overlaps_wider ub ue ub' ue' f :
  begin_le ub' ub -> end_le ue ue' ->
  file_overlaps ub ue f = true -> file_overlaps ub' ue' f = true.
Proof.
  unfold file_overlaps, begin_le, end_le. intros Hb He Ho.
  apply andb_true_iff in Ho as [Ho1 Ho2].
  apply negb_true_iff in Ho1, Ho2. apply andb_true_iff.
  split; apply negb_true_iff.
  - destruct ub' as [b'|]; simpl; [|reflexivity].
    destruct ub as [b|]; [|tauto]. simpl in Ho1.
    apply is_lt_false in Ho1. apply is_lt_false. intros Hc.
    apply Ho1. eapply (cmp_lt_le_trans Compare); eassumption.
  - destruct ue' as [e'|]; simpl; [|reflexivity].
    destruct ue as [e|]; [|tauto]. simpl in Ho2.
    apply is_gt_false in Ho2. apply is_gt_false. intros Hc.
    apply Ho2. apply (cmp_gt_lt Compare). apply (cmp_gt_lt Compare) in Hc.
    eapply (cmp_le_lt_trans Compare); eassumption.
Qed.
(** The loop, started anywhere in a sweep with enough rounds left, ends in
    the overlap-closed range. *)
Lemma GetOverlappingInputs_loop_spec (all : list FileMetaData)
    (ub0 ue0 : option string) :
  forall fuel done rest ub ue inputs,
    all = done ++ rest ->
    inputs = List.filter (file_overlaps ub ue) done ->
    (forall f, In f done -> file_overlaps ub ue f = true ->
       extends_begin ub f = false /\ extends_end ue f = false) ->
    (range_measure all ub ue * S (length all) + length rest <= fuel)%nat ->
    begin_le ub ub0 -> end_le ue0 ue ->
    (forall ub2 ue2, begin_le ub2 ub0 -> end_le ue0 ue2 ->
       closed_range all ub2 ue2 -> begin_le ub2 ub /\ end_le ue ue2) ->
    exists result ub' ue',
      GetOverlappingInputs_loop fuel 0 all rest ub ue inputs = Some result /\
      result = List.filter (file_overlaps ub' ue') all /\
      closed_range all ub' ue' /\
      begin_le ub' ub0 /\ end_le ue0 ue' /\
      (forall ub2 ue2, begin_le ub2 ub0 -> end_le ue0 ue2 ->
         closed_range all ub2 ue2 -> begin_le ub2 ub' /\ end_le ue' ue2).
Proof.
  induction fuel as [|fuel IH]; intros done rest ub ue inputs Hall Hin Hcl Hfuel
    Hb He Hmin.
  - assert (rest = []) by (destruct rest; simpl in Hfuel; [reflexivity|lia]).
    subst rest. rewrite app_nil_r in Hall. subst done. simpl.
    exists inputs, ub, ue. split; [reflexivity|]. split; [exact Hin|].
    split; [exact Hcl|]. auto.
  - destruct rest as [|f rest].
    { rewrite app_nil_r in Hall. subst done. simpl.
      exists inputs, ub, ue. split; [reflexivity|]. split; [exact Hin|].
      split; [exact Hcl|]. auto. }
    assert (Hf : In f all) by (subst all; apply in_or_app; right; left; reflexivity).
    assert (Hnext : all = (done ++ [f]) ++ rest)
      by (rewrite <- app_assoc; exact Hall).
    simpl in Hfuel.
    cbn [GetOverlappingInputs_loop Nat.eqb].
    change (match ub with
            | Some b => is_lt (Compare (user_key (largest f)) b)
            | None => false end) with (before_range ub f).
    change (match ue with
            | Some e => is_gt (Compare (user_key (smallest f)) e)
            | None => false end) with (after_range ue f).
    change (match ub with
            | Some b => is_lt (Compare (user_key (smallest f)) b)
            | None => false end) with (extends_begin ub f).
    change (match ue with
            | Some e => is_gt (Compare (user_key (largest f)) e)
            | None => false end) with (extends_end ue f).
    destruct (before_range ub f) eqn:Ebef.
    { apply (IH (done ++ [f])); auto; try lia.
      - rewrite List.filter_app. simpl. unfold file_overlaps at 2.
        rewrite Ebef. simpl. rewrite app_nil_r. exact Hin.
      - intros g Hg Ho. apply in_app_or in Hg as [Hg|[<-|[]]]; auto.
        unfold file_overlaps in Ho. rewrite Ebef in Ho. discriminate. }
    destruct (after_range ue f) eqn:Eaft.
    { apply (IH (done ++ [f])); auto; try lia.
      - rewrite List.filter_app. simpl. unfold file_overlaps at 2.
        rewrite Ebef, Eaft. simpl. rewrite app_nil_r. exact Hin.
      - intros g Hg Ho. apply in_app_or in Hg as [Hg|[<-|[]]]; auto.
        unfold file_overlaps in Ho. rewrite Ebef, Eaft in Ho. discriminate. }
    assert (Hov : file_overlaps ub ue f = true)
      by (unfold file_overlaps; rewrite Ebef, Eaft; reflexivity).
    destruct (extends_begin ub f) eqn:Eb.
    { destruct ub as [b|]; [|discriminate]. simpl in Eb.
      apply is_lt_true in Eb.
      pose proof (measure_begin_decreases all b ue f Hf Eb) as Hm.
      apply (IH [] all); auto.
      - intros g [].
      - nia.
      - destruct ub0 as [b0|]; simpl in *; [|tauto].
        rewrite (cmp_lt_le_trans Compare _ _ _ Eb Hb). discriminate.
      - intros ub2 ue2 Hb2 He2 Hc2.
        destruct (Hmin ub2 ue2 Hb2 He2 Hc2) as [Hb3 He3]. split; [|exact He3].
        assert (Ho2 : file_overlaps ub2 ue2 f = true)
          by (eapply file_overlaps_wider; eauto).
        destruct (Hc2 f Hf Ho2) as [Hx _].
        destruct ub2 as [b2|]; simpl in *; [|exact I].
        apply is_lt_false in Hx. apply (cmp_not_lt_ge Compare). exact Hx. }
    destruct (extends_end ue f) eqn:Ee.
    { destruct ue as [e|]; [|discriminate]. simpl in Ee.
      apply is_gt_true in Ee.
      pose proof (measure_end_decreases all ub e f Hf Ee) as Hm.
      apply (IH [] all); auto.
      - intros g [].
      - nia.
      - destruct ue0 as [e0|]; simpl in *; [|tauto].
        apply (cmp_gt_lt Compare) in Ee.
        rewrite (cmp_le_lt_trans Compare _ _ _ He Ee). discriminate.
      - intros ub2 ue2 Hb2 He2 Hc2.
        destruct (Hmin ub2 ue2 Hb2 He2 Hc2) as [Hb3 He3]. split; [exact Hb3|].
        assert (Ho2 : file_overlaps ub2 ue2 f = true)
          by (eapply file_overlaps_wider; eauto).
        destruct (Hc2 f Hf Ho2) as [_ Hx].
        destruct ue2 as [e2|]; simpl in *; [|exact I].
        apply is_gt_false in Hx. exact Hx. }
    apply (IH (done ++ [f])); auto; try lia.
    + rewrite List.filter_app. simpl. rewrite Hov. subst inputs. reflexivity.
    + intros g Hg Ho. apply in_app_or in Hg as [Hg|[<-|[]]]; auto.
Qed.
End Overlap.

(** C5.  At level 0 [GetOverlappingInputs] stops within its quadratic bound
    of rounds and returns exactly the level-0 files that overlap an expanded
    range [ub', ue'] of user keys.  The expanded range contains the query
    range, no file that overlaps it reaches outside it, and it lies inside
    every range with these two properties: it is the closure of the query
    range under overlap.  Hence the result is closed under overlap: a level-0
    file that overlaps a returned file is returned. *)
Theorem GetOverlappingInputs_level0_closure `{Comparator}
    (L : CmpLaws Compare) (files : list (list FileMetaData))
    (begin_ end_ : option InternalKey) :
  exists result ub' ue',
    GetOverlappingInputs files 0 begin_ end_ = Some result /\
    result = List.filter (file_overlaps ub' ue') (level_files files 0) /\
    closed_range (level_files files 0) ub' ue' /\
    begin_le ub' (user_key <$> begin_) /\ end_le (user_key <$> end_) ue' /\
    (forall ub2 ue2,
       begin_le ub2 (user_key <$> begin_) -> end_le (user_key <$> end_) ue2 ->
       closed_range (level_files files 0) ub2 ue2 ->
       begin_le ub2 ub' /\ end_le ue' ue2) /\
    (forall f g, In f result -> In g (level_files files 0) ->
       Compare (user_key (smallest g)) (user_key (largest f)) <> Gt ->
       Compare (user_key (smallest f)) (user_key (largest g)) <> Gt ->
       In g result).
Proof.
  set (all := level_files files 0).
  set (ub0 := user_key <$> begin_). set (ue0 := user_key <$> end_).
  destruct (GetOverlappingInputs_loop_spec L all ub0 ue0
              (GetOverlappingInputs_fuel (length all)) [] all ub0 ue0 [])
    as (result & ub' & ue' & Hrun & Hres & Hcl & Hb & He & Hmin); auto.
  - intros f [].
  - unfold GetOverlappingInputs_fuel.
    pose proof (range_measure_bound all ub0 ue0). nia.
  - destruct ub0; simpl; auto. rewrite (cmp_refl (cmp:=Compare)). discriminate.
  - destruct ue0; simpl; auto. rewrite (cmp_refl (cmp:=Compare)). discriminate.
  - exists result, ub', ue'. repeat (split; [assumption|]).
    intros f g Hf Hg Hgf Hfg. subst result.
    apply filter_In in Hf as [Hf Hof]. apply filter_In. split; [exact Hg|].
    destruct (Hcl f Hf Hof) as [Hxb Hxe].
    unfold file_overlaps. apply andb_true_iff. split; apply negb_true_iff.
    + destruct ub' as [b|]; simpl in *; [|reflexivity].
      apply is_lt_false in Hxb. apply is_lt_false. intros Hc.
      apply Hxb. eapply (cmp_le_lt_trans Compare); eassumption.
    + destruct ue' as [e|]; simpl in *; [|reflexivity].
      apply is_gt_false in Hxe. apply is_gt_false. intros Hc.
      apply (cmp_gt_lt Compare) in Hc.
      assert (Hlt : Compare (user_key (largest f)) (user_key (smallest g)) = Lt)
        by (eapply (cmp_le_lt_trans Compare); eassumption).
      apply Hgf. apply (cmp_gt_lt Compare). exact Hlt.
Qed.

(** ** The seek budget of new files *)

Lemma lookup_grow_empty (ls : list LevelState) n level :
  default LevelState_empty (grow n LevelState_empty ls !! level)
  = default LevelState_empty (ls !! level).
Proof.
  unfold grow. destruct (decide (level < length ls)%nat) as [Hlt|Hge].
  - rewrite lookup_app_l by exact Hlt. reflexivity.
  - rewrite lookup_app_r by lia. rewrite (lookup_ge_None_2 ls level) by lia.
    destruct (replicate (n - length ls) LevelState_empty !! (level - length ls)%nat)
      as [x|] eqn:E; [|reflexivity].
    apply lookup_replicate in E as [-> _]. reflexivity.
Qed.

Lemma default_alter (g : LevelState -> LevelState) (ls : list LevelState) l level :
  default LevelState_empty (alter g l ls !! level)
  = if decide (l = level /\ (level < length ls)%nat)
    then g (default LevelState_empty (ls !! level))
    else default LevelState_empty (ls !! level).
Proof.
  destruct (decide (l = level /\ (level < length ls)%nat)) as [[-> Hlt]|Hn].
  - rewrite list_lookup_alter_eq.
    destruct (lookup_lt_is_Some_2 ls level Hlt) as [x ->]. reflexivity.
  - destruct (decide (l = level)) as [->|Hne].
    + rewrite list_lookup_alter_eq. rewrite (lookup_ge_None_2 ls level) by lia.
      reflexivity.
    + rewrite list_lookup_alter_ne by exact Hne. reflexivity.
Qed.

Lemma In_FileSet_insert `{Comparator} f s x :
  In x (FileSet_insert f s) -> x = f \/ In x s.
Proof.
  induction s as [|g s IH]; simpl.
  - intros [<-|[]]. left. reflexivity.
  - destruct (BySmallestKey f g); simpl.
    + intros [<-|[<-|Hx]]; auto.
    + destruct (BySmallestKey g f); simpl.
      * intros [<-|Hx]; auto. destruct (IH Hx); auto.
      * intros [<-|Hx]; auto.
Qed.

Lemma added_of_fold_deleted (dels : list (nat * Z)) ls level :
  added_of (fold_left (fun ls '(l, n) => alter (insert_deleted n) l ls) dels ls)
    level = added_of ls level.
Proof.
  revert ls. induction dels as [|[l n] dels IH]; intros ls; simpl; [reflexivity|].
  rewrite IH. unfold added_of. rewrite default_alter.
  destruct (decide _); reflexivity.
Qed.

Lemma added_of_fold_updated (upds : list (nat * Z)) ls level :
  added_of (fold_left (fun ls '(l, n) => alter (insert_updated n) l ls) upds ls)
    level = added_of ls level.
Proof.
  revert ls. induction upds as [|[l n] upds IH]; intros ls; simpl; [reflexivity|].
  rewrite IH. unfold added_of. rewrite default_alter.
  destruct (decide _); reflexivity.
Qed.

Lemma added_of_fold_added `{Comparator} (news : list (nat * FileMetaData)) ls level f :
  In f (added_of
          (fold_left
             (fun ls '(l, g) =>
                alter (insert_added
                         (set_allowed_seeks (initial_allowed_seeks (file_size g)) g))
                  l ls) news ls) level) ->
  In f (added_of ls level) \/
  exists f0, In (level, f0) news /\
    f = set_allowed_seeks (initial_allowed_seeks (file_size f0)) f0.
Proof.
  revert ls. induction news as [|[l g] news IH]; intros ls; simpl; [auto|].
  intros Hf. apply IH in Hf as [Hf|(f0 & Hin & ->)].
  - unfold added_of in Hf. rewrite default_alter in Hf.
    destruct (decide _) as [[-> _]|_]; [|auto]. simpl in Hf.
    apply In_FileSet_insert in Hf as [->|Hf]; [|auto].
    right. exists g. split; [left|]; reflexivity.
  - right. exists f0. split; [right; exact Hin|reflexivity].
Qed.

Lemma initial_allowed_seeks_max size :
  0 <= size < 2 ^ 45 -> initial_allowed_seeks size = Z.max 100 (size / 16384).
Proof.
  intros Hs. unfold initial_allowed_seeks.
  assert (0 <= size / 16384 < 2 ^ 31).
  { split; [apply Z.div_pos; lia|apply Z.div_lt_upper_bound; lia]. }
  rewrite int32_small by assumption.
  destruct (Z.ltb_spec (size / 16384) 100); lia.
Qed.

(** Every file that [Apply] adds to the builder is a new file of the edit
    whose seek budget has been set from its size; for a size below 2^45
    bytes, where [size / 16384] fits the 32-bit budget, the budget is
    [max 100 (size / 16384)], and a file of 16384 bytes gets 100. *)
Lemma Apply_allowed_seeks_below `{Comparator} (options : Options)
    (edit : VersionEdit.t) (b : Builder) (cp : list (option InternalKey))
    (level : nat) (f : FileMetaData) :
  In f (added_of (levels_ (Apply options edit (b, cp)).1) level) ->
  In f (added_of (levels_ b) level) \/
  exists f0, In (level, f0) (VersionEdit.new_files_ edit) /\
    f = set_allowed_seeks (initial_allowed_seeks (file_size f0)) f0 /\
    (0 <= file_size f0 < 2 ^ 45 ->
     allowed_seeks f = Z.max 100 (file_size f0 / 16384)) /\
    (file_size f0 = 16384 -> allowed_seeks f = 100).
Proof.
  unfold Apply. simpl. rewrite added_of_fold_updated. intros Hf.
  apply added_of_fold_added in Hf as [Hf|(f0 & Hin & ->)].
  - left. rewrite added_of_fold_deleted in Hf.
    destruct (enable_sublevel options); [exact Hf|].
    destruct (_ <=? _); [|exact Hf].
    unfold added_of in *. rewrite lookup_grow_empty in Hf. exact Hf.
  - right. exists f0. split; [exact Hin|]. split; [reflexivity|]. simpl. split.
    + apply initial_allowed_seeks_max.
    + intros ->. reflexivity.
Qed.

(** ** Levels without overlap *)

Lemma pairwise_app {A} (R : A -> A -> Prop) l1 l2 :
  pairwise R (l1 ++ l2) <->
  pairwise R l1 /\ pairwise R l2 /\ (forall x y, In x l1 -> In y l2 -> R x y).
Proof.
  induction l1 as [|a l1 IH]; simpl.
  - split; [intros Hp; repeat split; auto; intros x y []|tauto].
  - rewrite Forall_app, IH. rewrite !List.Forall_forall. split.
    + intros [[H1 H2] (H3 & H4 & H5)]. repeat split; auto.
      intros x y [<-|Hx] Hy; auto.
    + intros ([H1 H2] & H3 & H4). repeat split; auto.
Qed.

Lemma pairwise_impl {A} (R R' : A -> A -> Prop) l :
  (forall x y, In x l -> In y l -> R x y -> R' x y) ->
  pairwise R l -> pairwise R' l.
Proof.
  induction l as [|a l IH]; simpl; [auto|]. intros Himp [H1 H2]. split.
  - rewrite List.Forall_forall in *. intros y Hy. apply Himp; auto.
  - apply IH; auto.
Qed.

Lemma pairwise_filter {A} (R : A -> A -> Prop) (p : A -> bool) l :
  pairwise R l -> pairwise R (List.filter p l).
Proof.
  induction l as [|a l IH]; simpl; [auto|]. intros [H1 H2].
  destruct (p a); simpl; auto. split; auto.
  rewrite List.Forall_forall in *. intros y Hy. apply filter_In in Hy as [Hy _].
  auto.
Qed.

Lemma pairwise_lookup {A} (R : A -> A -> Prop) (l : list A) :
  pairwise R l ->
  forall i j x y, (i < j)%nat -> l !! i = Some x -> l !! j = Some y -> R x y.
Proof.
  induction l as [|a l IH]; simpl; intros Hp i j x y Hij Hi Hj.
  - rewrite lookup_nil in Hi. discriminate.
  - destruct Hp as [H1 H2]. destruct j as [|j]; [lia|]. simpl in Hj.
    destruct i as [|i]; simpl in Hi.
    + injection Hi as <-. rewrite List.Forall_forall in H1. apply H1.
      apply list_elem_of_In. eapply list_elem_of_lookup_2. exact Hj.
    + apply (IH H2 i j); auto. lia.
Qed.

Section Merge.
Context `{Comparator} (L : CmpLaws Compare).

Let LI : CmpLaws icmp_Compare := icmp_laws L.
#[local] Existing Instance LI.

Lemma BySmallestKey_true f g : BySmallestKey f g = true -> le_smallest f g.
Proof.
  unfold BySmallestKey, le_smallest.
  destruct (icmp_Compare (smallest f) (smallest g)); congruence.
Qed.

Lemma BySmallestKey_false f g : BySmallestKey f g = false -> le_smallest g f.
Proof.
  unfold BySmallestKey, le_smallest. intros Hb.
  apply (proj1 (cmp_not_lt_ge icmp_Compare (smallest f) (smallest g))).
  destruct (icmp_Compare (smallest f) (smallest g)); congruence.
Qed.

Lemma le_smallest_trans f g h : le_smallest f g -> le_smallest g h -> le_smallest f h.
Proof. unfold le_smallest. apply (cmp_le_trans (cmp:=icmp_Compare)). Qed.

Lemma upper_bound_spec f base before rest :
  upper_bound f base = (before, rest) ->
  base = before ++ rest /\
  (forall g, In g before -> le_smallest g f) /\
  (forall g, pairwise le_smallest base -> In g rest -> le_smallest f g).
Proof.
  revert before rest. induction base as [|g base IH]; simpl; intros before rest.
  - intros [= <- <-]. split; [reflexivity|]. split; [intros g []|intros g _ []].
  - destruct (BySmallestKey f g) eqn:Eb.
    + intros [= <- <-]. repeat split; auto; [intros x []|].
      intros x [Hg Hs] [<-|Hx]; [apply BySmallestKey_true; exact Eb|].
      apply (le_smallest_trans f g x); [apply BySmallestKey_true; exact Eb|].
      rewrite List.Forall_forall in Hg. auto.
    + destruct (upper_bound f base) as [before' rest'] eqn:Eu.
      intros [= <- <-]. destruct (IH _ _ eq_refl) as (-> & H1 & H2).
      repeat split; auto.
      * intros x [<-|Hx]; [apply BySmallestKey_false; exact Eb|auto].
      * intros x [_ Hs] Hx. auto.
Qed.

Lemma In_merge_files added base x :
  In x (merge_files added base) <-> In x added \/ In x base.
Proof.
  revert base. induction added as [|f added IH]; intros base; simpl; [tauto|].
  destruct (upper_bound f base) as [before rest] eqn:Eu.
  destruct (upper_bound_spec _ _ _ _ Eu) as (-> & _ & _).
  rewrite !List.in_app_iff. simpl. rewrite IH. tauto.
Qed.

Lemma merge_files_sorted added base :
  pairwise le_smallest added -> pairwise le_smallest base ->
  pairwise le_smallest (merge_files added base).
Proof.
  revert base. induction added as [|f added IH]; intros base; simpl; [auto|].
  intros [Hf Ha] Hb. rewrite List.Forall_forall in Hf.
  destruct (upper_bound f base) as [before rest] eqn:Eu.
  destruct (upper_bound_spec _ _ _ _ Eu) as (-> & H1 & H2).
  pose proof Hb as Hb'. apply pairwise_app in Hb' as (Hb1 & Hb2 & Hb3).
  apply pairwise_app. split; [exact Hb1|]. split.
  - simpl. split; [|apply IH; auto]. apply List.Forall_forall. intros x Hx.
    apply In_merge_files in Hx as [Hx|Hx]; auto.
  - intros x y Hx [<-|Hy]; [auto|].
    apply In_merge_files in Hy as [Hy|Hy]; [|auto].
    apply (le_smallest_trans x f y); auto.
Qed.

Lemma merge_files_pairwise (R : FileMetaData -> FileMetaData -> Prop) added base :
  (forall x y, R x y -> R y x) ->
  pairwise R added -> pairwise R base ->
  (forall x y, In x added -> In y base -> R x y) ->
  pairwise R (merge_files added base).
Proof.
  intros Hsym. revert base.
  induction added as [|f added IH]; intros base; simpl; [auto|].
  intros [Hf Ha] Hb Hc. rewrite List.Forall_forall in Hf.
  destruct (upper_bound f base) as [before rest] eqn:Eu.
  destruct (upper_bound_spec _ _ _ _ Eu) as (-> & _ & _).
  apply pairwise_app in Hb as (Hb1 & Hb2 & Hb3).
  apply pairwise_app. split; [exact Hb1|]. split.
  - simpl. split.
    + apply List.Forall_forall. intros x Hx.
      apply In_merge_files in Hx as [Hx|Hx]; auto.
      apply Hc; [left; reflexivity|apply in_or_app; auto].
    + apply IH; auto. intros x y Hx Hy. apply Hc; [right; exact Hx|].
      apply in_or_app; auto.
  - intros x y Hx [<-|Hy].
    + apply Hsym. apply Hc; [left; reflexivity|apply in_or_app; auto].
    + apply In_merge_files in Hy as [Hy|Hy]; [|auto].
      apply Hsym. apply Hc; [right; exact Hy|apply in_or_app; auto].
Qed.

(** Files in order of smallest key that do not overlap are in key order. *)
Lemma disjoint_sorted_before l :
  pairwise le_smallest l -> pairwise files_disjoint l -> Forall file_wf l ->
  pairwise file_before l.
Proof.
  induction l as [|f l IH]; simpl; [auto|].
  intros [Hs1 Hs2] [Hd1 Hd2] Hwf. apply Forall_cons in Hwf as [Hwf1 Hwf2].
  split; [|auto]. rewrite List.Forall_forall in *. intros g Hg.
  destruct (Hd1 g Hg) as [Hfg|Hgf]; [exact Hfg|]. exfalso.
  unfold file_before, file_wf, le_smallest in *.
  assert (Hwg : icmp_Compare (smallest g) (largest g) <> Gt).
  { apply Hwf2. exact Hg. }
  pose proof (cmp_le_lt_trans icmp_Compare _ _ _ Hwg Hgf) as Hlt.
  apply (Hs1 g Hg). apply (cmp_gt_lt icmp_Compare). exact Hlt.
Qed.

(** Files in key order are in order of smallest key. *)
Lemma before_sorted l :
  pairwise file_before l -> Forall file_wf l -> pairwise le_smallest l.
Proof.
  intros Hp Hwf. eapply pairwise_impl; [|exact Hp]. intros x y Hx _ Hxy.
  unfold file_before, file_wf, le_smallest in *.
  rewrite Forall_forall in Hwf.
  assert (Hwx : icmp_Compare (smallest x) (largest x) <> Gt)
    by (apply Hwf; apply list_elem_of_In; exact Hx).
  rewrite (cmp_le_lt_trans icmp_Compare _ _ _ Hwx Hxy). discriminate.
Qed.
End Merge.

Section BuilderFacts.
Context `{Comparator} (L : CmpLaws Compare).

Let LI' : CmpLaws icmp_Compare := icmp_laws L.
#[local] Existing Instance LI'.

Lemma FileSet_insert_sorted f s :
  pairwise le_smallest s -> pairwise le_smallest (FileSet_insert f s).
Proof.
  induction s as [|g s IH]; simpl; [intros _; split; [constructor|exact I]|].
  intros [Hg Hs]. destruct (BySmallestKey f g) eqn:E1.
  - simpl. repeat split; auto. constructor; [apply BySmallestKey_true; auto|].
    rewrite List.Forall_forall in *. intros x Hx.
    apply (le_smallest_trans L f g x); auto. apply BySmallestKey_true; auto.
  - destruct (BySmallestKey g f) eqn:E2; simpl; [|auto]. split; [|auto].
    rewrite List.Forall_forall in *. intros x Hx.
    apply In_FileSet_insert in Hx as [->|Hx]; auto.
    apply BySmallestKey_true; auto.
Qed.

Lemma FileSet_insert_pairwise (R : FileMetaData -> FileMetaData -> Prop) f s :
  (forall x y, R x y -> R y x) ->
  pairwise R s -> (forall x, In x s -> R f x) -> pairwise R (FileSet_insert f s).
Proof.
  intros Hsym. induction s as [|g s IH]; simpl.
  - intros _ _. split; [constructor|exact I].
  - intros [Hg Hs] Hf. destruct (BySmallestKey f g).
    + simpl. repeat split; auto. apply List.Forall_forall. auto.
    + destruct (BySmallestKey g f); simpl; [|auto]. split; [|auto].
      rewrite List.Forall_forall in *. intros x Hx.
      apply In_FileSet_insert in Hx as [->|Hx]; auto.
Qed.
End BuilderFacts.

Lemma MaybeAddFile_fold (b : Builder) level l files :
  updated_of (levels_ b) level = ∅ ->
  fold_left (MaybeAddFile b level) l files = files ++ List.filter (keep b level) l.
Proof.
  intros Hu. revert files. induction l as [|f l IH]; intros files; simpl.
  - rewrite app_nil_r. reflexivity.
  - rewrite IH. unfold MaybeAddFile at 1, keep at 2.
    unfold updated_of in Hu. rewrite Hu.
    destruct (bool_decide (number f ∈ deleted_files _)); simpl; [reflexivity|].
    rewrite bool_decide_eq_false_2 by set_solver.
    rewrite <- app_assoc. reflexivity.
Qed.

Lemma SaveTo_merge_eq `{Comparator} (b : Builder) level added base files :
  updated_of (levels_ b) level = ∅ ->
  SaveTo_merge b level added base files
  = files ++ List.filter (keep b level) (merge_files added base).
Proof.
  intros Hu. revert base files.
  induction added as [|f added IH]; intros base files; simpl.
  - apply MaybeAddFile_fold. exact Hu.
  - destruct (upper_bound f base) as [before rest]. rewrite IH.
    rewrite MaybeAddFile_fold by exact Hu.
    change (MaybeAddFile b level ?fs f) with (fold_left (MaybeAddFile b level) [f] fs).
    rewrite MaybeAddFile_fold by exact Hu.
    rewrite List.filter_app. simpl.
    destruct (keep b level f); simpl; rewrite <- !app_assoc; reflexivity.
Qed.

Lemma merge_files_nil `{Comparator} added : merge_files added [] = added.
Proof. induction added as [|f added IH]; simpl; [|rewrite IH]; reflexivity. Qed.

Lemma SaveTo_level_eq `{Comparator} (b : Builder) level files :
  updated_of (levels_ b) level = ∅ ->
  SaveTo_level b level files
  = files ++ List.filter (keep b level)
               (merge_files (added_of (levels_ b) level)
                  (level_files (base_ b) level)).
Proof.
  intros Hu. unfold SaveTo_level. fold (added_of (levels_ b) level).
  destruct (Nat.ltb_spec level (length (base_ b))) as [Hlt|Hge].
  - apply SaveTo_merge_eq. exact Hu.
  - unfold level_files. rewrite (lookup_ge_None_2 (base_ b) level) by lia.
    simpl. rewrite merge_files_nil. apply MaybeAddFile_fold. exact Hu.
Qed.

Lemma fold_alter_seq {A} (g : nat -> A -> A) n (fs : list A) k :
  fold_left (fun fs l => alter (g l) l fs) (seq 0 n) fs !! k
  = if decide (k < n)%nat then g k <$> fs !! k else fs !! k.
Proof.
  induction n as [|n IH].
  - simpl. destruct (decide (k < 0)%nat); [lia|reflexivity].
  - rewrite seq_S, fold_left_app. simpl.
    destruct (decide (n = k)) as [->|Hne].
    + rewrite list_lookup_alter_eq, IH.
      rewrite decide_False by lia. rewrite decide_True by lia. reflexivity.
    + rewrite list_lookup_alter_ne by exact Hne. rewrite IH.
      destruct (decide (k < n)%nat); [rewrite decide_True by lia|
                                      rewrite decide_False by lia]; reflexivity.
Qed.

Lemma grow_nil_lookup n m k (fs : list FileMetaData) :
  grow n [] (replicate m []) !! k = Some fs -> fs = [].
Proof.
  unfold grow. intros Hk. apply lookup_app_Some in Hk as [Hk|[_ Hk]];
    apply lookup_replicate in Hk as [-> _]; reflexivity.
Qed.

(** The level [level] of the version saved by a builder into a new
    version. *)
Lemma SaveTo_new_level `{Comparator} (options : Options) (b : Builder) level :
  (forall l, updated_of (levels_ b) l = ∅) ->
  level_files (files_ (SaveTo b (Version_new options))) level
  = if decide (level < length (levels_ b))%nat
    then List.filter (keep b level)
           (merge_files (added_of (levels_ b) level) (level_files (base_ b) level))
    else [].
Proof.
  intros Hu. unfold SaveTo, level_files at 1. simpl. rewrite fold_alter_seq.
  set (n := if enable_sublevel options then 2%nat else S (kMaxMemCompactLevel options)).
  set (fs := if (length (replicate n []) <? length (levels_ b))%nat
             then grow (length (levels_ b)) [] (replicate n [])
             else replicate n []).
  assert (Hnil : forall k x, fs !! k = Some x -> x = []).
  { intros k x. unfold fs. destruct (_ <? _)%nat.
    - apply grow_nil_lookup.
    - intros Hk. apply lookup_replicate in Hk as [-> _]. reflexivity. }
  assert (Hlen : (length (levels_ b) <= length fs)%nat).
  { unfold fs. destruct (Nat.ltb_spec (length (replicate n ([]:list FileMetaData)))
                           (length (levels_ b))).
    - unfold grow. rewrite length_app, !length_replicate.
      rewrite length_replicate in *. lia.
    - lia. }
  destruct (decide (level < length (levels_ b))%nat) as [Hlt|Hge].
  - destruct (lookup_lt_is_Some_2 fs level ltac:(lia)) as [x Hx].
    rewrite Hx. simpl. rewrite (Hnil _ _ Hx).
    rewrite SaveTo_level_eq by apply Hu. reflexivity.
  - destruct (fs !! level) as [x|] eqn:Hx; simpl; [|reflexivity].
    apply (Hnil _ _ Hx).
Qed.

Lemma fold_deleted_length (dels : list (nat * Z)) ls :
  length (fold_deleted dels ls) = length ls.
Proof.
  revert ls. induction dels as [|[l n] dels IH]; intros ls; simpl; [reflexivity|].
  rewrite IH. apply length_alter.
Qed.

Lemma fold_added_length `{Comparator} (news : list (nat * FileMetaData)) ls :
  length (fold_added news ls) = length ls.
Proof.
  revert ls. induction news as [|[l g] news IH]; intros ls; simpl; [reflexivity|].
  rewrite IH. apply length_alter.
Qed.

Lemma deleted_of_fold_deleted_mono (dels : list (nat * Z)) ls level n :
  n ∈ deleted_of ls level -> n ∈ deleted_of (fold_deleted dels ls) level.
Proof.
  revert ls. induction dels as [|[l m] dels IH]; intros ls; simpl; [auto|].
  intros Hn. apply IH. unfold deleted_of in *. rewrite default_alter.
  destruct (decide _) as [_|_]; [simpl; apply elem_of_union_r|]; exact Hn.
Qed.

Lemma deleted_of_fold_deleted_in (dels : list (nat * Z)) ls level n :
  In (level, n) dels -> (level < length ls)%nat ->
  n ∈ deleted_of (fold_deleted dels ls) level.
Proof.
  revert ls. induction dels as [|[l m] dels IH]; intros ls; simpl; [tauto|].
  intros [Heq|Hin] Hlt.
  - injection Heq as -> ->. apply deleted_of_fold_deleted_mono. unfold deleted_of.
    rewrite default_alter. rewrite decide_True by auto. simpl. set_solver.
  - apply IH; [exact Hin|]. rewrite length_alter. exact Hlt.
Qed.

Lemma deleted_of_fold_added `{Comparator} (news : list (nat * FileMetaData)) ls level n :
  n ∈ deleted_of ls level ->
  (forall f, In (level, f) news -> number f <> n) ->
  n ∈ deleted_of (fold_added news ls) level.
Proof.
  revert ls. induction news as [|[l g] news IH]; intros ls; simpl; [auto|].
  intros Hn Hne. apply IH; [|intros f Hf; apply Hne; right; exact Hf].
  unfold deleted_of in *. rewrite default_alter.
  destruct (decide _) as [[-> _]|_]; [|exact Hn]. simpl.
  assert (number g <> n) by (apply Hne; left; reflexivity). set_solver.
Qed.

Lemma updated_of_fold_deleted (dels : list (nat * Z)) ls level :
  updated_of (fold_deleted dels ls) level = updated_of ls level.
Proof.
  revert ls. induction dels as [|[l n] dels IH]; intros ls; simpl; [reflexivity|].
  rewrite IH. unfold updated_of. rewrite default_alter.
  destruct (decide _); reflexivity.
Qed.

Lemma updated_of_fold_added `{Comparator} (news : list (nat * FileMetaData)) ls level :
  updated_of (fold_added news ls) level = updated_of ls level.
Proof.
  revert ls. induction news as [|[l g] news IH]; intros ls; simpl; [reflexivity|].
  rewrite IH. unfold updated_of. rewrite default_alter.
  destruct (decide _); reflexivity.
Qed.

Lemma default_replicate_empty n level :
  default LevelState_empty (replicate n LevelState_empty !! level) = LevelState_empty.
Proof.
  destruct (replicate n LevelState_empty !! level) as [x|] eqn:E; [|reflexivity].
  apply lookup_replicate in E as [-> _]. reflexivity.
Qed.

Lemma number_exists_dec (news : list (nat * FileMetaData)) level n :
  (exists f, In (level, f) news /\ number f = n) \/
  (forall f, In (level, f) news -> number f <> n).
Proof.
  induction news as [|[l g] news IH]; simpl; [right; intros f []|].
  destruct IH as [(f & Hf & Hn)|IH]; [left; exists f; auto|].
  destruct (decide (l = level /\ number g = n)) as [[-> Hn]|Hne].
  - left. exists g. auto.
  - right. intros f [[= -> ->]|Hf]; [tauto|auto].
Qed.

Section ApplyFacts.
Context `{Comparator} (L : CmpLaws Compare).

Lemma added_fold_sorted (news : list (nat * FileMetaData)) ls :
  (forall level, pairwise le_smallest (added_of ls level)) ->
  forall level, pairwise le_smallest (added_of (fold_added news ls) level).
Proof.
  revert ls. induction news as [|[l g] news IH]; intros ls Hs; simpl; [exact Hs|].
  apply IH. intros level. unfold added_of. rewrite default_alter.
  destruct (decide _) as [[-> _]|_]; [|apply Hs]. simpl.
  apply (FileSet_insert_sorted L). apply Hs.
Qed.

Lemma files_disjoint_sym f g : files_disjoint f g -> files_disjoint g f.
Proof. unfold files_disjoint. tauto. Qed.

Lemma added_fold_disjoint (news processed : list (nat * FileMetaData)) ls :
  pairwise same_level_disjoint (processed ++ news) ->
  (forall level, (1 <= level)%nat ->
     pairwise files_disjoint (added_of ls level) /\
     forall f, In f (added_of ls level) ->
       exists f0, In (level, f0) processed /\ f = budgeted f0) ->
  forall level, (1 <= level)%nat ->
    pairwise files_disjoint (added_of (fold_added news ls) level).
Proof.
  revert processed ls.
  induction news as [|[l g] news IH]; intros processed ls Hp Hinv; simpl.
  - intros level Hl. apply Hinv. exact Hl.
  - apply (IH (processed ++ [(l, g)])).
    + rewrite <- app_assoc. exact Hp.
    + intros level Hl. destruct (Hinv level Hl) as [Hd Hfrom].
      unfold added_of in *. rewrite default_alter.
      destruct (decide _) as [[-> _]|_].
      * simpl. split.
        -- apply FileSet_insert_pairwise; [apply files_disjoint_sym|exact Hd|].
           intros x Hx. destruct (Hfrom x Hx) as (f0 & Hf0 & ->).
           apply pairwise_app in Hp as (_ & _ & Hc).
           apply files_disjoint_sym.
           apply (Hc (level, f0) (level, g) Hf0 (or_introl eq_refl) eq_refl Hl).
        -- intros f Hf. apply In_FileSet_insert in Hf as [->|Hf].
           ++ exists g. split; [apply in_or_app; right; left|]; reflexivity.
           ++ destruct (Hfrom f Hf) as (f0 & Hf0 & ->). exists f0.
              split; [apply in_or_app; left; exact Hf0|reflexivity].
      * split; [exact Hd|]. intros f Hf.
        destruct (Hfrom f Hf) as (f0 & Hf0 & ->). exists f0.
        split; [apply in_or_app; left; exact Hf0|reflexivity].
Qed.
End ApplyFacts.

Section NoOverlap.
Context `{Comparator} (L : CmpLaws Compare).

Lemma Version_new_level_inv options : level_inv (Version_new options).
Proof.
  intros level _. unfold level_files, Version_new. simpl.
  destruct (replicate _ [] !! level) as [x|] eqn:E; simpl.
  - apply lookup_replicate in E as [-> _]. split; [exact I|constructor].
  - split; [exact I|constructor].
Qed.

(** One edit keeps the invariant. *)
Lemma BuildVersion_level_inv options v cp edit :
  enable_sublevel options = false ->
  level_inv v -> valid_edit v edit ->
  level_inv (BuildVersion options (files_ v) cp edit).1.
Proof.
  intros Hsub Hinv (Hupd & _ & _ & Hwf & Hpair & Hcross).
  pose proof (icmp_laws L) as LI.
  unfold BuildVersion, Apply. rewrite Hsub, Hupd. cbn [fold_left fst levels_ base_ Builder_new].
  set (ls1 := if Z.of_nat (length (replicate (length (files_ v)) LevelState_empty))
                 <=? VersionEdit.max_level_ edit + 1
              then grow (Z.to_nat (VersionEdit.max_level_ edit + 2)) LevelState_empty
                     (replicate (length (files_ v)) LevelState_empty)
              else replicate (length (files_ v)) LevelState_empty).
  set (ls4 := fold_added (VersionEdit.new_files_ edit)
                (fold_deleted (VersionEdit.deleted_files_ edit) ls1)).
  set (b := {| base_ := files_ v; levels_ := ls4;
               truncated_key_ := VersionEdit.truncate_key_ edit |}).
  assert (Hls1 : forall l, default LevelState_empty (ls1 !! l) = LevelState_empty).
  { intros l. unfold ls1. destruct (_ <=? _).
    - rewrite lookup_grow_empty. apply default_replicate_empty.
    - apply default_replicate_empty. }
  assert (Hlen1 : (length (files_ v) <= length ls1)%nat).
  { unfold ls1. destruct (_ <=? _).
    - unfold grow. rewrite length_app, length_replicate. lia.
    - rewrite length_replicate. lia. }
  assert (Hu : forall l, updated_of (levels_ b) l = ∅).
  { intros l. simpl. unfold ls4.
    rewrite updated_of_fold_added, updated_of_fold_deleted.
    unfold updated_of. rewrite Hls1. reflexivity. }
  assert (Hadd0 : forall l, added_of (fold_deleted (VersionEdit.deleted_files_ edit) ls1) l = []).
  { intros l. rewrite added_of_fold_deleted. unfold added_of. rewrite Hls1.
    reflexivity. }
  intros level Hl. rewrite SaveTo_new_level by exact Hu.
  destruct (decide (level < length (levels_ b))%nat) as [Hlt|_];
    [|split; [exact I|constructor]].
  simpl.
  set (added := added_of ls4 level).
  set (base := level_files (files_ v) level).
  destruct (Hinv level Hl) as [Hbase Hbwf]. fold base in Hbase, Hbwf.
  assert (Hfrom : forall f, In f added ->
            exists f0, In (level, f0) (VersionEdit.new_files_ edit) /\ f = budgeted f0).
  { intros f Hf. unfold added, ls4 in Hf.
    apply added_of_fold_added in Hf as [Hf|Hf]; [|exact Hf].
    rewrite Hadd0 in Hf. destruct Hf. }
  assert (Hawf : List.Forall file_wf added).
  { apply List.Forall_forall. intros f Hf.
    destruct (Hfrom f Hf) as (f0 & Hf0 & ->). apply (Hwf level f0 Hf0 Hl). }
  assert (Hasorted : pairwise le_smallest added).
  { apply (added_fold_sorted L). intros l. rewrite Hadd0. exact I. }
  assert (Hadisj : pairwise files_disjoint added).
  { apply (added_fold_disjoint (VersionEdit.new_files_ edit) []); auto.
    intros l _. rewrite Hadd0. split; [exact I|intros f []]. }
  assert (Hkeep : forall g, In g base -> keep b level g = true -> survives edit level g).
  { intros g Hg Hk Hdel.
    destruct (number_exists_dec (VersionEdit.new_files_ edit) level (number g))
      as [Hex|Hno]; [exact Hex|]. exfalso.
    assert (Hlv : (level < length ls1)%nat).
    { unfold base, level_files in Hg.
      destruct (files_ v !! level) as [x|] eqn:E; [|destruct Hg].
      apply lookup_lt_Some in E. lia. }
    assert (Hin : number g ∈ deleted_of ls4 level).
    { apply deleted_of_fold_added; [|exact Hno].
      apply deleted_of_fold_deleted_in; assumption. }
    unfold keep in Hk. apply negb_true_iff in Hk.
    apply bool_decide_eq_false in Hk. apply Hk. exact Hin. }
  set (R := fun x y => keep b level x = true -> keep b level y = true ->
                       files_disjoint x y).
  assert (HR : pairwise R (merge_files added base)).
  { apply (merge_files_pairwise L).
    - intros x y Hxy Hy Hx. apply files_disjoint_sym. auto.
    - eapply pairwise_impl; [|exact Hadisj]. intros x y _ _ Hd _ _. exact Hd.
    - eapply pairwise_impl; [|exact Hbase]. intros x y _ _ Hd _ _. left. exact Hd.
    - intros x y Hx Hy _ Hky. destruct (Hfrom x Hx) as (f0 & Hf0 & ->).
      apply (Hcross level f0 y Hf0 Hl Hy). apply Hkeep; assumption. }
  assert (Hwfm : List.Forall file_wf (List.filter (keep b level) (merge_files added base))).
  { apply List.Forall_forall. intros x Hx. apply filter_In in Hx as [Hx _].
    apply (In_merge_files L) in Hx as [Hx|Hx].
    - rewrite List.Forall_forall in Hawf. auto.
    - rewrite List.Forall_forall in Hbwf. auto. }
  split; [|exact Hwfm].
  apply (disjoint_sorted_before L); [| |exact Hwfm].
  - apply pairwise_filter. apply (merge_files_sorted L); [exact Hasorted|].
    apply (before_sorted L); assumption.
  - eapply pairwise_impl; [|apply pairwise_filter; exact HR].
    intros x y Hx Hy Hxy. apply filter_In in Hx as [_ Hx].
    apply filter_In in Hy as [_ Hy]. apply Hxy; assumption.
Qed.

Lemma versions_of_edits_level_inv options edits :
  enable_sublevel options = false ->
  forall v cp, level_inv v -> valid_edits options v cp edits ->
  forall v', In v' (versions_of_edits options v cp edits) -> level_inv v'.
Proof.
  intros Hsub. induction edits as [|edit edits IH]; intros v cp Hinv Hv v';
    cbn [versions_of_edits valid_edits] in *.
  - intros [].
  - destruct Hv as [Hv1 Hv2].
    pose proof (BuildVersion_level_inv options v cp edit Hsub Hinv Hv1) as Hstep.
    destruct (BuildVersion options (files_ v) cp edit) as [v1 cp1].
    cbn [fst snd] in *.
    intros [<-|Hin]; [exact Hstep|]. eapply IH; eauto.
Qed.
End NoOverlap.

(** C2.  Edits are applied one after the other, each through a builder over
    the version before it, starting from the empty version.  If every edit is
    valid for the version it is applied to, every resulting version has, at
    every level from 1 on and for all indices [i < j], the largest key of
    file [i] before the smallest key of file [j] under the internal key
    comparator. *)
Theorem versions_of_edits_no_overlap `{Comparator} (L : CmpLaws Compare)
    (options : Options) (compact_pointer : list (option InternalKey))
    (edits : list VersionEdit.t) :
  enable_sublevel options = false ->
  valid_edits options (Version_new options) compact_pointer edits ->
  forall v, In v (versions_of_edits options (Version_new options) compact_pointer edits) ->
    no_overlap v.
Proof.
  intros Hsub Hvalid v Hv.
  pose proof (versions_of_edits_level_inv L options edits Hsub _ _
                (Version_new_level_inv options) Hvalid v Hv) as Hinv.
  intros level fs i j fi fj Hl Hfs Hij Hi Hj.
  destruct (Hinv level Hl) as [Hp _]. unfold level_files in Hp. rewrite Hfs in Hp.
  simpl in Hp. exact (pairwise_lookup _ _ Hp i j fi fj Hij Hi Hj).
Qed.

(** ** Trivial moves *)

(** C6 (amended).  In non-sublevel mode a compaction is a trivial move if and
    only if it has one input file at its level, none at the next level, and
    either [enable_should_stop_before] is off or the bytes of its
    grandparents are at most [max_grand_parent_overlap_bytes_]. *)
Theorem IsTrivialMove_iff `{Comparator} (c : Compaction.t) :
  enable_sublevel (Compaction.options_ c) = false ->
  Compaction.IsTrivialMove c = true <->
  Compaction.num_input_files c 0 = 1 /\ Compaction.num_input_files c 1 = 0 /\
  (enable_should_stop_before (Compaction.options_ c) = false \/
   TotalFileSize (Compaction.grandparents_ c)
   <= Compaction.max_grand_parent_overlap_bytes_ c).
Proof.
  intros Hsub. unfold Compaction.IsTrivialMove. rewrite Hsub. simpl.
  rewrite !andb_true_iff, orb_true_iff, negb_true_iff, !Z.eqb_eq, Z.leb_le.
  tauto.
Qed.

(** ** The seed of CompactRange *)

#[local] Arguments Compaction_new : simpl never.
#[local] Arguments SetupOtherInputs : simpl never.
#[local] Arguments GetOverlappingInputs : simpl never.
#[local] Arguments MaxFileSizeForLevel : simpl never.

Lemma CompactRange_truncate_spec limit inputs :
  forall total,
    0 <= total < limit ->
    List.Forall (fun f => 0 <= file_size f) inputs ->
    total + total_bytes inputs < 2 ^ 64 ->
    exists rest,
      inputs = CompactRange_truncate limit total inputs ++ rest /\
      (rest = [] \/
       limit <= total + total_bytes (CompactRange_truncate limit total inputs)) /\
      total + total_bytes (removelast (CompactRange_truncate limit total inputs))
      < limit.
Proof.
  induction inputs as [|f inputs IH]; intros total Ht Hpos Hsum; simpl.
  - exists []. repeat split; auto; lia.
  - apply List.Forall_cons_iff in Hpos as [Hf Hpos]. simpl in Hsum.
    assert (Hrest : 0 <= total_bytes inputs).
    { clear -Hpos. induction Hpos; simpl; lia. }
    unfold uint64. rewrite Z.mod_small by lia.
    destruct (Z.leb_spec limit (total + file_size f)) as [Hcut|Hgo].
    + exists inputs. simpl. repeat split; auto; lia.
    + destruct (IH (total + file_size f)) as (rest & Heq & Hor & Hlt);
        try lia; auto.
      exists rest. split; [simpl; congruence|]. split.
      * destruct Hor as [->|Hle]; [left; reflexivity|right; simpl; lia].
      * destruct (CompactRange_truncate limit (total + file_size f) inputs)
          as [|g seed] eqn:E; [simpl in *; lia|].
        change (removelast (f :: g :: seed)) with (f :: removelast (g :: seed)).
        change (total_bytes (f :: removelast (g :: seed)))
          with (file_size f + total_bytes (removelast (g :: seed))).
        lia.
Qed.

Lemma CompactRange_truncate_nonempty limit total inputs :
  inputs <> [] -> CompactRange_truncate limit total inputs <> [].
Proof. destruct inputs as [|f inputs]; simpl; [tauto|]. destruct (_ <=? _); discriminate. Qed.

Lemma SetupOtherInputs_inputs0 `{Comparator} (c c' : Compaction.t) (vs vs' : VersionSet) :
  SetupOtherInputs c vs = Some (c', vs') ->
  (1 <= length (Compaction.inputs_ c))%nat ->
  level_files (Compaction.inputs_ c') 0 = level_files (Compaction.inputs_ c) 0 \/
  (length (level_files (Compaction.inputs_ c) 0)
   < length (level_files (Compaction.inputs_ c') 0))%nat.
Proof.
  unfold SetupOtherInputs. intros Hrun Hlen.
  destruct (GetRange (level_files (Compaction.inputs_ c) 0)) as [smallest0 largest0].
  destruct (GetOverlappingInputs _ (S _) (Some smallest0) (Some largest0))
    as [inputs1|]; simpl in Hrun; [|discriminate].
  destruct (GetRange2 _ inputs1) as [all_start all_limit].
  match type of Hrun with
  | context [mbind _ ?m] =>
      assert (Hm : forall r, m = Some r ->
                r.1.1.1.1 = level_files (Compaction.inputs_ c) 0 \/
                (length (level_files (Compaction.inputs_ c) 0)
                 < length r.1.1.1.1)%nat);
      [|destruct m as [[[[[inputs0' inputs1'] largest'] all_start'] all_limit']|];
        simpl in Hrun; [specialize (Hm _ eq_refl); simpl in Hm|discriminate]]
  end.
  { intros r. destruct (negb _); [|intros [= <-]; left; reflexivity].
    destruct (GetOverlappingInputs _ _ (Some all_start) (Some all_limit))
      as [expanded0|]; simpl; [|discriminate].
    destruct (Nat.ltb_spec (length (level_files (Compaction.inputs_ c) 0))
                (length expanded0)) as [Hlt|Hge]; simpl;
      [|intros [= <-]; left; reflexivity].
    destruct (_ <? _); [|intros [= <-]; left; reflexivity].
    destruct (GetRange expanded0) as [new_start new_limit].
    destruct (GetOverlappingInputs _ _ (Some new_start) (Some new_limit))
      as [expanded1|]; simpl; [|discriminate].
    destruct (_ =? _)%nat; [|intros [= <-]; left; reflexivity].
    destruct (GetRange2 expanded0 expanded1). intros [= <-]. right. exact Hlt. }
  destruct (if (_ <? _)%nat then _ else _) as [grandparents|]; simpl in Hrun;
    [|discriminate].
  injection Hrun as <- <-. simpl.
  unfold level_files in *.
  rewrite !list_lookup_insert_ne by discriminate.
  rewrite !list_lookup_insert_eq by lia. simpl. exact Hm.
Qed.

(** C7 (amended).  At a level from 1 on, a compaction returned by
    [CompactRange] is seeded with a prefix of the files that overlap the
    range, cut after the first file at which the running total of bytes
    reaches [MaxFileSizeForLevel]: when that cap is positive and the sizes do
    not overflow 64 bits, the seed without its last file is below the cap, and
    the seed is the whole list unless it reaches the cap.  The seed itself may
    exceed the cap, and [SetupOtherInputs] keeps it as [inputs_[0]] or
    replaces it by a longer list. *)
Theorem CompactRange_seed_cap `{Comparator} (level : nat)
    (begin_ end_ : option InternalKey) (vs vs' : VersionSet) (c : Compaction.t) :
  (1 <= level)%nat ->
  CompactRange level begin_ end_ vs = Some (Some (c, vs')) ->
  exists cur all seed rest,
    current_version vs = Some cur /\
    GetOverlappingInputs (files_ cur) level begin_ end_ = Some all /\
    CompactRange_inputs level begin_ end_ vs = Some seed /\
    all = seed ++ rest /\ seed <> [] /\
    (level_files (Compaction.inputs_ c) 0 = seed \/
     (length seed < length (level_files (Compaction.inputs_ c) 0))%nat) /\
    (0 < MaxFileSizeForLevel (options_ vs) level ->
     List.Forall (fun f => 0 <= file_size f) all ->
     total_bytes all < 2 ^ 64 ->
     total_bytes (removelast seed) < MaxFileSizeForLevel (options_ vs) level /\
     (rest = [] \/ MaxFileSizeForLevel (options_ vs) level <= total_bytes seed)).
Proof.
  intros Hlevel. unfold CompactRange.
  destruct (enable_sublevel (options_ vs)) eqn:Hsub; [discriminate|].
  unfold CompactRange_inputs at 1.
  destruct (current_version vs) as [cur|] eqn:Hcur; cbn [mbind option_bind];
    [|discriminate].
  destruct (GetOverlappingInputs (files_ cur) level begin_ end_) as [all|] eqn:Hall;
    cbn [mbind option_bind]; [|discriminate].
  destruct (Nat.ltb_spec 0 level) as [_|]; [|lia].
  set (limit := MaxFileSizeForLevel (options_ vs) level).
  set (seed := CompactRange_truncate limit 0 all).
  destruct (bool_decide (seed = [])) eqn:Hempty; [discriminate|].
  apply bool_decide_eq_false in Hempty.
  destruct (Compaction_new (options_ vs) level vs) as [c0 vs1] eqn:Hnew.
  destruct (SetupOtherInputs _ vs1) as [[c1 vs2]|] eqn:Hsetup;
    cbn [fmap option_fmap option_map]; [|discriminate].
  intros [= -> ->].
  assert (Hinputs : Compaction.inputs_ c0 = [[]; []]).
  { unfold Compaction_new in Hnew. injection Hnew as <- _. simpl.
    rewrite Hsub. reflexivity. }
  assert (Hprefix : exists rest, all = seed ++ rest).
  { clear. unfold seed. generalize 0. induction all as [|f all IH]; intros total; simpl.
    - exists []. reflexivity.
    - destruct (_ <=? _).
      + exists all. reflexivity.
      + destruct (IH (uint64 (total + file_size f))) as [rest Hr].
        exists rest. simpl. congruence. }
  destruct Hprefix as [rest Hrest].
  exists cur, all, seed, rest. split; [reflexivity|]. split; [exact Hall|].
  split; [unfold CompactRange_inputs; rewrite Hcur; cbn [mbind option_bind];
          rewrite Hall; cbn [mbind option_bind];
          destruct (Nat.ltb_spec 0 level); [reflexivity|lia]|].
  split; [exact Hrest|]. split; [exact Hempty|]. split.
  - apply SetupOtherInputs_inputs0 in Hsetup; simpl in *; rewrite Hinputs in *;
      simpl in *; [|lia]. destruct Hsetup as [->|Hlt]; [left; reflexivity|right; exact Hlt].
  - intros Hlimit Hpos Hsum.
    destruct (CompactRange_truncate_spec limit all 0) as (rest' & Heq & Hor & Hlt);
      try lia; auto.
    fold seed in Heq, Hor, Hlt.
    assert (rest' = rest) by (rewrite Hrest in Heq at 1; eapply app_inv_head; eauto).
    subst rest'. split; [lia|]. destruct Hor as [->|Hle]; [left; reflexivity|right; lia].
Qed.

(** ** The first file after the compact pointer *)

Lemma first_after_spec `{Comparator} pointer files :
  match first_after pointer files with
  | Some f =>
      exists i, files !! i = Some f /\ after_pointer pointer f /\
        forall j g, (j < i)%nat -> files !! j = Some g -> ~ after_pointer pointer g
  | None => forall f, In f files -> ~ after_pointer pointer f
  end.
Proof.
  induction files as [|f files IH]; simpl; [intros f []|].
  destruct (match pointer with
            | Some p => is_gt (icmp_Compare (largest f) p)
            | None => true
            end) eqn:E.
  - exists 0%nat. split; [reflexivity|]. split; [|intros j g Hj; lia].
    destruct pointer as [p|]; simpl; [|exact I]. apply is_gt_true. exact E.
  - assert (Hf : ~ after_pointer pointer f).
    { destruct pointer as [p|]; simpl; [|discriminate].
      apply is_gt_false. exact E. }
    destruct (first_after pointer files) as [g|].
    + destruct IH as (i & Hi & Ha & Hbefore). exists (S i).
      split; [exact Hi|]. split; [exact Ha|].
      intros [|j] x Hj Hx; simpl in Hx.
      * injection Hx as <-. exact Hf.
      * apply (Hbefore j x); [lia|exact Hx].
    + intros x [<-|Hx]; auto.
Qed.


(** ** The counters of a recovered descriptor *)

Lemma latest_not_None (new old : option Z) :
  latest new old <> None <-> old <> None \/ new <> None.
Proof. destruct new, old; simpl; split; intros; try tauto; try congruence; auto. Qed.

Lemma supplied_cons field decoded edit items :
  supplied field (ReadRecord decoded edit :: items) <->
  field edit <> None \/ supplied field items.
Proof.
  unfold supplied. split.
  - intros (d & e & [Heq|Hin] & Hf).
    + injection Heq as <- <-. left. exact Hf.
    + right. exists d, e. auto.
  - intros [Hf|(d & e & Hin & Hf)].
    + exists decoded, edit. split; [left; reflexivity|exact Hf].
    + exists d, e. split; [right; exact Hin|exact Hf].
Qed.

Lemma supplied_nil field : ~ supplied field [].
Proof. intros (d & e & [] & _). Qed.

Lemma counter_iff (A B C D E F : Prop) :
  (A <-> B \/ C) -> (B <-> D \/ E) -> (F <-> E \/ C) -> (A <-> D \/ F).
Proof. tauto. Qed.

Lemma Recover_read_decoded `{Comparator} options items :
  List.Forall decodes_ok items ->
  forall st, rs_status st = OK ->
    let st' := fold_left (Recover_read options) items st in
    rs_status st' = OK /\
    (rs_next_file st' <> None <->
     rs_next_file st <> None \/ supplied VersionEdit.next_file_number_ items) /\
    (rs_log_number st' <> None <->
     rs_log_number st <> None \/ supplied VersionEdit.log_number_ items) /\
    (rs_last_sequence st' <> None <->
     rs_last_sequence st <> None \/ supplied VersionEdit.last_sequence_ items) /\
    (rs_prev_log_number st' <> None <->
     rs_prev_log_number st <> None \/ supplied VersionEdit.prev_log_number_ items).
Proof.
  induction 1 as [|item items Hitem _ IH]; intros st Hst; cbn [fold_left].
  - split; [exact Hst|]. pose proof supplied_nil. repeat split; intros; try tauto;
      match goal with Hx : _ \/ supplied _ [] |- _ => destruct Hx as [|Hx]; [assumption|] end;
      exfalso; eapply supplied_nil; eauto.
  - destruct item as [decoded edit|reported]; [|destruct Hitem].
    simpl in Hitem. destruct decoded; try destruct Hitem.
    set (st1 := Recover_read options st (ReadRecord OK edit)).
    assert (H1 : rs_status st1 = OK /\
                 rs_next_file st1 = latest (VersionEdit.next_file_number_ edit) (rs_next_file st) /\
                 rs_log_number st1 = latest (VersionEdit.log_number_ edit) (rs_log_number st) /\
                 rs_last_sequence st1 = latest (VersionEdit.last_sequence_ edit) (rs_last_sequence st) /\
                 rs_prev_log_number st1 = latest (VersionEdit.prev_log_number_ edit) (rs_prev_log_number st)).
    { unfold st1, Recover_read. rewrite Hst. cbn [ok negb].
      assert (Hs : (match VersionEdit.comparator_ edit with
                    | Some name =>
                        if negb (String.eqb name Name)
                        then InvalidArgument
                               (String.append name
                                  (String.append " does not match existing comparator : " Name))
                        else OK
                    | None => OK
                    end) = OK).
      { destruct (VersionEdit.comparator_ edit) as [name|]; [|reflexivity].
        subst name. rewrite String.eqb_refl. reflexivity. }
      rewrite Hs. cbn [ok].
      destruct (Apply options edit (rs_builder st, rs_compact_pointer st)).
      repeat split; reflexivity. }
    destruct H1 as (Hs1 & Hn & Hl & Hq & Hp).
    destruct (IH st1 Hs1) as (Hs' & Hn' & Hl' & Hq' & Hp').
    split; [exact Hs'|].
    rewrite Hn in Hn'. rewrite Hl in Hl'. rewrite Hq in Hq'. rewrite Hp in Hp'.
    split; [|split; [|split]].
    + exact (counter_iff _ _ _ _ _ _ Hn' (latest_not_None _ _) (supplied_cons _ _ _ _)).
    + exact (counter_iff _ _ _ _ _ _ Hl' (latest_not_None _ _) (supplied_cons _ _ _ _)).
    + exact (counter_iff _ _ _ _ _ _ Hq' (latest_not_None _ _) (supplied_cons _ _ _ _)).
    + exact (counter_iff _ _ _ _ _ _ Hp' (latest_not_None _ _) (supplied_cons _ _ _ _)).
Qed.

(** ** The heap of versions *)

#[local] Arguments Apply : simpl never.
#[local] Arguments SaveTo : simpl never.
#[local] Arguments Finalize : simpl never.
#[local] Arguments SnapshotEdit : simpl never.
#[local] Arguments DescriptorFileName : simpl never.
#[local] Arguments CurrentFileName : simpl never.
#[local] Arguments Version_new : simpl never.

Lemma same_frame_refl vs : same_frame vs vs.
Proof. repeat split; reflexivity. Qed.

Lemma same_frame_trans vs1 vs2 vs3 :
  same_frame vs1 vs2 -> same_frame vs2 vs3 -> same_frame vs1 vs3.
Proof.
  unfold same_frame. intros (?&?&?&?&?&?&?&?&?&?&?) (?&?&?&?&?&?&?&?&?&?&?).
  repeat split; congruence.
Qed.

Lemma same_frame_set_heap h ring vs : same_frame vs (set_heap h ring vs).
Proof. repeat split; reflexivity. Qed.

Lemma same_frame_set_compact_pointer cp vs :
  same_frame vs (set_compact_pointer cp vs).
Proof. repeat split; reflexivity. Qed.

Lemma alter_Some (h : gmap nat Version) (f : Version -> Version) c v :
  h !! c = Some v -> alter f c h = <[c := f v]> h.
Proof.
  intros Hc. apply map_eq. intros x. destruct (decide (c = x)) as [->|Hne].
  - rewrite lookup_alter_eq, lookup_insert_eq, Hc. reflexivity.
  - rewrite lookup_alter_ne, lookup_insert_ne by exact Hne. reflexivity.
Qed.

Lemma Version_Ref_spec c vs v :
  heap_ vs !! c = Some v ->
  Version_Ref c vs
  = set_heap (<[c := set_refs (refs_ v + 1) v]> (heap_ vs)) (dummy_versions_ vs) vs.
Proof. intros Hc. unfold Version_Ref. rewrite (alter_Some _ _ _ _ Hc). reflexivity. Qed.

Lemma Version_Unref_keep c vs v :
  heap_ vs !! c = Some v -> refs_ v - 1 <> 0 ->
  Version_Unref c vs
  = set_heap (<[c := set_refs (refs_ v - 1) v]> (heap_ vs)) (dummy_versions_ vs) vs.
Proof.
  intros Hc Hr. unfold Version_Unref. rewrite (alter_Some _ _ _ _ Hc).
  cbn [heap_ set_heap]. rewrite lookup_insert_eq. cbn [refs_ set_refs].
  destruct (Z.eqb_spec (refs_ v - 1) 0); [contradiction|reflexivity].
Qed.

Lemma Version_Unref_other c vs x :
  x <> c -> heap_ (Version_Unref c vs) !! x = heap_ vs !! x.
Proof.
  intros Hne. unfold Version_Unref. cbn [heap_ set_heap].
  destruct (alter _ c (heap_ vs) !! c) as [v|];
    [destruct (refs_ v =? 0)|]; unfold Version_delete; cbn [heap_ set_heap];
    rewrite ?lookup_delete_ne by congruence; rewrite lookup_alter_ne by congruence;
    reflexivity.
Qed.

Lemma Version_Unref_frame c vs : same_frame vs (Version_Unref c vs).
Proof.
  unfold Version_Unref. cbn [heap_ set_heap].
  destruct (alter _ c (heap_ vs) !! c) as [v|];
    [destruct (refs_ v =? 0)|]; repeat split; reflexivity.
Qed.

Lemma Version_Ref_frame c vs : same_frame vs (Version_Ref c vs).
Proof. repeat split; reflexivity. Qed.

Lemma set_refs_refs v : set_refs (refs_ v) v = v.
Proof. destruct v. reflexivity. Qed.

Lemma set_refs_set_refs n m v : set_refs n (set_refs m v) = set_refs n v.
Proof. reflexivity. Qed.

(** A reference taken and released leaves a referenced version as it was. *)
Lemma Version_Ref_Unref c vs v cp :
  heap_ vs !! c = Some v -> 1 <= refs_ v ->
  Version_Unref c (set_compact_pointer cp (Version_Ref c vs))
  = set_compact_pointer cp vs.
Proof.
  intros Hc Hr. rewrite (Version_Ref_spec _ _ _ Hc).
  erewrite Version_Unref_keep;
    [|cbn [heap_ set_heap set_compact_pointer]; apply lookup_insert_eq|
      cbn [refs_ set_refs]; lia].
  cbn [heap_ set_heap set_compact_pointer dummy_versions_ refs_ set_refs].
  rewrite insert_insert_eq. rewrite set_refs_set_refs.
  replace (refs_ v + 1 - 1) with (refs_ v) by lia. rewrite set_refs_refs.
  rewrite insert_id by exact Hc. destruct vs. reflexivity.
Qed.

Lemma fresh_heap (h : gmap nat Version) : h !! fresh (dom h) = None.
Proof. apply not_elem_of_dom. apply is_fresh. Qed.

Lemma Finalize_refs options v : refs_ (Finalize options v) = refs_ v.
Proof.
  unfold Finalize. destruct (fold_left _ _ _) as [best_level best_score].
  reflexivity.
Qed.

Lemma SaveTo_refs `{Comparator} b v : refs_ (SaveTo b v) = refs_ v.
Proof. reflexivity. Qed.

(** The new version of [NewVersionFromEdit] is placed at a free address, is
    not referenced, and nothing else changes but the compact pointers. *)
Lemma NewVersionFromEdit_spec `{Comparator} `{SublevelMode} finalize edit vs c base :
  current_ vs = Some c -> heap_ vs !! c = Some base -> 1 <= refs_ base ->
  forall v vs1, NewVersionFromEdit finalize edit vs = Some (v, vs1) ->
    heap_ vs !! v = None /\ v <> c /\
    (exists ver, refs_ ver = 0 /\ heap_ vs1 = <[v := ver]> (heap_ vs)) /\
    dummy_versions_ vs1 = dummy_versions_ vs /\ same_frame vs vs1.
Proof.
  intros Hcur Hbase Hrefs v vs1. unfold NewVersionFromEdit, Version_alloc.
  set (a := fresh (dom (heap_ vs))).
  assert (Ha : heap_ vs !! a = None) by apply fresh_heap.
  assert (Hac : a <> c) by congruence.
  cbn [current_ set_heap heap_]. rewrite Hcur. cbn [mbind option_bind].
  rewrite lookup_insert_ne by exact Hac. rewrite Hbase. cbn [mbind option_bind].
  destruct (Apply _ edit _) as [b cp].
  set (vs0 := set_heap (<[a := Version_new (options_ vs)]> (heap_ vs))
                (dummy_versions_ vs) vs).
  assert (Hbase0 : heap_ vs0 !! c = Some base).
  { unfold vs0. cbn [heap_ set_heap]. rewrite lookup_insert_ne by exact Hac.
    exact Hbase. }
  rewrite (Version_Ref_Unref c vs0 base cp Hbase0 Hrefs).
  match goal with
  | |- context [mbind _ ?m] =>
      assert (Hm : forall saved, m = Some saved -> refs_ saved = 0);
      [|destruct m as [saved|]; cbn [mbind option_bind]; [|discriminate]]
  end.
  { intros saved. destruct (enable_sublevel (options_ vs)).
    - destruct (ReorganizeSublevels _ _ _) as [layout|]; cbn; [|discriminate].
      intros [= <-]. reflexivity.
    - intros [= <-]. reflexivity. }
  intros [= <- <-]. cbn [heap_ set_heap set_compact_pointer dummy_versions_].
  split; [exact Ha|]. split; [exact Hac|]. split.
  - eexists. split; [|unfold vs0; cbn [heap_ set_heap]; apply insert_insert_eq].
    destruct finalize; [rewrite Finalize_refs|]; apply (Hm _ eq_refl).
  - split; [reflexivity|]. repeat split; reflexivity.
Qed.

Lemma NewVersionFromEdit_returns `{Comparator} `{SublevelMode} finalize edit vs c base :
  current_ vs = Some c -> heap_ vs !! c = Some base ->
  enable_sublevel (options_ vs) = false ->
  exists r, NewVersionFromEdit finalize edit vs = Some r.
Proof.
  intros Hcur Hbase Hsub. unfold NewVersionFromEdit, Version_alloc.
  set (a := fresh (dom (heap_ vs))).
  assert (Ha : heap_ vs !! a = None) by apply fresh_heap.
  assert (Hac : a <> c) by congruence.
  cbn [current_ set_heap heap_]. rewrite Hcur. cbn [mbind option_bind].
  rewrite lookup_insert_ne by exact Hac. rewrite Hbase. cbn [mbind option_bind].
  destruct (Apply _ edit _) as [b cp]. cbn [options_ set_heap].
  rewrite Hsub. cbn [mbind option_bind]. eexists. reflexivity.
Qed.

(** [AppendVersion] makes an unreferenced version other than the current one
    the current version, referenced once. *)
Lemma AppendVersion_spec (v : nat) (vs : VersionSet) (ver : Version) :
  heap_ vs !! v = Some ver -> current_ vs <> Some v ->
  current_ (AppendVersion v vs) = Some v /\
  heap_ (AppendVersion v vs) !! v = Some (set_refs (refs_ ver + 1) ver) /\
  dbname_ (AppendVersion v vs) = dbname_ vs /\
  options_ (AppendVersion v vs) = options_ vs /\
  next_file_number_ (AppendVersion v vs) = next_file_number_ vs /\
  manifest_file_number_ (AppendVersion v vs) = manifest_file_number_ vs /\
  last_sequence_ (AppendVersion v vs) = last_sequence_ vs /\
  log_number_ (AppendVersion v vs) = log_number_ vs /\
  prev_log_number_ (AppendVersion v vs) = prev_log_number_ vs.
Proof.
  intros Hv Hne. unfold AppendVersion.
  set (vs1 := match current_ vs with
              | Some c => Version_Unref c vs
              | None => vs
              end).
  assert (Hv1 : heap_ vs1 !! v = Some ver).
  { unfold vs1. destruct (current_ vs) as [c|]; [|exact Hv].
    rewrite Version_Unref_other by congruence. exact Hv. }
  assert (Hf : same_frame vs vs1).
  { unfold vs1. destruct (current_ vs) as [c|];
      [apply Version_Unref_frame|apply same_frame_refl]. }
  destruct Hf as (?&?&?&?&?&?&?&?&?&?&?).
  rewrite (Version_Ref_spec v (set_current (Some v) vs1) ver) by exact Hv1.
  cbn [current_ heap_ set_heap set_current dbname_ options_ next_file_number_
       manifest_file_number_ last_sequence_ log_number_ prev_log_number_].
  rewrite lookup_insert_eq. repeat split; assumption || reflexivity.
Qed.

(** ** A failed MANIFEST write *)

Lemma DescriptorFileName_nonempty dbname n :
  String.eqb (DescriptorFileName dbname n) "" = false.
Proof.
  unfold DescriptorFileName. apply String.eqb_neq.
  destruct dbname; simpl; discriminate.
Qed.

Lemma ok_false s : s <> OK -> ok s = false.
Proof. destruct s; simpl; congruence. Qed.

(** The writing part changes the descriptor handles and the environment
    only, and reports a failed append or sync. *)
Lemma LogAndApply_write_fails `{Comparator} edit io vs err :
  descriptor_log_ vs <> None \/
  (io_NewWritableFile io = OK /\ io_WriteSnapshot io = OK) ->
  err <> OK ->
  io_AddRecord io = err \/ (io_AddRecord io = OK /\ io_Sync io = err) ->
  exists edit' env',
    LogAndApply_write edit io vs
    = (err, edit',
       match descriptor_log_ vs with
       | None => DescriptorFileName (dbname_ vs) (manifest_file_number_ vs)
       | Some _ => ""%string
       end,
       match descriptor_log_ vs with
       | None =>
           set_descriptor
             (Some (DescriptorFileName (dbname_ vs) (manifest_file_number_ vs)))
             (Some (DescriptorFileName (dbname_ vs) (manifest_file_number_ vs)))
             env' vs
       | Some _ => set_descriptor (descriptor_file_ vs) (descriptor_log_ vs) env' vs
       end).
Proof.
  intros Hreach Herr Hfail. pose proof (ok_false err Herr) as Hok.
  unfold LogAndApply_write.
  destruct (descriptor_log_ vs) as [l|] eqn:Hlog.
  - destruct Hfail as [Hadd|[Hadd Hsync]].
    + exists edit, (env_ vs).
      repeat (cbv beta iota zeta; cbn [ok andb]; rewrite ?Hadd, ?Hok).
      destruct vs; cbn in *; subst; reflexivity.
    + eexists _, _.
      repeat (cbv beta iota zeta; cbn [ok andb]; rewrite ?Hadd, ?Hsync, ?Hok).
      rewrite Hlog. reflexivity.
  - destruct Hreach as [Hc|[Hnew Hsnap]]; [congruence|].
    destruct Hfail as [Hadd|[Hadd Hsync]].
    + eexists _, _.
      repeat (cbv beta iota zeta; cbn [ok andb]; rewrite ?Hnew, ?Hsnap, ?Hadd, ?Hok).
      reflexivity.
    + eexists _, _.
      repeat (cbv beta iota zeta; cbn [ok andb];
              rewrite ?Hnew, ?Hsnap, ?Hadd, ?Hsync, ?Hok).
      reflexivity.
Qed.

(** C1.  When the append of the edit to the MANIFEST or the sync that
    follows it fails with [err], [LogAndApply] returns [err]; the new version
    is not installed and is deleted, so the current version and the heap of
    versions are as before the call; [log_number_], [prev_log_number_],
    [next_file_number_] and [last_sequence_] are unchanged; and a descriptor
    file created by this call is deleted and both handles are closed.  In
    non-sublevel mode the call always returns. *)
Theorem LogAndApply_write_failure `{Comparator} `{SublevelMode}
    (edit : VersionEdit.t) (io : ManifestIO) (vs : VersionSet) (err : Status)
    (c : nat) (base : Version) :
  current_ vs = Some c -> heap_ vs !! c = Some base -> 1 <= refs_ base ->
  descriptor_log_ vs <> None \/
  (io_NewWritableFile io = OK /\ io_WriteSnapshot io = OK) ->
  err <> OK ->
  io_AddRecord io = err \/ (io_AddRecord io = OK /\ io_Sync io = err) ->
  (enable_sublevel (options_ vs) = false ->
   exists r, LogAndApply edit io vs = Some r) /\
  forall s edit' vs', LogAndApply edit io vs = Some (s, edit', vs') ->
    s = err /\
    current_ vs' = current_ vs /\ heap_ vs' = heap_ vs /\
    log_number_ vs' = log_number_ vs /\
    prev_log_number_ vs' = prev_log_number_ vs /\
    next_file_number_ vs' = next_file_number_ vs /\
    last_sequence_ vs' = last_sequence_ vs /\
    (descriptor_log_ vs = None ->
     descriptor_log_ vs' = None /\ descriptor_file_ vs' = None /\
     FileExists (DescriptorFileName (dbname_ vs) (manifest_file_number_ vs))
       (env_ vs') = false) /\
    (descriptor_log_ vs <> None ->
     descriptor_log_ vs' = descriptor_log_ vs /\
     descriptor_file_ vs' = descriptor_file_ vs).
Proof.
  intros Hcur Hbase Hrefs Hreach Herr Hfail. split.
  - intros Hsub. unfold LogAndApply.
    destruct (NewVersionFromEdit_returns true (LogAndApply_fill edit vs) vs c base
                Hcur Hbase Hsub) as [[v vs1] ->].
    cbn [mbind option_bind].
    destruct (LogAndApply_write _ io vs1) as [[[s e] nm] vs2].
    destruct (ok s); eexists; reflexivity.
  - intros s edit' vs'. unfold LogAndApply.
    destruct (NewVersionFromEdit true (LogAndApply_fill edit vs) vs)
      as [[v vs1]|] eqn:Hnew; cbn [mbind option_bind]; [|discriminate].
    destruct (NewVersionFromEdit_spec true _ vs c base Hcur Hbase Hrefs v vs1 Hnew)
      as (Hv & Hvc & (ver & Hver & Hheap) & Hring & Hframe).
    destruct Hframe as (Hdb & Hopt & Hnf & Hmf & Hls & Hln & Hpl & Hdf & Hdl & Hc1 & Henv).
    assert (Hreach1 : descriptor_log_ vs1 <> None \/
                      (io_NewWritableFile io = OK /\ io_WriteSnapshot io = OK))
      by (rewrite Hdl; exact Hreach).
    destruct (LogAndApply_write_fails (LogAndApply_fill edit vs) io vs1 err
                Hreach1 Herr Hfail) as (e & env' & ->).
    rewrite (ok_false err Herr). rewrite Hdl, Hdb, Hmf, Hdf.
    destruct (descriptor_log_ vs) as [l|] eqn:Hlog.
    + cbn [String.eqb negb]. intros [= <- <- <-].
      unfold Version_delete. cbn [current_ heap_ set_heap set_descriptor
        log_number_ prev_log_number_ next_file_number_ last_sequence_
        descriptor_log_ descriptor_file_].
      rewrite Hheap, delete_insert_id by exact Hv.
      repeat split; try assumption; try reflexivity; congruence.
    + rewrite DescriptorFileName_nonempty. cbn [negb]. intros [= <- <- <-].
      unfold Version_delete. cbn [current_ heap_ set_heap set_descriptor
        log_number_ prev_log_number_ next_file_number_ last_sequence_
        descriptor_log_ descriptor_file_ env_].
      rewrite Hheap, delete_insert_id by exact Hv.
      repeat split; try assumption; try reflexivity; try congruence.
      unfold FileExists, DeleteFile. cbn [env_files].
      apply bool_decide_eq_false_2. intros Hin.
      apply elem_of_difference in Hin as [_ Hn]. apply Hn.
      apply elem_of_singleton. reflexivity.
Qed.

(** ** The current version is referenced *)

Lemma LogAndApply_write_frame `{Comparator} edit io vs :
  heap_ (LogAndApply_write edit io vs).2 = heap_ vs /\
  current_ (LogAndApply_write edit io vs).2 = current_ vs.
Proof.
  unfold LogAndApply_write.
  destruct (descriptor_log_ vs);
    repeat (cbv beta iota zeta;
            match goal with
            | |- context [if ?b then _ else _] => destruct b
            end);
    split; reflexivity.
Qed.

Lemma VersionSet_new_referenced dbname options env :
  current_referenced (VersionSet_new dbname options env).
Proof.
  unfold VersionSet_new, Version_alloc. cbv beta iota zeta.
  match goal with
  | |- current_referenced (AppendVersion ?v ?vs) =>
      destruct (AppendVersion_spec v vs (Version_new options)) as (Hc & Hh & _)
  end.
  - cbn [heap_ set_heap]. apply lookup_insert_eq.
  - cbn [current_ set_heap]. discriminate.
  - eexists _, _. split; [exact Hc|]. split; [exact Hh|]. cbn [refs_ set_refs].
    change (refs_ (Version_new options)) with 0. lia.
Qed.

Lemma LogAndApply_referenced `{Comparator} `{SublevelMode} edit io vs s edit' vs' :
  current_referenced vs -> LogAndApply edit io vs = Some (s, edit', vs') ->
  current_referenced vs'.
Proof.
  intros (c & base & Hcur & Hbase & Hrefs). unfold LogAndApply.
  destruct (NewVersionFromEdit true (LogAndApply_fill edit vs) vs)
    as [[v vs1]|] eqn:Hnew; cbn [mbind option_bind]; [|discriminate].
  destruct (NewVersionFromEdit_spec true _ vs c base Hcur Hbase Hrefs v vs1 Hnew)
    as (Hv & Hvc & (ver & Hver & Hheap) & Hring & Hframe).
  destruct Hframe as (_ & _ & _ & _ & _ & _ & _ & _ & _ & Hc1 & _).
  destruct (LogAndApply_write_frame (LogAndApply_fill edit vs) io vs1) as [Hh2 Hc2].
  destruct (LogAndApply_write _ io vs1) as [[[s2 e2] nm] vs2]. cbn [snd] in Hh2, Hc2.
  destruct (ok s2).
  - intros [= <- <- <-].
    destruct (AppendVersion_spec v vs2 ver) as (Hc & Hh & _).
    + rewrite Hh2, Hheap. apply lookup_insert_eq.
    + rewrite Hc2, Hc1, Hcur. congruence.
    + exists v, (set_refs (refs_ ver + 1) ver).
      cbn [current_ heap_ set_counters]. split; [exact Hc|]. split; [exact Hh|].
      cbn [refs_ set_refs]. lia.
  - intros [= <- <- <-]. exists c, base.
    assert (Hd : heap_ (Version_delete v vs2) = heap_ vs).
    { unfold Version_delete. cbn [heap_ set_heap].
      rewrite Hh2, Hheap. apply delete_insert_id. exact Hv. }
    assert (Hcd : current_ (Version_delete v vs2) = Some c).
    { unfold Version_delete. cbn [current_ set_heap]. congruence. }
    destruct (negb _); cbn [current_ heap_ set_descriptor];
      rewrite Hd, Hcd; auto.
Qed.

Lemma ForeighApply_referenced `{Comparator} `{SublevelMode} edit vs s vs' :
  current_referenced vs -> ForeighApply edit vs = Some (s, vs') ->
  current_referenced vs'.
Proof.
  intros Href. unfold ForeighApply.
  destruct (match VersionEdit.comparator_ edit with
            | Some name => negb (String.eqb name Name)
            | None => false
            end); [intros [= <- <-]; exact Href|].
  destruct Href as (c & base & Hcur & Hbase & Hrefs).
  destruct (NewVersionFromEdit false edit vs) as [[v vs1]|] eqn:Hnew;
    cbn [mbind option_bind]; [|discriminate].
  destruct (NewVersionFromEdit_spec false _ vs c base Hcur Hbase Hrefs v vs1 Hnew)
    as (Hv & Hvc & (ver & Hver & Hheap) & Hring & Hframe).
  destruct Hframe as (_ & _ & _ & _ & _ & _ & _ & _ & _ & Hc1 & _).
  intros [= <- <-].
  destruct (AppendVersion_spec v vs1 ver) as (Hc & Hh & _).
  - rewrite Hheap. apply lookup_insert_eq.
  - rewrite Hc1, Hcur. congruence.
  - exists v, (set_refs (refs_ ver + 1) ver).
    cbn [current_ heap_ set_counters]. split; [exact Hc|]. split; [exact Hh|].
    cbn [refs_ set_refs]. lia.
Qed.

Lemma MarkFileNumberUsed_frame n vs :
  heap_ (MarkFileNumberUsed n vs) = heap_ vs /\
  current_ (MarkFileNumberUsed n vs) = current_ vs.
Proof. unfold MarkFileNumberUsed. destruct (_ <=? _); split; reflexivity. Qed.

Lemma Recover_candidate_frame `{Comparator} items base vs :
  heap_ (Recover_candidate items base vs).2 = heap_ vs /\
  current_ (Recover_candidate items base vs).2 = current_ vs.
Proof.
  unfold Recover_candidate. cbn [snd]. destruct (ok _); [|split; reflexivity].
  destruct (MarkFileNumberUsed_frame
              (default 0 (rs_log_number
                 (fold_left (Recover_read (options_ vs)) items
                    {| rs_status := OK; rs_builder := Builder_new base;
                       rs_compact_pointer := compact_pointer_ vs;
                       rs_log_number := None; rs_prev_log_number := None;
                       rs_next_file := None; rs_last_sequence := None |})))
              (MarkFileNumberUsed
                 (default 0 (rs_prev_log_number
                    (fold_left (Recover_read (options_ vs)) items
                       {| rs_status := OK; rs_builder := Builder_new base;
                          rs_compact_pointer := compact_pointer_ vs;
                          rs_log_number := None; rs_prev_log_number := None;
                          rs_next_file := None; rs_last_sequence := None |})))
                 (set_compact_pointer
                    (rs_compact_pointer
                       (fold_left (Recover_read (options_ vs)) items
                          {| rs_status := OK; rs_builder := Builder_new base;
                             rs_compact_pointer := compact_pointer_ vs;
                             rs_log_number := None; rs_prev_log_number := None;
                             rs_next_file := None; rs_last_sequence := None |}))
                    vs))) as [-> ->].
  destruct (MarkFileNumberUsed_frame
              (default 0 (rs_prev_log_number
                 (fold_left (Recover_read (options_ vs)) items
                    {| rs_status := OK; rs_builder := Builder_new base;
                       rs_compact_pointer := compact_pointer_ vs;
                       rs_log_number := None; rs_prev_log_number := None;
                       rs_next_file := None; rs_last_sequence := None |})))
              (set_compact_pointer
                 (rs_compact_pointer
                    (fold_left (Recover_read (options_ vs)) items
                       {| rs_status := OK; rs_builder := Builder_new base;
                          rs_compact_pointer := compact_pointer_ vs;
                          rs_log_number := None; rs_prev_log_number := None;
                          rs_next_file := None; rs_last_sequence := None |}))
                 vs)) as [-> ->].
  split; reflexivity.
Qed.

Lemma Recover_step_inv `{Comparator} io cur base r0 acc candidate :
  1 <= r0 -> recover_inv cur r0 acc ->
  recover_inv cur r0 (Recover_step io cur base acc candidate).
Proof.
  intros Hr0. destruct acc as [[[vs status] sel] kept]. destruct candidate as [i name].
  intros (Hc & b & Hb & Hrefs). cbn [fst snd] in Hc, Hb, Hrefs.
  unfold Recover_step. destruct (String.eqb name "");
    [split; [exact Hc|exists b; auto]|].
  destruct (ok (io_NewSequentialFile io name));
    [|split; [exact Hc|exists b; auto]].
  destruct (Recover_candidate_frame (io_Records io name) base (Version_Ref cur vs))
    as [Hh1 Hc1].
  destruct (Recover_candidate (io_Records io name) base (Version_Ref cur vs))
    as [cand vs1]. cbn [snd] in Hh1, Hc1.
  rewrite (Version_Ref_spec cur vs b Hb) in Hh1. cbn [heap_ set_heap] in Hh1.
  cbn [current_ Version_Ref set_heap] in Hc1.
  destruct (ok (cand_status cand)).
  - split; cbn [fst snd]; [congruence|].
    exists (set_refs (refs_ b + 1) b). rewrite Hh1, lookup_insert_eq.
    split; [reflexivity|]. cbn [refs_ set_refs]. lia.
  - assert (Hb1 : heap_ vs1 !! cur = Some (set_refs (refs_ b + 1) b))
      by (rewrite Hh1; apply lookup_insert_eq).
    rewrite (Version_Unref_keep cur vs1 _ Hb1) by (cbn [refs_ set_refs]; lia).
    split; cbn [fst snd current_ heap_ set_heap]; [congruence|].
    exists (set_refs (refs_ b) b). rewrite lookup_insert_eq.
    split; [|cbn [refs_ set_refs]; exact Hrefs].
    f_equal. cbn [refs_ set_refs]. rewrite set_refs_set_refs. f_equal. lia.
Qed.

Lemma Recover_fold_inv `{Comparator} io cur base r0 candidates acc :
  1 <= r0 -> recover_inv cur r0 acc ->
  recover_inv cur r0 (fold_left (Recover_step io cur base) candidates acc).
Proof.
  intros Hr0. revert acc.
  induction candidates as [|cand candidates IH]; intros acc Hacc; cbn [fold_left];
    [exact Hacc|].
  apply IH. apply Recover_step_inv; assumption.
Qed.

Lemma iter_Unref_other cur n vs x :
  x <> cur ->
  heap_ (Nat.iter n (Version_Unref cur) vs) !! x = heap_ vs !! x /\
  current_ (Nat.iter n (Version_Unref cur) vs) = current_ vs.
Proof.
  intros Hne. induction n as [|n [IH1 IH2]]; cbn [Nat.iter nat_rect];
    [split; reflexivity|].
  rewrite Version_Unref_other by exact Hne.
  destruct (Version_Unref_frame cur (Nat.iter n (Version_Unref cur) vs))
    as (_&_&_&_&_&_&_&_&_&Hc&_).
  split; [exact IH1|]. unfold Nat.iter in *. congruence.
Qed.

Lemma iter_Unref_keep cur n vs b :
  heap_ vs !! cur = Some b -> 1 <= refs_ b - Z.of_nat n ->
  heap_ (Nat.iter n (Version_Unref cur) vs) !! cur
  = Some (set_refs (refs_ b - Z.of_nat n) b) /\
  current_ (Nat.iter n (Version_Unref cur) vs) = current_ vs.
Proof.
  intros Hb. induction n as [|n IH]; intros Hn; cbn [Nat.iter nat_rect].
  - replace (refs_ b - Z.of_nat 0) with (refs_ b) by lia.
    rewrite set_refs_refs. auto.
  - destruct IH as [IH1 IH2]; [lia|]. fold (Nat.iter n (Version_Unref cur) vs).
    fold (Nat.iter n (Version_Unref cur) vs) in IH1, IH2.
    rewrite (Version_Unref_keep cur _ _ IH1) by (cbn [refs_ set_refs]; lia).
    cbn [heap_ current_ set_heap refs_ set_refs]. rewrite lookup_insert_eq.
    split; [|exact IH2]. f_equal. rewrite set_refs_set_refs. f_equal. lia.
Qed.

Lemma Recover_referenced `{Comparator} io vs s vs' :
  current_referenced vs -> Recover io vs = Some (s, vs') -> current_referenced vs'.
Proof.
  intros (c & base & Hcur & Hbase & Hrefs). unfold Recover.
  destruct (if FileExists (CurrentFileName (dbname_ vs)) (env_ vs) then _ else _)
    as [name2 status0].
  rewrite Hcur. cbn [mbind option_bind]. rewrite Hbase. cbn [mbind option_bind].
  match goal with
  | |- context [fold_left (Recover_step io c (files_ base)) ?l ?acc] =>
      pose proof (Recover_fold_inv io c (files_ base) (refs_ base) l acc Hrefs) as Hinv;
      destruct (fold_left (Recover_step io c (files_ base)) l acc)
        as [[[vs1 status] sel] kept]
  end.
  destruct Hinv as (Hc1 & b & Hb & Hrb); cbn [fst snd] in *.
  { split; cbn [fst snd]; [exact Hcur|].
    rewrite (Version_Ref_spec c vs base Hbase). cbn [heap_ set_heap].
    rewrite lookup_insert_eq. eexists. split; [reflexivity|].
    cbn [refs_ set_refs]. lia. }
  assert (Hkeep : current_referenced (Nat.iter (S kept) (Version_Unref c) vs1)).
  { destruct (iter_Unref_keep c (S kept) vs1 b Hb) as [Hh Hc]; [lia|].
    exists c, (set_refs (refs_ b - Z.of_nat (S kept)) b).
    split; [congruence|]. split; [exact Hh|]. cbn [refs_ set_refs]. lia. }
  destruct (ok status); [|intros [= <- <-]; exact Hkeep].
  destruct (selected sel) as [[i bld]|]; [|intros [= <- <-]; exact Hkeep].
  unfold Version_alloc. cbv beta iota zeta.
  set (v := fresh (dom (heap_ vs1))).
  assert (Hv : heap_ vs1 !! v = None) by apply fresh_heap.
  assert (Hvc : v <> c) by congruence.
  set (ver := Finalize (options_ vs) (SaveTo bld (Version_new (options_ vs)))).
  match goal with
  | |- context [AppendVersion v ?vs2] =>
      destruct (AppendVersion_spec v vs2 ver) as (Ha & Hh & _);
      [cbn [heap_ set_heap]; apply lookup_insert_eq|
       cbn [current_ set_heap]; congruence|];
      set (vs3 := AppendVersion v vs2) in *
  end.
  assert (Hfin : forall vs4, heap_ vs4 = heap_ vs3 -> current_ vs4 = current_ vs3 ->
            current_referenced (Nat.iter (S kept) (Version_Unref c) vs4)).
  { intros vs4 Hh4 Hc4.
    destruct (iter_Unref_other c (S kept) vs4 v Hvc) as [Hx Hy].
    exists v, (set_refs (refs_ ver + 1) ver). split; [congruence|].
    split; [rewrite Hx, Hh4; exact Hh|]. cbn [refs_ set_refs].
    unfold ver. rewrite Finalize_refs.
    change (refs_ (SaveTo bld (Version_new (options_ vs)))) with 0. lia. }
  destruct (negb (rotating_manifest (options_ vs)));
    intros [= <- <-]; apply Hfin; reflexivity.
Qed.

Lemma Compaction_new_referenced options level vs :
  current_referenced vs -> current_referenced (Compaction_new options level vs).2.
Proof.
  intros (c & base & Hcur & Hbase & Hrefs). unfold Compaction_new. cbn [snd].
  rewrite Hcur. rewrite (Version_Ref_spec c vs base Hbase).
  exists c, (set_refs (refs_ base + 1) base). cbn [current_ heap_ set_heap].
  split; [exact Hcur|]. split; [apply lookup_insert_eq|]. cbn [refs_ set_refs]. lia.
Qed.

Lemma SetupOtherInputs_referenced `{Comparator} c vs c' vs' :
  current_referenced vs -> SetupOtherInputs c vs = Some (c', vs') ->
  current_referenced vs'.
Proof.
  intros Href. unfold SetupOtherInputs.
  destruct (GetRange _) as [smallest0 largest0].
  destruct (GetOverlappingInputs _ _ _ _) as [inputs1|];
    cbn [mbind option_bind]; [|discriminate].
  destruct (GetRange2 _ _) as [all_start all_limit].
  match goal with
  | |- context [mbind _ ?m] =>
      destruct m as [[[[[inputs0' inputs1'] largest'] all_start'] all_limit']|];
      cbn [mbind option_bind]; [|discriminate]
  end.
  match goal with
  | |- context [mbind _ ?m] =>
      destruct m as [grandparents|]; cbn [mbind option_bind]; [|discriminate]
  end.
  intros [= <- <-]. exact Href.
Qed.

Lemma PickCompaction_seed_referenced `{Comparator} `{SublevelMode}
    allow_seek_compaction vs t c vs1 :
  current_referenced vs ->
  PickCompaction_seed allow_seek_compaction vs = Some (Some (t, c, vs1)) ->
  current_referenced vs1.
Proof.
  intros Href. unfold PickCompaction_seed.
  destruct (current_version vs) as [cur|]; cbn [mbind option_bind]; [|discriminate].
  destruct (double_ge (compaction_score_ cur) (double_of_Z 1)).
  - destruct (compaction_level_ cur <? 0); [discriminate|].
    pose proof (Compaction_new_referenced (options_ vs)
                  (Z.to_nat (compaction_level_ cur)) vs Href) as Hnew.
    destruct (Compaction_new _ _ vs) as [c0 vs0]. cbn [snd] in Hnew.
    destruct (enable_sublevel (options_ vs)).
    + destruct (SetupSublevelInputs _ _ _); cbn [mbind option_bind]; [|discriminate].
      intros [= <- <- <-]. exact Hnew.
    + destruct (files_ cur !! _) as [files|]; cbn [mbind option_bind]; [|discriminate].
      destruct (compact_pointer_ vs !! _) as [pointer|]; cbn [mbind option_bind];
        [|discriminate].
      destruct (match first_after pointer files with
                | Some f => Some f
                | None => files !! 0%nat
                end); cbn [mbind option_bind]; [|discriminate].
      intros [= <- <- <-]. exact Hnew.
  - destruct (allow_seek_compaction && _); [|discriminate].
    destruct (file_to_compact_ cur) as [f|]; cbn [mbind option_bind]; [|discriminate].
    destruct (file_to_compact_level_ cur <? 0); [discriminate|].
    pose proof (Compaction_new_referenced (options_ vs)
                  (Z.to_nat (file_to_compact_level_ cur)) vs Href) as Hnew.
    destruct (Compaction_new _ _ vs) as [c0 vs0]. cbn [snd] in Hnew.
    intros [= <- <- <-]. exact Hnew.
Qed.

Lemma PickCompaction_referenced `{Comparator} `{SublevelMode}
    allow_seek_compaction vs c vs' :
  current_referenced vs ->
  PickCompaction allow_seek_compaction vs = Some (Some (c, vs')) ->
  current_referenced vs'.
Proof.
  intros Href. unfold PickCompaction.
  destruct (PickCompaction_seed allow_seek_compaction vs) as [[[[t c0] vs1]|]|] eqn:Hseed;
    cbn [mbind option_bind]; try discriminate.
  pose proof (PickCompaction_seed_referenced _ _ _ _ _ Href Hseed) as H1.
  destruct (negb (enable_sublevel (options_ vs))); [|intros [= <- <-]; exact H1].
  destruct (current_version vs1) as [cur|]; cbn [mbind option_bind]; [|discriminate].
  match goal with
  | |- context [mbind _ ?m] =>
      destruct m as [c1|]; cbn [mbind option_bind]; [|discriminate]
  end.
  destruct (SetupOtherInputs c1 vs1) as [[c2 vs2]|] eqn:Hsetup;
    cbn [fmap option_fmap option_map]; [|discriminate].
  intros [= <- <-]. eapply SetupOtherInputs_referenced; eauto.
Qed.

Lemma CompactRange_referenced `{Comparator} level begin_ end_ vs c vs' :
  current_referenced vs ->
  CompactRange level begin_ end_ vs = Some (Some (c, vs')) ->
  current_referenced vs'.
Proof.
  intros Href. unfold CompactRange.
  destruct (enable_sublevel (options_ vs)); [discriminate|].
  destruct (CompactRange_inputs level begin_ end_ vs) as [inputs|];
    cbn [mbind option_bind]; [|discriminate].
  destruct (bool_decide (inputs = [])); [discriminate|].
  pose proof (Compaction_new_referenced (options_ vs) level vs Href) as Hnew.
  destruct (Compaction_new _ _ vs) as [c0 vs0]. cbn [snd] in Hnew.
  destruct (SetupOtherInputs _ vs0) as [[c2 vs2]|] eqn:Hsetup;
    cbn [fmap option_fmap option_map]; [|discriminate].
  intros [= <- <-]. eapply SetupOtherInputs_referenced; eauto.
Qed.

(** C10.  In every state that a version set reaches from its construction by
    [LogAndApply], [ForeighApply], [Recover] and the planning of compactions,
    the current version exists and its reference count is at least 1.
    [AppendVersion], given a version that is not referenced and is not the
    current one, makes it the current version with a reference count of 1,
    to which later references add. *)
Theorem current_version_referenced `{Comparator} `{SublevelMode} (vs : VersionSet) :
  reachable vs ->
  current_referenced vs /\
  forall (vs0 : VersionSet) (v : nat) (ver : Version),
    heap_ vs0 !! v = Some ver -> refs_ ver = 0 -> current_ vs0 <> Some v ->
    current_ (AppendVersion v vs0) = Some v /\
    exists ver', heap_ (AppendVersion v vs0) !! v = Some ver' /\
      refs_ ver' = 1 /\ files_ ver' = files_ ver.
Proof.
  intros Hreach. split.
  - induction Hreach.
    + apply VersionSet_new_referenced.
    + eapply LogAndApply_referenced; eauto.
    + eapply ForeighApply_referenced; eauto.
    + eapply Recover_referenced; eauto.
    + eapply PickCompaction_referenced; eauto.
    + eapply CompactRange_referenced; eauto.
  - intros vs0 v ver Hv Hrefs Hne.
    destruct (AppendVersion_spec v vs0 ver Hv Hne) as (Hc & Hh & _).
    split; [exact Hc|]. exists (set_refs (refs_ ver + 1) ver).
    split; [exact Hh|]. cbn [refs_ set_refs files_]. split; [lia|reflexivity].
Qed.

(** * Further properties *)

(** ** GetOverlappingInputs from level 1 on *)

Lemma GetOverlappingInputs_loop_sweep `{Comparator} (level : nat)
    (all : list FileMetaData) (ub ue : option string) :
  (1 <= level)%nat ->
  forall rest fuel inputs, (length rest <= fuel)%nat ->
    GetOverlappingInputs_loop fuel level all rest ub ue inputs
    = Some (inputs ++ List.filter (file_overlaps ub ue) rest).
Proof.
  intros Hlevel. induction rest as [|f rest IH]; intros fuel inputs Hfuel.
  - destruct fuel; simpl; rewrite app_nil_r; reflexivity.
  - destruct fuel as [|fuel]; [simpl in Hfuel; lia|].
    simpl in Hfuel. cbn [GetOverlappingInputs_loop List.filter].
    unfold file_overlaps, before_range, after_range.
    destruct (match ub with Some b => _ | None => false end); simpl.
    { apply IH. lia. }
    destruct (match ue with Some e => _ | None => false end); simpl.
    { apply IH. lia. }
    destruct (Nat.eqb_spec level 0) as [->|_]; [lia|].
    rewrite IH by lia. rewrite <- app_assoc. reflexivity.
Qed.

(** X1.  At a level from 1 on [GetOverlappingInputs] makes one sweep: it
    returns, in the order of the level, exactly the files whose range of user
    keys meets the range of the query, where a [NULL] bound is open. *)
Theorem GetOverlappingInputs_sweep `{Comparator}
    (files : list (list FileMetaData)) (level : nat)
    (begin_ end_ : option InternalKey) :
  (1 <= level < length files)%nat ->
  exists result,
    GetOverlappingInputs files level begin_ end_ = Some result /\
    result = List.filter (file_overlaps (user_key <$> begin_) (user_key <$> end_))
               (level_files files level) /\
    forall f, In f result <->
      In f (level_files files level) /\
      (forall b, begin_ = Some b ->
         Compare (user_key (largest f)) (user_key b) <> Lt) /\
      (forall e, end_ = Some e ->
         Compare (user_key (smallest f)) (user_key e) <> Gt).
Proof.
  intros [Hlevel _]. eexists. split; [|split; [reflexivity|]].
  - unfold GetOverlappingInputs.
    rewrite (GetOverlappingInputs_loop_sweep level _ _ _ Hlevel) by
      (unfold GetOverlappingInputs_fuel; nia).
    reflexivity.
  - intros f. rewrite List.filter_In. unfold file_overlaps, before_range, after_range.
    rewrite andb_true_iff, !negb_true_iff.
    destruct begin_ as [b|], end_ as [e|]; simpl;
      rewrite ?is_lt_false, ?is_gt_false; split.
    all: try (intros (Hin & H1 & H2); split; [exact Hin|split]; intros x [= <-]; assumption).
    all: try (intros (Hin & H1 & H2); split; [exact Hin|split]; auto;
              try (intros x [=]); try (intros x [= <-]; assumption)).
    all: intros (Hin & H1 & H2); split; [exact Hin|split]; auto.
Qed.

(** ** SomeFileOverlapsRange *)

Lemma FindFile_index `{Comparator} (L : CmpLaws Compare)
    (files : list FileMetaData) (key : InternalKey) :
  Z.of_nat (length files) < 2 ^ 31 ->
  sorted_by_largest files ->
  exists i : nat,
    FindFile files key = Some (Z.of_nat i) /\ (i <= length files)%nat /\
    (forall j f, files !! j = Some f -> (j < i)%nat ->
       icmp_Compare (largest f) key = Lt) /\
    (forall j f, files !! j = Some f -> (i <= j)%nat ->
       icmp_Compare (largest f) key <> Lt).
Proof.
  intros Hsize Hsorted.
  destruct (FindFile_loop_spec L files key Hsorted Hsize (S (length files)) 0
              (Z.of_nat (length files))) as (i & Hi & Hb & H1 & H2);
    try lia.
  - intros j f Hf Hj. apply lookup_lt_Some in Hf. lia.
  - unfold FindFile. rewrite (uint32_small (Z.of_nat (length files))) by lia.
    rewrite Hi. simpl. exists (Z.to_nat i).
    rewrite int32_small by lia. rewrite Z2Nat.id by lia.
    repeat split; try lia.
    + intros j f Hf Hj. apply (H1 j f Hf). lia.
    + intros j f Hf Hj. apply (H2 j f Hf). lia.
Qed.

Lemma SomeFileOverlapsRange_scan_true `{Comparator} files s l :
  SomeFileOverlapsRange_scan files s l = true <->
  exists f, In f files /\ in_user_range s l f.
Proof.
  unfold in_user_range. induction files as [|f files IH]; simpl.
  - split; [discriminate|intros (f & [] & _)].
  - destruct (AfterFile s f || BeforeFile l f) eqn:E.
    + rewrite IH. split.
      * intros (g & Hg & Hr). exists g. auto.
      * intros (g & [<-|Hg] & Ha & Hb); [|exists g; auto].
        rewrite Ha, Hb in E. discriminate.
    + apply orb_false_iff in E as [Ha Hb]. split; [|reflexivity].
      intros _. exists f. auto.
Qed.

Lemma pairwise_sorted_by_largest `{Comparator} (L : CmpLaws Compare) files :
  pairwise file_before files -> Forall file_wf files -> sorted_by_largest files.
Proof.
  intros Hp Hwf i j fi fj Hij Hi Hj.
  pose proof (icmp_laws L) as LI.
  destruct (decide (i = j)) as [->|Hne].
  - rewrite Hi in Hj. injection Hj as <-.
    rewrite (cmp_refl (cmp:=icmp_Compare)). discriminate.
  - assert (Hlt : (i < j)%nat) by lia.
    pose proof (pairwise_lookup _ _ Hp i j fi fj Hlt Hi Hj) as Hb.
    rewrite List.Forall_forall in Hwf.
    assert (Hw : file_wf fj).
    { apply Hwf. apply list_elem_of_In. eapply list_elem_of_lookup_2; eauto. }
    unfold file_before in Hb. unfold file_wf in Hw.
    rewrite (cmp_lt_le_trans icmp_Compare _ _ _ Hb Hw). discriminate.
Qed.

Lemma icmp_user_key_le `{Comparator} a b :
  icmp_Compare a b <> Gt -> Compare (user_key a) (user_key b) <> Gt.
Proof.
  unfold icmp_Compare. intros Hi Hc. rewrite Hc in Hi. apply Hi. reflexivity.
Qed.

Lemma icmp_seek_key_lt `{Comparator} (k : string) (a : InternalKey) :
  sequence a <= kMaxSequenceNumber ->
  icmp_Compare a {| user_key := k; sequence := kMaxSequenceNumber;
                    kind := kValueTypeForSeek |} = Lt <->
  Compare (user_key a) k = Lt.
Proof.
  intros Hseq. unfold icmp_Compare. cbn [user_key].
  destruct (Compare (user_key a) k) eqn:E; try tauto; try (split; discriminate).
  split; [|discriminate]. rewrite Z.compare_lt_iff.
  unfold PackSequenceAndType. cbn [sequence kind].
  unfold kValueTypeForSeek, kMaxSequenceNumber in *.
  destruct (kind a); cbn [ValueType_code]; lia.
Qed.

(** The binary search of [SomeFileOverlapsRange] and the scan of all files
    give the same answer on a level of disjoint files in key order. *)
Lemma SomeFileOverlapsRange_binary_search `{Comparator} (L : CmpLaws Compare)
    (files : list FileMetaData) (smallest_user_key largest_user_key : option string) :
  Z.of_nat (length files) < 2 ^ 31 ->
  pairwise file_before files -> Forall file_wf files ->
  Forall (fun f => sequence (largest f) <= kMaxSequenceNumber) files ->
  exists b,
    SomeFileOverlapsRange true files smallest_user_key largest_user_key = Some b /\
    SomeFileOverlapsRange false files smallest_user_key largest_user_key = Some b /\
    (b = true <->
     exists f, In f files /\ in_user_range smallest_user_key largest_user_key f).
Proof.
  intros Hsize Hp Hwf Hseq.
  pose proof (icmp_laws L) as LI.
  pose proof (pairwise_sorted_by_largest L files Hp Hwf) as Hsorted.
  assert (Hidx : exists i : nat,
    match smallest_user_key with
    | Some k => uint32 <$> FindFile files
                  {| user_key := k; sequence := kMaxSequenceNumber;
                     kind := kValueTypeForSeek |}
    | None => Some 0
    end = Some (Z.of_nat i) /\ (i <= length files)%nat /\
    (forall j f, files !! j = Some f -> (j < i)%nat ->
       AfterFile smallest_user_key f = true) /\
    (forall j f, files !! j = Some f -> (i <= j)%nat ->
       AfterFile smallest_user_key f = false)).
  { destruct smallest_user_key as [k|]; simpl.
    - destruct (FindFile_index L files
                  {| user_key := k; sequence := kMaxSequenceNumber;
                     kind := kValueTypeForSeek |} Hsize Hsorted)
        as (i & Hi & Hb & H1 & H2).
      exists i. rewrite Hi. simpl. rewrite uint32_small by lia.
      split; [reflexivity|]. split; [exact Hb|].
      rewrite List.Forall_forall in Hseq.
      assert (Hs : forall j f, files !! j = Some f ->
                sequence (largest f) <= kMaxSequenceNumber).
      { intros j f Hf. apply Hseq. apply list_elem_of_In.
        eapply list_elem_of_lookup_2; eauto. }
      split; intros j f Hf Hj.
      + apply is_gt_true. apply (cmp_gt_lt Compare).
        apply (icmp_seek_key_lt k _ (Hs j f Hf)). eauto.
      + apply is_gt_false. intros Hc. apply (cmp_gt_lt Compare) in Hc.
        apply (icmp_seek_key_lt k _ (Hs j f Hf)) in Hc. exact (H2 j f Hf Hj Hc).
    - exists 0%nat. split; [reflexivity|]. split; [lia|].
      split; [intros; lia|reflexivity]. }
  destruct Hidx as (i & Hi & Hb & H1 & H2).
  assert (Hscan : forall b,
    (b = true <-> exists f, In f files /\
                    in_user_range smallest_user_key largest_user_key f) ->
    SomeFileOverlapsRange false files smallest_user_key largest_user_key = Some b).
  { intros b Hiff. unfold SomeFileOverlapsRange. simpl. f_equal.
    destruct b.
    - apply SomeFileOverlapsRange_scan_true. apply Hiff. reflexivity.
    - destruct (SomeFileOverlapsRange_scan files _ _) eqn:E; [|reflexivity].
      apply SomeFileOverlapsRange_scan_true in E. apply Hiff in E. discriminate. }
  unfold SomeFileOverlapsRange at 1. cbn [negb]. rewrite Hi. cbn [mbind option_bind].
  destruct (Z.leb_spec (Z.of_nat (length files)) (Z.of_nat i)) as [Hge|Hlt].
  - assert (Hiff : false = true <-> exists f, In f files /\
                     in_user_range smallest_user_key largest_user_key f).
    { split; [discriminate|]. intros (f & Hf & Ha & _).
      apply list_elem_of_In, list_elem_of_lookup_1 in Hf as [j Hj].
      pose proof (lookup_lt_Some _ _ _ Hj).
      rewrite (H1 j f Hj) in Ha by lia. discriminate. }
    exists false. split; [reflexivity|]. split; [apply Hscan|]; exact Hiff.
  - rewrite Nat2Z.id.
    destruct (lookup_lt_is_Some_2 files i) as [fi Hfi]; [lia|].
    rewrite Hfi. cbn [mbind option_bind].
    assert (Hiff : negb (BeforeFile largest_user_key fi) = true <->
              exists f, In f files /\
                in_user_range smallest_user_key largest_user_key f).
    { rewrite negb_true_iff. split.
      - intros Hbf. exists fi. split.
        + apply list_elem_of_In. eapply list_elem_of_lookup_2; eauto.
        + split; [apply (H2 i fi Hfi); lia|exact Hbf].
      - intros (f & Hf & Ha & Hbf).
        apply list_elem_of_In, list_elem_of_lookup_1 in Hf as [j Hj].
        assert (Hij : (i <= j)%nat).
        { destruct (le_lt_dec i j) as [|Hji]; [assumption|].
          rewrite (H1 j f Hj Hji) in Ha. discriminate. }
        destruct (decide (i = j)) as [->|Hne].
        { rewrite Hfi in Hj. injection Hj as <-. exact Hbf. }
        destruct largest_user_key as [k|]; [|reflexivity]. simpl in *.
        apply is_lt_false. apply is_lt_false in Hbf. intros Hc. apply Hbf.
        assert (Hlt' : (i < j)%nat) by lia.
        pose proof (pairwise_lookup _ _
                      (before_sorted L files Hp Hwf) i j fi f Hlt' Hfi Hj) as Hle.
        apply icmp_user_key_le in Hle.
        exact (cmp_lt_le_trans Compare _ _ _ Hc Hle). }
    exists (negb (BeforeFile largest_user_key fi)).
    split; [reflexivity|]. split; [apply Hscan|]; exact Hiff.
Qed.

(** X2.  On a level of disjoint files in key order, the binary search of
    [SomeFileOverlapsRange] answers as the scan of all files does: it returns
    [true] exactly when some file of the level has a range of user keys that
    meets [smallest_user_key, largest_user_key]. *)
Theorem SomeFileOverlapsRange_disjoint `{Comparator} (L : CmpLaws Compare)
    (files : list FileMetaData) (smallest_user_key largest_user_key : option string) :
  Z.of_nat (length files) < 2 ^ 31 ->
  pairwise file_before files -> Forall file_wf files ->
  Forall (fun f => sequence (largest f) <= kMaxSequenceNumber) files ->
  exists b,
    SomeFileOverlapsRange true files smallest_user_key largest_user_key = Some b /\
    SomeFileOverlapsRange false files smallest_user_key largest_user_key = Some b /\
    (b = true <->
     exists f, In f files /\ in_user_range smallest_user_key largest_user_key f).
Proof.
  intros Hsize Hp Hwf Hseq.
  exact (SomeFileOverlapsRange_binary_search L files smallest_user_key
           largest_user_key Hsize Hp Hwf Hseq).
Qed.

(** ** PickLevelForMemTableOutput *)

Lemma FindFile_loop_returns `{Comparator} files key :
  Z.of_nat (length files) < 2 ^ 31 ->
  forall fuel left right,
    0 <= left <= right -> right <= Z.of_nat (length files) ->
    right - left <= Z.of_nat fuel ->
    exists i, FindFile_loop fuel files key left right = Some i /\ left <= i <= right.
Proof.
  intros Hsize. induction fuel as [|fuel IH]; intros left right Hlr Hr Hfuel.
  - simpl. destruct (Z.ltb_spec left right); [lia|]. exists right. split; [reflexivity|lia].
  - cbn [FindFile_loop]. destruct (Z.ltb_spec left right) as [Hlt|Hge];
      [|exists right; split; [reflexivity|lia]].
    rewrite (uint32_small (left + right)) by lia.
    assert (Hmid : left <= (left + right) / 2 < right).
    { split; [apply Z.div_le_lower_bound; lia|apply Z.div_lt_upper_bound; lia]. }
    destruct (lookup_lt_is_Some_2 files (Z.to_nat ((left + right) / 2))) as [f Hf];
      [lia|].
    rewrite Hf. destruct (is_lt _).
    + rewrite uint32_small by lia.
      destruct (IH ((left + right) / 2 + 1) right) as (i & Hi & Hb); try lia.
      exists i. split; [exact Hi|lia].
    + destruct (IH left ((left + right) / 2)) as (i & Hi & Hb); try lia.
      exists i. split; [exact Hi|lia].
Qed.

Lemma SomeFileOverlapsRange_returns `{Comparator} disjoint files s l :
  Z.of_nat (length files) < 2 ^ 31 ->
  exists b, SomeFileOverlapsRange disjoint files s l = Some b.
Proof.
  intros Hsize. unfold SomeFileOverlapsRange.
  destruct disjoint; cbn [negb]; [|eexists; reflexivity].
  assert (Hidx : exists i,
    match s with
    | Some k => uint32 <$> FindFile files
                  {| user_key := k; sequence := kMaxSequenceNumber;
                     kind := kValueTypeForSeek |}
    | None => Some 0
    end = Some i /\ 0 <= i <= Z.of_nat (length files)).
  { destruct s as [k|]; [|exists 0; split; [reflexivity|lia]].
    unfold FindFile. rewrite (uint32_small (Z.of_nat (length files))) by lia.
    destruct (FindFile_loop_returns files
                {| user_key := k; sequence := kMaxSequenceNumber;
                   kind := kValueTypeForSeek |} Hsize (S (length files)) 0
                (Z.of_nat (length files))) as (i & Hi & Hb); try lia.
    rewrite Hi. simpl. rewrite int32_small, uint32_small by lia.
    exists i. split; [reflexivity|lia]. }
  destruct Hidx as (i & -> & Hb). cbn [mbind option_bind].
  destruct (Z.leb_spec (Z.of_nat (length files)) i); [eexists; reflexivity|].
  destruct (lookup_lt_is_Some_2 files (Z.to_nat i)) as [f ->]; [lia|].
  eexists; reflexivity.
Qed.

Section PickLevel.
Context `{Comparator} (L : CmpLaws Compare).
Variables (options : Options) (files : list (list FileMetaData)).
Variables (smallest_user_key largest_user_key : string).
Hypothesis Hsize : forall level, Z.of_nat (length (level_files files level)) < 2 ^ 31.
Hypothesis Hlevels : forall level, (1 <= level)%nat ->
  pairwise file_before (level_files files level) /\
  Forall file_wf (level_files files level) /\
  Forall (fun f => sequence (largest f) <= kMaxSequenceNumber) (level_files files level).


End PickLevel.


(** ** GetRange *)

Lemma GetRange_fold_covers `{Comparator} (L : CmpLaws Compare) inputs :
  forall seen s l, covers seen s l ->
    let r := fold_left
               (fun '(s, l) f =>
                  (if is_lt (icmp_Compare (smallest f) s) then smallest f else s,
                   if is_gt (icmp_Compare (largest f) l) then largest f else l))
               inputs (s, l) in
    covers (seen ++ inputs) r.1 r.2.
Proof.
  pose proof (icmp_laws L) as LI.
  induction inputs as [|f inputs IH]; intros seen s l Hc.
  - simpl. rewrite app_nil_r. exact Hc.
  - cbn [fold_left].
    replace (seen ++ f :: inputs) with ((seen ++ [f]) ++ inputs)
      by (rewrite <- app_assoc; reflexivity).
    apply IH. destruct Hc as (Hall & (fs & Hfs & Hs) & (fl & Hfl & Hl)).
    split; [|split].
    + intros g Hg. apply in_app_or in Hg as [Hg|[<-|[]]].
      * destruct (Hall g Hg) as [H1 H2]. split.
        -- destruct (is_lt _) eqn:E; [|exact H1].
           apply is_lt_true in E.
           rewrite (cmp_lt_le_trans icmp_Compare _ _ _ E H1). discriminate.
        -- destruct (is_gt _) eqn:E; [|exact H2].
           apply is_gt_true in E. apply (cmp_gt_lt icmp_Compare) in E.
           rewrite (cmp_le_lt_trans icmp_Compare _ _ _ H2 E). discriminate.
      * split.
        -- destruct (is_lt _) eqn:E.
           ++ rewrite (cmp_refl (cmp:=icmp_Compare)). discriminate.
           ++ apply is_lt_false in E. apply (cmp_not_lt_ge icmp_Compare). exact E.
        -- destruct (is_gt _) eqn:E.
           ++ rewrite (cmp_refl (cmp:=icmp_Compare)). discriminate.
           ++ apply is_gt_false in E. exact E.
    + destruct (is_lt _).
      * exists f. split; [apply in_or_app; right; left|]; reflexivity.
      * exists fs. split; [apply in_or_app; left|]; assumption.
    + destruct (is_gt _).
      * exists f. split; [apply in_or_app; right; left|]; reflexivity.
      * exists fl. split; [apply in_or_app; left|]; assumption.
Qed.

(** X4.  On a vector that is not empty, [GetRange] returns the least range
    of internal keys that covers its files: the first key is at or before the
    smallest key of every file and is the smallest key of one of them, the
    second is at or after the largest key of every file and is the largest
    key of one of them.  [GetRange2] does so for the files of two vectors. *)
Theorem GetRange_covers `{Comparator} (L : CmpLaws Compare)
    (inputs1 inputs2 : list FileMetaData) :
  inputs1 ++ inputs2 <> [] ->
  covers (inputs1 ++ inputs2) (GetRange2 inputs1 inputs2).1
    (GetRange2 inputs1 inputs2).2 /\
  GetRange (inputs1 ++ inputs2) = GetRange2 inputs1 inputs2.
Proof.
  intros Hne. split; [|reflexivity]. unfold GetRange2, GetRange.
  pose proof (icmp_laws L) as LI.
  destruct (inputs1 ++ inputs2) as [|f inputs]; [contradiction|].
  apply (GetRange_fold_covers L inputs [f]).
  split; [|split].
  - intros g [<-|[]]. rewrite !(cmp_refl (cmp:=icmp_Compare)). split; discriminate.
  - exists f. split; [left|]; reflexivity.
  - exists f. split; [left|]; reflexivity.
Qed.

(** ** What an edit does to the files of a version *)

Lemma deleted_of_in_range (ls : list LevelState) level n :
  n ∈ deleted_of ls level -> (level < length ls)%nat.
Proof.
  unfold deleted_of. intros Hn.
  destruct (ls !! level) as [x|] eqn:E; [eapply lookup_lt_Some; eauto|].
  simpl in Hn. apply elem_of_empty in Hn. destruct Hn.
Qed.

Lemma deleted_of_fold_deleted_iff (dels : list (nat * Z)) ls level n :
  n ∈ deleted_of (fold_deleted dels ls) level <->
  n ∈ deleted_of ls level \/ (In (level, n) dels /\ (level < length ls)%nat).
Proof.
  revert ls. induction dels as [|[l m] dels IH]; intros ls; cbn [fold_left].
  - split; [auto|intros [Hn|[[] _]]; exact Hn].
  - rewrite IH. rewrite length_alter. unfold deleted_of at 1.
    rewrite default_alter.
    destruct (decide (l = level /\ (level < length ls)%nat)) as [[-> Hlt]|Hno].
    + cbn [insert_deleted deleted_files]. fold (deleted_of ls level).
      rewrite elem_of_union, elem_of_singleton. split.
      * intros [[->|Hn]|[Hin Hl]]; auto.
        -- right. split; [left; reflexivity|exact Hlt].
        -- right. split; [right; exact Hin|exact Hl].
      * intros [Hn|[[[= <-]|Hin] Hl]]; auto.
    + fold (deleted_of ls level). split.
      * intros [Hn|[Hin Hl]]; auto. right. split; [right; exact Hin|exact Hl].
      * intros [Hn|[[[= <- <-]|Hin] Hl]]; auto. exfalso. apply Hno. auto.
Qed.

Lemma deleted_of_fold_added_iff `{Comparator} (news : list (nat * FileMetaData))
    ls level n :
  n ∈ deleted_of (fold_added news ls) level <->
  n ∈ deleted_of ls level /\ forall f, In (level, f) news -> number f <> n.
Proof.
  revert ls. induction news as [|[l g] news IH]; intros ls; cbn [fold_left].
  - split; [intros Hn; split; [exact Hn|intros f []]|intros [Hn _]; exact Hn].
  - rewrite IH. unfold deleted_of at 1. rewrite default_alter.
    destruct (decide (l = level /\ (level < length ls)%nat)) as [[-> Hlt]|Hno].
    + cbn [insert_added deleted_files number set_allowed_seeks].
      fold (deleted_of ls level).
      rewrite elem_of_difference, elem_of_singleton. split.
      * intros [[Hn Hne] Hall]. split; [exact Hn|].
        intros f [[= <-]|Hf]; [congruence|auto].
      * intros [Hn Hall]. split; [split; [exact Hn|]|].
        -- intros ->. apply (Hall g); [left|]; reflexivity.
        -- intros f Hf. apply Hall. right. exact Hf.
    + fold (deleted_of ls level). split.
      * intros [Hn Hall]. split; [exact Hn|].
        intros f [[= <- <-]|Hf]; [|auto].
        exfalso. apply Hno. split; [reflexivity|].
        eapply deleted_of_in_range; eauto.
      * intros [Hn Hall]. split; [exact Hn|]. intros f Hf. apply Hall.
        right. exact Hf.
Qed.

Section FileSetFacts.
Context `{Comparator} (L : CmpLaws Compare).

Lemma BySmallestKey_equivalent f g :
  BySmallestKey f g = false -> BySmallestKey g f = false -> number f = number g.
Proof.
  pose proof (icmp_laws L) as LI. unfold BySmallestKey.
  rewrite (cmp_antisym (cmp:=icmp_Compare) (smallest f) (smallest g)).
  destruct (icmp_Compare (smallest f) (smallest g)); simpl; try discriminate.
  intros H1 H2. apply Z.ltb_ge in H1, H2. lia.
Qed.

Lemma BySmallestKey_asym f g :
  BySmallestKey f g = true -> BySmallestKey g f = false.
Proof.
  pose proof (icmp_laws L) as LI. unfold BySmallestKey.
  rewrite (cmp_antisym (cmp:=icmp_Compare) (smallest f) (smallest g)).
  destruct (icmp_Compare (smallest f) (smallest g)); simpl; try discriminate;
    try reflexivity.
  intros H1. apply Z.ltb_lt in H1. apply Z.ltb_ge. lia.
Qed.

Lemma In_FileSet_insert_old f s x : In x s -> In x (FileSet_insert f s).
Proof.
  induction s as [|g s IH]; simpl; [intros []|].
  intros Hx. destruct (BySmallestKey f g); [right; exact Hx|].
  destruct (BySmallestKey g f); [|exact Hx].
  destruct Hx as [<-|Hx]; [left; reflexivity|right; auto].
Qed.

Lemma In_FileSet_insert_new f s :
  (forall g, In g s -> number g <> number f) -> In f (FileSet_insert f s).
Proof.
  induction s as [|g s IH]; simpl; intros Hne; [left; reflexivity|].
  destruct (BySmallestKey f g) eqn:E1; [left; reflexivity|].
  destruct (BySmallestKey g f) eqn:E2.
  - right. apply IH. intros x Hx. apply Hne. right. exact Hx.
  - exfalso. apply (Hne g); [left; reflexivity|].
    symmetry. apply BySmallestKey_equivalent; assumption.
Qed.

Lemma added_of_fold_added_iff (news : list (nat * FileMetaData)) level f :
  pairwise distinct_numbers news ->
  forall ls, (level < length ls)%nat ->
    (forall x f0, In x (added_of ls level) -> In (level, f0) news ->
       number f0 <> number x) ->
    In f (added_of (fold_added news ls) level) <->
    In f (added_of ls level) \/
    exists f0, In (level, f0) news /\ f = budgeted f0.
Proof.
  induction news as [|[l g] news IH]; intros Hd ls Hlt Hne; cbn [fold_left].
  - split; [auto|intros [Hf|(f0 & [] & _)]; exact Hf].
  - destruct Hd as [Hg Hd]. rewrite List.Forall_forall in Hg.
    assert (Hadd : forall x, In x (added_of (alter (insert_added (budgeted g)) l ls) level) <->
              In x (added_of ls level) \/ (l = level /\ x = budgeted g)).
    { intros x. unfold added_of at 1. rewrite default_alter.
      destruct (decide (l = level /\ (level < length ls)%nat)) as [[-> _]|Hno].
      - cbn [insert_added added_files]. fold (added_of ls level). split.
        + intros Hx. apply In_FileSet_insert in Hx as [->|Hx]; auto.
        + intros [Hx|[_ ->]]; [apply In_FileSet_insert_old; exact Hx|].
          apply In_FileSet_insert_new. intros y Hy.
          cbn [number set_allowed_seeks]. intros Heq.
          apply (Hne y g Hy); [left; reflexivity|]. congruence.
      - fold (added_of ls level). split; [auto|].
        intros [Hx|[-> _]]; [exact Hx|]. exfalso. apply Hno. auto. }
    rewrite IH; [| exact Hd | rewrite length_alter; exact Hlt |].
    + rewrite Hadd. split.
      * intros [[Hf|[-> ->]]|(f0 & Hf0 & ->)]; auto.
        -- right. exists g. split; [left|]; reflexivity.
        -- right. exists f0. split; [right; exact Hf0|reflexivity].
      * intros [Hf|(f0 & [[= <- <-]|Hf0] & ->)]; auto.
        right. exists f0. auto.
    + intros x f0 Hx Hf0. apply Hadd in Hx as [Hx|[-> ->]].
      * apply (Hne x f0 Hx). right. exact Hf0.
      * cbn [number set_allowed_seeks]. intros Heq.
        apply (Hg (level, f0) Hf0); [reflexivity|]. simpl. congruence.
Qed.
End FileSetFacts.

(** The state of the builder of [BuildVersion] after [Apply]. *)
Lemma BuildVersion_builder `{Comparator} (options : Options)
    (base : list (list FileMetaData)) (cp : list (option InternalKey))
    (edit : VersionEdit.t) :
  enable_sublevel options = false -> VersionEdit.updated_files_ edit = [] ->
  exists ls1,
    (forall l, default LevelState_empty (ls1 !! l) = LevelState_empty) /\
    (length base <= length ls1)%nat /\
    (Z.of_nat (length ls1) <= VersionEdit.max_level_ edit + 1 -> False) /\
    (length ls1 = length base \/
     Z.of_nat (length ls1) = VersionEdit.max_level_ edit + 2) /\
    (Apply options edit (Builder_new base, cp)).1
    = {| base_ := base;
         levels_ := fold_added (VersionEdit.new_files_ edit)
                      (fold_deleted (VersionEdit.deleted_files_ edit) ls1);
         truncated_key_ := VersionEdit.truncate_key_ edit |}.
Proof.
  intros Hsub Hupd. unfold Apply. rewrite Hsub, Hupd.
  cbn [fold_left fst levels_ base_ Builder_new].
  eexists. split; [|split; [|split; [|split; [|reflexivity]]]].
  - intros l. destruct (_ <=? _).
    + rewrite lookup_grow_empty. apply default_replicate_empty.
    + apply default_replicate_empty.
  - destruct (_ <=? _).
    + unfold grow. rewrite length_app, length_replicate. lia.
    + rewrite length_replicate. lia.
  - destruct (Z.leb_spec (Z.of_nat (length (replicate (length base) LevelState_empty)))
                (VersionEdit.max_level_ edit + 1)) as [Hle|Hgt].
    + unfold grow. rewrite length_app, !length_replicate in *. lia.
    + lia.
  - destruct (Z.leb_spec (Z.of_nat (length (replicate (length base) LevelState_empty)))
                (VersionEdit.max_level_ edit + 1)) as [Hle|Hgt].
    + right. unfold grow. rewrite length_app, !length_replicate in *. lia.
    + left. apply length_replicate.
Qed.

(** The files of the version that a builder over [base] saves after one
    edit. *)
Lemma BuildVersion_files_iff `{Comparator} (L : CmpLaws Compare) (options : Options)
    (base : list (list FileMetaData)) (cp : list (option InternalKey))
    (edit : VersionEdit.t) :
  enable_sublevel options = false -> edit_in_range edit ->
  pairwise distinct_numbers (VersionEdit.new_files_ edit) ->
  forall level f,
    In f (level_files (files_ (BuildVersion options base cp edit).1) level) <->
    (In f (level_files base level) /\ ~ deleted_by edit level (number f)) \/
    (exists f0, In (level, f0) (VersionEdit.new_files_ edit) /\
       f = set_allowed_seeks (initial_allowed_seeks (file_size f0)) f0).
Proof.
  intros Hsub (Hupd & Hnew & Hdel) Hdist level f.
  destruct (BuildVersion_builder options base cp edit Hsub Hupd)
    as (ls1 & Hls1 & Hlen1 & Hmax & _ & Hb).
  unfold BuildVersion.
  destruct (Apply options edit (Builder_new base, cp)) as [b cp'] eqn:Happly.
  cbn [fst] in *. subst b.
  set (ls2 := fold_deleted (VersionEdit.deleted_files_ edit) ls1).
  set (ls3 := fold_added (VersionEdit.new_files_ edit) ls2).
  set (b := {| base_ := base; levels_ := ls3;
               truncated_key_ := VersionEdit.truncate_key_ edit |}).
  assert (Hlen3 : length ls3 = length ls1).
  { unfold ls3, ls2. rewrite fold_added_length, fold_deleted_length. reflexivity. }
  assert (Hu : forall l, updated_of (levels_ b) l = ∅).
  { intros l. simpl. unfold ls3, ls2.
    rewrite updated_of_fold_added, updated_of_fold_deleted.
    unfold updated_of. rewrite Hls1. reflexivity. }
  assert (Hadd2 : forall l, added_of ls2 l = []).
  { intros l. unfold ls2. rewrite added_of_fold_deleted. unfold added_of.
    rewrite Hls1. reflexivity. }
  assert (Hdel3 : forall n, n ∈ deleted_of ls3 level <->
            (level < length ls1)%nat /\ deleted_by edit level n).
  { intros n. unfold ls3. rewrite deleted_of_fold_added_iff.
    unfold ls2. rewrite deleted_of_fold_deleted_iff. unfold deleted_by.
    unfold deleted_of at 1. rewrite Hls1. simpl. split.
    - intros [[Hn|[Hin Hl]] Hall]; [apply elem_of_empty in Hn; destruct Hn|auto].
    - intros [Hl [Hin Hall]]. auto. }
  rewrite SaveTo_new_level by exact Hu. cbn [levels_ base_ b].
  destruct (decide (level < length ls3)%nat) as [Hlt|Hge].
  - assert (Hadd3 : In f (added_of ls3 level) <->
              exists f0, In (level, f0) (VersionEdit.new_files_ edit) /\
                f = budgeted f0).
    { unfold ls3.
      rewrite (added_of_fold_added_iff L _ level f Hdist ls2);
        [| unfold ls2; rewrite fold_deleted_length; lia
         | intros x f0 Hx; rewrite Hadd2 in Hx; destruct Hx].
      rewrite Hadd2. split; [intros [[]|Hf]; exact Hf|auto]. }
    rewrite filter_In. rewrite (In_merge_files L). rewrite Hadd3. unfold keep. rewrite negb_true_iff, bool_decide_eq_false.
    cbn [levels_ b]. fold (deleted_of ls3 level). rewrite Hdel3. split.
    + intros [[Hf|Hf] Hk]; [right; exact Hf|].
      left. split; [exact Hf|]. intros Hd. apply Hk. split; [lia|exact Hd].
    + intros [[Hf Hd]|(f0 & Hf0 & ->)].
      * split; [right; exact Hf|]. intros [_ Hd']. exact (Hd Hd').
      * split; [left; exists f0; auto|].
        intros [_ [_ Hall]]. apply (Hall f0 Hf0). reflexivity.
  - split; [intros []|]. intros [[Hf _]|(f0 & Hf0 & _)].
    + unfold level_files in Hf. rewrite lookup_ge_None_2 in Hf by lia. destruct Hf.
    + pose proof (Hnew level f0 Hf0). lia.
Qed.

(** X5.  In non-sublevel mode, what a builder over [base] saves after one
    edit that names levels up to its [max_level_], updates no file and adds
    files with different numbers at a level: at every level the new version
    holds the files of [base] whose number the edit does not delete, or
    deletes and adds again, and the new files of the edit with their seek
    budget set; it holds no other file. *)
Theorem BuildVersion_files `{Comparator} (L : CmpLaws Compare) (options : Options)
    (base : list (list FileMetaData)) (cp : list (option InternalKey))
    (edit : VersionEdit.t) :
  enable_sublevel options = false -> edit_in_range edit ->
  pairwise distinct_numbers (VersionEdit.new_files_ edit) ->
  forall level f,
    In f (level_files (files_ (BuildVersion options base cp edit).1) level) <->
    (In f (level_files base level) /\ ~ deleted_by edit level (number f)) \/
    (exists f0, In (level, f0) (VersionEdit.new_files_ edit) /\
       f = set_allowed_seeks (initial_allowed_seeks (file_size f0)) f0).
Proof.
  exact (BuildVersion_files_iff L options base cp edit).
Qed.

(** ** The last level stays empty *)

Lemma SaveTo_length `{Comparator} (options : Options) (b : Builder) :
  length (files_ (SaveTo b (Version_new options)))
  = Nat.max (length (files_ (Version_new options))) (length (levels_ b)).
Proof.
  unfold SaveTo. cbn [files_ set_files].
  assert (Hfold : forall (ls : list nat) (fs : list (list FileMetaData)),
            length (fold_left (fun fs level => alter (SaveTo_level b level) level fs)
                      ls fs) = length fs).
  { induction ls as [|l ls IH]; intros fs; simpl; [reflexivity|].
    rewrite IH. apply length_alter. }
  rewrite Hfold. destruct (Nat.ltb_spec (length (files_ (Version_new options)))
                             (length (levels_ b))).
  - unfold grow. rewrite length_app, length_replicate. lia.
  - lia.
Qed.

Lemma BuildVersion_last_level `{Comparator} (L : CmpLaws Compare) (options : Options)
    (base : list (list FileMetaData)) (cp : list (option InternalKey))
    (edit : VersionEdit.t) :
  enable_sublevel options = false -> edit_in_range edit ->
  last base = Some [] ->
  last (files_ (BuildVersion options base cp edit).1) = Some [] /\
  (length base <= length (files_ (BuildVersion options base cp edit).1))%nat.
Proof.
  intros Hsub (Hupd & Hnew & Hdel) Hlast.
  destruct (BuildVersion_builder options base cp edit Hsub Hupd)
    as (ls1 & Hls1 & Hlen1 & Hmax & _ & Hb).
  unfold BuildVersion.
  destruct (Apply options edit (Builder_new base, cp)) as [b cp'] eqn:Happly.
  cbn [fst] in *. subst b.
  set (ls3 := fold_added (VersionEdit.new_files_ edit)
                (fold_deleted (VersionEdit.deleted_files_ edit) ls1)).
  set (b := {| base_ := base; levels_ := ls3;
               truncated_key_ := VersionEdit.truncate_key_ edit |}).
  assert (Hlen3 : length ls3 = length ls1).
  { unfold ls3. rewrite fold_added_length, fold_deleted_length. reflexivity. }
  assert (Hu : forall l, updated_of (levels_ b) l = ∅).
  { intros l. simpl. unfold ls3.
    rewrite updated_of_fold_added, updated_of_fold_deleted.
    unfold updated_of. rewrite Hls1. reflexivity. }
  pose proof (SaveTo_length options b) as Hlen. cbn [levels_ b] in Hlen.
  set (fs := files_ (SaveTo b (Version_new options))) in *.
  assert (Hbase : base <> []) by (intros ->; discriminate).
  assert (Hbpos : (0 < length base)%nat) by (destruct base; [contradiction|simpl; lia]).
  split; [|lia].
  rewrite last_lookup.
  destruct (lookup_lt_is_Some_2 fs (pred (length fs))) as [x Hx]; [lia|].
  rewrite Hx. f_equal.
  assert (Hlv : level_files fs (pred (length fs)) = x)
    by (unfold level_files; rewrite Hx; reflexivity).
  rewrite <- Hlv. unfold fs. rewrite SaveTo_new_level by exact Hu.
  destruct (decide _) as [Hlt|_]; [|reflexivity]. cbn [levels_ base_ b].
  fold fs. set (k := pred (length fs)) in *.
  assert (Hadd : added_of ls3 k = []).
  { destruct (added_of ls3 k) as [|y ys] eqn:E; [reflexivity|].
    assert (Hy : In y (added_of ls3 k)) by (rewrite E; left; reflexivity).
    unfold ls3 in Hy. apply added_of_fold_added in Hy as [Hy|(f0 & Hf0 & _)].
    - rewrite added_of_fold_deleted in Hy. unfold added_of in Hy.
      rewrite Hls1 in Hy. destruct Hy.
    - pose proof (Hnew k f0 Hf0). unfold k in *. lia. }
  assert (Hbk : level_files base k = []).
  { destruct (decide (k < length base)%nat) as [Hk|Hk].
    - assert (Hkb : k = pred (length base)) by (unfold k in *; lia).
      rewrite last_lookup in Hlast. unfold level_files. rewrite Hkb, Hlast.
      reflexivity.
    - unfold level_files. rewrite lookup_ge_None_2 by lia. reflexivity. }
  rewrite Hadd, Hbk. reflexivity.
Qed.

(** X6.  In non-sublevel mode, when every edit names levels up to its
    [max_level_] and updates no file, every version that the edits build
    from the empty version has more than [kMaxMemCompactLevel] levels, and
    its last level is empty: the condition that [SaveTo] and [Finalize]
    assert. *)
Theorem versions_of_edits_last_level `{Comparator} (L : CmpLaws Compare)
    (options : Options) (compact_pointer : list (option InternalKey))
    (edits : list VersionEdit.t) :
  enable_sublevel options = false -> Forall edit_in_range edits ->
  forall v,
    In v (versions_of_edits options (Version_new options) compact_pointer edits) ->
    last (files_ v) = Some [] /\
    (kMaxMemCompactLevel options < length (files_ v))%nat.
Proof.
  intros Hsub Hedits.
  assert (Hgen : forall v0 cp,
    last (files_ v0) = Some [] ->
    (kMaxMemCompactLevel options < length (files_ v0))%nat ->
    forall v, In v (versions_of_edits options v0 cp edits) ->
      last (files_ v) = Some [] /\
      (kMaxMemCompactLevel options < length (files_ v))%nat).
  { induction Hedits as [|edit edits Hedit Hedits IH]; intros v0 cp Hlast Hlen v;
      cbn [versions_of_edits]; [intros []|].
    destruct (BuildVersion_last_level L options (files_ v0) cp edit Hsub Hedit Hlast)
      as [Hl1 Hn1].
    destruct (BuildVersion options (files_ v0) cp edit) as [v1 cp1].
    cbn [fst] in *. intros [<-|Hv]; [split; [exact Hl1|lia]|].
    apply (IH v1 cp1); [exact Hl1|lia|exact Hv]. }
  apply Hgen.
  - unfold Version_new. rewrite Hsub. cbn [files_].
    rewrite last_lookup, length_replicate. cbn [pred].
    rewrite lookup_replicate_2 by lia. reflexivity.
  - unfold Version_new. rewrite Hsub. cbn [files_]. rewrite length_replicate. lia.
Qed.

(** ** Snapshot and replay *)

Lemma at_level_app {A} level (l1 l2 : list (nat * A)) :
  at_level level (l1 ++ l2) = at_level level l1 ++ at_level level l2.
Proof. apply omap_app. Qed.

Lemma at_level_map_tag {A B} level l (g : A -> B) (fs : list A) :
  at_level level (map (fun f => (l, g f)) fs)
  = if decide (l = level) then map g fs else [].
Proof.
  induction fs as [|f fs IH].
  - destruct (decide _); reflexivity.
  - change (at_level level (map (fun f => (l, g f)) (f :: fs)))
      with (match (if decide (l = level) then Some (g f) else None) with
            | Some y => y :: at_level level (map (fun f => (l, g f)) fs)
            | None => at_level level (map (fun f => (l, g f)) fs)
            end).
    rewrite IH. destruct (decide (l = level)); reflexivity.
Qed.

Lemma AddFile_fold_new_files level files e :
  VersionEdit.new_files_ (fold_left (fun e f => AddFile level f e) files e)
  = VersionEdit.new_files_ e
    ++ map (fun f => (level, set_allowed_seeks (2 ^ 30) f)) files.
Proof.
  revert e. induction files as [|f files IH]; intros e; simpl.
  - rewrite app_nil_r. reflexivity.
  - rewrite IH. simpl. rewrite <- app_assoc. reflexivity.
Qed.

Lemma AddFile_fold_max_level level files e :
  VersionEdit.max_level_ e
  <= VersionEdit.max_level_ (fold_left (fun e f => AddFile level f e) files e) /\
  (files <> [] ->
   Z.of_nat level
   <= VersionEdit.max_level_ (fold_left (fun e f => AddFile level f e) files e)).
Proof.
  revert e. induction files as [|f files IH]; intros e; simpl.
  - split; [lia|contradiction].
  - destruct (IH (AddFile level f e)) as [H1 H2]. simpl in H1. split; [lia|].
    intros _. lia.
Qed.

Lemma AddFile_fold_others level files e :
  VersionEdit.deleted_files_ (fold_left (fun e f => AddFile level f e) files e)
  = VersionEdit.deleted_files_ e /\
  VersionEdit.updated_files_ (fold_left (fun e f => AddFile level f e) files e)
  = VersionEdit.updated_files_ e.
Proof.
  revert e. induction files as [|f files IH]; intros e; simpl; [auto|].
  destruct (IH (AddFile level f e)) as [-> ->]. auto.
Qed.

Lemma snapshot_files_fold (files : list (list FileMetaData)) :
  forall k e,
    let e' := fold_left (fun e '(level, fs) =>
                           fold_left (fun e f => AddFile level f e) fs e)
                (imap (fun level fs => (k + level, fs)%nat) files) e in
    VersionEdit.deleted_files_ e' = VersionEdit.deleted_files_ e /\
    VersionEdit.updated_files_ e' = VersionEdit.updated_files_ e /\
    VersionEdit.max_level_ e <= VersionEdit.max_level_ e' /\
    (forall level, at_level level (VersionEdit.new_files_ e')
       = at_level level (VersionEdit.new_files_ e)
         ++ if decide (k <= level)%nat
            then map (set_allowed_seeks (2 ^ 30)) (level_files files (level - k))
            else []) /\
    (forall level f, In (level, f) (VersionEdit.new_files_ e') ->
       In (level, f) (VersionEdit.new_files_ e) \/
       Z.of_nat level <= VersionEdit.max_level_ e').
Proof.
  induction files as [|fs files IH]; intros k e; cbn [imap fold_left].
  - cbv zeta. split; [reflexivity|]. split; [reflexivity|]. split; [lia|]. split.
    + intros level. unfold level_files. rewrite lookup_nil. simpl.
      destruct (decide _); rewrite app_nil_r; reflexivity.
    + auto.
  - cbv zeta in *.
    set (e1 := fold_left (fun e f => AddFile (k + 0) f e) fs e).
    assert (Himap : imap ((fun level fs0 => ((k + level)%nat, fs0)) ∘ S) files
                    = imap (fun level fs0 => ((S k + level)%nat, fs0)) files).
    { apply imap_ext. intros i x _. simpl. f_equal. lia. }
    rewrite Himap.
    destruct (IH (S k) e1) as (Hd & Hu & Hm & Hat & Hin).
    destruct (AddFile_fold_others (k + 0) fs e) as [Hd1 Hu1].
    destruct (AddFile_fold_max_level (k + 0) fs e) as [Hm1 Hm1'].
    fold e1 in Hd1, Hu1, Hm1, Hm1'.
    split; [congruence|]. split; [congruence|]. split; [lia|]. split.
    + intros level. rewrite Hat. unfold e1 at 1.
      rewrite AddFile_fold_new_files, at_level_app, <- app_assoc. f_equal.
      rewrite (at_level_map_tag level (k + 0) (set_allowed_seeks (2 ^ 30)) fs).
      unfold level_files. rewrite Nat.add_0_r.
      destruct (decide (k = level)) as [->|Hne].
      * rewrite decide_False by lia. rewrite decide_True by lia.
        rewrite Nat.sub_diag. simpl. rewrite app_nil_r. reflexivity.
      * destruct (decide (S k <= level)%nat) as [Hle|Hgt].
        -- rewrite decide_True by lia.
           replace (level - k)%nat with (S (level - S k)) by lia. reflexivity.
        -- rewrite decide_False by lia. reflexivity.
    + intros level f Hf. apply Hin in Hf as [Hf|Hf]; [|right; exact Hf].
      unfold e1 in Hf. rewrite AddFile_fold_new_files in Hf.
      apply in_app_or in Hf as [Hf|Hf]; [left; exact Hf|].
      right. apply in_map_iff in Hf as (g & [= <- <-] & Hg).
      assert (Hfs : fs <> []) by (intros ->; destruct Hg).
      pose proof (Hm1' Hfs). lia.
Qed.

Lemma snapshot_pointers_fold (pointers : list (nat * option InternalKey)) e :
  let e' := fold_left (fun e '(level, pointer) =>
                         match pointer with
                         | Some key => SetCompactPointer level key e
                         | None => e
                         end) pointers e in
  VersionEdit.new_files_ e' = VersionEdit.new_files_ e /\
  VersionEdit.deleted_files_ e' = VersionEdit.deleted_files_ e /\
  VersionEdit.updated_files_ e' = VersionEdit.updated_files_ e.
Proof.
  revert e. induction pointers as [|[l [key|]] pointers IH]; intros e; cbn [fold_left].
  - auto.
  - destruct (IH (SetCompactPointer l key e)) as (-> & -> & ->). auto.
  - apply IH.
Qed.

Lemma at_level_In {A} level (l : list (nat * A)) x :
  In x (at_level level l) <-> In (level, x) l.
Proof.
  unfold at_level. rewrite <- !list_elem_of_In, list_elem_of_omap. split.
  - intros ([l' y] & Hin & Heq). simpl in Heq.
    destruct (decide (l' = level)) as [->|]; [|discriminate].
    injection Heq as <-. exact Hin.
  - intros Hin. exists (level, x). split; [exact Hin|]. simpl.
    rewrite decide_True by reflexivity. reflexivity.
Qed.

Lemma added_of_fold_added_at_level `{Comparator} (news : list (nat * FileMetaData))
    level :
  forall ls, (level < length ls)%nat ->
    added_of (fold_added news ls) level
    = fold_left (fun s f => FileSet_insert (budgeted f) s) (at_level level news)
        (added_of ls level).
Proof.
  induction news as [|[l g] news IH]; intros ls Hlt; cbn [fold_left]; [reflexivity|].
  rewrite IH by (rewrite length_alter; exact Hlt).
  change (at_level level ((l, g) :: news))
    with (match (if decide (l = level) then Some g else None) with
          | Some y => y :: at_level level news
          | None => at_level level news
          end).
  assert (Ha : added_of (alter (insert_added (budgeted g)) l ls) level
               = if decide (l = level)
                 then FileSet_insert (budgeted g) (added_of ls level)
                 else added_of ls level).
  { unfold added_of. rewrite default_alter.
    destruct (decide (l = level)) as [->|Hne];
      [rewrite decide_True by auto|rewrite decide_False by tauto]; reflexivity. }
  rewrite Ha. destruct (decide (l = level)); reflexivity.
Qed.

Section Replay.
Context `{Comparator} (L : CmpLaws Compare).

Lemma FileSet_insert_last f s :
  (forall g, In g s -> BySmallestKey g f = true) -> FileSet_insert f s = s ++ [f].
Proof.
  induction s as [|g s IH]; intros Hall; [reflexivity|]. cbn [FileSet_insert].
  assert (Hg : BySmallestKey g f = true) by (apply Hall; left; reflexivity).
  rewrite (BySmallestKey_asym L g f Hg), Hg. simpl. f_equal.
  apply IH. intros x Hx. apply Hall. right. exact Hx.
Qed.

Lemma fold_insert_in_order (a : Z) (fs : list FileMetaData) :
  forall done, builder_order (done ++ fs) ->
    fold_left (fun s g => FileSet_insert (budgeted g) s)
      (map (set_allowed_seeks a) fs) (map (fun f => budgeted f) done)
    = map (fun f => budgeted f) (done ++ fs).
Proof.
  induction fs as [|f fs IH]; intros done Hord.
  - simpl. rewrite app_nil_r. reflexivity.
  - cbn [map fold_left].
    replace (done ++ f :: fs) with ((done ++ [f]) ++ fs) in *
      by (rewrite <- app_assoc; reflexivity).
    rewrite <- IH by exact Hord. f_equal.
    rewrite map_app. apply FileSet_insert_last.
    intros g Hg. apply in_map_iff in Hg as (g0 & <- & Hg0).
    apply pairwise_app in Hord as (Hord & _ & _).
    apply pairwise_app in Hord as (_ & _ & Hcross).
    exact (Hcross g0 f Hg0 (or_introl eq_refl)).
Qed.
End Replay.

(** X7.  In non-sublevel mode, the edit that [WriteSnapshot] writes, applied
    by a builder over the empty version, gives back the files of the current
    version level by level and in their order, each with a fresh seek budget.
    The levels of the current version are assumed to be in the order of the
    builder, by smallest key and then by number. *)
Theorem SnapshotEdit_replay `{Comparator} (L : CmpLaws Compare) (vs : VersionSet)
    (cur : Version) (cp : list (option InternalKey)) :
  enable_sublevel (options_ vs) = false ->
  current_version vs = Some cur ->
  (forall level, builder_order (level_files (files_ cur) level)) ->
  forall level,
    level_files
      (files_ (BuildVersion (options_ vs) (files_ (Version_new (options_ vs))) cp
                 (SnapshotEdit vs)).1) level
    = map (fun f => set_allowed_seeks (initial_allowed_seeks (file_size f)) f)
        (level_files (files_ cur) level).
Proof.
  intros Hsub Hcur Hord level.
  set (edit := SnapshotEdit vs).
  set (base := files_ (Version_new (options_ vs))).
  assert (Hedit : VersionEdit.deleted_files_ edit = [] /\
                  VersionEdit.updated_files_ edit = [] /\
                  (forall level, at_level level (VersionEdit.new_files_ edit)
                     = map (set_allowed_seeks (2 ^ 30)) (level_files (files_ cur) level)) /\
                  (forall level f, In (level, f) (VersionEdit.new_files_ edit) ->
                     Z.of_nat level <= VersionEdit.max_level_ edit)).
  { unfold edit, SnapshotEdit. rewrite Hcur. cbn [default].
    set (e2 := fold_left _ (imap _ (compact_pointer_ vs)) _).
    destruct (snapshot_pointers_fold
                (imap (fun level pointer => (level, pointer)) (compact_pointer_ vs))
                (SetComparatorName Name VersionEdit_empty)) as (Hn2 & Hd2 & Hu2).
    fold e2 in Hn2, Hd2, Hu2. cbn in Hn2, Hd2, Hu2.
    destruct (snapshot_files_fold (files_ cur) 0 e2) as (Hd & Hu & _ & Hat & Hin).
    cbv zeta in Hd, Hu, Hat, Hin. cbn [Nat.add] in Hd, Hu, Hat, Hin.
    split; [exact (eq_trans Hd Hd2)|]. split; [exact (eq_trans Hu Hu2)|]. split.
    - intros l. rewrite Hat, Hn2. rewrite decide_True by lia.
      rewrite Nat.sub_0_r. reflexivity.
    - intros l f Hf. apply Hin in Hf as [Hf|Hf]; [|exact Hf].
      rewrite Hn2 in Hf. destruct Hf. }
  destruct Hedit as (Hdel & Hupd & Hat & Hmaxl).
  destruct (BuildVersion_builder (options_ vs) base cp edit Hsub Hupd)
    as (ls1 & Hls1 & Hlen1 & Hmax & _ & Hb).
  unfold BuildVersion.
  destruct (Apply (options_ vs) edit (Builder_new base, cp)) as [b cp'] eqn:Happly.
  cbn [fst] in *. subst b. rewrite Hdel. cbn [fold_left].
  set (ls3 := fold_added (VersionEdit.new_files_ edit) ls1).
  set (b := {| base_ := base; levels_ := ls3;
               truncated_key_ := VersionEdit.truncate_key_ edit |}).
  assert (Hlen3 : length ls3 = length ls1).
  { unfold ls3. rewrite fold_added_length. reflexivity. }
  assert (Hu : forall l, updated_of (levels_ b) l = ∅).
  { intros l. simpl. unfold ls3. rewrite updated_of_fold_added.
    unfold updated_of. rewrite Hls1. reflexivity. }
  rewrite SaveTo_new_level by exact Hu. cbn [levels_ base_ b].
  assert (Hbase : level_files base level = []).
  { unfold base, level_files, Version_new. cbn [files_].
    destruct (replicate _ _ !! level) as [x|] eqn:E; [|reflexivity].
    apply lookup_replicate in E as [-> _]. reflexivity. }
  destruct (decide (level < length ls3)%nat) as [Hlt|Hge].
  - rewrite Hbase, merge_files_nil.
    assert (Hkeep : forall x, keep b level x = true).
    { intros x. unfold keep. apply negb_true_iff, bool_decide_eq_false.
      cbn [levels_ b]. fold (deleted_of ls3 level). unfold ls3.
      rewrite deleted_of_fold_added_iff. intros [Hx _].
      unfold deleted_of in Hx. rewrite Hls1 in Hx. simpl in Hx.
      apply elem_of_empty in Hx. exact Hx. }
    assert (Hfilter : forall l : list FileMetaData, List.filter (keep b level) l = l).
    { induction l as [|x l IHl]; [reflexivity|]. simpl. rewrite Hkeep, IHl.
      reflexivity. }
    rewrite Hfilter. unfold ls3.
    rewrite added_of_fold_added_at_level by lia. rewrite Hat.
    unfold added_of. rewrite Hls1. cbn [added_files LevelState_empty].
    apply (fold_insert_in_order L (2 ^ 30) (level_files (files_ cur) level) []).
    apply Hord.
  - destruct (level_files (files_ cur) level) as [|f fs] eqn:E; [reflexivity|].
    exfalso. assert (Hin : In (level, set_allowed_seeks (2 ^ 30) f)
                             (VersionEdit.new_files_ edit)).
    { apply at_level_In. rewrite Hat, E. left. reflexivity. }
    pose proof (Hmaxl _ _ Hin). lia.
Qed.

(** ** The block builder *)

Lemma shared_prefix_spec (a b : list Byte.byte) :
  take (shared_prefix a b) a = take (shared_prefix a b) b /\
  (shared_prefix a b <= length a)%nat /\ (shared_prefix a b <= length b)%nat.
Proof.
  revert b. induction a as [|x a IH]; intros [|y b]; simpl; try (repeat split; lia).
  destruct (Byte.eqb x y) eqn:E; simpl; [|repeat split; lia].
  apply Byte.byte_dec_bl in E as ->. destruct (IH b) as (-> & ? & ?).
  repeat split; lia.
Qed.

Section BlockBuilderFacts.
Context `{Coding} (LC : CodingLaws).

Lemma PutVarint32_nonempty x : 0 <= x < 2 ^ 32 -> PutVarint32 x <> [].
Proof.
  intros Hx Hnil.
  set (y := if x =? 0 then 1 else 0).
  assert (Hy : 0 <= y < 2 ^ 32) by (unfold y; destruct (x =? 0); lia).
  assert (Hxy : x <> y) by (unfold y; destruct (Z.eqb_spec x 0); lia).
  pose proof (GetVarint32_PutVarint32 y [] Hy) as H1.
  pose proof (GetVarint32_PutVarint32 x (PutVarint32 y) Hx) as H2.
  rewrite Hnil in H2. rewrite app_nil_r in H1. simpl in H2.
  rewrite H1 in H2. injection H2 as H2 _. congruence.
Qed.

(** After [Add] the last key is [key]: the assertion that ends [Add]
    holds. *)
Lemma Add_last_key key value b :
  BlockBuilder.last_key_ (BlockBuilder.Add key value b) = key.
Proof.
  unfold BlockBuilder.Add. cbn [BlockBuilder.last_key_].
  destruct (_ <? _).
  - destruct (shared_prefix_spec (BlockBuilder.last_key_ b) key) as (-> & _ & _).
    apply take_drop.
  - reflexivity.
Qed.

Lemma AddAll_decodes entries :
  Forall entry_fits entries ->
  forall b, exists X,
    BlockBuilder.buffer_ (BlockBuilder.AddAll entries b)
    = BlockBuilder.buffer_ b ++ X /\
    (length entries <= length X)%nat /\
    forall prev fuel, reader_key b prev -> (length entries <= fuel)%nat ->
      decode_entries_loop fuel X prev = Some entries.
Proof.
  induction 1 as [|[key value] entries [Hk Hv] _ IH]; intros b.
  - exists []. simpl. rewrite app_nil_r. split; [reflexivity|]. split; [lia|].
    intros prev fuel _ _. destruct fuel; reflexivity.
  - change (BlockBuilder.AddAll ((key, value) :: entries) b)
      with (BlockBuilder.AddAll entries (BlockBuilder.Add key value b)).
    destruct (IH (BlockBuilder.Add key value b)) as (X & HX & Hlen & Hdec).
    set (sharing := BlockBuilder.counter_ b <? BlockBuilder.restart_interval_ b) in *.
    set (shared := if sharing then shared_prefix (BlockBuilder.last_key_ b) key
                   else 0%nat).
    assert (Hshared : (shared <= length key)%nat /\
              (sharing = true -> shared <= length (BlockBuilder.last_key_ b))%nat).
    { unfold shared. destruct sharing; [|split; [lia|discriminate]].
      destruct (shared_prefix_spec (BlockBuilder.last_key_ b) key) as (_ & ? & ?).
      split; [lia|intros _; lia]. }
    destruct Hshared as [Hs1 Hs2]. simpl in Hk, Hv.
    exists (PutVarint32 (uint32 (Z.of_nat shared))
            ++ PutVarint32 (uint32 (Z.of_nat (length key - shared)))
            ++ PutVarint32 (uint32 (Z.of_nat (length value)))
            ++ drop shared key ++ value ++ X).
    split; [|split].
    + rewrite HX. unfold BlockBuilder.Add. cbn [BlockBuilder.buffer_].
      fold sharing. fold shared. rewrite <- !app_assoc. reflexivity.
    + assert (Hne : PutVarint32 (uint32 (Z.of_nat shared)) <> []).
      { apply PutVarint32_nonempty. rewrite uint32_small; lia. }
      rewrite length_app. simpl.
      destruct (PutVarint32 (uint32 (Z.of_nat shared))); [contradiction|].
      rewrite !length_app. simpl. lia.
    + intros prev fuel Hprev Hfuel. simpl in Hfuel.
      destruct fuel as [|fuel]; [lia|].
      assert (Hne : PutVarint32 (uint32 (Z.of_nat shared)) <> []).
      { apply PutVarint32_nonempty. rewrite uint32_small; lia. }
      cbn [decode_entries_loop].
      destruct (PutVarint32 (uint32 (Z.of_nat shared)) ++ _) as [|c data] eqn:Edata.
      { apply app_eq_nil in Edata as [? _]. contradiction. }
      rewrite <- Edata. clear Edata c data.
      rewrite !uint32_small by lia.
      rewrite GetVarint32_PutVarint32 by lia. cbn [mbind option_bind].
      rewrite GetVarint32_PutVarint32 by lia. cbn [mbind option_bind].
      rewrite GetVarint32_PutVarint32 by lia. cbn [mbind option_bind].
      rewrite !Nat2Z.id.
      assert (Hprevlen : (shared <= length prev)%nat).
      { unfold shared. destruct sharing eqn:E; [|lia].
        rewrite (Hprev E). apply Hs2. reflexivity. }
      assert (Hd : length (drop shared key) = (length key - shared)%nat)
        by apply length_drop.
      destruct (Z.ltb_spec (Z.of_nat (length prev)) (Z.of_nat shared)); [lia|].
      destruct (Z.ltb_spec (Z.of_nat (length (drop shared key ++ value ++ X)))
                  (Z.of_nat (length key - shared) + Z.of_nat (length value))) as [Hlt|_].
      { rewrite !length_app, Hd in Hlt. lia. }
      cbn [orb].
      assert (Hkey : take shared prev ++ take (length key - shared)
                       (drop shared key ++ value ++ X) = key).
      { rewrite take_app_length' by (symmetry; exact Hd).
        unfold shared in *. destruct sharing eqn:E.
        - rewrite (Hprev E).
          destruct (shared_prefix_spec (BlockBuilder.last_key_ b) key) as (-> & _ & _).
          apply take_drop.
        - reflexivity. }
      rewrite Hkey.
      rewrite drop_app_length' by (symmetry; exact Hd).
      rewrite take_app_length.
      assert (Hrest : drop (length key - shared + length value)
                        (drop shared key ++ value ++ X) = X).
      { rewrite <- drop_drop. rewrite drop_app_length' by (symmetry; exact Hd).
        apply drop_app_length. }
      rewrite Hrest.
      rewrite (Hdec key fuel); [reflexivity| |lia].
      intros _. symmetry. apply Add_last_key.
Qed.
End BlockBuilderFacts.

(** X8.  Round trip: the bytes that a new block builder holds after a
    sequence of calls of [Add], read as the documented format prescribes,
    give back the keys and values that were added, in their order.  The
    lengths of the keys and of the values fit 32 bits. *)
Theorem BlockBuilder_roundtrip `{Coding} (LC : CodingLaws) (restart_interval : Z)
    (entries : list (list Byte.byte * list Byte.byte)) :
  Forall entry_fits entries ->
  decode_entries
    (BlockBuilder.buffer_
       (BlockBuilder.AddAll entries (BlockBuilder.new restart_interval)))
  = Some entries.
Proof.
  intros Hfit.
  destruct (AddAll_decodes LC entries Hfit (BlockBuilder.new restart_interval))
    as (X & HX & Hlen & Hdec).
  rewrite HX. cbn [BlockBuilder.buffer_ BlockBuilder.new app].
  unfold decode_entries. apply Hdec; [|exact Hlen].
  intros _. reflexivity.
Qed.

Section RestartPoints.
Context `{Coding} (LC : CodingLaws).
Variable interval : nat.
Hypothesis Hinterval : (1 <= interval)%nat /\ Z.of_nat interval < 2 ^ 31.

Lemma AddAll_restart_interval entries b :
  BlockBuilder.restart_interval_ (BlockBuilder.AddAll entries b)
  = BlockBuilder.restart_interval_ b.
Proof.
  revert b. induction entries as [|kv entries IH]; intros b; [reflexivity|].
  change (BlockBuilder.AddAll (kv :: entries) b)
    with (BlockBuilder.AddAll entries (BlockBuilder.Add kv.1 kv.2 b)).
  rewrite IH. reflexivity.
Qed.

Lemma AddAll_restarts entries :
  Forall entry_fits entries ->
  forall b c,
    BlockBuilder.restart_interval_ b = Z.of_nat interval ->
    BlockBuilder.counter_ b = Z.of_nat c -> (c <= interval)%nat ->
    Z.of_nat (length (BlockBuilder.buffer_ (BlockBuilder.AddAll entries b))) < 2 ^ 32 ->
    exists new_restarts c',
      BlockBuilder.restarts_ (BlockBuilder.AddAll entries b)
      = BlockBuilder.restarts_ b ++ new_restarts /\
      BlockBuilder.counter_ (BlockBuilder.AddAll entries b) = Z.of_nat c' /\
      (c' <= interval)%nat /\
      length new_restarts = ((length entries + c - 1) / interval)%nat /\
      forall j r, new_restarts !! j = Some r ->
        0 <= r <= Z.of_nat (length (BlockBuilder.buffer_ (BlockBuilder.AddAll entries b))) /\
        (interval - c + j * interval < length entries)%nat /\
        (length entries - (interval - c + j * interval)
         <= length (drop (Z.to_nat r)
                      (BlockBuilder.buffer_ (BlockBuilder.AddAll entries b))))%nat /\
        forall prev fuel,
          (length entries - (interval - c + j * interval) <= fuel)%nat ->
          decode_entries_loop fuel
            (drop (Z.to_nat r) (BlockBuilder.buffer_ (BlockBuilder.AddAll entries b)))
            prev
          = Some (drop (interval - c + j * interval) entries).
Proof.
  destruct Hinterval as [Hpos Hint].
  induction 1 as [|[key value] entries Hkv Hfits IH]; intros b c Hi Hc Hle Hsize.
  - exists [], c. simpl. rewrite app_nil_r. split; [reflexivity|].
    split; [exact Hc|]. split; [exact Hle|]. split.
    + symmetry. apply Nat.div_small. lia.
    + intros j r Hj. rewrite lookup_nil in Hj. discriminate.
  - assert (Hfits' : Forall entry_fits ((key, value) :: entries))
      by (constructor; assumption).
    pose proof (AddAll_decodes LC ((key, value) :: entries) Hfits' b)
      as (X & HX & HlenX & HdecX).
    change (BlockBuilder.AddAll ((key, value) :: entries) b)
      with (BlockBuilder.AddAll entries (BlockBuilder.Add key value b)) in *.
    set (b' := BlockBuilder.Add key value b) in *.
    destruct (Z.ltb_spec (BlockBuilder.counter_ b) (BlockBuilder.restart_interval_ b))
      as [Hshare|Hrestart].
    + assert (Hc' : BlockBuilder.counter_ b' = Z.of_nat (S c)).
      { unfold b', BlockBuilder.Add. cbn [BlockBuilder.counter_].
        destruct (Z.ltb_spec (BlockBuilder.counter_ b)
                    (BlockBuilder.restart_interval_ b)); [|lia].
        rewrite int32_small by lia. lia. }
      assert (Hr' : BlockBuilder.restarts_ b' = BlockBuilder.restarts_ b).
      { unfold b', BlockBuilder.Add. cbn [BlockBuilder.restarts_].
        destruct (Z.ltb_spec (BlockBuilder.counter_ b)
                    (BlockBuilder.restart_interval_ b)); [reflexivity|lia]. }
      destruct (IH b' (S c)) as (rs & c' & Hrs & Hcf & Hcle & Hlen & Hall);
        [exact Hi|exact Hc'|lia|exact Hsize|].
      exists rs, c'. rewrite Hrs, Hr'. split; [reflexivity|].
      split; [exact Hcf|]. split; [exact Hcle|]. split.
      * rewrite Hlen. cbn [length]. f_equal. lia.
      * intros j r Hj. destruct (Hall j r Hj) as (Hr & Hk & Hl & Hdec).
        split; [exact Hr|]. cbn [length]. split; [lia|].
        replace (interval - c + j * interval)%nat
          with (S (interval - S c + j * interval)) by lia.
        cbn [drop]. split; [simpl; exact Hl|]. intros prev fuel Hf.
        apply Hdec. simpl in Hf. exact Hf.
    + assert (HcI : c = interval) by lia. subst c.
      assert (Hc' : BlockBuilder.counter_ b' = Z.of_nat 1).
      { unfold b', BlockBuilder.Add. cbn [BlockBuilder.counter_].
        destruct (Z.ltb_spec (BlockBuilder.counter_ b)
                    (BlockBuilder.restart_interval_ b)); [lia|].
        rewrite int32_small by lia. lia. }
      assert (Hr' : BlockBuilder.restarts_ b'
                    = BlockBuilder.restarts_ b
                      ++ [Z.of_nat (length (BlockBuilder.buffer_ b))]).
      { unfold b', BlockBuilder.Add. cbn [BlockBuilder.restarts_].
        destruct (Z.ltb_spec (BlockBuilder.counter_ b)
                    (BlockBuilder.restart_interval_ b)); [lia|].
        rewrite uint32_small; [reflexivity|].
        rewrite HX, length_app in Hsize. lia. }
      destruct (IH b' 1%nat) as (rs & c' & Hrs & Hcf & Hcle & Hlen & Hall);
        [exact Hi|exact Hc'|lia|exact Hsize|].
      exists (Z.of_nat (length (BlockBuilder.buffer_ b)) :: rs), c'.
      rewrite Hrs, Hr', <- app_assoc. split; [reflexivity|].
      split; [exact Hcf|]. split; [exact Hcle|]. split.
      * cbn [length]. rewrite Hlen.
        replace (S (length entries) + interval - 1)%nat
          with (length entries + 1 - 1 + 1 * interval)%nat by lia.
        rewrite Nat.div_add by lia. lia.
      * intros [|j] r Hj.
        -- injection Hj as <-. rewrite Nat2Z.id. rewrite HX.
           rewrite drop_app_length. rewrite length_app.
           replace (interval - interval + 0 * interval)%nat with 0%nat by lia.
           rewrite Nat.sub_0_r. cbn [drop].
           split; [lia|]. split; [simpl; lia|]. split; [exact HlenX|].
           intros prev fuel Hf. apply HdecX; [|exact Hf].
           intros Hs. apply Z.ltb_lt in Hs. lia.
        -- cbn [lookup list_lookup] in Hj.
           destruct (Hall j r Hj) as (Hr & Hk & Hl & Hdec).
           split; [exact Hr|]. cbn [length]. split; [lia|].
           replace (interval - interval + S j * interval)%nat
             with (S (interval - 1 + j * interval)) by lia.
           cbn [drop]. split; [simpl; exact Hl|]. intros prev fuel Hf.
           apply Hdec. simpl in Hf. exact Hf.
Qed.
End RestartPoints.

(** X9.  Restart points.  After any sequence of calls of [Add] on a new
    builder, [counter_] is at most [restart_interval_] (the assertion of
    [Add] holds), there is one restart point for every [restart_interval_]
    entries, the first at offset 0, and the restart point [j] is the offset of
    the entry [j * restart_interval_]: read from there, without a previous
    key, the buffer gives the entries from that one on.  The lengths fit
    32 bits. *)
Theorem BlockBuilder_restart_points `{Coding} (LC : CodingLaws)
    (restart_interval : Z) (entries : list (list Byte.byte * list Byte.byte)) :
  restart_interval < 2 ^ 31 -> Forall entry_fits entries ->
  Z.of_nat (length (BlockBuilder.buffer_
                      (BlockBuilder.AddAll entries
                         (BlockBuilder.new restart_interval)))) < 2 ^ 32 ->
  let b := BlockBuilder.AddAll entries (BlockBuilder.new restart_interval) in
  let interval := Z.to_nat (BlockBuilder.restart_interval_ b) in
  BlockBuilder.restart_interval_ b = Z.max 1 restart_interval /\
  0 <= BlockBuilder.counter_ b <= BlockBuilder.restart_interval_ b /\
  length (BlockBuilder.restarts_ b) = S ((length entries - 1) / interval) /\
  BlockBuilder.restarts_ b !! 0%nat = Some 0 /\
  forall j r, BlockBuilder.restarts_ b !! j = Some r ->
    0 <= r <= Z.of_nat (length (BlockBuilder.buffer_ b)) /\
    decode_entries (drop (Z.to_nat r) (BlockBuilder.buffer_ b))
    = Some (drop (j * interval) entries).
Proof.
  intros Hint Hfit Hsize b interval.
  assert (Hri : BlockBuilder.restart_interval_ b = Z.max 1 restart_interval).
  { unfold b. rewrite AddAll_restart_interval. cbn.
    destruct (Z.ltb_spec restart_interval 1); lia. }
  assert (Hi : (1 <= interval)%nat /\ Z.of_nat interval < 2 ^ 31)
    by (unfold interval; rewrite Hri; lia).
  destruct (AddAll_restarts LC interval Hi entries Hfit
              (BlockBuilder.new restart_interval) 0%nat)
    as (rs & c' & Hrs & Hc & Hcle & Hlen & Hall).
  { unfold interval. rewrite Hri. cbn. destruct (Z.ltb_spec restart_interval 1); lia. }
  { reflexivity. }
  { lia. }
  { exact Hsize. }
  fold b in Hrs, Hc, Hall. cbn [BlockBuilder.restarts_ BlockBuilder.new] in Hrs.
  split; [exact Hri|]. split.
  { rewrite Hc. unfold interval in Hcle. lia. }
  split.
  { rewrite Hrs. cbn [length app]. rewrite Hlen. f_equal. f_equal. lia. }
  split; [rewrite Hrs; reflexivity|].
  intros [|j] r Hj; rewrite Hrs in Hj.
  - injection Hj as <-. cbn [drop Z.to_nat Nat.mul]. split; [lia|].
    destruct (AddAll_decodes LC entries Hfit (BlockBuilder.new restart_interval))
      as (X & HX & HlenX & Hdec).
    fold b in HX. rewrite HX. cbn [BlockBuilder.buffer_ BlockBuilder.new app].
    unfold decode_entries. apply Hdec; [intros _; reflexivity|exact HlenX].
  - cbn [app lookup list_lookup] in Hj.
    destruct (Hall j r Hj) as (Hr & Hk & Hl & Hdec).
    split; [exact Hr|]. unfold decode_entries.
    replace (S j * interval)%nat with (interval - 0 + j * interval)%nat by lia.
    apply Hdec. exact Hl.
Qed.

(** X10.  Before [Finish], [CurrentSizeEstimate] is exactly the size of the
    block that [Finish] returns, and after [Finish] it is the size of the
    buffer; [Finish] keeps the entries in front and appends four bytes for
    every restart point and four for their number. *)
Theorem CurrentSizeEstimate_exact `{Coding} (LC : CodingLaws) (b : BlockBuilder.t) :
  BlockBuilder.finished_ b = false ->
  Z.of_nat (length (BlockBuilder.buffer_ b))
  + 4 * Z.of_nat (length (BlockBuilder.restarts_ b)) + 4 < 2 ^ 64 ->
  BlockBuilder.CurrentSizeEstimate b
  = Z.of_nat (length (BlockBuilder.buffer_ (BlockBuilder.Finish b))) /\
  BlockBuilder.CurrentSizeEstimate (BlockBuilder.Finish b)
  = Z.of_nat (length (BlockBuilder.buffer_ (BlockBuilder.Finish b))) /\
  take (length (BlockBuilder.buffer_ b)) (BlockBuilder.buffer_ (BlockBuilder.Finish b))
  = BlockBuilder.buffer_ b.
Proof.
  intros Hfin Hsize.
  assert (Hfold : forall rs buf,
            exists tail,
              fold_left (fun buffer r => buffer ++ PutFixed32 r) rs buf = buf ++ tail /\
              length tail = (4 * length rs)%nat).
  { induction rs as [|r rs IH]; intros buf; simpl.
    - exists []. rewrite app_nil_r. auto.
    - destruct (IH (buf ++ PutFixed32 r)) as (tail & -> & Hlen).
      exists (PutFixed32 r ++ tail). rewrite <- app_assoc. split; [reflexivity|].
      rewrite length_app, PutFixed32_length, Hlen. lia. }
  destruct (Hfold (BlockBuilder.restarts_ b) (BlockBuilder.buffer_ b))
    as (tail & Htail & Hlen).
  unfold BlockBuilder.CurrentSizeEstimate, BlockBuilder.Finish.
  cbn [BlockBuilder.buffer_ BlockBuilder.finished_ negb]. rewrite Hfin. cbn [negb].
  rewrite Htail, !length_app, PutFixed32_length, Hlen.
  split; [|split; [reflexivity|]].
  - unfold uint64.
    rewrite (Z.mod_small (Z.of_nat (length (BlockBuilder.restarts_ b)) * 4)) by lia.
    rewrite (Z.mod_small (Z.of_nat (length (BlockBuilder.buffer_ b)) + _)) by lia.
    rewrite Z.mod_small by lia. lia.
  - rewrite <- app_assoc. apply take_app_length.
Qed.

(** X11.  [Finalize] keeps the contents, appends a trailer of
    [kBlockTrailerSize] bytes that starts with the type [kNoCompression], and
    then pads with zero bytes up to [padding_target]: the buffer ends with
    the greater of the two sizes and is never cut. *)
Theorem Finalize_padding `{Coding} (LC : CodingLaws) (padding_target : Z)
    (b : BlockBuilder.t) :
  0 <= padding_target ->
  exists trailer padding,
    BlockBuilder.buffer_ (BlockBuilder.Finalize padding_target b)
    = BlockBuilder.buffer_ b ++ trailer ++ padding /\
    Z.of_nat (length trailer) = kBlockTrailerSize /\
    trailer !! 0%nat = Some kNoCompression /\
    Forall (fun c => c = Byte.x00) padding /\
    Z.of_nat (length (BlockBuilder.buffer_ (BlockBuilder.Finalize padding_target b)))
    = Z.max (Z.of_nat (length (BlockBuilder.buffer_ b)) + kBlockTrailerSize)
        padding_target.
Proof.
  intros Hpad. unfold BlockBuilder.Finalize. cbn [BlockBuilder.buffer_].
  set (trailer := kNoCompression
                  :: PutFixed32
                       (crc32c_Mask
                          (crc32c_Extend (crc32c_Value (BlockBuilder.buffer_ b))
                             [kNoCompression]))).
  assert (Hlen : length trailer = 5%nat).
  { unfold trailer. cbn [length]. rewrite PutFixed32_length. reflexivity. }
  destruct (Z.ltb_spec (Z.of_nat (length (BlockBuilder.buffer_ b ++ trailer)))
              padding_target) as [Hlt|Hge].
  - exists trailer,
      (replicate (Z.to_nat padding_target - length (BlockBuilder.buffer_ b ++ trailer))
         Byte.x00).
    rewrite <- app_assoc. split; [reflexivity|].
    split; [rewrite Hlen; reflexivity|]. split; [reflexivity|]. split.
    + apply Forall_replicate. reflexivity.
    + rewrite !length_app, length_replicate, Hlen in *. unfold kBlockTrailerSize. lia.
  - exists trailer, []. rewrite app_nil_r. split; [reflexivity|].
    split; [rewrite Hlen; reflexivity|]. split; [reflexivity|].
    split; [constructor|].
    rewrite !length_app, Hlen in *. unfold kBlockTrailerSize. lia.
Qed.

(** The sample coding satisfies the laws. *)
Lemma Z_of_byte_of_Z x : Z_of_byte (byte_of_Z x) = x mod 256.
Proof.
  unfold Z_of_byte, byte_of_Z.
  assert (Hx : 0 <= x mod 256 < 256) by (apply Z.mod_pos_bound; lia).
  destruct (Byte.of_N (Z.to_N (x mod 256))) as [b|] eqn:E.
  - simpl. apply Byte.to_of_N in E as ->. rewrite Z2N.id by lia. reflexivity.
  - apply Byte.of_N_None_iff in E. lia.
Qed.

Lemma sample_varint_roundtrip fuel :
  forall v unit result rest, (1 <= fuel)%nat -> 0 <= v < 128 ^ Z.of_nat fuel ->
    sample_GetVarint fuel unit result (sample_PutVarint fuel v ++ rest)
    = Some (result + v * unit, rest).
Proof.
  induction fuel as [|fuel IH]; intros v unit result rest Hfuel Hv; [lia|].
  - cbn [sample_PutVarint]. destruct (Z.ltb_spec v 128) as [Hsmall|Hbig].
    + cbn [app sample_GetVarint]. rewrite Z_of_byte_of_Z.
      rewrite (Z.mod_small v 256) by lia.
      destruct (Z.leb_spec 128 v); [lia|reflexivity].
    + cbn [app sample_GetVarint]. rewrite Z_of_byte_of_Z.
      assert (Hm : 0 <= v mod 128 < 128) by (apply Z.mod_pos_bound; lia).
      rewrite (Z.mod_small (v mod 128 + 128) 256) by lia.
      destruct (Z.leb_spec 128 (v mod 128 + 128)); [|lia].
      rewrite Nat2Z.inj_succ, Z.pow_succ_r in Hv by lia.
      assert (Hf : (1 <= fuel)%nat).
      { destruct fuel; [simpl in Hv; lia|lia]. }
      rewrite IH.
      * f_equal. f_equal. pose proof (Z.div_mod v 128 ltac:(lia)). nia.
      * exact Hf.
      * split; [apply Z.div_pos; lia|apply Z.div_lt_upper_bound; lia].
Qed.

Lemma sample_coding_laws : @CodingLaws sample_coding.
Proof.
  split.
  - intros x rest Hx. cbn [PutVarint32 GetVarint32 sample_coding].
    rewrite sample_varint_roundtrip by (simpl; lia). f_equal. f_equal. lia.
  - intros x. reflexivity.
Qed.

(** ** The queries of a running compaction *)

Lemma level_inv_sorted_by_smallest_user_key `{Comparator} (L : CmpLaws Compare)
    (v : Version) (level : nat) (files : list FileMetaData) :
  level_inv v -> (1 <= level)%nat -> files_ v !! level = Some files ->
  sorted_by_smallest_user_key files.
Proof.
  intros Hinv Hlevel Hfiles i j fi fj Hij Hi Hj.
  pose proof (icmp_laws L) as LI.
  destruct (Hinv level Hlevel) as [Hp Hwf].
  unfold level_files in Hp, Hwf. rewrite Hfiles in Hp, Hwf. cbn [default] in Hp, Hwf.
  destruct (decide (i = j)) as [->|Hne].
  - rewrite Hi in Hj. injection Hj as <-. rewrite (cmp_refl (cmp:=Compare)).
    discriminate.
  - assert (Hlt : (i < j)%nat) by lia.
    pose proof (pairwise_lookup _ _ Hp i j fi fj Hlt Hi Hj) as Hb.
    rewrite List.Forall_forall in Hwf.
    assert (Hw : file_wf fi).
    { apply Hwf. apply list_elem_of_In. eapply list_elem_of_lookup_2; eauto. }
    apply icmp_user_key_le.
    unfold file_wf in Hw. unfold file_before in Hb.
    rewrite (cmp_le_lt_trans icmp_Compare _ _ _ Hw Hb). discriminate.
Qed.

Section BaseLevel.
Context `{Comparator} (L : CmpLaws Compare).

Lemma IsBaseLevelForKey_scan_spec (key : string) (files : list FileMetaData) :
  sorted_by_smallest_user_key files ->
  forall (fuel : nat) (ptr : Z),
    files_behind files ptr key ->
    Z.of_nat (length files) - ptr <= Z.of_nat fuel ->
    exists b ptr',
      IsBaseLevelForKey_scan fuel key files ptr = Some (b, ptr') /\
      ptr <= ptr' /\ files_behind files ptr' key /\
      (b = true <-> forall f, In f files -> ~ key_in_file key f).
Proof.
  intros Hsorted fuel. induction fuel as [|fuel IH]; intros ptr [Hptr Hbehind] Hfuel.
  - assert (ptr = Z.of_nat (length files)) as -> by lia.
    exists true, (Z.of_nat (length files)). cbn [IsBaseLevelForKey_scan].
    rewrite Z.ltb_irrefl. split; [reflexivity|]. split; [lia|].
    split; [split; assumption|]. split; [|reflexivity]. intros _ f Hf [Hle _].
    apply list_elem_of_In, list_elem_of_lookup_1 in Hf as [i Hi].
    apply Hle. apply (Hbehind i f Hi). apply lookup_lt_Some in Hi. lia.
  - cbn [IsBaseLevelForKey_scan].
    destruct (ptr <? Z.of_nat (length files)) eqn:Hlt.
    + apply Z.ltb_lt in Hlt.
      destruct (lookup_lt_is_Some_2 files (Z.to_nat ptr)) as [f Hf]; [lia|].
      rewrite Hf. unfold is_le, is_ge, is_gt, is_lt.
      destruct (Compare key (user_key (largest f))) eqn:Hl; cbn [negb].
      1,2: destruct (Compare key (user_key (smallest f))) eqn:Hs; cbn [negb].
      1,3,4,6: exists false, ptr; split; [reflexivity|]; split; [lia|];
        split; [split; assumption|]; split; [discriminate|]; intros Hno;
        exfalso; apply (Hno f);
        [apply list_elem_of_In; eapply list_elem_of_lookup_2; exact Hf|
         split; congruence].
      1,2: exists true, ptr; split; [reflexivity|]; split; [lia|];
        split; [split; assumption|]; split; [|reflexivity]; intros _ g Hg [Hgl Hgs];
        apply list_elem_of_In, list_elem_of_lookup_1 in Hg as [i Hi];
        destruct (decide (Z.of_nat i < ptr)) as [Hi'|Hi'];
        [apply Hgl; apply (Hbehind i g Hi Hi')|];
        apply Hgs;
        apply (cmp_lt_le_trans Compare _ _ _ Hs);
        apply (Hsorted (Z.to_nat ptr) i f g); [lia|exact Hf|exact Hi].
      destruct (IH (ptr + 1)) as (b & ptr' & Hrun & Hle & Hb' & Hiff).
      * split; [lia|]. intros i g Hi Hip.
        destruct (decide (Z.of_nat i < ptr)) as [Hi'|Hi'];
          [apply (Hbehind i g Hi Hi')|].
        assert (i = Z.to_nat ptr) as -> by lia. rewrite Hf in Hi.
        injection Hi as <-. exact Hl.
      * lia.
      * exists b, ptr'. split; [exact Hrun|]. split; [lia|]. split; assumption.
    + apply Z.ltb_ge in Hlt. exists true, ptr. split; [reflexivity|].
      split; [lia|]. split; [split; assumption|]. split; [|reflexivity].
      intros _ f Hf [Hle _].
      apply list_elem_of_In, list_elem_of_lookup_1 in Hf as [i Hi].
      apply Hle. apply (Hbehind i f Hi). apply lookup_lt_Some in Hi. lia.
Qed.

Lemma IsBaseLevelForKey_levels_spec (key : string) (all : list (list FileMetaData)) :
  forall (levels : list (list FileMetaData)) (lvl : nat) (ptrs : list Z),
    drop lvl all = levels ->
    (forall l files, (lvl <= l)%nat -> all !! l = Some files ->
       sorted_by_smallest_user_key files) ->
    ptrs_behind all lvl ptrs key ->
    exists b ptrs',
      IsBaseLevelForKey_levels key levels lvl ptrs = Some (b, ptrs') /\
      length ptrs' = length ptrs /\
      (forall l, (l < lvl)%nat -> ptrs' !! l = ptrs !! l) /\
      ptrs_behind all lvl ptrs' key /\
      (b = true <-> key_below all lvl key).
Proof.
  intros levels. induction levels as [|files levels IH]; intros lvl ptrs Hdrop Hsorted Hptrs.
  - exists true, ptrs. split; [reflexivity|]. split; [reflexivity|].
    split; [reflexivity|]. split; [exact Hptrs|]. split; [|reflexivity].
    intros _ l files f Hl Hfiles. apply lookup_lt_Some in Hfiles.
    assert (Hlen : length (drop lvl all) = 0%nat) by (rewrite Hdrop; reflexivity).
    rewrite length_drop in Hlen. lia.
  - assert (Hfiles : all !! lvl = Some files).
    { pose proof (lookup_drop all lvl 0) as Hd. rewrite Nat.add_0_r in Hd.
      rewrite <- Hd, Hdrop. reflexivity. }
    assert (Hrest : drop (S lvl) all = levels).
    { replace (S lvl) with (lvl + 1)%nat by lia. rewrite <- drop_drop.
      rewrite Hdrop. reflexivity. }
    destruct (Hptrs lvl files (le_n _) Hfiles) as (ptr & Hptr & Hbehind).
    cbn [IsBaseLevelForKey_levels]. rewrite Hptr.
    destruct (IsBaseLevelForKey_scan_spec key files (Hsorted lvl files (le_n _) Hfiles)
                (length files) ptr Hbehind) as (b & ptr' & Hrun & Hle & Hb' & Hiff);
      [destruct Hbehind; lia|].
    rewrite Hrun.
    assert (Hins : ptrs_behind all lvl (<[lvl := ptr']> ptrs) key).
    { intros l fs Hl Hfs. destruct (decide (l = lvl)) as [->|Hne].
      - rewrite Hfiles in Hfs. injection Hfs as <-. exists ptr'.
        split; [|exact Hb']. apply list_lookup_insert_eq.
        apply lookup_lt_Some in Hptr. exact Hptr.
      - rewrite list_lookup_insert_ne by congruence. apply (Hptrs l fs Hl Hfs). }
    destruct b.
    + destruct (IH (S lvl) (<[lvl := ptr']> ptrs) Hrest) as
        (b & ptrs' & Hrun' & Hlen & Hlow & Hbehind' & Hiff').
      * intros l fs Hl. apply Hsorted. lia.
      * intros l fs Hl. apply Hins. lia.
      * exists b, ptrs'. split; [exact Hrun'|].
        split; [rewrite Hlen; apply length_insert|].
        split; [intros l Hl; rewrite Hlow by lia;
                apply list_lookup_insert_ne; lia|].
        split.
        { intros l fs Hl Hfs. destruct (decide (l = lvl)) as [->|Hne].
          - rewrite Hfiles in Hfs. injection Hfs as <-. exists ptr'.
            split; [|exact Hb']. rewrite Hlow by lia. apply list_lookup_insert_eq.
            apply lookup_lt_Some in Hptr. exact Hptr.
          - apply Hbehind'; [lia|exact Hfs]. }
        rewrite Hiff'. split.
        { intros Hbelow l fs f Hl Hfs Hf. destruct (decide (l = lvl)) as [->|Hne].
          - rewrite Hfiles in Hfs. injection Hfs as <-.
            apply (proj1 Hiff eq_refl f Hf).
          - apply (Hbelow l fs f); [lia|exact Hfs|exact Hf]. }
        { intros Hbelow l fs f Hl. apply Hbelow. lia. }
    + exists false, (<[lvl := ptr']> ptrs). split; [reflexivity|].
      split; [apply length_insert|].
      split; [intros l Hl; apply list_lookup_insert_ne; lia|].
      split; [exact Hins|]. split; [discriminate|]. intros Hbelow.
      apply Hiff. intros f Hf. apply (Hbelow lvl files f (le_n _) Hfiles Hf).
Qed.

Lemma files_behind_le (files : list FileMetaData) (ptr : Z) (key key' : string) :
  Compare key key' <> Gt -> files_behind files ptr key -> files_behind files ptr key'.
Proof.
  intros Hle [Hptr Hbehind]. split; [exact Hptr|]. intros i f Hi Hip.
  pose proof (Hbehind i f Hi Hip) as Hgt.
  apply (cmp_gt_lt Compare). apply (cmp_gt_lt Compare) in Hgt.
  apply (cmp_lt_le_trans Compare _ _ _ Hgt Hle).
Qed.
End BaseLevel.

(** X12.  [Compaction::IsBaseLevelForKey] for keys asked in ascending order.
    When the levels from 1 on of the input version are disjoint and in key
    order, and the level pointers of the compaction are behind the key (each
    is within its level and the files before it end before the key; so it is
    for the pointers of a new compaction, and for any key), the call answers
    [true] exactly when no file of the levels from [level_ + 2] on holds the
    key in its range of user keys, it changes the level pointers only, and
    it leaves them behind every key from this one on. *)
Theorem IsBaseLevelForKey_ascending `{Comparator} (L : CmpLaws Compare)
    (key : string) (c : Compaction.t) (vs : VersionSet) (a : nat) (v : Version) :
  Compaction.input_version_ c = Some a -> heap_ vs !! a = Some v ->
  level_inv v ->
  ptrs_behind (files_ v) (Compaction.level_ c + 2) (Compaction.level_ptrs_ c) key ->
  exists b ptrs,
    IsBaseLevelForKey key c vs = Some (b, set_level_ptrs ptrs c) /\
    (b = true <-> key_below (files_ v) (Compaction.level_ c + 2) key) /\
    length ptrs = length (Compaction.level_ptrs_ c) /\
    forall key', Compare key key' <> Gt ->
      ptrs_behind (files_ v) (Compaction.level_ c + 2) ptrs key'.
Proof.
  intros Hin Hheap Hinv Hptrs.
  destruct (IsBaseLevelForKey_levels_spec L key (files_ v)
              (drop (Compaction.level_ c + 2) (files_ v)) (Compaction.level_ c + 2)
              (Compaction.level_ptrs_ c) eq_refl) as
    (b & ptrs & Hrun & Hlen & _ & Hbehind & Hiff).
  - intros l files Hl Hfiles.
    apply (level_inv_sorted_by_smallest_user_key L v l files Hinv); [lia|exact Hfiles].
  - exact Hptrs.
  - exists b, ptrs. unfold IsBaseLevelForKey. rewrite Hin. cbn [mbind option_bind].
    rewrite Hheap. rewrite Hrun. split; [reflexivity|]. split; [exact Hiff|].
    split; [exact Hlen|]. intros key' Hle l files Hl Hfiles.
    destruct (Hbehind l files Hl Hfiles) as (ptr & Hptr & Hb). exists ptr.
    split; [exact Hptr|]. apply (files_behind_le L files ptr key key' Hle Hb).
Qed.
Lemma int64_small (x : Z) : - 2 ^ 63 <= x < 2 ^ 63 -> int64 x = x.
Proof. intros Hx. unfold int64. rewrite Z.mod_small by lia. lia. Qed.

Lemma total_bytes_nonneg (files : list FileMetaData) :
  Forall (fun f => 0 <= file_size f) files -> 0 <= total_bytes files.
Proof.
  induction 1 as [|f files Hf _ IH]; cbn [total_bytes fold_right]; [lia|].
  unfold total_bytes in IH. lia.
Qed.

Lemma ShouldStopBefore_scan_spec `{Comparator} (internal_key : InternalKey)
    (grandparents : list FileMetaData) (seen_key : bool) :
  Forall (fun f => 0 <= file_size f) grandparents ->
  forall (fuel : nat) (index overlapped : Z),
    0 <= index <= Z.of_nat (length grandparents) ->
    Z.of_nat (length grandparents) - index <= Z.of_nat fuel ->
    - 2 ^ 63 <= overlapped ->
    overlapped + total_bytes (drop (Z.to_nat index) grandparents) < 2 ^ 63 ->
    exists n : nat,
      index + Z.of_nat n <= Z.of_nat (length grandparents) /\
      ShouldStopBefore_scan fuel internal_key grandparents seen_key index overlapped
      = Some (index + Z.of_nat n,
              overlapped +
              (if seen_key
               then total_bytes (take n (drop (Z.to_nat index) grandparents))
               else 0)) /\
      (forall f, In f (take n (drop (Z.to_nat index) grandparents)) ->
         icmp_Compare internal_key (largest f) = Gt) /\
      (forall f, grandparents !! (Z.to_nat index + n)%nat = Some f ->
         icmp_Compare internal_key (largest f) <> Gt).
Proof.
  intros Hsizes fuel.
  induction fuel as [|fuel IH]; intros index overlapped Hindex Hfuel Hlow Hhigh.
  - exists 0%nat. assert (index = Z.of_nat (length grandparents)) as -> by lia.
    cbn [ShouldStopBefore_scan]. rewrite Z.ltb_irrefl. rewrite take_0.
    cbn [total_bytes fold_right]. split; [lia|].
    split; [f_equal; f_equal; destruct seen_key; lia|].
    split; [intros f []|]. intros f Hf. apply lookup_lt_Some in Hf. lia.
  - cbn [ShouldStopBefore_scan].
    destruct (index <? Z.of_nat (length grandparents)) eqn:Hlt.
    + apply Z.ltb_lt in Hlt.
      destruct (lookup_lt_is_Some_2 grandparents (Z.to_nat index)) as [f Hf]; [lia|].
      rewrite Hf.
      assert (Hdrop : drop (Z.to_nat index) grandparents
                      = f :: drop (Z.to_nat (index + 1)) grandparents).
      { replace (Z.to_nat (index + 1)) with (S (Z.to_nat index)) by lia.
        apply drop_S. exact Hf. }
      assert (Hrest : 0 <= total_bytes (drop (Z.to_nat (index + 1)) grandparents)).
      { apply total_bytes_nonneg. apply Forall_drop. exact Hsizes. }
      assert (Hf0 : 0 <= file_size f).
      { rewrite Forall_forall in Hsizes. apply Hsizes.
        eapply list_elem_of_lookup_2. exact Hf. }
      rewrite Hdrop in Hhigh. cbn [total_bytes fold_right] in Hhigh.
      fold (total_bytes (drop (Z.to_nat (index + 1)) grandparents)) in Hhigh.
      destruct (is_gt (icmp_Compare internal_key (largest f))) eqn:Hgt.
      * destruct (IH (index + 1)
                    (if seen_key then int64 (overlapped + file_size f) else overlapped))
          as (n & Hn & Hrun & Hpassed & Hstop).
        { lia. }
        { lia. }
        { destruct seen_key; [rewrite int64_small|]; lia. }
        { destruct seen_key; [rewrite int64_small|]; lia. }
        exists (S n). split; [lia|]. rewrite Hrun, Hdrop.
        cbn [take total_bytes fold_right].
        fold (total_bytes (take n (drop (Z.to_nat (index + 1)) grandparents))).
        split; [f_equal; f_equal; [lia|];
                destruct seen_key; [rewrite int64_small|]; lia|].
        split.
        { intros g [<-|Hg]; [|apply Hpassed; exact Hg].
          unfold is_gt in Hgt. destruct (icmp_Compare internal_key (largest f));
            [discriminate|discriminate|reflexivity]. }
        { intros g Hg. apply Hstop.
          replace (Z.to_nat (index + 1) + n)%nat with (Z.to_nat index + S n)%nat by lia.
          exact Hg. }
      * exists 0%nat. rewrite take_0. cbn [total_bytes fold_right].
        split; [lia|]. split; [f_equal; f_equal; destruct seen_key; lia|].
        split; [intros g []|]. intros g Hg. rewrite Nat.add_0_r, Hf in Hg.
        injection Hg as <-. intros Hc. rewrite Hc in Hgt. discriminate.
    + apply Z.ltb_ge in Hlt. exists 0%nat. rewrite take_0.
      cbn [total_bytes fold_right]. split; [lia|].
      split; [f_equal; f_equal; destruct seen_key; lia|].
      split; [intros f []|]. intros f Hf. apply lookup_lt_Some in Hf. lia.
Qed.

(** X13.  [Compaction::ShouldStopBefore], with the check enabled and without
    sublevels, on a compaction that holds its input version.  The call
    passes the grandparent files from [grandparent_index_] on that end
    before the key and stops at the first one that does not (or at the end
    of the grandparents).  Once a key has been seen, the sizes of the files
    it passes are added to [overlapped_bytes_]; the files passed by the
    first call are not counted.  The call answers [true] exactly when the
    sum exceeds [max_grand_parent_overlap_bytes_], and then the count starts
    again from 0.  The sizes are such that the sum stays within an
    [int64_t]. *)
Theorem ShouldStopBefore_overlap `{Comparator} (internal_key : InternalKey)
    (c : Compaction.t) (vs : VersionSet) (a : nat) (v : Version) :
  enable_should_stop_before (Compaction.options_ c) = true ->
  enable_sublevel (Compaction.options_ c) = false ->
  Compaction.input_version_ c = Some a -> heap_ vs !! a = Some v ->
  Forall (fun f => 0 <= file_size f) (Compaction.grandparents_ c) ->
  0 <= Compaction.grandparent_index_ c
    <= Z.of_nat (length (Compaction.grandparents_ c)) ->
  - 2 ^ 63 <= Compaction.overlapped_bytes_ c ->
  Compaction.overlapped_bytes_ c +
    total_bytes (drop (Z.to_nat (Compaction.grandparent_index_ c))
                   (Compaction.grandparents_ c)) < 2 ^ 63 ->
  exists (n : nat),
    let passed := take n (drop (Z.to_nat (Compaction.grandparent_index_ c))
                            (Compaction.grandparents_ c)) in
    let overlapped :=
      Compaction.overlapped_bytes_ c +
      (if Compaction.seen_key_ c then total_bytes passed else 0) in
    let stop := Compaction.max_grand_parent_overlap_bytes_ c <? overlapped in
    ShouldStopBefore internal_key c vs
    = Some (stop,
            set_stop_state (Compaction.grandparent_index_ c + Z.of_nat n) true
              (if stop then 0 else overlapped) c) /\
    Compaction.grandparent_index_ c + Z.of_nat n
      <= Z.of_nat (length (Compaction.grandparents_ c)) /\
    (forall f, In f passed -> icmp_Compare internal_key (largest f) = Gt) /\
    (forall f,
       Compaction.grandparents_ c
         !! (Z.to_nat (Compaction.grandparent_index_ c) + n)%nat = Some f ->
       icmp_Compare internal_key (largest f) <> Gt).
Proof.
  intros Hstop Hsub Hin Hheap Hsizes Hindex Hlow Hhigh.
  destruct (ShouldStopBefore_scan_spec internal_key (Compaction.grandparents_ c)
              (Compaction.seen_key_ c) Hsizes
              (length (Compaction.grandparents_ c))
              (Compaction.grandparent_index_ c) (Compaction.overlapped_bytes_ c)
              Hindex ltac:(lia) Hlow Hhigh) as (n & Hn & Hrun & Hpassed & Hnext).
  exists n. cbn zeta. unfold ShouldStopBefore. rewrite Hstop, Hsub. cbn [negb].
  rewrite Hin. cbn [mbind option_bind]. rewrite Hheap. rewrite Hrun.
  split; [|split; [exact Hn|split; [exact Hpassed|exact Hnext]]].
  destruct (_ <? _); reflexivity.
Qed.

Lemma set_compact_pointer_id (vs : VersionSet) :
  set_compact_pointer (compact_pointer_ vs) vs = vs.
Proof. destruct vs. reflexivity. Qed.

Lemma SetupOtherInputs_frame `{Comparator} c vs c' vs' :
  SetupOtherInputs c vs = Some (c', vs') ->
  Compaction.input_version_ c' = Compaction.input_version_ c /\
  exists cp, vs' = set_compact_pointer cp vs.
Proof.
  unfold SetupOtherInputs.
  destruct (GetRange _) as [smallest0 largest0].
  destruct (GetOverlappingInputs _ _ _ _) as [inputs1|];
    cbn [mbind option_bind]; [|discriminate].
  destruct (GetRange2 _ _) as [all_start all_limit].
  match goal with
  | |- context [mbind _ ?m] =>
      destruct m as [[[[[inputs0' inputs1'] largest'] all_start'] all_limit']|];
      cbn [mbind option_bind]; [|discriminate]
  end.
  match goal with
  | |- context [mbind _ ?m] =>
      destruct m as [grandparents|]; cbn [mbind option_bind]; [|discriminate]
  end.
  intros [= <- <-]. split; [reflexivity|]. eexists. reflexivity.
Qed.

Lemma Compaction_new_frame options level vs cur :
  current_ vs = Some cur ->
  Compaction.input_version_ (Compaction_new options level vs).1 = Some cur /\
  (Compaction_new options level vs).2 = Version_Ref cur vs.
Proof. intros Hcur. unfold Compaction_new. cbn [fst snd Compaction.input_version_].
  rewrite Hcur. split; reflexivity. Qed.

Lemma PickCompaction_seed_frame `{Comparator} `{SublevelMode}
    allow_seek_compaction vs t c vs1 cur :
  current_ vs = Some cur ->
  PickCompaction_seed allow_seek_compaction vs = Some (Some (t, c, vs1)) ->
  Compaction.input_version_ c = Some cur /\ vs1 = Version_Ref cur vs.
Proof.
  intros Hcur. unfold PickCompaction_seed.
  destruct (current_version vs) as [v|]; cbn [mbind option_bind]; [|discriminate].
  destruct (double_ge (compaction_score_ v) (double_of_Z 1)).
  - destruct (compaction_level_ v <? 0); [discriminate|].
    pose proof (Compaction_new_frame (options_ vs)
                  (Z.to_nat (compaction_level_ v)) vs cur Hcur) as Hnew.
    destruct (Compaction_new _ _ vs) as [c0 vs0]. cbn [fst snd] in Hnew.
    destruct (enable_sublevel (options_ vs)).
    + destruct (SetupSublevelInputs _ _ _); cbn [mbind option_bind]; [|discriminate].
      intros [= <- <- <-]. exact Hnew.
    + destruct (files_ v !! _) as [files|]; cbn [mbind option_bind]; [|discriminate].
      destruct (compact_pointer_ vs !! _) as [pointer|]; cbn [mbind option_bind];
        [|discriminate].
      destruct (match first_after pointer files with
                | Some f => Some f
                | None => files !! 0%nat
                end); cbn [mbind option_bind]; [|discriminate].
      intros [= <- <- <-]. exact Hnew.
  - destruct (allow_seek_compaction && _); [|discriminate].
    destruct (file_to_compact_ v) as [f|]; cbn [mbind option_bind]; [|discriminate].
    destruct (file_to_compact_level_ v <? 0); [discriminate|].
    pose proof (Compaction_new_frame (options_ vs)
                  (Z.to_nat (file_to_compact_level_ v)) vs cur Hcur) as Hnew.
    destruct (Compaction_new _ _ vs) as [c0 vs0]. cbn [fst snd] in Hnew.
    intros [= <- <- <-]. exact Hnew.
Qed.

(** X14.  A plan and its release.  The compaction that [PickCompaction] or
    [CompactRange] returns holds the version that was current, with one
    reference more.  [ReleaseInputs] gives that reference back: after it,
    every version of the set and every reference count is as before the
    plan was made, and only the compact pointers may have moved.  A second
    [ReleaseInputs] does nothing. *)
Theorem ReleaseInputs_restores `{Comparator} `{SublevelMode}
    (allow_seek_compaction : bool) (level : nat)
    (begin_ end_ : option InternalKey) (vs vs' : VersionSet) (c : Compaction.t) :
  current_referenced vs ->
  PickCompaction allow_seek_compaction vs = Some (Some (c, vs')) \/
  CompactRange level begin_ end_ vs = Some (Some (c, vs')) ->
  Compaction.input_version_ c = current_ vs /\
  (exists cp,
     ReleaseInputs c vs' = (set_input_version None c, set_compact_pointer cp vs)) /\
  forall vs'', ReleaseInputs (set_input_version None c) vs''
               = (set_input_version None c, vs'').
Proof.
  intros (cur & v & Hcur & Hheap & Hrefs) Hplan.
  assert (Hmain : Compaction.input_version_ c = Some cur /\
                  exists cp, vs' = set_compact_pointer cp (Version_Ref cur vs)).
  { destruct Hplan as [Hpick|Hrange].
    - unfold PickCompaction in Hpick.
      destruct (PickCompaction_seed _ vs) as [[[[t c0] vs0]|]|] eqn:Hseed;
        cbn [mbind option_bind] in Hpick; try discriminate.
      pose proof (PickCompaction_seed_frame _ _ _ _ _ _ Hcur Hseed) as Hseed'.
      destruct Hseed' as [Hc0 ->].
      destruct (negb (enable_sublevel (options_ vs))).
      + destruct (current_version _) as [cur'|]; cbn [mbind option_bind] in Hpick;
          [|discriminate].
        match type of Hpick with
        | mbind _ ?x = _ => destruct x as [c1|] eqn:Hc1
        end; cbn [mbind option_bind] in Hpick; [|discriminate].
        assert (Hc1' : Compaction.input_version_ c1 = Some cur).
        { destruct (Compaction.level_ c0 =? 0)%nat.
          - destruct (GetRange _) as [s0 l0].
            destruct (GetOverlappingInputs _ _ _ _); cbn [mbind option_bind] in Hc1;
              [|discriminate].
            injection Hc1 as <-. exact Hc0.
          - injection Hc1 as <-. exact Hc0. }
        destruct (SetupOtherInputs c1 _) as [[c2 vs2]|] eqn:Hsetup;
          cbn [fmap option_fmap option_map] in Hpick; [|discriminate].
        injection Hpick as <- <-.
        destruct (SetupOtherInputs_frame _ _ _ _ Hsetup) as [Hin [cp ->]].
        split; [congruence|]. exists cp. reflexivity.
      + injection Hpick as <- <-. split; [exact Hc0|].
        exists (compact_pointer_ (Version_Ref cur vs)).
        symmetry. apply set_compact_pointer_id.
    - unfold CompactRange in Hrange.
      destruct (enable_sublevel (options_ vs)); [discriminate|].
      destruct (CompactRange_inputs _ _ _ vs) as [inputs|];
        cbn [mbind option_bind] in Hrange; [|discriminate].
      destruct (bool_decide (inputs = [])); [discriminate|].
      pose proof (Compaction_new_frame (options_ vs) level vs cur Hcur) as Hnew.
      destruct (Compaction_new _ _ vs) as [c0 vs0]. cbn [fst snd] in Hnew.
      destruct Hnew as [Hc0 ->].
      match type of Hrange with
      | context [SetupOtherInputs ?c1 ?vs1] =>
          destruct (SetupOtherInputs c1 vs1) as [[c2 vs2]|] eqn:Hsetup
      end; cbn [fmap option_fmap option_map] in Hrange; [|discriminate].
      injection Hrange as <- <-.
      destruct (SetupOtherInputs_frame _ _ _ _ Hsetup) as [Hin [cp ->]].
      split; [rewrite Hin; exact Hc0|]. exists cp. reflexivity. }
  destruct Hmain as [Hin [cp ->]]. split; [congruence|]. split.
  - exists cp. unfold ReleaseInputs. rewrite Hin.
    rewrite (Version_Ref_Unref cur vs v cp Hheap Hrefs). reflexivity.
  - intros vs''. reflexivity.
Qed.

(** ** A successful MANIFEST write *)

Lemma Finalize_files options v : files_ (Finalize options v) = files_ v.
Proof.
  unfold Finalize. destruct (fold_left _ _ _) as [best_level best_score].
  reflexivity.
Qed.

(** Without sublevels the new version of [NewVersionFromEdit] is the version
    that the builder saves, at a free address and not referenced; nothing
    else changes but the compact pointers. *)
Lemma NewVersionFromEdit_build `{Comparator} `{SublevelMode} finalize edit vs c base :
  current_ vs = Some c -> heap_ vs !! c = Some base -> 1 <= refs_ base ->
  enable_sublevel (options_ vs) = false ->
  let built := BuildVersion (options_ vs) (files_ base) (compact_pointer_ vs) edit in
  let v := fresh (dom (heap_ vs)) in
  NewVersionFromEdit finalize edit vs
  = Some (v,
          set_heap (<[v := if finalize then Finalize (options_ vs) built.1
                           else built.1]> (heap_ vs))
            (dummy_versions_ vs) (set_compact_pointer built.2 vs)).
Proof.
  intros Hcur Hbase Hrefs Hsub built v. subst built v.
  unfold NewVersionFromEdit, Version_alloc, BuildVersion.
  set (a := fresh (dom (heap_ vs))).
  assert (Ha : heap_ vs !! a = None) by apply fresh_heap.
  assert (Hac : a <> c) by congruence.
  cbn [current_ set_heap heap_]. rewrite Hcur. cbn [mbind option_bind].
  rewrite lookup_insert_ne by exact Hac. rewrite Hbase. cbn [mbind option_bind].
  cbn [compact_pointer_ set_heap options_].
  destruct (Apply _ edit _) as [b cp]. cbn [fst snd].
  set (vs0 := set_heap (<[a := Version_new (options_ vs)]> (heap_ vs))
                (dummy_versions_ vs) vs).
  assert (Hbase0 : heap_ vs0 !! c = Some base).
  { unfold vs0. cbn [heap_ set_heap]. rewrite lookup_insert_ne by exact Hac.
    exact Hbase. }
  rewrite (Version_Ref_Unref c vs0 base cp Hbase0 Hrefs).
  rewrite Hsub. cbn [mbind option_bind].
  unfold vs0. cbn [heap_ set_heap set_compact_pointer dummy_versions_].
  rewrite insert_insert_eq. reflexivity.
Qed.

(** The writing part, when every call of the environment succeeds, changes
    the descriptor handles and the environment only and leaves a descriptor
    log open. *)
Lemma LogAndApply_write_succeeds `{Comparator} edit io vs :
  descriptor_log_ vs <> None \/
  (io_NewWritableFile io = OK /\ io_WriteSnapshot io = OK /\
   (rotating_manifest (options_ vs) = false -> io_SetCurrentFile io = OK)) ->
  io_AddRecord io = OK -> io_Sync io = OK ->
  exists edit' nm file log env',
    LogAndApply_write edit io vs
    = (OK, edit', nm, set_descriptor file (Some log) env' vs) /\
    VersionEdit.log_number_ edit' = VersionEdit.log_number_ edit /\
    VersionEdit.prev_log_number_ edit' = VersionEdit.prev_log_number_ edit.
Proof.
  intros Hreach Hadd Hsync. unfold LogAndApply_write.
  destruct (descriptor_log_ vs) as [l|] eqn:Hlog.
  - exists edit, ""%string, (descriptor_file_ vs), l.
    eexists.
    repeat (cbv beta iota zeta; cbn [ok andb negb String.eqb]; rewrite ?Hadd, ?Hsync).
    rewrite Hlog. cbn [default]. split; [reflexivity|]. split; reflexivity.
  - destruct Hreach as [Hc|(Hnew & Hsnap & Hset)]; [congruence|].
    rewrite Hnew. cbn [ok]. rewrite Hsnap. cbn [ok].
    cbv beta iota zeta. rewrite Hadd. cbn [ok]. rewrite Hsync. cbn [ok andb].
    rewrite DescriptorFileName_nonempty. cbn [negb].
    cbn [options_ set_descriptor descriptor_file_ descriptor_log_ dbname_ env_
         manifest_file_number_].
    destruct (rotating_manifest (options_ vs)) eqn:Hrot; cbn [negb].
    + eexists _, _, _, _, _. split; [reflexivity|]. split; reflexivity.
    + rewrite (Hset eq_refl). cbn [ok].
      eexists _, _, _, _, _. split; [reflexivity|]. split; reflexivity.
Qed.

Lemma Version_Unref_drop c vs v :
  heap_ vs !! c = Some v -> refs_ v = 1 ->
  heap_ (Version_Unref c vs) !! c = None.
Proof.
  intros Hc Hr. unfold Version_Unref. rewrite (alter_Some _ _ _ _ Hc).
  cbn [heap_ set_heap]. rewrite lookup_insert_eq. cbn [refs_ set_refs].
  rewrite Hr. cbn. unfold Version_delete. cbn [heap_ set_heap].
  apply lookup_delete_eq.
Qed.

(** X15.  A successful [LogAndApply] without sublevels.  When the current
    version exists and is referenced, and every call of the environment
    succeeds, [LogAndApply] returns OK and installs a new version at an
    address that was free: it is the current version, it is referenced once,
    and its files are those that the builder saves from the files of the
    previous current version and the edit with its defaults filled in.  The
    previous current version loses one reference and is deleted exactly when
    that was its last one; every other version is untouched.
    [log_number_] and [prev_log_number_] become those of the edit where it
    sets them; [next_file_number_] and [last_sequence_] do not change; a
    descriptor log is open afterwards. *)
Theorem LogAndApply_success `{Comparator} `{SublevelMode}
    (edit : VersionEdit.t) (io : ManifestIO) (vs : VersionSet)
    (c : nat) (base : Version) :
  current_ vs = Some c -> heap_ vs !! c = Some base -> 1 <= refs_ base ->
  enable_sublevel (options_ vs) = false ->
  descriptor_log_ vs <> None \/
  (io_NewWritableFile io = OK /\ io_WriteSnapshot io = OK /\
   (rotating_manifest (options_ vs) = false -> io_SetCurrentFile io = OK)) ->
  io_AddRecord io = OK -> io_Sync io = OK ->
  exists edit' vs' v ver,
    LogAndApply edit io vs = Some (OK, edit', vs') /\
    heap_ vs !! v = None /\
    current_ vs' = Some v /\ heap_ vs' !! v = Some ver /\ refs_ ver = 1 /\
    files_ ver
    = files_ (BuildVersion (options_ vs) (files_ base) (compact_pointer_ vs)
                (LogAndApply_fill edit vs)).1 /\
    compact_pointer_ vs'
    = (BuildVersion (options_ vs) (files_ base) (compact_pointer_ vs)
         (LogAndApply_fill edit vs)).2 /\
    heap_ vs' !! c
    = (if refs_ base =? 1 then None else Some (set_refs (refs_ base - 1) base)) /\
    (forall a, a <> v -> a <> c -> heap_ vs' !! a = heap_ vs !! a) /\
    log_number_ vs' = default (log_number_ vs) (VersionEdit.log_number_ edit) /\
    prev_log_number_ vs'
    = default (prev_log_number_ vs) (VersionEdit.prev_log_number_ edit) /\
    next_file_number_ vs' = next_file_number_ vs /\
    last_sequence_ vs' = last_sequence_ vs /\
    descriptor_log_ vs' <> None.
Proof.
  intros Hcur Hbase Hrefs Hsub Hreach Hadd Hsync.
  pose proof (NewVersionFromEdit_build true (LogAndApply_fill edit vs) vs c base
                Hcur Hbase Hrefs Hsub) as Hnew.
  cbv zeta in Hnew.
  set (built := BuildVersion (options_ vs) (files_ base) (compact_pointer_ vs)
                  (LogAndApply_fill edit vs)) in *.
  set (v := fresh (dom (heap_ vs))) in *.
  assert (Hv : heap_ vs !! v = None) by apply fresh_heap.
  assert (Hvc : v <> c) by congruence.
  set (vs1 := set_heap (<[v := Finalize (options_ vs) built.1]> (heap_ vs))
                (dummy_versions_ vs) (set_compact_pointer built.2 vs)) in *.
  destruct (LogAndApply_write_succeeds (LogAndApply_fill edit vs) io vs1)
    as (edit' & nm & file & log & env' & Hwrite & Hlog & Hprev);
    [exact Hreach|exact Hadd|exact Hsync|].
  set (vs2 := set_descriptor file (Some log) env' vs1) in *.
  assert (Hcur2 : current_ vs2 = Some c) by exact Hcur.
  assert (Hheap2 : heap_ vs2 = <[v := Finalize (options_ vs) built.1]> (heap_ vs))
    by reflexivity.
  assert (Hv2 : heap_ vs2 !! v = Some (Finalize (options_ vs) built.1)).
  { rewrite Hheap2. apply lookup_insert_eq. }
  assert (Hne2 : current_ vs2 <> Some v) by (rewrite Hcur2; congruence).
  pose proof (AppendVersion_spec v vs2 _ Hv2 Hne2) as
    (Hc3 & Hh3 & _ & _ & Hnf & _ & Hls & _ & _).
  exists edit', (set_counters (next_file_number_ (AppendVersion v vs2))
                   (manifest_file_number_ (AppendVersion v vs2))
                   (last_sequence_ (AppendVersion v vs2))
                   (default 0 (VersionEdit.log_number_ edit'))
                   (default 0 (VersionEdit.prev_log_number_ edit'))
                   (AppendVersion v vs2)),
    v, (set_refs (refs_ (Finalize (options_ vs) built.1) + 1)
          (Finalize (options_ vs) built.1)).
  split.
  { unfold LogAndApply. rewrite Hnew. cbn [mbind option_bind].
    rewrite Hwrite. cbn [ok]. reflexivity. }
  split; [exact Hv|].
  cbn [current_ heap_ set_counters compact_pointer_ log_number_ prev_log_number_
       next_file_number_ last_sequence_ descriptor_log_].
  split; [exact Hc3|]. split; [exact Hh3|].
  split; [cbn [refs_ set_refs]; rewrite Finalize_refs; reflexivity|].
  split; [cbn [files_ set_refs]; apply Finalize_files|].
  assert (Happ : AppendVersion v vs2
                 = let vs3 := Version_Ref v (set_current (Some v) (Version_Unref c vs2)) in
                   set_heap (heap_ vs3) (dummy_versions_ vs3 ++ [v]) vs3).
  { unfold AppendVersion. rewrite Hcur2. reflexivity. }
  assert (Hother : forall a, a <> v ->
            heap_ (AppendVersion v vs2) !! a = heap_ (Version_Unref c vs2) !! a).
  { intros a Ha. rewrite Happ. cbv zeta. cbn [heap_ set_heap].
    unfold Version_Ref. cbn [heap_ set_heap set_current].
    rewrite lookup_alter_ne by congruence. reflexivity. }
  split.
  { rewrite Happ. cbv zeta. unfold Version_Ref.
    cbn [compact_pointer_ set_heap set_current].
    destruct (Version_Unref_frame c vs2) as (_&_&_&_&_&_&_&_&_&_&_).
    unfold Version_Unref. cbn [heap_ set_heap].
    destruct (alter _ c (heap_ vs2) !! c) as [x|];
      [destruct (refs_ x =? 0)|]; reflexivity. }
  assert (Hc2 : heap_ vs2 !! c = Some base).
  { rewrite Hheap2. rewrite lookup_insert_ne by exact Hvc. exact Hbase. }
  split.
  { rewrite Hother by congruence.
    destruct (Z.eqb_spec (refs_ base) 1) as [H1|H1].
    - apply (Version_Unref_drop c vs2 base Hc2 H1).
    - rewrite (Version_Unref_keep c vs2 base Hc2) by lia.
      cbn [heap_ set_heap]. apply lookup_insert_eq. }
  split.
  { intros a Hav Hac. rewrite Hother by exact Hav.
    rewrite Version_Unref_other by exact Hac. rewrite Hheap2.
    apply lookup_insert_ne. congruence. }
  rewrite Hlog, Hprev.
  split.
  { unfold LogAndApply_fill. destruct edit as [? [n|] [m|] ? ? ? ? ? ? ? ?];
      reflexivity. }
  split.
  { unfold LogAndApply_fill. destruct edit as [? [n|] [m|] ? ? ? ? ? ? ? ?];
      reflexivity. }
  split; [rewrite Hnf; reflexivity|]. split; [rewrite Hls; reflexivity|].
  rewrite Happ. cbv zeta. unfold Version_Ref.
  cbn [descriptor_log_ set_heap set_current].
  destruct (Version_Unref_frame c vs2) as (_&_&_&_&_&_&_&_&Hdl&_&_).
  rewrite Hdl. discriminate.
Qed.
(** ** A failed recovery *)

Lemma ok_OK s : ok s = true <-> s = OK.
Proof. destruct s; simpl; split; congruence. Qed.

(** The status and the counters of a descriptor do not depend on the
    builder it is folded into. *)
Lemma Recover_read_status `{Comparator} options options' items :
  forall st st',
    rs_status st = rs_status st' -> rs_next_file st = rs_next_file st' ->
    rs_log_number st = rs_log_number st' ->
    rs_last_sequence st = rs_last_sequence st' ->
    Recover_check (fold_left (Recover_read options) items st)
    = Recover_check (fold_left (Recover_read options') items st').
Proof.
  induction items as [|item items IH]; intros st st' Hs Hn Hl Hq; cbn [fold_left].
  - unfold Recover_check. rewrite Hs, Hn, Hl, Hq. reflexivity.
  - apply IH; unfold Recover_read; rewrite <- Hs;
      destruct (ok (rs_status st)); cbn [negb]; try assumption;
      destruct item as [decoded edit|reported];
      cbn [rs_status rs_next_file rs_log_number rs_last_sequence];
      try assumption; try reflexivity;
      repeat match goal with
      | |- context [let '(b, cp) := ?x in _] => destruct x
      end;
      cbn [rs_status rs_next_file rs_log_number rs_last_sequence];
      congruence.
Qed.

Lemma Recover_candidate_status `{Comparator} items base vs base' vs' :
  cand_status (Recover_candidate items base vs).1
  = cand_status (Recover_candidate items base' vs').1.
Proof.
  unfold Recover_candidate. cbn [fst cand_status].
  apply Recover_read_status; reflexivity.
Qed.

Lemma Recover_candidate_keeps `{Comparator} items base vs :
  Recover_keeps vs (Recover_candidate items base vs).2.
Proof.
  unfold Recover_candidate. cbn [snd]. unfold MarkFileNumberUsed.
  repeat match goal with
  | |- context [if ?b then _ else _] => destruct b
  end; repeat split; reflexivity.
Qed.

Lemma iter_Unref_eq cur n vs b :
  heap_ vs !! cur = Some b -> 1 <= refs_ b - Z.of_nat n ->
  Nat.iter n (Version_Unref cur) vs
  = set_heap (<[cur := set_refs (refs_ b - Z.of_nat n) b]> (heap_ vs))
      (dummy_versions_ vs) vs.
Proof.
  intros Hb. induction n as [|n IH]; intros Hn; cbn [Nat.iter nat_rect].
  - replace (refs_ b - Z.of_nat 0) with (refs_ b) by lia.
    rewrite set_refs_refs. rewrite insert_id by exact Hb. destruct vs. reflexivity.
  - fold (Nat.iter n (Version_Unref cur) vs). rewrite IH by lia.
    erewrite Version_Unref_keep;
      [|cbn [heap_ set_heap]; apply lookup_insert_eq|cbn [refs_ set_refs]; lia].
    cbn [heap_ set_heap dummy_versions_ refs_ set_refs].
    rewrite insert_insert_eq. rewrite set_refs_set_refs.
    replace (refs_ b - Z.of_nat n - 1) with (refs_ b - Z.of_nat (S n)) by lia.
    reflexivity.
Qed.

Lemma Recover_step_frame `{Comparator} io vs0 cur base0 base acc candidate :
  1 <= refs_ base0 -> recover_frame vs0 cur base0 acc ->
  recover_frame vs0 cur base0 (Recover_step io cur base acc candidate).
Proof.
  intros Hr0. destruct acc as [[[vs status] sel] kept]. destruct candidate as [i name].
  intros Hinv. pose proof Hinv as (Hh&Hd&Hc&Hm&Hq&Hl&Hp&Hdf&Hdl&He&Hn&Ho).
  cbn [fst snd] in Hh, Hd, Hc, Hm, Hq, Hl, Hp, Hdf, Hdl, He, Hn, Ho.
  unfold Recover_step. destruct (String.eqb name ""); [exact Hinv|].
  destruct (ok (io_NewSequentialFile io name)); [|exact Hinv].
  assert (Hb : heap_ vs !! cur
               = Some (set_refs (refs_ base0 + 1 + Z.of_nat kept) base0))
    by (rewrite Hh; apply lookup_insert_eq).
  pose proof (Recover_candidate_keeps (io_Records io name) base (Version_Ref cur vs))
    as (Kh&Kd&Kc&Km&Kq&Kl&Kp&Kdf&Kdl&Ke&Kn&Ko).
  destruct (Recover_candidate (io_Records io name) base (Version_Ref cur vs))
    as [cand vs1]. cbn [snd] in Kh, Kd, Kc, Km, Kq, Kl, Kp, Kdf, Kdl, Ke, Kn, Ko.
  rewrite (Version_Ref_spec cur vs _ Hb) in Kh, Kd, Kc, Km, Kq, Kl, Kp, Kdf, Kdl, Ke, Kn, Ko.
  cbn [heap_ set_heap dummy_versions_ current_ manifest_file_number_ last_sequence_
       log_number_ prev_log_number_ descriptor_file_ descriptor_log_ env_ dbname_
       options_ refs_ set_refs] in Kh, Kd, Kc, Km, Kq, Kl, Kp, Kdf, Kdl, Ke, Kn, Ko.
  rewrite set_refs_set_refs in Kh. rewrite Hh, insert_insert_eq in Kh.
  destruct (ok (cand_status cand)).
  - unfold recover_frame. cbn [fst snd].
    replace (refs_ base0 + 1 + Z.of_nat (S kept))
      with (refs_ base0 + 1 + Z.of_nat kept + 1) by lia.
    repeat split; congruence.
  - assert (Hb1 : heap_ vs1 !! cur
                  = Some (set_refs (refs_ base0 + 1 + Z.of_nat kept + 1) base0))
      by (rewrite Kh; apply lookup_insert_eq).
    rewrite (Version_Unref_keep cur vs1 _ Hb1) by (cbn [refs_ set_refs]; lia).
    unfold recover_frame.
    cbn [fst snd heap_ set_heap dummy_versions_ current_ manifest_file_number_
         last_sequence_ log_number_ prev_log_number_ descriptor_file_
         descriptor_log_ env_ dbname_ options_ refs_ set_refs].
    rewrite set_refs_set_refs. rewrite Kh, insert_insert_eq.
    replace (refs_ base0 + 1 + Z.of_nat kept + 1 - 1)
      with (refs_ base0 + 1 + Z.of_nat kept) by lia.
    repeat split; congruence.
Qed.

Lemma Recover_fold_frame `{Comparator} io vs0 cur base0 base candidates acc :
  1 <= refs_ base0 -> recover_frame vs0 cur base0 acc ->
  recover_frame vs0 cur base0 (fold_left (Recover_step io cur base) candidates acc).
Proof.
  intros Hr0. revert acc.
  induction candidates as [|cand candidates IH]; intros acc Hacc; cbn [fold_left];
    [exact Hacc|].
  apply IH. apply Recover_step_frame; assumption.
Qed.

Lemma Recover_step_status `{Comparator} io cur base acc i name :
  ok (Recover_step io cur base acc (i, name)).1.1.2 = true ->
  ok acc.1.1.2 = true /\ (name <> ""%string -> descriptor_accepted io name).
Proof.
  destruct acc as [[[vs status] sel] kept]. unfold Recover_step. cbn [fst snd].
  destruct (String.eqb_spec name ""); [cbn [fst snd]; intros Hs; split; [exact Hs|tauto]|].
  destruct (ok (io_NewSequentialFile io name)) eqn:Hopen.
  - pose proof (fun base' vs' =>
                  Recover_candidate_status (io_Records io name) base' vs'
                    base (Version_Ref cur vs)) as Hind.
    destruct (Recover_candidate (io_Records io name) base (Version_Ref cur vs))
      as [cand vs1]. cbn [fst] in Hind.
    destruct (ok (cand_status cand)) eqn:Hcand; cbn [fst snd].
    + intros Hs. split; [exact Hs|]. intros _. split; [apply ok_OK; exact Hopen|].
      intros base' vs'. rewrite Hind. apply ok_OK. exact Hcand.
    + destruct (ok status) eqn:Hs; [rewrite Hcand; discriminate|].
      intros Hx. congruence.
  - cbn [fst snd]. destruct (ok status) eqn:Hs; [rewrite Hopen; discriminate|].
    intros Hx. congruence.
Qed.

Lemma Recover_fold_status `{Comparator} io cur base candidates :
  forall acc,
    ok (fold_left (Recover_step io cur base) candidates acc).1.1.2 = true ->
    ok acc.1.1.2 = true /\
    forall i name, In (i, name) candidates -> name <> ""%string ->
      descriptor_accepted io name.
Proof.
  induction candidates as [|[i name] candidates IH]; intros acc; cbn [fold_left].
  - intros Hs. split; [exact Hs|]. intros i name [].
  - intros Hs. destruct (IH _ Hs) as [Hs1 Hrest].
    destruct (Recover_step_status io cur base acc i name Hs1) as [Hs0 Hthis].
    split; [exact Hs0|]. intros j name' [[= <- <-]|Hin]; [exact Hthis|].
    apply (Hrest j name' Hin).
Qed.

(** X16.  A failed recovery.  On a version set whose current version exists
    and is referenced, [Recover] returns; when its status is not OK it has
    installed nothing: the versions, their reference counts, the current
    version, [manifest_file_number_], [last_sequence_], [log_number_],
    [prev_log_number_] and the descriptor handles are as before (only
    [next_file_number_] and the compact pointers may have moved).  And its
    status is OK only if each of MANIFEST-000001 and MANIFEST-000002 that
    exists could be opened and was accepted as a candidate: one unreadable
    descriptor fails the recovery whatever the others hold. *)
Theorem Recover_failure `{Comparator} (io : RecoverIO) (vs : VersionSet) :
  current_referenced vs ->
  exists s vs',
    Recover io vs = Some (s, vs') /\
    (s <> OK -> Recover_keeps vs vs') /\
    (s = OK ->
     forall n, n = 1 \/ n = 2 ->
       FileExists (DescriptorFileName (dbname_ vs) n) (env_ vs) = true ->
       descriptor_accepted io (DescriptorFileName (dbname_ vs) n)).
Proof.
  intros (c & base & Hcur & Hbase & Hrefs). unfold Recover.
  destruct (if FileExists (CurrentFileName (dbname_ vs)) (env_ vs) then _ else _)
    as [name2 status0].
  rewrite Hcur. cbn [mbind option_bind]. rewrite Hbase. cbn [mbind option_bind].
  match goal with
  | |- context [fold_left (Recover_step io c (files_ base)) ?l ?acc] =>
      pose proof (Recover_fold_frame io vs c base (files_ base) l acc Hrefs) as Hinv;
      pose proof (Recover_fold_status io c (files_ base) l acc) as Hstat;
      destruct (fold_left (Recover_step io c (files_ base)) l acc)
        as [[[vs1 status] sel] kept]
  end.
  cbn [fst snd] in Hstat.
  destruct Hinv as (Hh&Hd&Hc&Hm&Hq&Hl&Hp&Hdf&Hdl&He&Hn&Ho); cbn [fst snd] in *.
  { unfold recover_frame. cbn [fst snd].
    rewrite (Version_Ref_spec c vs base Hbase).
    cbn [heap_ set_heap dummy_versions_ current_ manifest_file_number_
         last_sequence_ log_number_ prev_log_number_ descriptor_file_
         descriptor_log_ env_ dbname_ options_].
    replace (refs_ base + 1 + Z.of_nat 0) with (refs_ base + 1) by lia.
    repeat split; reflexivity. }
  assert (Hb1 : heap_ vs1 !! c
                = Some (set_refs (refs_ base + 1 + Z.of_nat kept) base))
    by (rewrite Hh; apply lookup_insert_eq).
  assert (Hkeep : Recover_keeps vs (Nat.iter (S kept) (Version_Unref c) vs1)).
  { rewrite (iter_Unref_eq c (S kept) vs1 _ Hb1) by (cbn [refs_ set_refs]; lia).
    unfold Recover_keeps.
    cbn [heap_ set_heap dummy_versions_ current_ manifest_file_number_
         last_sequence_ log_number_ prev_log_number_ descriptor_file_
         descriptor_log_ env_ dbname_ options_ refs_ set_refs].
    rewrite set_refs_set_refs. rewrite Hh, insert_insert_eq.
    replace (refs_ base + 1 + Z.of_nat kept - Z.of_nat (S kept)) with (refs_ base)
      by lia.
    rewrite set_refs_refs. rewrite insert_id by exact Hbase.
    repeat split; assumption. }
  assert (Haccepted : ok status = true ->
            forall n, n = 1 \/ n = 2 ->
              FileExists (DescriptorFileName (dbname_ vs) n) (env_ vs) = true ->
              descriptor_accepted io (DescriptorFileName (dbname_ vs) n)).
  { intros Hs n Hn12 Hex. destruct (Hstat Hs) as [_ Hall].
    destruct Hn12 as [-> | ->].
    - apply (Hall 0%nat); [left; rewrite Hex; reflexivity|].
      intros Hempty. pose proof (DescriptorFileName_nonempty (dbname_ vs) 1) as Hne.
      rewrite Hempty in Hne. discriminate.
    - apply (Hall 1%nat); [right; left; rewrite Hex; reflexivity|].
      intros Hempty. pose proof (DescriptorFileName_nonempty (dbname_ vs) 2) as Hne.
      rewrite Hempty in Hne. discriminate. }
  destruct (ok status) eqn:Hs.
  - destruct (selected sel) as [[i bld]|].
    + unfold Version_alloc. cbv beta iota zeta.
      apply ok_OK in Hs. subst status.
      destruct (negb (rotating_manifest (options_ vs)));
        eexists _, _; (split; [reflexivity|]);
        (split; [intros Hne; congruence|intros _; apply Haccepted; reflexivity]).
    + eexists _, _. split; [reflexivity|]. split; [intros _; exact Hkeep|].
      discriminate.
  - eexists _, _. split; [reflexivity|]. split; [intros _; exact Hkeep|].
    intros ->. discriminate.
Qed.

(** ** An edit applied without a MANIFEST write *)

(** [AppendVersion] of a new version over a current version [c]. *)
Lemma AppendVersion_install v c vs ver base :
  current_ vs = Some c -> v <> c ->
  heap_ vs !! v = Some ver -> heap_ vs !! c = Some base ->
  current_ (AppendVersion v vs) = Some v /\
  heap_ (AppendVersion v vs) !! v = Some (set_refs (refs_ ver + 1) ver) /\
  heap_ (AppendVersion v vs) !! c
  = (if refs_ base =? 1 then None else Some (set_refs (refs_ base - 1) base)) /\
  (forall a, a <> v -> a <> c -> heap_ (AppendVersion v vs) !! a = heap_ vs !! a) /\
  compact_pointer_ (AppendVersion v vs) = compact_pointer_ vs /\
  same_frame vs (set_current (current_ vs) (AppendVersion v vs)).
Proof.
  intros Hcur Hvc Hv Hc.
  assert (Hne : current_ vs <> Some v) by (rewrite Hcur; congruence).
  pose proof (AppendVersion_spec v vs ver Hv Hne) as
    (Hc3 & Hh3 & Hdb & Hopt & Hnf & Hmf & Hls & Hln & Hpl).
  assert (Happ : AppendVersion v vs
                 = let vs3 := Version_Ref v (set_current (Some v) (Version_Unref c vs)) in
                   set_heap (heap_ vs3) (dummy_versions_ vs3 ++ [v]) vs3).
  { unfold AppendVersion. rewrite Hcur. reflexivity. }
  assert (Hother : forall a, a <> v ->
            heap_ (AppendVersion v vs) !! a = heap_ (Version_Unref c vs) !! a).
  { intros a Ha. rewrite Happ. cbv zeta. cbn [heap_ set_heap].
    unfold Version_Ref. cbn [heap_ set_heap set_current].
    rewrite lookup_alter_ne by congruence. reflexivity. }
  pose proof (Version_Unref_frame c vs) as (_&_&_&_&_&_&_&Fdf&Fdl&_&Fenv).
  split; [exact Hc3|]. split; [exact Hh3|]. split.
  { rewrite Hother by congruence.
    destruct (Z.eqb_spec (refs_ base) 1) as [H1|H1].
    - apply (Version_Unref_drop c vs base Hc H1).
    - rewrite (Version_Unref_keep c vs base Hc) by lia.
      cbn [heap_ set_heap]. apply lookup_insert_eq. }
  split.
  { intros a Hav Hac. rewrite Hother by exact Hav.
    apply Version_Unref_other. exact Hac. }
  split.
  { rewrite Happ. cbv zeta. unfold Version_Ref.
    cbn [compact_pointer_ set_heap set_current].
    unfold Version_Unref. cbn [heap_ set_heap].
    destruct (alter _ c (heap_ vs) !! c) as [x|];
      [destruct (refs_ x =? 0)|]; reflexivity. }
  unfold same_frame.
  cbn [set_current dbname_ options_ next_file_number_ manifest_file_number_
       last_sequence_ log_number_ prev_log_number_ descriptor_file_
       descriptor_log_ current_ env_].
  repeat split; try assumption; try reflexivity.
  - rewrite Happ. cbv zeta. unfold Version_Ref.
    cbn [descriptor_file_ set_heap set_current]. exact Fdf.
  - rewrite Happ. cbv zeta. unfold Version_Ref.
    cbn [descriptor_log_ set_heap set_current]. exact Fdl.
  - rewrite Happ. cbv zeta. unfold Version_Ref.
    cbn [env_ set_heap set_current]. exact Fenv.
Qed.

(** X17.  [ForeighApply] without sublevels, on a version set whose current
    version exists and is referenced.  An edit that names another comparator
    is refused with [InvalidArgument] and nothing changes.  Otherwise the
    call returns OK and installs a new version at an address that was free:
    it is the current version, referenced once, with the files that the
    builder saves from the files of the previous current version and the
    edit; the previous current version loses one reference and is deleted
    exactly when that was its last one.  The four counters become those of
    the edit where it sets them.  The descriptor handles and the files of
    the environment are not touched: nothing is written. *)
Theorem ForeighApply_installs `{Comparator} `{SublevelMode}
    (edit : VersionEdit.t) (vs : VersionSet) (c : nat) (base : Version) :
  current_ vs = Some c -> heap_ vs !! c = Some base -> 1 <= refs_ base ->
  enable_sublevel (options_ vs) = false ->
  (forall name, VersionEdit.comparator_ edit = Some name -> name <> Name ->
     exists msg, ForeighApply edit vs = Some (InvalidArgument msg, vs)) /\
  ((forall name, VersionEdit.comparator_ edit = Some name -> name = Name) ->
   exists vs' v ver,
     ForeighApply edit vs = Some (OK, vs') /\
     heap_ vs !! v = None /\
     current_ vs' = Some v /\ heap_ vs' !! v = Some ver /\ refs_ ver = 1 /\
     files_ ver
     = files_ (BuildVersion (options_ vs) (files_ base) (compact_pointer_ vs) edit).1 /\
     compact_pointer_ vs'
     = (BuildVersion (options_ vs) (files_ base) (compact_pointer_ vs) edit).2 /\
     heap_ vs' !! c
     = (if refs_ base =? 1 then None else Some (set_refs (refs_ base - 1) base)) /\
     (forall a, a <> v -> a <> c -> heap_ vs' !! a = heap_ vs !! a) /\
     next_file_number_ vs'
     = default (next_file_number_ vs) (VersionEdit.next_file_number_ edit) /\
     last_sequence_ vs'
     = default (last_sequence_ vs) (VersionEdit.last_sequence_ edit) /\
     log_number_ vs' = default (log_number_ vs) (VersionEdit.log_number_ edit) /\
     prev_log_number_ vs'
     = default (prev_log_number_ vs) (VersionEdit.prev_log_number_ edit) /\
     env_ vs' = env_ vs /\ descriptor_log_ vs' = descriptor_log_ vs /\
     descriptor_file_ vs' = descriptor_file_ vs).
Proof.
  intros Hcur Hbase Hrefs Hsub. split.
  - intros name Hname Hne. unfold ForeighApply. rewrite Hname.
    destruct (String.eqb_spec name Name) as [He|_]; [contradiction|].
    cbn [negb]. eexists. reflexivity.
  - intros Hcmp.
    pose proof (NewVersionFromEdit_build false edit vs c base Hcur Hbase Hrefs Hsub)
      as Hnew.
    cbv zeta in Hnew.
    set (built := BuildVersion (options_ vs) (files_ base) (compact_pointer_ vs) edit)
      in *.
    set (v := fresh (dom (heap_ vs))) in *.
    assert (Hv : heap_ vs !! v = None) by apply fresh_heap.
    assert (Hvc : v <> c) by congruence.
    set (vs1 := set_heap (<[v := built.1]> (heap_ vs)) (dummy_versions_ vs)
                  (set_compact_pointer built.2 vs)) in *.
    destruct (AppendVersion_install v c vs1 built.1 base) as
      (Hc3 & Hh3 & Hold & Hother & Hcp & Hframe).
    { exact Hcur. }
    { exact Hvc. }
    { unfold vs1. cbn [heap_ set_heap]. apply lookup_insert_eq. }
    { unfold vs1. cbn [heap_ set_heap]. rewrite lookup_insert_ne by exact Hvc.
      exact Hbase. }
    destruct Hframe as (_&_&_&_&_&_&_&Fdf&Fdl&_&Fenv).
    cbn [set_current descriptor_file_ descriptor_log_ env_] in Fdf, Fdl, Fenv.
    eexists _, v, _. split.
    { unfold ForeighApply.
      assert (Hok : match VersionEdit.comparator_ edit with
                    | Some name => negb (String.eqb name Name)
                    | None => false
                    end = false).
      { destruct (VersionEdit.comparator_ edit) as [name|] eqn:Hname; [|reflexivity].
        rewrite (Hcmp name eq_refl). rewrite String.eqb_refl. reflexivity. }
      rewrite Hok. rewrite Hnew. cbn [mbind option_bind]. reflexivity. }
    cbn [current_ heap_ set_counters compact_pointer_ log_number_ prev_log_number_
         next_file_number_ last_sequence_ descriptor_log_ descriptor_file_ env_].
    split; [exact Hv|]. split; [exact Hc3|]. split; [exact Hh3|].
    split; [reflexivity|]. split; [reflexivity|]. split; [exact Hcp|].
    split; [exact Hold|]. split.
    { intros a Hav Hac. rewrite (Hother a Hav Hac). unfold vs1.
      cbn [heap_ set_heap]. apply lookup_insert_ne. congruence. }
    repeat split; try reflexivity; assumption.
Qed.
(** ** Live files *)

Lemma AddLiveFiles_version_spec (v : Version) (live : gset Z) (n : Z) :
  n ∈ AddLiveFiles_version v live <-> n ∈ live \/ file_number_of v n.
Proof.
  unfold AddLiveFiles_version, file_number_of.
  assert (Hfiles : forall (files : list FileMetaData) (live0 : gset Z),
            n ∈ fold_left (fun live f => {[number f]} ∪ live) files live0 <->
            n ∈ live0 \/ exists f, In f files /\ number f = n).
  { induction files as [|f files IH]; intros live0; cbn [fold_left].
    - split; [tauto|]. intros [?|(f & [] & _)]. assumption.
    - rewrite IH. rewrite elem_of_union, elem_of_singleton. split.
      + intros [[Hn|Hl]|(g & Hg & Hgn)].
        * right. exists f. split; [left; reflexivity|congruence].
        * left. exact Hl.
        * right. exists g. split; [right; exact Hg|exact Hgn].
      + intros [Hl|(g & [<-|Hg] & Hgn)].
        * left. right. exact Hl.
        * left. left. congruence.
        * right. exists g. split; assumption. }
  generalize (files_ v) as levels. intros levels. revert live.
  induction levels as [|files levels IH] using rev_ind; intros live.
  - cbn [fold_left]. split; [tauto|]. intros [?|(level & files & f & Hl & _)];
      [assumption|]. rewrite lookup_nil in Hl. discriminate.
  - rewrite fold_left_app. cbn [fold_left]. rewrite Hfiles, IH. split.
    + intros [[Hl|(level & fs & f & Hfs & Hf & Hn)]|(f & Hf & Hn)].
      * left. exact Hl.
      * right. exists level, fs, f. split; [|split; assumption].
        apply lookup_app_l_Some. exact Hfs.
      * right. exists (length levels), files, f. split; [|split; assumption].
        rewrite lookup_app_r by lia. rewrite Nat.sub_diag. reflexivity.
    + intros [Hl|(level & fs & f & Hfs & Hf & Hn)]; [left; left; exact Hl|].
      destruct (decide (level < length levels)%nat) as [Hlt|Hge].
      * left. right. exists level, fs, f. split; [|split; assumption].
        rewrite lookup_app_l in Hfs by exact Hlt. exact Hfs.
      * rewrite lookup_app_r in Hfs by lia.
        destruct (level - length levels)%nat as [|k] eqn:Hk;
          [|cbn in Hfs; discriminate].
        injection Hfs as <-. right. exists f. split; assumption.
Qed.

Lemma AddLiveFiles_fold (h : gmap nat Version) (ring : list nat) :
  (forall a, In a ring -> is_Some (h !! a)) ->
  forall live,
    exists live',
      fold_left (fun acc a =>
                   live ← acc;
                   v ← h !! a;
                   Some (AddLiveFiles_version v live)) ring (Some live)
      = Some live' /\
      forall n, n ∈ live' <->
        n ∈ live \/ exists a v, In a ring /\ h !! a = Some v /\ file_number_of v n.
Proof.
  induction ring as [|a ring IH]; intros Hdom live; cbn [fold_left].
  - exists live. split; [reflexivity|]. intros n. split; [tauto|].
    intros [?|(a & v & [] & _)]. assumption.
  - destruct (Hdom a (or_introl eq_refl)) as [v Hv].
    cbn [mbind option_bind]. rewrite Hv. cbn [mbind option_bind].
    destruct (IH (fun x Hx => Hdom x (or_intror Hx)) (AddLiveFiles_version v live))
      as (live' & Hrun & Hiff).
    exists live'. split; [exact Hrun|]. intros n. rewrite Hiff.
    rewrite AddLiveFiles_version_spec. split.
    + intros [[Hl|Hn]|(x & w & Hx & Hw & Hn)].
      * left. exact Hl.
      * right. exists a, v. split; [left; reflexivity|]. split; assumption.
      * right. exists x, w. split; [right; exact Hx|]. split; assumption.
    + intros [Hl|(x & w & [<-|Hx] & Hw & Hn)].
      * left. left. exact Hl.
      * left. right. rewrite Hv in Hw. injection Hw as <-. exact Hn.
      * right. exists x, w. split; [exact Hx|]. split; assumption.
Qed.

(** *** The ring in the reachable states *)

Lemma Version_Unref_ring a vs :
  (forall x, In x (dummy_versions_ vs) -> is_Some (heap_ vs !! x)) ->
  (forall x, In x (dummy_versions_ (Version_Unref a vs)) ->
     is_Some (heap_ (Version_Unref a vs) !! x)) /\
  (forall x, In x (dummy_versions_ vs) -> x <> a ->
     In x (dummy_versions_ (Version_Unref a vs))) /\
  (forall x, x <> a -> heap_ (Version_Unref a vs) !! x = heap_ vs !! x).
Proof.
  intros Hdom. split; [|split].
  - intros x. unfold Version_Unref. cbn [heap_ set_heap].
    destruct (alter _ a (heap_ vs) !! a) as [v|] eqn:Ha;
      [destruct (refs_ v =? 0)|]; unfold Version_delete;
      cbn [heap_ set_heap dummy_versions_].
    + rewrite List.filter_In. intros [Hx Hne].
      apply negb_true_iff, Nat.eqb_neq in Hne.
      rewrite lookup_delete_ne by congruence.
      rewrite lookup_alter_ne by congruence. apply Hdom. exact Hx.
    + intros Hx. destruct (decide (x = a)) as [->|Hne]; [rewrite Ha; eauto|].
      rewrite lookup_alter_ne by congruence. apply Hdom. exact Hx.
    + intros Hx. destruct (decide (x = a)) as [->|Hne].
      * destruct (Hdom a Hx) as [w Hw]. rewrite lookup_alter_eq, Hw in Ha.
        discriminate.
      * rewrite lookup_alter_ne by congruence. apply Hdom. exact Hx.
  - intros x Hx Hne. unfold Version_Unref. cbn [heap_ set_heap].
    destruct (alter _ a (heap_ vs) !! a) as [v|];
      [destruct (refs_ v =? 0)|]; unfold Version_delete;
      cbn [heap_ set_heap dummy_versions_]; try exact Hx.
    rewrite List.filter_In. split; [exact Hx|].
    apply negb_true_iff, Nat.eqb_neq. exact Hne.
  - intros x Hne. apply Version_Unref_other. exact Hne.
Qed.

Lemma iter_Unref_ring a n vs :
  (forall x, In x (dummy_versions_ vs) -> is_Some (heap_ vs !! x)) ->
  (forall x, In x (dummy_versions_ (Nat.iter n (Version_Unref a) vs)) ->
     is_Some (heap_ (Nat.iter n (Version_Unref a) vs) !! x)) /\
  (forall x, In x (dummy_versions_ vs) -> x <> a ->
     In x (dummy_versions_ (Nat.iter n (Version_Unref a) vs))).
Proof.
  intros Hdom. induction n as [|n [IH1 IH2]]; cbn [Nat.iter nat_rect];
    [split; [exact Hdom|intros; assumption]|].
  fold (Nat.iter n (Version_Unref a) vs).
  fold (Nat.iter n (Version_Unref a) vs) in IH1, IH2.
  destruct (Version_Unref_ring a _ IH1) as (H1 & H2 & _).
  split; [exact H1|]. intros x Hx Hne. apply H2; [apply IH2; assumption|exact Hne].
Qed.

Lemma AppendVersion_ring_ok v vs :
  (forall x, In x (dummy_versions_ vs) -> is_Some (heap_ vs !! x)) ->
  is_Some (heap_ vs !! v) -> current_ vs <> Some v ->
  ring_ok (AppendVersion v vs).
Proof.
  intros Hdom [ver Hv] Hne.
  destruct (AppendVersion_spec v vs ver Hv Hne) as (Hc & Hh & _).
  unfold AppendVersion in *.
  set (vs1 := match current_ vs with
              | Some c => Version_Unref c vs
              | None => vs
              end) in *.
  assert (Hdom1 : forall x, In x (dummy_versions_ vs1) -> is_Some (heap_ vs1 !! x)).
  { unfold vs1. destruct (current_ vs) as [c|]; [|exact Hdom].
    apply (Version_Unref_ring c vs Hdom). }
  unfold ring_ok, Version_Ref in *.
  cbn [dummy_versions_ set_heap heap_ current_ set_current] in *.
  split.
  - intros c Hcur. injection Hcur as <-.
    apply in_or_app. right. left. reflexivity.
  - intros a Ha. apply in_app_or in Ha as [Ha|[<-|[]]].
    + destruct (decide (a = v)) as [->|Hav]; [rewrite Hh; eauto|].
      rewrite lookup_alter_ne by congruence. apply Hdom1. exact Ha.
    + rewrite Hh. eauto.
Qed.

Lemma ring_ok_frame vs vs' :
  heap_ vs' = heap_ vs -> dummy_versions_ vs' = dummy_versions_ vs ->
  current_ vs' = current_ vs -> ring_ok vs -> ring_ok vs'.
Proof. intros Hh Hd Hc [H1 H2]. split; rewrite ?Hh, ?Hd, ?Hc; assumption. Qed.

Lemma ring_ok_Version_Ref a vs : ring_ok vs -> ring_ok (Version_Ref a vs).
Proof.
  intros [H1 H2]. unfold Version_Ref. split; cbn [current_ dummy_versions_ heap_ set_heap].
  - exact H1.
  - intros x Hx. destruct (decide (x = a)) as [->|Hne].
    + rewrite lookup_alter_eq. destruct (H2 a Hx) as [w ->]. cbn. eauto.
    + rewrite lookup_alter_ne by congruence. apply H2. exact Hx.
Qed.

Lemma LogAndApply_write_ring `{Comparator} edit io vs :
  dummy_versions_ (LogAndApply_write edit io vs).2 = dummy_versions_ vs.
Proof.
  unfold LogAndApply_write.
  destruct (descriptor_log_ vs);
    repeat (cbv beta iota zeta;
            match goal with
            | |- context [if ?b then _ else _] => destruct b
            end);
    reflexivity.
Qed.

Lemma VersionSet_new_ring_ok dbname options env :
  ring_ok (VersionSet_new dbname options env).
Proof.
  unfold VersionSet_new, Version_alloc. cbv beta iota zeta.
  apply AppendVersion_ring_ok.
  - cbn [dummy_versions_ set_heap]. intros x [].
  - cbn [heap_ set_heap]. rewrite lookup_insert_eq. eauto.
  - cbn [current_ set_heap]. discriminate.
Qed.

Lemma LogAndApply_ring_ok `{Comparator} `{SublevelMode} edit io vs s edit' vs' :
  current_referenced vs -> ring_ok vs ->
  LogAndApply edit io vs = Some (s, edit', vs') -> ring_ok vs'.
Proof.
  intros (c & base & Hcur & Hbase & Hrefs) [Hin Hdom]. unfold LogAndApply.
  destruct (NewVersionFromEdit true (LogAndApply_fill edit vs) vs)
    as [[v vs1]|] eqn:Hnew; cbn [mbind option_bind]; [|discriminate].
  destruct (NewVersionFromEdit_spec true _ vs c base Hcur Hbase Hrefs v vs1 Hnew)
    as (Hv & Hvc & (ver & Hver & Hheap) & Hring & Hframe).
  destruct Hframe as (_ & _ & _ & _ & _ & _ & _ & _ & _ & Hc1 & _).
  destruct (LogAndApply_write_frame (LogAndApply_fill edit vs) io vs1) as [Hh2 Hc2].
  pose proof (LogAndApply_write_ring (LogAndApply_fill edit vs) io vs1) as Hr2.
  destruct (LogAndApply_write _ io vs1) as [[[s2 e2] nm] vs2].
  cbn [snd] in Hh2, Hc2, Hr2.
  assert (Hdom2 : forall x, In x (dummy_versions_ vs2) -> is_Some (heap_ vs2 !! x)).
  { intros x Hx. rewrite Hr2, Hring in Hx. rewrite Hh2, Hheap.
    destruct (decide (x = v)) as [->|Hne]; [rewrite lookup_insert_eq; eauto|].
    rewrite lookup_insert_ne by congruence. apply Hdom. exact Hx. }
  destruct (ok s2).
  - intros [= <- <- <-].
    apply (ring_ok_frame (AppendVersion v vs2)); try reflexivity.
    apply AppendVersion_ring_ok; [exact Hdom2| |].
    + rewrite Hh2, Hheap, lookup_insert_eq. eauto.
    + rewrite Hc2, Hc1, Hcur. congruence.
  - intros [= <- <- <-].
    assert (Hd : ring_ok (Version_delete v vs2)).
    { unfold Version_delete. split; cbn [current_ dummy_versions_ heap_ set_heap].
      - intros x Hx. rewrite Hc2, Hc1, Hcur in Hx. injection Hx as <-.
        apply List.filter_In. split.
        + rewrite Hr2, Hring. apply Hin. exact Hcur.
        + apply negb_true_iff, Nat.eqb_neq. congruence.
      - intros x Hx. apply List.filter_In in Hx as [Hx Hne].
        apply negb_true_iff, Nat.eqb_neq in Hne.
        rewrite lookup_delete_ne by congruence. apply Hdom2. exact Hx. }
    destruct (negb _); [|exact Hd].
    apply (ring_ok_frame (Version_delete v vs2)); try reflexivity. exact Hd.
Qed.

Lemma ForeighApply_ring_ok `{Comparator} `{SublevelMode} edit vs s vs' :
  current_referenced vs -> ring_ok vs ->
  ForeighApply edit vs = Some (s, vs') -> ring_ok vs'.
Proof.
  intros Href Hok. unfold ForeighApply.
  destruct (match VersionEdit.comparator_ edit with
            | Some name => negb (String.eqb name Name)
            | None => false
            end); [intros [= <- <-]; exact Hok|].
  destruct Href as (c & base & Hcur & Hbase & Hrefs). destruct Hok as [Hin Hdom].
  destruct (NewVersionFromEdit false edit vs) as [[v vs1]|] eqn:Hnew;
    cbn [mbind option_bind]; [|discriminate].
  destruct (NewVersionFromEdit_spec false _ vs c base Hcur Hbase Hrefs v vs1 Hnew)
    as (Hv & Hvc & (ver & Hver & Hheap) & Hring & Hframe).
  destruct Hframe as (_ & _ & _ & _ & _ & _ & _ & _ & _ & Hc1 & _).
  intros [= <- <-].
  apply (ring_ok_frame (AppendVersion v vs1)); try reflexivity.
  apply AppendVersion_ring_ok.
  - intros x Hx. rewrite Hring in Hx. rewrite Hheap.
    destruct (decide (x = v)) as [->|Hne]; [rewrite lookup_insert_eq; eauto|].
    rewrite lookup_insert_ne by congruence. apply Hdom. exact Hx.
  - rewrite Hheap, lookup_insert_eq. eauto.
  - rewrite Hc1, Hcur. congruence.
Qed.

Lemma Recover_ring_ok `{Comparator} io vs s vs' :
  current_referenced vs -> ring_ok vs ->
  Recover io vs = Some (s, vs') -> ring_ok vs'.
Proof.
  intros (c & base & Hcur & Hbase & Hrefs) [Hin Hdom]. unfold Recover.
  destruct (if FileExists (CurrentFileName (dbname_ vs)) (env_ vs) then _ else _)
    as [name2 status0].
  rewrite Hcur. cbn [mbind option_bind]. rewrite Hbase. cbn [mbind option_bind].
  match goal with
  | |- context [fold_left (Recover_step io c (files_ base)) ?l ?acc] =>
      pose proof (Recover_fold_frame io vs c base (files_ base) l acc Hrefs) as Hinv;
      destruct (fold_left (Recover_step io c (files_ base)) l acc)
        as [[[vs1 status] sel] kept]
  end.
  destruct Hinv as (Hh&Hd&Hc&_); cbn [fst snd] in *.
  { unfold recover_frame. cbn [fst snd].
    rewrite (Version_Ref_spec c vs base Hbase).
    cbn [heap_ set_heap dummy_versions_ current_ manifest_file_number_
         last_sequence_ log_number_ prev_log_number_ descriptor_file_
         descriptor_log_ env_ dbname_ options_].
    replace (refs_ base + 1 + Z.of_nat 0) with (refs_ base + 1) by lia.
    repeat split; reflexivity. }
  assert (Hdom1 : forall x, In x (dummy_versions_ vs1) -> is_Some (heap_ vs1 !! x)).
  { intros x Hx. rewrite Hd in Hx. rewrite Hh.
    destruct (decide (x = c)) as [->|Hne]; [rewrite lookup_insert_eq; eauto|].
    rewrite lookup_insert_ne by congruence. apply Hdom. exact Hx. }
  assert (Hb1 : heap_ vs1 !! c
                = Some (set_refs (refs_ base + 1 + Z.of_nat kept) base))
    by (rewrite Hh; apply lookup_insert_eq).
  assert (Hkeep : ring_ok (Nat.iter (S kept) (Version_Unref c) vs1)).
  { rewrite (iter_Unref_eq c (S kept) vs1 _ Hb1) by (cbn [refs_ set_refs]; lia).
    split; cbn [current_ dummy_versions_ heap_ set_heap].
    - intros x Hx. rewrite Hd. apply Hin. congruence.
    - intros x Hx. destruct (decide (x = c)) as [->|Hne];
        [rewrite lookup_insert_eq; eauto|].
      rewrite lookup_insert_ne by congruence. apply Hdom1. exact Hx. }
  destruct (ok status); [|intros [= <- <-]; exact Hkeep].
  destruct (selected sel) as [[i bld]|]; [|intros [= <- <-]; exact Hkeep].
  unfold Version_alloc. cbv beta iota zeta.
  set (v := fresh (dom (heap_ vs1))).
  assert (Hv : heap_ vs1 !! v = None) by apply fresh_heap.
  assert (Hvc : v <> c) by congruence.
  set (ver := Finalize (options_ vs) (SaveTo bld (Version_new (options_ vs)))).
  match goal with
  | |- context [AppendVersion v ?vs2] =>
      assert (Happ : ring_ok (AppendVersion v vs2));
      [apply AppendVersion_ring_ok|
       destruct (AppendVersion_spec v vs2 ver) as (Ha & _);
       [cbn [heap_ set_heap]; apply lookup_insert_eq|
        cbn [current_ set_heap]; congruence|];
       set (vs3 := AppendVersion v vs2) in *]
  end.
  { cbn [dummy_versions_ heap_ set_heap]. intros x Hx.
    destruct (decide (x = v)) as [->|Hne]; [rewrite lookup_insert_eq; eauto|].
    rewrite lookup_insert_ne by congruence.
    destruct (decide (x = v)) as [->|Hne2]; [rewrite lookup_insert_eq; eauto|].
    rewrite lookup_insert_ne by congruence. apply Hdom1. exact Hx. }
  { cbn [heap_ set_heap]. rewrite lookup_insert_eq. eauto. }
  { cbn [current_ set_heap]. congruence. }
  assert (Hfin : forall vs4, heap_ vs4 = heap_ vs3 ->
            dummy_versions_ vs4 = dummy_versions_ vs3 -> current_ vs4 = current_ vs3 ->
            ring_ok (Nat.iter (S kept) (Version_Unref c) vs4)).
  { intros vs4 Hh4 Hd4 Hc4.
    pose proof (ring_ok_frame vs3 vs4 Hh4 Hd4 Hc4 Happ) as [Hin4 Hdom4].
    destruct (iter_Unref_ring c (S kept) vs4 Hdom4) as [Hx Hy].
    destruct (iter_Unref_other c (S kept) vs4 v Hvc) as [_ Hcur4].
    split; [|exact Hx]. intros x Hxc. rewrite Hcur4, Hc4, Ha in Hxc.
    injection Hxc as <-. apply Hy; [|exact Hvc]. apply Hin4. congruence. }
  destruct (negb (rotating_manifest (options_ vs)));
    intros [= <- <-]; apply Hfin; reflexivity.
Qed.

Lemma PickCompaction_plan `{Comparator} `{SublevelMode}
    allow_seek_compaction vs c vs' cur :
  current_ vs = Some cur ->
  PickCompaction allow_seek_compaction vs = Some (Some (c, vs')) ->
  exists cp, vs' = set_compact_pointer cp (Version_Ref cur vs).
Proof.
  intros Hcur Hpick. unfold PickCompaction in Hpick.
  destruct (PickCompaction_seed _ vs) as [[[[t c0] vs0]|]|] eqn:Hseed;
    cbn [mbind option_bind] in Hpick; try discriminate.
  pose proof (PickCompaction_seed_frame _ _ _ _ _ _ Hcur Hseed) as [_ ->].
  destruct (negb (enable_sublevel (options_ vs))).
  - destruct (current_version _) as [cur'|]; cbn [mbind option_bind] in Hpick;
      [|discriminate].
    match type of Hpick with
    | mbind _ ?x = _ => destruct x as [c1|]
    end; cbn [mbind option_bind] in Hpick; [|discriminate].
    destruct (SetupOtherInputs c1 _) as [[c2 vs2]|] eqn:Hsetup;
      cbn [fmap option_fmap option_map] in Hpick; [|discriminate].
    injection Hpick as <- <-.
    destruct (SetupOtherInputs_frame _ _ _ _ Hsetup) as [_ [cp ->]].
    exists cp. reflexivity.
  - injection Hpick as <- <-. exists (compact_pointer_ (Version_Ref cur vs)).
    symmetry. apply set_compact_pointer_id.
Qed.

Lemma CompactRange_plan `{Comparator} level begin_ end_ vs c vs' cur :
  current_ vs = Some cur ->
  CompactRange level begin_ end_ vs = Some (Some (c, vs')) ->
  exists cp, vs' = set_compact_pointer cp (Version_Ref cur vs).
Proof.
  intros Hcur Hrange. unfold CompactRange in Hrange.
  destruct (enable_sublevel (options_ vs)); [discriminate|].
  destruct (CompactRange_inputs _ _ _ vs) as [inputs|];
    cbn [mbind option_bind] in Hrange; [|discriminate].
  destruct (bool_decide (inputs = [])); [discriminate|].
  pose proof (Compaction_new_frame (options_ vs) level vs cur Hcur) as Hnew.
  destruct (Compaction_new _ _ vs) as [c0 vs0]. cbn [fst snd] in Hnew.
  destruct Hnew as [_ ->].
  match type of Hrange with
  | context [SetupOtherInputs ?c1 ?vs1] =>
      destruct (SetupOtherInputs c1 vs1) as [[c2 vs2]|] eqn:Hsetup
  end; cbn [fmap option_fmap option_map] in Hrange; [|discriminate].
  injection Hrange as <- <-.
  destruct (SetupOtherInputs_frame _ _ _ _ Hsetup) as [_ [cp ->]].
  exists cp. reflexivity.
Qed.

Lemma reachable_ring_ok `{Comparator} `{SublevelMode} (vs : VersionSet) :
  reachable vs -> current_referenced vs /\ ring_ok vs.
Proof.
  induction 1 as [dbname options env
                 |vs edit io s edit' vs' _ [IH1 IH2] Hrun
                 |vs edit s vs' _ [IH1 IH2] Hrun
                 |vs io s vs' _ [IH1 IH2] Hrun
                 |vs allow c vs' _ [IH1 IH2] Hrun
                 |vs level begin_ end_ c vs' _ [IH1 IH2] Hrun].
  - split; [apply VersionSet_new_referenced|apply VersionSet_new_ring_ok].
  - split; [eapply LogAndApply_referenced; eauto|eapply LogAndApply_ring_ok; eauto].
  - split; [eapply ForeighApply_referenced; eauto|eapply ForeighApply_ring_ok; eauto].
  - split; [eapply Recover_referenced; eauto|eapply Recover_ring_ok; eauto].
  - split; [eapply PickCompaction_referenced; eauto|].
    destruct IH1 as (cur & v & Hcur & _).
    destruct (PickCompaction_plan _ _ _ _ _ Hcur Hrun) as [cp ->].
    apply (ring_ok_frame (Version_Ref cur vs)); try reflexivity.
    apply ring_ok_Version_Ref. exact IH2.
  - split; [eapply CompactRange_referenced; eauto|].
    destruct IH1 as (cur & v & Hcur & _).
    destruct (CompactRange_plan _ _ _ _ _ _ _ Hcur Hrun) as [cp ->].
    apply (ring_ok_frame (Version_Ref cur vs)); try reflexivity.
    apply ring_ok_Version_Ref. exact IH2.
Qed.

(** X18.  Live files.  In every state that a version set reaches from its
    construction by [LogAndApply], [ForeighApply], [Recover] and the
    planning of compactions, [AddLiveFiles] returns: the ring names
    allocated versions only.  It adds to [live] exactly the numbers of the
    files of the versions of the ring and removes nothing; and the current
    version is in the ring, so that the number of every file of the current
    version is live. *)
Theorem AddLiveFiles_reachable `{Comparator} `{SublevelMode}
    (vs : VersionSet) (live : gset Z) :
  reachable vs ->
  exists live',
    AddLiveFiles vs live = Some live' /\
    (forall n, n ∈ live' <->
       n ∈ live \/
       exists a v, In a (dummy_versions_ vs) /\ heap_ vs !! a = Some v /\
                   file_number_of v n) /\
    exists cur, current_version vs = Some cur /\
      forall level files f,
        files_ cur !! level = Some files -> In f files -> number f ∈ live'.
Proof.
  intros Hreach.
  destruct (reachable_ring_ok vs Hreach) as [(c & cur & Hcur & Hheap & _) [Hin Hdom]].
  destruct (AddLiveFiles_fold (heap_ vs) (dummy_versions_ vs) Hdom live)
    as (live' & Hrun & Hiff).
  exists live'. split; [exact Hrun|]. split; [exact Hiff|].
  exists cur. split; [unfold current_version; rewrite Hcur; exact Hheap|].
  intros level files f Hfiles Hf. apply Hiff. right. exists c, cur.
  split; [apply Hin; exact Hcur|]. split; [exact Hheap|].
  exists level, files, f. split; [exact Hfiles|]. split; [exact Hf|reflexivity].
Qed.

(** ** Files that may hold a key *)

Lemma sort_insert_In f g sorted :
  In g (sort_insert f sorted) <-> g = f \/ In g sorted.
Proof.
  induction sorted as [|h sorted IH]; cbn [sort_insert].
  - cbn. intuition congruence.
  - destruct (NewestFirst h f); cbn [In]; [rewrite IH|]; intuition congruence.
Qed.

Lemma sort_NewestFirst_In g tmp : In g (sort_NewestFirst tmp) <-> In g tmp.
Proof.
  unfold sort_NewestFirst. induction tmp as [|f tmp IH]; cbn [fold_right];
    [tauto|].
  rewrite sort_insert_In, IH. cbn [In]. intuition congruence.
Qed.

Lemma sort_insert_sorted f sorted :
  pairwise newer_or_same sorted -> pairwise newer_or_same (sort_insert f sorted).
Proof.
  induction sorted as [|h sorted IH]; cbn [sort_insert pairwise]; intros Hs.
  - split; [apply List.Forall_nil|exact I].
  - destruct Hs as [Hh Hs]. unfold NewestFirst.
    destruct (Z.ltb_spec (number f) (number h)) as [Hlt|Hge]; cbn [pairwise].
    + split; [|apply IH; exact Hs]. apply List.Forall_forall. intros x Hx.
      apply sort_insert_In in Hx as [->|Hx]; [unfold newer_or_same; lia|].
      rewrite List.Forall_forall in Hh. apply Hh. exact Hx.
    + split; [|split; assumption]. apply List.Forall_cons; [exact Hge|].
      rewrite List.Forall_forall in Hh |- *. intros x Hx.
      specialize (Hh x Hx). unfold newer_or_same in *. lia.
Qed.

Lemma sort_NewestFirst_sorted tmp : pairwise newer_or_same (sort_NewestFirst tmp).
Proof.
  unfold sort_NewestFirst. induction tmp as [|f tmp IH]; cbn [fold_right];
    [exact I|].
  apply sort_insert_sorted. exact IH.
Qed.

Lemma ForEachOverlapping_calls_visit {A : Type}
    (func : A -> nat -> FileMetaData -> A * bool) (level : nat)
    (tmp : list FileMetaData) :
  forall (arg : A) (rest : list (nat * FileMetaData)),
    visit_until func (map (pair level) tmp ++ rest) arg
    = (let '(arg', continue) := ForEachOverlapping_calls func level tmp arg in
       if continue then visit_until func rest arg' else arg').
Proof.
  induction tmp as [|f tmp IH]; intros arg rest;
    cbn [map app visit_until ForEachOverlapping_calls]; [reflexivity|].
  destruct (func arg level f) as [arg' continue]. destruct continue;
    [apply IH|reflexivity].
Qed.

Section Overlapping.
Context `{Comparator} (L : CmpLaws Compare).

Lemma level_candidate_unique key internal_key files i f :
  (forall j g, files !! j = Some g -> (j < i)%nat ->
     icmp_Compare (largest g) internal_key = Lt) ->
  (forall j g, files !! j = Some g -> (i <= j)%nat ->
     icmp_Compare (largest g) internal_key <> Lt) ->
  level_candidate key internal_key files f ->
  files !! i = Some f /\ Compare key (user_key (smallest f)) <> Lt.
Proof.
  intros Hbefore Hafter (idx & Hidx & Hfirst & Hlarge & Hsmall).
  split; [|exact Hsmall].
  destruct (lt_eq_lt_dec idx i) as [[Hlt| ->]|Hgt]; [| exact Hidx |].
  - exfalso. apply Hlarge. apply (Hbefore idx f Hidx Hlt).
  - exfalso. assert (Hi : is_Some (files !! i)).
    { apply lookup_lt_is_Some. apply lookup_lt_Some in Hidx. lia. }
    destruct Hi as [g Hg].
    apply (Hafter i g Hg (le_n _)). apply (Hfirst i g Hg Hgt).
Qed.

Lemma ForEachOverlapping_levels_spec (key : string) (internal_key : InternalKey) :
  forall (levels : list (list FileMetaData)) (level : nat),
    (forall files, In files levels ->
       Z.of_nat (length files) < 2 ^ 31 /\ sorted_by_largest files) ->
    exists deeper : list (nat * FileMetaData),
      (forall (A : Type) (func : A -> nat -> FileMetaData -> A * bool) (arg : A),
         ForEachOverlapping_levels func key internal_key levels level arg
         = Some (visit_until func deeper arg)) /\
      pairwise (fun x y : nat * FileMetaData => (x.1 < y.1)%nat) deeper /\
      forall l f, In (l, f) deeper <->
        (level <= l)%nat /\
        exists files, levels !! (l - level)%nat = Some files /\
                      level_candidate key internal_key files f.
Proof.
  intros levels. induction levels as [|files levels IH]; intros level Hlevels.
  - exists []. split; [reflexivity|]. split; [exact I|]. intros l f.
    split; [intros []|]. intros (_ & files & Hfiles & _).
    rewrite lookup_nil in Hfiles. discriminate.
  - destruct (IH (S level)) as (deeper & Hrun & Hasc & Hiff).
    { intros fs Hfs. apply Hlevels. right. exact Hfs. }
    destruct (Hlevels files (or_introl eq_refl)) as [Hsize Hsorted].
    assert (Hdeeper : forall l f, In (l, f) deeper -> (level < l)%nat).
    { intros l f Hin. apply Hiff in Hin as [Hl _]. lia. }
    assert (Hlater : forall l f,
              ((level <= l)%nat /\
               exists fs, (files :: levels) !! (l - level)%nat = Some fs /\
                          level_candidate key internal_key fs f) <->
              (l = level /\ level_candidate key internal_key files f) \/
              In (l, f) deeper).
    { intros l f. rewrite Hiff. split.
      - intros (Hl & fs & Hfs & Hcand).
        destruct (decide (l = level)) as [->|Hne].
        + rewrite Nat.sub_diag in Hfs. injection Hfs as <-. left. auto.
        + right. split; [lia|]. exists fs. split; [|exact Hcand].
          replace (l - level)%nat with (S (l - S level)) in Hfs by lia. exact Hfs.
      - intros [[-> Hcand]|(Hl & fs & Hfs & Hcand)].
        + split; [lia|]. exists files. rewrite Nat.sub_diag. auto.
        + split; [lia|]. exists fs. split; [|exact Hcand].
          replace (l - level)%nat with (S (l - S level)) by lia. exact Hfs. }
    assert (Hskip : (forall f, ~ level_candidate key internal_key files f) ->
              (forall (A : Type) (func : A -> nat -> FileMetaData -> A * bool)
                      (arg : A),
                 ForEachOverlapping_levels func key internal_key (files :: levels)
                   level arg
                 = ForEachOverlapping_levels func key internal_key levels
                     (S level) arg) ->
              exists deeper0 : list (nat * FileMetaData),
                (forall (A : Type) (func : A -> nat -> FileMetaData -> A * bool)
                        (arg : A),
                   ForEachOverlapping_levels func key internal_key (files :: levels)
                     level arg
                   = Some (visit_until func deeper0 arg)) /\
                pairwise (fun x y : nat * FileMetaData => (x.1 < y.1)%nat) deeper0 /\
                forall l f, In (l, f) deeper0 <->
                  (level <= l)%nat /\
                  exists fs, (files :: levels) !! (l - level)%nat = Some fs /\
                             level_candidate key internal_key fs f).
    { intros Hnone Heq. exists deeper.
      split; [intros A func arg; rewrite Heq; apply Hrun|].
      split; [exact Hasc|]. intros l f. rewrite Hlater. split; [auto|].
      intros [[_ Hcand]|Hin]; [destruct (Hnone f Hcand)|exact Hin]. }
    destruct (FindFile_index L files internal_key Hsize Hsorted)
      as (i & Hfind & Hi & Hbefore & Hafter).
    assert (Hu : uint32 (Z.of_nat i) = Z.of_nat i).
    { apply uint32_small. lia. }
    destruct (length files) as [|n] eqn:Hlen.
    + apply Hskip;
        [|intros A func arg; cbn [ForEachOverlapping_levels]; rewrite Hlen;
          reflexivity].
      intros f (idx & Hidx & _). apply lookup_lt_Some in Hidx. lia.
    + destruct (decide (i < S n)%nat) as [Hlt|Hge].
      * destruct (lookup_lt_is_Some_2 files i) as [f0 Hf0]; [lia|].
        destruct (Compare key (user_key (smallest f0))) eqn:Hsmall.
        1,3: exists ((level, f0) :: deeper); split;
          [intros A func arg; cbn [ForEachOverlapping_levels];
           rewrite Hlen; cbn [Nat.eqb]; rewrite Hfind, Hu, <- Hlen;
           destruct (Z.ltb_spec (Z.of_nat i) (Z.of_nat (length files))); [|lia];
           rewrite Nat2Z.id, Hf0, Hsmall; cbn [is_lt visit_until];
           destruct (func arg level f0) as [arg' continue];
           destruct continue; [apply Hrun|reflexivity]|];
          (split;
           [cbn [pairwise]; split; [|exact Hasc];
            apply List.Forall_forall; intros [l f] Hin; cbn [fst];
            apply (Hdeeper l f Hin)|]);
          intros l f; rewrite Hlater; cbn [In]; split;
          [intros [[= <- <-]|Hin]; [left; split; [reflexivity|];
             exists i; split; [exact Hf0|]; split; [exact Hbefore|];
             split; [apply (Hafter i f0 Hf0 (le_n _))|rewrite Hsmall; discriminate]
            |right; exact Hin]
          |intros [[-> Hcand]|Hin]; [|right; exact Hin];
           destruct (level_candidate_unique key internal_key files i f
                       Hbefore Hafter Hcand) as [Hfi _];
           rewrite Hf0 in Hfi; injection Hfi as <-; left; reflexivity].
        apply Hskip.
        { intros f Hcand.
          destruct (level_candidate_unique key internal_key files i f
                      Hbefore Hafter Hcand) as [Hfi Hs].
          rewrite Hf0 in Hfi. injection Hfi as <-. apply Hs. exact Hsmall. }
        { intros A func arg. cbn [ForEachOverlapping_levels].
          rewrite Hlen. cbn [Nat.eqb]. rewrite Hfind, Hu, <- Hlen.
          destruct (Z.ltb_spec (Z.of_nat i) (Z.of_nat (length files))); [|lia].
          rewrite Nat2Z.id, Hf0, Hsmall. reflexivity. }
      * apply Hskip.
        { intros f Hcand.
          destruct (level_candidate_unique key internal_key files i f
                      Hbefore Hafter Hcand) as [Hfi _].
          apply lookup_lt_Some in Hfi. lia. }
        { intros A func arg. cbn [ForEachOverlapping_levels].
          rewrite Hlen. cbn [Nat.eqb]. rewrite Hfind, Hu, <- Hlen.
          destruct (Z.ltb_spec (Z.of_nat i) (Z.of_nat (length files))); [lia|].
          reflexivity. }
Qed.
End Overlapping.

(** X19.  The files that [Version::ForEachOverlapping] offers to its
    callback.  When every level from 1 on is sorted by largest key (and has
    fewer than 2^31 files) and the internal key is a key of the user key,
    there is a list of files with their levels, the same for every callback,
    such that the call applies the callback to the files of this list in
    order until it answers [false].  The list starts with the files of
    level 0 whose range of user keys holds the key, and with all of them,
    newest (greatest number) first; then it has, by ascending level, for
    each level from 1 on the first file whose largest key is not below the
    internal key, if the user key is not below the smallest user key of that
    file, and no other file.  The range of user keys of every file of the
    list holds the key. *)
Theorem ForEachOverlapping_visits `{Comparator} (L : CmpLaws Compare)
    (level0 : list FileMetaData) (levels : list (list FileMetaData))
    (key : string) (internal_key : InternalKey) :
  user_key internal_key = key ->
  (forall files, In files levels ->
     Z.of_nat (length files) < 2 ^ 31 /\ sorted_by_largest files) ->
  exists (zero : list FileMetaData) (deeper : list (nat * FileMetaData)),
    (forall (A : Type) (func : A -> nat -> FileMetaData -> A * bool) (arg : A),
       ForEachOverlapping (level0 :: levels) key internal_key arg func
       = Some (visit_until func (map (pair 0%nat) zero ++ deeper) arg)) /\
    (forall f, In f zero <-> In f level0 /\ key_in_file key f) /\
    pairwise newer_or_same zero /\
    pairwise (fun x y : nat * FileMetaData => (x.1 < y.1)%nat) deeper /\
    (forall l f, In (l, f) deeper <->
       (1 <= l)%nat /\
       exists files, (level0 :: levels) !! l = Some files /\
                     level_candidate key internal_key files f) /\
    (forall l f, In (l, f) (map (pair 0%nat) zero ++ deeper) -> key_in_file key f).
Proof.
  intros Hkey Hlevels.
  destruct (ForEachOverlapping_levels_spec L key internal_key levels 1 Hlevels)
    as (deeper & Hrun & Hasc & Hiff).
  set (tmp := List.filter
                (fun f => is_ge (Compare key (user_key (smallest f))) &&
                          is_le (Compare key (user_key (largest f)))) level0).
  assert (Hzero : forall f, In f (sort_NewestFirst tmp) <->
                            In f level0 /\ key_in_file key f).
  { intros f. rewrite sort_NewestFirst_In. unfold tmp. rewrite List.filter_In.
    unfold key_in_file, is_ge, is_le, is_lt, is_gt.
    destruct (Compare key (user_key (smallest f)));
      destruct (Compare key (user_key (largest f))); cbn [negb andb];
      intuition congruence. }
  assert (Hdeep : forall l f, In (l, f) deeper <->
            (1 <= l)%nat /\
            exists files, (level0 :: levels) !! l = Some files /\
                          level_candidate key internal_key files f).
  { intros l f. rewrite Hiff. split; intros (Hl & files & Hfiles & Hcand);
      (split; [exact Hl|]); exists files; (split; [|exact Hcand]);
      destruct l as [|l]; try lia;
      replace (S l - 1)%nat with l in * by lia; exact Hfiles. }
  exists (sort_NewestFirst tmp), deeper.
  split.
  { intros A func arg. unfold ForEachOverlapping. fold tmp.
    rewrite ForEachOverlapping_calls_visit.
    destruct (ForEachOverlapping_calls func 0 (sort_NewestFirst tmp) arg)
      as [arg' continue].
    destruct continue; [apply Hrun|reflexivity]. }
  split; [exact Hzero|]. split; [apply sort_NewestFirst_sorted|].
  split; [exact Hasc|]. split; [exact Hdeep|].
  intros l f Hin. apply in_app_or in Hin as [Hin|Hin].
  - apply in_map_iff in Hin as (g & [= <- <-] & Hg). apply Hzero in Hg. tauto.
  - apply Hdeep in Hin as (_ & files & _ & idx & _ & _ & Hlarge & Hsmall).
    split; [|exact Hsmall]. subst key.
    intros Hgt. apply Hlarge. unfold icmp_Compare.
    apply (cmp_gt_lt Compare) in Hgt. rewrite Hgt. reflexivity.
Qed.

(** ** Objects as files *)

Lemma strrchr_spec (a : list ascii) (c : ascii) :
  "000"%char ∉ a ->
  match strrchr a c with
  | Some b => a !! b = Some c /\ c ∉ drop (S b) a
  | None => c ∉ a
  end.
Proof.
  induction a as [|x a IH]; intros Hnul; cbn [strrchr].
  - apply not_elem_of_nil.
  - destruct (Ascii.eqb_spec x "000"%char) as [->|Hx].
    { exfalso. apply Hnul. left. }
    assert (Hnul' : "000"%char ∉ a) by (intros Hin; apply Hnul; right; exact Hin).
    specialize (IH Hnul'). destruct (strrchr a c) as [i|].
    + exact IH.
    + destruct (Ascii.eqb_spec x c) as [->|Hc].
      * split; [reflexivity|]. exact IH.
      * intros Hin. apply elem_of_cons in Hin as [->|Hin]; [congruence|].
        apply IH. exact Hin.
Qed.

(** X20.  [ResolvePath] on a path without a NUL byte.  The path is resolved
    exactly when it has a slash.  Then [base] has no slash and is what
    follows the last slash of the path, and [parent] is what precedes that
    slash, so that parent, a slash and base give back the path; but a path
    whose last slash is its first character has the parent "/".  A path
    that ends with a slash has an empty base. *)
Theorem ResolvePath_splits (path : list ascii) :
  "000"%char ∉ path ->
  (ResolvePath path = None <-> "/"%char ∉ path) /\
  forall parent base, ResolvePath path = Some (parent, base) ->
    ("/"%char ∉ base) /\
    ((parent = ["/"%char] /\ path = "/"%char :: base) \/
     (parent <> [] /\ path = parent ++ "/"%char :: base)).
Proof.
  intros Hnul. pose proof (strrchr_spec path "/"%char Hnul) as Hspec.
  unfold ResolvePath. destruct (strrchr path "/"%char) as [b|].
  - destruct Hspec as [Hb Hbase]. split.
    + split; [discriminate|]. intros Hno. exfalso. apply Hno.
      eapply list_elem_of_lookup_2. exact Hb.
    + intros parent base [= <- <-]. split; [exact Hbase|].
      pose proof (take_drop_middle path b "/"%char Hb) as Hmid.
      destruct b as [|b]; cbn [Nat.eqb].
      * left. split; [reflexivity|]. rewrite <- Hmid at 1. reflexivity.
      * right. split; [|symmetry; exact Hmid].
        destruct path; [rewrite lookup_nil in Hb; discriminate|discriminate].
  - split; [tauto|]. intros parent base. discriminate.
Qed.

Section ReadFile.
Context {F : Type} `{SequentialFile F} (contents : F -> list Byte.byte)
        (Serves : ServesContents F contents).

Lemma ReadFileToString_loop_contents :
  forall (fuel : nat) (file : F) (data : list Byte.byte),
    (Z.of_nat (length (contents file)) + 8191) / kBufferSize + 1 <= Z.of_nat fuel ->
    ReadFileToString_loop fuel file data = Some (OK, data ++ contents file).
Proof.
  induction fuel as [|fuel IH]; intros file data Hfuel.
  { pose proof (Z.div_pos (Z.of_nat (length (contents file)) + 8191) kBufferSize).
    unfold kBufferSize in *. lia. }
  cbn [ReadFileToString_loop].
  destruct (Read_contents file kBufferSize) as (file' & Hread & Hrest);
    [unfold kBufferSize; lia|].
  rewrite Hread. cbn [ok negb].
  set (n := Z.to_nat kBufferSize) in *.
  assert (Hn : Z.of_nat n = kBufferSize) by (unfold n, kBufferSize; lia).
  destruct (decide (take n (contents file) = [])) as [Hempty|Hsome].
  - rewrite bool_decide_eq_true_2 by exact Hempty. rewrite Hempty.
    assert (Hnil : contents file = []).
    { destruct (contents file) as [|x rest]; [reflexivity|].
      destruct n; [unfold kBufferSize in Hn; lia|discriminate]. }
    rewrite Hnil. reflexivity.
  - rewrite bool_decide_eq_false_2 by exact Hsome.
    assert (Hlen : length (contents file') = (length (contents file) - n)%nat).
    { rewrite Hrest. apply length_drop. }
    assert (Hpos : (0 < length (contents file))%nat).
    { destruct (contents file); [rewrite take_nil in Hsome; contradiction|cbn; lia]. }
    rewrite IH.
    + rewrite Hrest. rewrite <- app_assoc. rewrite take_drop. reflexivity.
    + rewrite Hlen. unfold kBufferSize in *.
      destruct (Z_lt_le_dec (Z.of_nat (length (contents file))) 8192) as [Hsmall|Hbig].
      * replace (length (contents file) - n)%nat with 0%nat by lia.
        assert (1 <= (Z.of_nat (length (contents file)) + 8191) / 8192)
          by (apply Z.div_le_lower_bound; lia).
        change ((Z.of_nat 0 + 8191) / 8192) with 0. lia.
      * replace (Z.of_nat (length (contents file)) + 8191)
          with (1 * 8192 + (Z.of_nat (length (contents file) - n) + 8191))
          in Hfuel by lia.
        rewrite Z.div_add_l in Hfuel by lia. lia.
Qed.

(** X21.  [ReadFileToString] of osd.cc.  When the object cannot be opened,
    the call returns that status and the data is empty.  When it is opened
    as a sequential file that serves its contents (every read returns the
    next bytes, at most as many as asked for), the call returns OK and the
    data is the whole contents, after at most one read for every 8192 bytes
    and two more. *)
Theorem ReadFileToString_contents (fuel : nat) (s : Status) (file : F) :
  (s <> OK -> ReadFileToString fuel (s, Some file) = Some (s, []) /\
              ReadFileToString fuel (s, @None F) = Some (s, [])) /\
  (Z.of_nat (length (contents file)) / kBufferSize + 2 <= Z.of_nat fuel ->
   ReadFileToString fuel (OK, Some file) = Some (OK, contents file)).
Proof.
  split.
  - intros Hs. unfold ReadFileToString. rewrite (ok_false s Hs). split; reflexivity.
  - intros Hfuel. unfold ReadFileToString. cbn [ok negb].
    apply (ReadFileToString_loop_contents fuel file []).
    unfold kBufferSize in *.
    assert ((Z.of_nat (length (contents file)) + 8191) / 8192
            <= Z.of_nat (length (contents file)) / 8192 + 1).
    { replace (Z.of_nat (length (contents file)) + 8191)
        with (Z.of_nat (length (contents file)) - 1 + 1 * 8192) by lia.
      rewrite Z.div_add by lia.
      assert ((Z.of_nat (length (contents file)) - 1) / 8192
              <= Z.of_nat (length (contents file)) / 8192)
        by (apply Z.div_le_mono; lia).
      lia. }
    lia.
Qed.
End ReadFile.

(** ** The level that Finalize picks *)

Lemma double_gt_irrefl (a : double) : double_gt a a = false.
Proof.
  unfold double_gt, SpecFloat.SFltb, SpecFloat.SFcompare.
  destruct a as [s|s| |s m e]; try reflexivity; try (destruct s; reflexivity).
  destruct s; rewrite Z.compare_refl, Pos.compare_cont_refl; reflexivity.
Qed.

Lemma double_gt_ge (a b : double) : double_gt a b = true -> double_ge a b = true.
Proof.
  unfold double_gt, double_ge, SpecFloat.SFltb, SpecFloat.SFleb.
  destruct (SpecFloat.SFcompare b a) as [[ | | ]|]; congruence.
Qed.

Lemma finite_compare_trans (e1 e2 e3 : Z) (m1 m2 m3 : positive) :
  match (e1 ?= e2) with
  | Lt => Lt | Gt => Gt | Eq => Pos.compare_cont Eq m1 m2
  end = Lt ->
  match (e2 ?= e3) with
  | Lt => Lt | Gt => Gt | Eq => Pos.compare_cont Eq m2 m3
  end <> Gt ->
  match (e1 ?= e3) with
  | Lt => Lt | Gt => Gt | Eq => Pos.compare_cont Eq m1 m3
  end = Lt.
Proof.
  change (Pos.compare_cont Eq m1 m2) with (m1 ?= m2)%positive.
  change (Pos.compare_cont Eq m2 m3) with (m2 ?= m3)%positive.
  change (Pos.compare_cont Eq m1 m3) with (m1 ?= m3)%positive.
  destruct (Z.compare_spec e1 e2), (Z.compare_spec e2 e3), (Z.compare_spec e1 e3);
    try lia; try discriminate; try congruence; try reflexivity;
    destruct (Pos.compare_spec m1 m2), (Pos.compare_spec m2 m3),
      (Pos.compare_spec m1 m3);
    try lia; try discriminate; try congruence; try reflexivity.
Qed.

Lemma finite_compare_trans_opp (e1 e2 e3 : Z) (m1 m2 m3 : positive) :
  match (e1 ?= e2) with
  | Lt => Gt | Gt => Lt | Eq => CompOpp (Pos.compare_cont Eq m1 m2)
  end = Lt ->
  match (e2 ?= e3) with
  | Lt => Gt | Gt => Lt | Eq => CompOpp (Pos.compare_cont Eq m2 m3)
  end <> Gt ->
  match (e1 ?= e3) with
  | Lt => Gt | Gt => Lt | Eq => CompOpp (Pos.compare_cont Eq m1 m3)
  end = Lt.
Proof.
  change (Pos.compare_cont Eq m1 m2) with (m1 ?= m2)%positive.
  change (Pos.compare_cont Eq m2 m3) with (m2 ?= m3)%positive.
  change (Pos.compare_cont Eq m1 m3) with (m1 ?= m3)%positive.
  destruct (Z.compare_spec e1 e2), (Z.compare_spec e2 e3), (Z.compare_spec e1 e3);
    try lia; try discriminate; try congruence; try reflexivity;
    destruct (Pos.compare_spec m1 m2), (Pos.compare_spec m2 m3),
      (Pos.compare_spec m1 m3); simpl;
    try lia; try discriminate; try congruence; try reflexivity.
Qed.

(** [a < b] and [b <= c] give [a < c]; none of the three is a NaN. *)
Lemma double_gt_ge_trans (a b c : double) :
  double_gt b a = true -> double_ge c b = true -> double_gt c a = true.
Proof.
  unfold double_gt, double_ge, SpecFloat.SFltb, SpecFloat.SFleb.
  intros Hab Hbc.
  assert (Hab' : SpecFloat.SFcompare a b = Some Lt)
    by (destruct (SpecFloat.SFcompare a b) as [[ | | ]|]; congruence).
  assert (Hbc' : exists r, SpecFloat.SFcompare b c = Some r /\ r <> Gt)
    by (destruct (SpecFloat.SFcompare b c) as [[ | | ]|]; try discriminate;
        eexists; split; try reflexivity; discriminate).
  destruct Hbc' as (r & Hbc' & Hr).
  assert (Hac : SpecFloat.SFcompare a c = Some Lt); [|rewrite Hac; reflexivity].
  clear Hab Hbc. unfold SpecFloat.SFcompare in *.
  destruct a as [sa|sa| |sa ma ea], b as [sb|sb| |sb mb eb],
    c as [sc|sc| |sc mc ec];
    try discriminate; try reflexivity;
    try (destruct sa, sb, sc; simpl in *; congruence).
  destruct sa, sb, sc; try discriminate; try reflexivity;
    try (simpl in *; congruence).
  - injection Hab' as Hab'. injection Hbc' as Hbc'. subst r. f_equal.
    exact (finite_compare_trans_opp _ _ _ _ _ _ Hab' Hr).
  - injection Hab' as Hab'. injection Hbc' as Hbc'. subst r. f_equal.
    exact (finite_compare_trans _ _ _ _ _ _ Hab' Hr).
Qed.

Lemma Finalize_fold (score : nat -> double) (n : nat) :
  let best :=
    fold_left (fun '(best_level, best_score) level =>
                 if double_gt (score level) best_score
                 then (Z.of_nat level, score level)
                 else (best_level, best_score))
      (seq 0 n) (-1, double_of_Z (-1)) in
  (best = (-1, double_of_Z (-1)) /\
   forall l, (l < n)%nat -> double_gt (score l) (double_of_Z (-1)) = false) \/
  exists level : nat,
    (level < n)%nat /\ best = (Z.of_nat level, score level) /\
    double_gt (score level) (double_of_Z (-1)) = true /\
    (forall l, (l < n)%nat -> double_gt (score l) (score level) = false) /\
    (forall l, (l < level)%nat -> double_ge (score l) (score level) = false).
Proof.
  induction n as [|n IH]; cbv zeta in *.
  - left. split; [reflexivity|]. intros l Hl. lia.
  - rewrite seq_S, fold_left_app. cbn [Nat.add fold_left].
    destruct IH as [[-> Hnone]|(level & Hlevel & -> & Hpos & Hmax & Hfirst)].
    + destruct (double_gt (score n) (double_of_Z (-1))) eqn:Hgt.
      * right. exists n. split; [lia|]. split; [reflexivity|].
        split; [exact Hgt|]. split.
        -- intros l Hl. destruct (decide (l = n)) as [->|Hne];
             [apply double_gt_irrefl|].
           destruct (double_gt (score l) (score n)) eqn:E; [|reflexivity].
           rewrite <- (Hnone l ltac:(lia)). symmetry.
           exact (double_gt_ge_trans _ _ _ Hgt (double_gt_ge _ _ E)).
        -- intros l Hl.
           destruct (double_ge (score l) (score n)) eqn:E; [|reflexivity].
           rewrite <- (Hnone l Hl). symmetry.
           exact (double_gt_ge_trans _ _ _ Hgt E).
      * left. split; [reflexivity|]. intros l Hl.
        destruct (decide (l = n)) as [->|Hne]; [exact Hgt|]. apply Hnone. lia.
    + destruct (double_gt (score n) (score level)) eqn:Hgt.
      * right. exists n. split; [lia|]. split; [reflexivity|]. split.
        { exact (double_gt_ge_trans _ _ _ Hpos (double_gt_ge _ _ Hgt)). }
        split.
        -- intros l Hl. destruct (decide (l = n)) as [->|Hne];
             [apply double_gt_irrefl|].
           destruct (double_gt (score l) (score n)) eqn:E; [|reflexivity].
           rewrite <- (Hmax l ltac:(lia)). symmetry.
           exact (double_gt_ge_trans _ _ _ Hgt (double_gt_ge _ _ E)).
        -- intros l Hl.
           destruct (double_ge (score l) (score n)) eqn:E; [|reflexivity].
           rewrite <- (Hmax l Hl). symmetry.
           exact (double_gt_ge_trans _ _ _ Hgt E).
      * right. exists level. split; [lia|]. split; [reflexivity|].
        split; [exact Hpos|]. split; [|exact Hfirst].
        intros l Hl. destruct (decide (l = n)) as [->|Hne]; [exact Hgt|].
        apply Hmax. lia.
Qed.

(** X22.  The level that [VersionSet::Finalize] picks, without sublevels.
    [Finalize] changes [compaction_level_] and [compaction_score_] only, and
    it scans the levels below the last one.  Either no score of these levels
    is greater than -1, and the level and the score recorded are -1; or the
    level recorded is one of them, the score recorded is its score and is
    greater than -1, no scanned level has a greater score, and no lower level
    has a score that is as great: among the levels of the greatest score the
    lowest is picked, and the last level never.  The scores are [double]s and
    the comparisons those of [double]: a score that is a NaN is never
    picked. *)
Theorem Finalize_best_level (options : Options) (v : Version) :
  enable_sublevel options = false ->
  files_ (Finalize options v) = files_ v /\
  refs_ (Finalize options v) = refs_ v /\
  file_to_compact_ (Finalize options v) = file_to_compact_ v /\
  file_to_compact_level_ (Finalize options v) = file_to_compact_level_ v /\
  ((compaction_level_ (Finalize options v) = -1 /\
    compaction_score_ (Finalize options v) = double_of_Z (-1) /\
    forall l, (l < length (files_ v) - 1)%nat ->
      double_gt (level_score options v l) (double_of_Z (-1)) = false) \/
   exists level : nat,
     (level < length (files_ v) - 1)%nat /\
     compaction_level_ (Finalize options v) = Z.of_nat level /\
     compaction_score_ (Finalize options v) = level_score options v level /\
     double_gt (compaction_score_ (Finalize options v)) (double_of_Z (-1)) = true /\
     (forall l, (l < length (files_ v) - 1)%nat ->
        double_gt (level_score options v l) (compaction_score_ (Finalize options v))
        = false) /\
     (forall l, (l < level)%nat ->
        double_ge (level_score options v l) (compaction_score_ (Finalize options v))
        = false)).
Proof.
  intros Hsub.
  pose proof (Finalize_fold (level_score options v) (length (files_ v) - 1))
    as Hfold.
  cbv zeta in Hfold. unfold Finalize. rewrite Hsub.
  destruct (fold_left _ (seq 0 (length (files_ v) - 1)) (-1, double_of_Z (-1)))
    as [best_level best_score].
  cbn [files_ refs_ file_to_compact_ file_to_compact_level_ compaction_level_
       compaction_score_ set_compaction].
  repeat (split; [reflexivity|]).
  destruct Hfold as [[[= -> ->] Hnone]
                    |(level & Hlevel & [= -> ->] & Hpos & Hmax & Hfirst)].
  - left. split; [reflexivity|]. split; [reflexivity|exact Hnone].
  - right. exists level. split; [exact Hlevel|]. split; [reflexivity|].
    split; [reflexivity|]. split; [exact Hpos|]. split; [exact Hmax|exact Hfirst].
Qed.

(** ** The file of a trivial move *)

Lemma GetTheOnlyFile_loop_head (inputs : list (list FileMetaData)) :
  GetTheOnlyFile_loop inputs = head (concat inputs).
Proof.
  induction inputs as [|files inputs IH]; cbn [GetTheOnlyFile_loop concat];
    [reflexivity|].
  destruct files as [|f files]; [exact IH|reflexivity].
Qed.

Lemma TotalNumInputFiles_fold (inputs : list (list FileMetaData)) (count : Z) :
  0 <= count -> count + Z.of_nat (length (concat inputs)) < 2 ^ 31 ->
  fold_left (fun count files => int32 (count + Z.of_nat (length files))) inputs count
  = count + Z.of_nat (length (concat inputs)).
Proof.
  revert count. induction inputs as [|files inputs IH]; intros count Hc Hsum;
    cbn [fold_left concat] in *; [cbn; lia|].
  rewrite length_app in *. rewrite int32_small by lia. rewrite IH by lia. lia.
Qed.

(** X23.  The file of a trivial move.  When [IsTrivialMove] holds for a
    compaction with fewer than 2^31 input files (which without sublevels
    has its two input vectors), the inputs hold exactly one file in all, and
    [GetTheOnlyFile] returns it. *)
Theorem IsTrivialMove_only_file `{Comparator} (c : Compaction.t) :
  Compaction.IsTrivialMove c = true ->
  Z.of_nat (length (concat (Compaction.inputs_ c))) < 2 ^ 31 ->
  (enable_sublevel (Compaction.options_ c) = false ->
   length (Compaction.inputs_ c) = 2%nat) ->
  exists f, GetTheOnlyFile c = Some f /\ concat (Compaction.inputs_ c) = [f].
Proof.
  intros Htrivial Hsize Htwo. unfold GetTheOnlyFile.
  rewrite GetTheOnlyFile_loop_head.
  assert (Hone : length (concat (Compaction.inputs_ c)) = 1%nat).
  { unfold Compaction.IsTrivialMove in Htrivial.
    destruct (enable_sublevel (Compaction.options_ c)); cbn [negb] in Htrivial.
    - unfold Compaction.TotalNumInputFiles in Htrivial.
      rewrite TotalNumInputFiles_fold in Htrivial by lia.
      apply Z.eqb_eq in Htrivial. lia.
    - specialize (Htwo eq_refl).
      apply andb_true_iff in Htrivial as [Htrivial _].
      apply andb_true_iff in Htrivial as [H0 H1].
      unfold Compaction.num_input_files, level_files in H0, H1.
      destruct (Compaction.inputs_ c) as [|i0 [|i1 [|i2 rest]]]; try discriminate.
      cbn [lookup list_lookup default from_option] in H0, H1. unfold id in H0, H1.
      cbn [concat] in *. rewrite !length_app in *. cbn [length] in *.
      apply Z.eqb_eq in H0, H1.
      rewrite int32_small in H0, H1 by lia. lia. }
  destruct (concat (Compaction.inputs_ c)) as [|f [|g rest]]; try discriminate.
  exists f. split; reflexivity.
Qed.

(** ** The descriptor read back *)

Lemma AddFile_fold_header level files e :
  let e' := fold_left (fun e f => AddFile level f e) files e in
  VersionEdit.comparator_ e' = VersionEdit.comparator_ e /\
  VersionEdit.log_number_ e' = VersionEdit.log_number_ e /\
  VersionEdit.prev_log_number_ e' = VersionEdit.prev_log_number_ e /\
  VersionEdit.next_file_number_ e' = VersionEdit.next_file_number_ e /\
  VersionEdit.last_sequence_ e' = VersionEdit.last_sequence_ e.
Proof.
  revert e. induction files as [|f files IH]; intros e; cbn [fold_left].
  - repeat split.
  - destruct (IH (AddFile level f e)) as (-> & -> & -> & -> & ->). repeat split.
Qed.

Lemma snapshot_files_header (files : list (nat * list FileMetaData)) e :
  let e' := fold_left (fun e '(level, fs) =>
                         fold_left (fun e f => AddFile level f e) fs e) files e in
  VersionEdit.comparator_ e' = VersionEdit.comparator_ e /\
  VersionEdit.log_number_ e' = VersionEdit.log_number_ e /\
  VersionEdit.prev_log_number_ e' = VersionEdit.prev_log_number_ e /\
  VersionEdit.next_file_number_ e' = VersionEdit.next_file_number_ e /\
  VersionEdit.last_sequence_ e' = VersionEdit.last_sequence_ e.
Proof.
  revert e. induction files as [|[l fs] files IH]; intros e; cbn [fold_left].
  - repeat split.
  - destruct (IH (fold_left (fun e f => AddFile l f e) fs e))
      as (-> & -> & -> & -> & ->).
    apply AddFile_fold_header.
Qed.

Lemma snapshot_pointers_header (pointers : list (nat * option InternalKey)) e :
  let e' := fold_left (fun e '(level, pointer) =>
                         match pointer with
                         | Some key => SetCompactPointer level key e
                         | None => e
                         end) pointers e in
  VersionEdit.comparator_ e' = VersionEdit.comparator_ e /\
  VersionEdit.log_number_ e' = VersionEdit.log_number_ e /\
  VersionEdit.prev_log_number_ e' = VersionEdit.prev_log_number_ e /\
  VersionEdit.next_file_number_ e' = VersionEdit.next_file_number_ e /\
  VersionEdit.last_sequence_ e' = VersionEdit.last_sequence_ e.
Proof.
  revert e. induction pointers as [|[l [key|]] pointers IH]; intros e; cbn [fold_left].
  - repeat split.
  - destruct (IH (SetCompactPointer l key e)) as (-> & -> & -> & -> & ->).
    repeat split.
  - apply IH.
Qed.

(** The edit of [WriteSnapshot]: it names the comparator and no counter,
    deletes and updates nothing, and adds the files of the current version
    level by level. *)
Lemma SnapshotEdit_fields `{Comparator} (vs : VersionSet) (cur : Version) :
  current_version vs = Some cur ->
  VersionEdit.comparator_ (SnapshotEdit vs) = Some Name /\
  (VersionEdit.log_number_ (SnapshotEdit vs) = None /\
   VersionEdit.prev_log_number_ (SnapshotEdit vs) = None /\
   VersionEdit.next_file_number_ (SnapshotEdit vs) = None /\
   VersionEdit.last_sequence_ (SnapshotEdit vs) = None) /\
  VersionEdit.deleted_files_ (SnapshotEdit vs) = [] /\
  VersionEdit.updated_files_ (SnapshotEdit vs) = [] /\
  (forall level, at_level level (VersionEdit.new_files_ (SnapshotEdit vs))
     = map (set_allowed_seeks (2 ^ 30)) (level_files (files_ cur) level)) /\
  (forall level f, In (level, f) (VersionEdit.new_files_ (SnapshotEdit vs)) ->
     Z.of_nat level <= VersionEdit.max_level_ (SnapshotEdit vs)).
Proof.
  intros Hcur. unfold SnapshotEdit. rewrite Hcur. cbn [default].
  set (e2 := fold_left _ (imap _ (compact_pointer_ vs)) _).
  destruct (snapshot_pointers_fold
              (imap (fun level pointer => (level, pointer)) (compact_pointer_ vs))
              (SetComparatorName Name VersionEdit_empty)) as (Hn2 & Hd2 & Hu2).
  destruct (snapshot_pointers_header
              (imap (fun level pointer => (level, pointer)) (compact_pointer_ vs))
              (SetComparatorName Name VersionEdit_empty))
    as (Hc2 & Hl2 & Hp2 & Hf2 & Hs2).
  fold e2 in Hn2, Hd2, Hu2, Hc2, Hl2, Hp2, Hf2, Hs2.
  cbn in Hn2, Hd2, Hu2, Hc2, Hl2, Hp2, Hf2, Hs2.
  destruct (snapshot_files_fold (files_ cur) 0 e2) as (Hd & Hu & _ & Hat & Hin).
  cbv zeta in Hd, Hu, Hat, Hin. cbn [Nat.add] in Hd, Hu, Hat, Hin.
  destruct (snapshot_files_header
              (imap (fun level files => (level, files)) (files_ cur)) e2)
    as (Hc & Hl & Hp & Hf & Hs).
  split; [exact (eq_trans Hc Hc2)|].
  split; [split; [exact (eq_trans Hl Hl2)|split; [exact (eq_trans Hp Hp2)|
          split; [exact (eq_trans Hf Hf2)|exact (eq_trans Hs Hs2)]]]|].
  split; [exact (eq_trans Hd Hd2)|]. split; [exact (eq_trans Hu Hu2)|]. split.
  - intros l. rewrite Hat, Hn2. rewrite decide_True by lia.
    rewrite Nat.sub_0_r. reflexivity.
  - intros l f Hf0. apply Hin in Hf0 as [Hf0|Hf0]; [|exact Hf0].
    rewrite Hn2 in Hf0. destruct Hf0.
Qed.

(** The state of a builder after [Apply], whatever it held before. *)
Lemma Apply_builder `{Comparator} (options : Options) (edit : VersionEdit.t)
    (b : Builder) (cp : list (option InternalKey)) :
  enable_sublevel options = false -> VersionEdit.updated_files_ edit = [] ->
  exists ls1,
    (forall l, default LevelState_empty (ls1 !! l)
               = default LevelState_empty (levels_ b !! l)) /\
    (length (levels_ b) <= length ls1)%nat /\
    (Z.of_nat (length ls1) <= VersionEdit.max_level_ edit + 1 -> False) /\
    (Apply options edit (b, cp)).1
    = {| base_ := base_ b;
         levels_ := fold_added (VersionEdit.new_files_ edit)
                      (fold_deleted (VersionEdit.deleted_files_ edit) ls1);
         truncated_key_ := VersionEdit.truncate_key_ edit |}.
Proof.
  intros Hsub Hupd. unfold Apply. rewrite Hsub, Hupd.
  cbn [fold_left fst].
  eexists. split; [|split; [|split; [|reflexivity]]].
  - intros l. destruct (_ <=? _); [apply lookup_grow_empty|reflexivity].
  - destruct (_ <=? _); [unfold grow; rewrite length_app; lia|lia].
  - destruct (Z.leb_spec (Z.of_nat (length (levels_ b)))
                (VersionEdit.max_level_ edit + 1)) as [Hle|Hgt].
    + unfold grow. rewrite length_app, length_replicate. lia.
    + lia.
Qed.
Section ReadBack.
Context `{Comparator} (L : CmpLaws Compare).

(** What a builder over the empty version saves after the snapshot of
    [base] and one edit. *)
Lemma replay_snapshot_then_edit (options : Options)
    (base : list (list FileMetaData)) (cp : list (option InternalKey))
    (snapshot edit : VersionEdit.t) :
  enable_sublevel options = false ->
  VersionEdit.deleted_files_ snapshot = [] ->
  VersionEdit.updated_files_ snapshot = [] ->
  (forall level, at_level level (VersionEdit.new_files_ snapshot)
     = map (set_allowed_seeks (2 ^ 30)) (level_files base level)) ->
  (forall level f, In (level, f) (VersionEdit.new_files_ snapshot) ->
     Z.of_nat level <= VersionEdit.max_level_ snapshot) ->
  edit_in_range edit ->
  pairwise distinct_numbers (VersionEdit.new_files_ edit) ->
  (forall level, builder_order (level_files base level)) ->
  new_numbers_unused edit base ->
  forall level g,
    In g (level_files
            (files_ (SaveTo (Apply options edit
                               (Apply options snapshot
                                  (Builder_new (files_ (Version_new options)), cp))).1
                       (Version_new options))) level) <->
    (exists f, In f (level_files base level) /\
       ~ deleted_by edit level (number f) /\ g = budgeted f) \/
    (exists f0, In (level, f0) (VersionEdit.new_files_ edit) /\ g = budgeted f0).
Proof.
  intros Hsub Hdel Hupd Hat Hmaxl (Hupd2 & Hnew2 & Hdel2) Hdist Hord Hfresh level g.
  set (base0 := files_ (Version_new options)).
  destruct (BuildVersion_builder options base0 cp snapshot Hsub Hupd)
    as (ls1 & Hls1 & Hlen1 & Hmax1 & _ & Hb1).
  destruct (Apply options snapshot (Builder_new base0, cp)) as [b1 cp1] eqn:Happly1.
  cbn [fst] in Hb1. subst b1. rewrite Hdel. cbn [fold_left].
  set (lsA := fold_added (VersionEdit.new_files_ snapshot) ls1).
  set (bA := {| base_ := base0; levels_ := lsA;
                truncated_key_ := VersionEdit.truncate_key_ snapshot |}).
  destruct (Apply_builder options edit bA cp1 Hsub Hupd2)
    as (ls2 & Hls2 & Hlen2 & Hmax2 & Hb2).
  rewrite Hb2. cbn [base_ levels_ bA] in *.
  set (lsB := fold_added (VersionEdit.new_files_ edit)
                (fold_deleted (VersionEdit.deleted_files_ edit) ls2)).
  set (bB := {| base_ := base0; levels_ := lsB;
                truncated_key_ := VersionEdit.truncate_key_ edit |}).
  assert (HlenA : length lsA = length ls1).
  { unfold lsA. rewrite fold_added_length. reflexivity. }
  assert (HlenB : length lsB = length ls2).
  { unfold lsB. rewrite fold_added_length, fold_deleted_length. reflexivity. }
  assert (Hout : forall l, (length ls1 <= l)%nat -> level_files base l = []).
  { intros l Hl. destruct (level_files base l) as [|f fs] eqn:E; [reflexivity|].
    exfalso.
    assert (Hin : In (l, set_allowed_seeks (2 ^ 30) f)
                    (VersionEdit.new_files_ snapshot)).
    { apply at_level_In. rewrite Hat, E. left. reflexivity. }
    pose proof (Hmaxl _ _ Hin). lia. }
  assert (HaddA : forall l,
            added_of lsA l = map (fun f => budgeted f) (level_files base l)).
  { intros l. destruct (decide (l < length ls1)%nat) as [Hlt|Hge].
    - unfold lsA. rewrite added_of_fold_added_at_level by lia. rewrite Hat.
      unfold added_of. rewrite Hls1. cbn [added_files LevelState_empty].
      apply (fold_insert_in_order L (2 ^ 30) (level_files base l) []).
      apply Hord.
    - rewrite Hout by lia. unfold added_of.
      rewrite (lookup_ge_None_2 lsA l) by lia. reflexivity. }
  assert (HdelA : forall l n, n ∈ deleted_of lsA l -> False).
  { intros l n. unfold lsA. rewrite deleted_of_fold_added_iff. intros [Hx _].
    unfold deleted_of in Hx. rewrite Hls1 in Hx. simpl in Hx.
    apply elem_of_empty in Hx. exact Hx. }
  assert (HuB : forall l, updated_of (levels_ bB) l = ∅).
  { intros l. cbn [levels_ bB]. unfold lsB.
    rewrite updated_of_fold_added, updated_of_fold_deleted.
    unfold updated_of. rewrite Hls2. fold (updated_of lsA l). unfold lsA.
    rewrite updated_of_fold_added. unfold updated_of. rewrite Hls1. reflexivity. }
  rewrite SaveTo_new_level by exact HuB. cbn [levels_ base_ bB].
  assert (Hbase0 : level_files base0 level = []).
  { unfold base0, level_files, Version_new. cbn [files_].
    destruct (replicate _ _ !! level) as [x|] eqn:E; [|reflexivity].
    apply lookup_replicate in E as [-> _]. reflexivity. }
  destruct (decide (level < length lsB)%nat) as [Hlt|Hge].
  - rewrite Hbase0, merge_files_nil, filter_In.
    assert (HaddB : In g (added_of lsB level) <->
              In g (map (fun f => budgeted f) (level_files base level)) \/
              exists f0, In (level, f0) (VersionEdit.new_files_ edit) /\
                g = budgeted f0).
    { assert (Heq : added_of (fold_deleted (VersionEdit.deleted_files_ edit) ls2) level
                    = map (fun f => budgeted f) (level_files base level)).
      { rewrite added_of_fold_deleted. unfold added_of. rewrite Hls2.
        apply HaddA. }
      unfold lsB.
      rewrite (added_of_fold_added_iff L _ level g Hdist
                 (fold_deleted (VersionEdit.deleted_files_ edit) ls2)).
      - rewrite Heq. reflexivity.
      - rewrite fold_deleted_length. lia.
      - intros x f0 Hx Hf0. rewrite Heq in Hx.
        apply in_map_iff in Hx as (f & <- & Hf).
        cbn [number set_allowed_seeks]. exact (Hfresh level f0 f Hf0 Hf). }
    assert (HdelB : forall n, n ∈ deleted_of lsB level <-> deleted_by edit level n).
    { intros n. unfold lsB. rewrite deleted_of_fold_added_iff.
      rewrite deleted_of_fold_deleted_iff. unfold deleted_by. split.
      - intros [[Hn|[Hin _]] Hall]; [|auto].
        exfalso. apply (HdelA level n). unfold deleted_of in *.
        rewrite <- Hls2. exact Hn.
      - intros [Hin Hall]. split; [right; split; [exact Hin|lia]|exact Hall]. }
    unfold keep. rewrite negb_true_iff, bool_decide_eq_false.
    cbn [levels_ bB]. fold (deleted_of lsB level). rewrite HdelB, HaddB. split.
    + intros [[Hg|Hg] Hk]; [|right; exact Hg].
      apply in_map_iff in Hg as (f & <- & Hf). left. exists f.
      split; [exact Hf|]. split; [exact Hk|reflexivity].
    + intros [(f & Hf & Hnd & ->)|(f0 & Hf0 & ->)].
      * split; [left; apply in_map_iff; exists f; auto|exact Hnd].
      * split; [right; exists f0; auto|].
        intros [_ Hall]. apply (Hall f0 Hf0). reflexivity.
  - split; [intros []|]. intros [(f & Hf & _)|(f0 & Hf0 & _)].
    + rewrite Hout in Hf by lia. destruct Hf.
    + pose proof (Hnew2 level f0 Hf0). lia.
Qed.
End ReadBack.
(** A record that decodes and names no other comparator, read in a state
    without error. *)
Lemma Recover_read_record `{Comparator} (options : Options) (st : ReadState)
    (edit : VersionEdit.t) :
  rs_status st = OK ->
  (forall name, VersionEdit.comparator_ edit = Some name -> name = Name) ->
  Recover_read options st (ReadRecord OK edit)
  = {| rs_status := OK;
       rs_builder := (Apply options edit (rs_builder st, rs_compact_pointer st)).1;
       rs_compact_pointer :=
         (Apply options edit (rs_builder st, rs_compact_pointer st)).2;
       rs_log_number := latest (VersionEdit.log_number_ edit) (rs_log_number st);
       rs_prev_log_number :=
         latest (VersionEdit.prev_log_number_ edit) (rs_prev_log_number st);
       rs_next_file :=
         latest (VersionEdit.next_file_number_ edit) (rs_next_file st);
       rs_last_sequence :=
         latest (VersionEdit.last_sequence_ edit) (rs_last_sequence st) |}.
Proof.
  intros Hst Hcmp. unfold Recover_read. rewrite Hst. cbn [ok negb].
  destruct (VersionEdit.comparator_ edit) as [name|] eqn:Hc.
  - rewrite (Hcmp name eq_refl), String.eqb_refl. cbn [negb ok].
    destruct (Apply _ _ _). reflexivity.
  - cbn [ok]. destruct (Apply _ _ _). reflexivity.
Qed.

(** A descriptor of two records that decode: the snapshot, which names the
    comparator and no counter, and an edit with the counters. *)
Lemma Recover_candidate_two `{Comparator} (snapshot record : VersionEdit.t)
    (base : list (list FileMetaData)) (vs : VersionSet) (nf ls ln : Z) :
  VersionEdit.comparator_ snapshot = Some Name ->
  VersionEdit.log_number_ snapshot = None /\
  VersionEdit.prev_log_number_ snapshot = None /\
  VersionEdit.next_file_number_ snapshot = None /\
  VersionEdit.last_sequence_ snapshot = None ->
  (forall name, VersionEdit.comparator_ record = Some name -> name = Name) ->
  VersionEdit.next_file_number_ record = Some nf ->
  VersionEdit.last_sequence_ record = Some ls ->
  VersionEdit.log_number_ record = Some ln ->
  let cand := (Recover_candidate [ReadRecord OK snapshot; ReadRecord OK record]
                 base vs).1 in
  cand_status cand = OK /\
  cand_builder cand
  = (Apply (options_ vs) record
       (Apply (options_ vs) snapshot (Builder_new base, compact_pointer_ vs))).1 /\
  cand_next_file cand = nf /\ cand_last_seq cand = ls /\
  cand_log_number cand = ln /\
  cand_prev_log_number cand = default 0 (VersionEdit.prev_log_number_ record).
Proof.
  intros Hc (Hl & Hp & Hf & Hs) Hcr Hnf Hls Hln.
  unfold Recover_candidate. cbn [fold_left fst].
  rewrite (Recover_read_record (options_ vs) _ snapshot);
    [|reflexivity|intros name Hn; congruence].
  rewrite (Recover_read_record (options_ vs) _ record); [|reflexivity|exact Hcr].
  cbn [rs_builder rs_compact_pointer rs_log_number rs_prev_log_number
       rs_next_file rs_last_sequence].
  destruct (Apply (options_ vs) snapshot (Builder_new base, compact_pointer_ vs))
    as [b1 cp1]. cbn [fst snd].
  cbn [cand_status cand_builder cand_next_file cand_last_seq cand_log_number
       cand_prev_log_number Recover_check rs_status rs_builder rs_next_file
       rs_log_number rs_last_sequence rs_prev_log_number ok].
  rewrite Hl, Hp, Hf, Hs, Hnf, Hls, Hln. cbn [latest default].
  repeat split. destruct (VersionEdit.prev_log_number_ record); reflexivity.
Qed.

(** The edit with the defaults of [LogAndApply] filled in adds, deletes and
    updates what the edit does, and carries the four counters. *)
Lemma LogAndApply_fill_fields (edit : VersionEdit.t) (vs : VersionSet) :
  let e := LogAndApply_fill edit vs in
  VersionEdit.comparator_ e = VersionEdit.comparator_ edit /\
  VersionEdit.new_files_ e = VersionEdit.new_files_ edit /\
  VersionEdit.deleted_files_ e = VersionEdit.deleted_files_ edit /\
  VersionEdit.updated_files_ e = VersionEdit.updated_files_ edit /\
  VersionEdit.max_level_ e = VersionEdit.max_level_ edit /\
  VersionEdit.next_file_number_ e = Some (next_file_number_ vs) /\
  VersionEdit.last_sequence_ e = Some (last_sequence_ vs) /\
  VersionEdit.log_number_ e
  = Some (default (log_number_ vs) (VersionEdit.log_number_ edit)) /\
  VersionEdit.prev_log_number_ e
  = Some (default (prev_log_number_ vs) (VersionEdit.prev_log_number_ edit)).
Proof.
  unfold LogAndApply_fill. destruct edit as [? [n|] [m|] ? ? ? ? ? ? ? ?];
    repeat split.
Qed.

(** The writing part on a version set without a descriptor log, when every
    call of the environment succeeds: the new descriptor receives the
    snapshot and then the edit. *)
Lemma LogAndApply_write_fresh `{Comparator} edit io vs :
  descriptor_log_ vs = None ->
  io_NewWritableFile io = OK -> io_WriteSnapshot io = OK ->
  (rotating_manifest (options_ vs) = false -> io_SetCurrentFile io = OK) ->
  io_AddRecord io = OK -> io_Sync io = OK ->
  exists file log env',
    LogAndApply_write edit io vs
    = (OK, VersionEdit.SetNextFile (next_file_number_ vs) edit,
       DescriptorFileName (dbname_ vs) (manifest_file_number_ vs),
       set_descriptor file (Some log) env' vs) /\
    env_records env'
    = env_records (env_ vs)
      ++ [(DescriptorFileName (dbname_ vs) (manifest_file_number_ vs),
           SnapshotEdit vs);
          (DescriptorFileName (dbname_ vs) (manifest_file_number_ vs),
           VersionEdit.SetNextFile (next_file_number_ vs) edit)].
Proof.
  intros Hlog Hnew Hsnap Hset Hadd Hsync. unfold LogAndApply_write.
  rewrite Hlog, Hnew. cbn [ok]. rewrite Hsnap. cbn [ok].
  cbv beta iota zeta. rewrite Hadd. cbn [ok]. rewrite Hsync. cbn [ok andb].
  rewrite DescriptorFileName_nonempty. cbn [negb].
  cbn [options_ set_descriptor descriptor_file_ descriptor_log_ dbname_ env_
       manifest_file_number_ default].
  destruct (rotating_manifest (options_ vs)) eqn:Hrot; cbn [negb].
  - eexists _, _, _. split; [reflexivity|].
    cbn [env_records DeleteFile Env_append Env_create].
    rewrite <- app_assoc. reflexivity.
  - rewrite (Hset eq_refl). cbn [ok].
    eexists _, _, _. split; [reflexivity|].
    cbn [env_records DeleteFile Env_append Env_create].
    rewrite <- app_assoc. reflexivity.
Qed.
(** X24.  The descriptor that [LogAndApply] writes can be read back.  Without
    sublevels and without an open descriptor log, when the current version
    exists, its levels are in the order of the builder, every call of the
    environment succeeds, and the edit names levels up to its [max_level_],
    no other comparator, and new files whose numbers differ from each other
    and from those of the files of their level, [LogAndApply] returns OK and
    appends two records to the new descriptor: the snapshot and the edit as
    the call leaves it.  Read in this order by the loop of [Recover], as
    records that decode, into a builder over an empty version, they are
    accepted, give [next_file_number_], [last_sequence_], [log_number_] and
    [prev_log_number_] as [LogAndApply] left them, and the builder saves at
    every level the files of the version that [LogAndApply] installed, each
    with a fresh seek budget, and no other file. *)
Theorem LogAndApply_read_back `{Comparator} `{SublevelMode} (L : CmpLaws Compare)
    (edit : VersionEdit.t) (io : ManifestIO) (vs : VersionSet)
    (c : nat) (base : Version) :
  current_ vs = Some c -> heap_ vs !! c = Some base -> 1 <= refs_ base ->
  enable_sublevel (options_ vs) = false ->
  descriptor_log_ vs = None ->
  io_NewWritableFile io = OK -> io_WriteSnapshot io = OK ->
  (rotating_manifest (options_ vs) = false -> io_SetCurrentFile io = OK) ->
  io_AddRecord io = OK -> io_Sync io = OK ->
  (forall name, VersionEdit.comparator_ edit = Some name -> name = Name) ->
  edit_in_range edit ->
  pairwise distinct_numbers (VersionEdit.new_files_ edit) ->
  (forall level, builder_order (level_files (files_ base) level)) ->
  new_numbers_unused edit (files_ base) ->
  exists edit' vs' snapshot installed,
    LogAndApply edit io vs = Some (OK, edit', vs') /\
    env_records (env_ vs')
    = env_records (env_ vs)
      ++ [(DescriptorFileName (dbname_ vs) (manifest_file_number_ vs), snapshot);
          (DescriptorFileName (dbname_ vs) (manifest_file_number_ vs), edit')] /\
    current_version vs' = Some installed /\
    forall vsr, options_ vsr = options_ vs ->
      let cand := (Recover_candidate [ReadRecord OK snapshot; ReadRecord OK edit']
                     (files_ (Version_new (options_ vsr))) vsr).1 in
      cand_status cand = OK /\
      cand_next_file cand = next_file_number_ vs' /\
      cand_last_seq cand = last_sequence_ vs' /\
      cand_log_number cand = log_number_ vs' /\
      cand_prev_log_number cand = prev_log_number_ vs' /\
      forall level g,
        In g (level_files
                (files_ (SaveTo (cand_builder cand) (Version_new (options_ vsr))))
                level) <->
        exists f, In f (level_files (files_ installed) level) /\
          g = set_allowed_seeks (initial_allowed_seeks (file_size f)) f.
Proof.
  intros Hcur Hbase Hrefs Hsub Hlog Hnew Hsnap Hset Hadd Hsync Hcmp Hrange Hdist
    Hord Hfresh.
  pose proof (NewVersionFromEdit_build true (LogAndApply_fill edit vs) vs c base
                Hcur Hbase Hrefs Hsub) as Hbuild.
  cbv zeta in Hbuild.
  destruct (LogAndApply_fill_fields edit vs)
    as (Fc & Fn & Fd & Fu & Fm & Fnf & Fls & Fln & Fpl).
  cbv zeta in Fc, Fn, Fd, Fu, Fm, Fnf, Fls, Fln, Fpl.
  set (filled := LogAndApply_fill edit vs) in *.
  set (built := BuildVersion (options_ vs) (files_ base) (compact_pointer_ vs)
                  filled) in *.
  set (v := fresh (dom (heap_ vs))) in *.
  assert (Hv : heap_ vs !! v = None) by apply fresh_heap.
  assert (Hvc : v <> c) by congruence.
  set (ver := Finalize (options_ vs) built.1) in *.
  set (vs1 := set_heap (<[v := ver]> (heap_ vs))
                (dummy_versions_ vs) (set_compact_pointer built.2 vs)) in *.
  destruct (LogAndApply_write_fresh filled io vs1 Hlog Hnew Hsnap Hset Hadd Hsync)
    as (file & log & env' & Hwrite & Henv).
  set (record := VersionEdit.SetNextFile (next_file_number_ vs1) filled) in *.
  set (vs2 := set_descriptor file (Some log) env' vs1) in *.
  assert (Hcur2 : current_ vs2 = Some c) by exact Hcur.
  assert (Hv2 : heap_ vs2 !! v = Some ver).
  { unfold vs2, vs1. cbn [heap_ set_descriptor set_heap]. apply lookup_insert_eq. }
  assert (Hc1 : heap_ vs1 !! c = Some base).
  { unfold vs1. cbn [heap_ set_heap]. rewrite lookup_insert_ne by exact Hvc.
    exact Hbase. }
  assert (Hc2 : heap_ vs2 !! c = Some base) by exact Hc1.
  destruct (AppendVersion_install v c vs2 ver base Hcur2 Hvc Hv2 Hc2)
    as (Hc3 & Hh3 & _ & _ & _ & Hframe).
  destruct Hframe as (_ & _ & Hnf & _ & Hls & _ & _ & _ & _ & _ & Henv3).
  cbn [set_current next_file_number_ last_sequence_ env_] in Hnf, Hls, Henv3.
  exists record,
    (set_counters (next_file_number_ (AppendVersion v vs2))
       (manifest_file_number_ (AppendVersion v vs2))
       (last_sequence_ (AppendVersion v vs2))
       (default 0 (VersionEdit.log_number_ record))
       (default 0 (VersionEdit.prev_log_number_ record))
       (AppendVersion v vs2)),
    (SnapshotEdit vs1), (set_refs (refs_ ver + 1) ver).
  split.
  { unfold LogAndApply. fold filled. rewrite Hbuild. cbn [mbind option_bind].
    rewrite Hwrite. cbn [ok]. reflexivity. }
  split.
  { cbn [env_ set_counters]. rewrite Henv3. exact Henv. }
  split.
  { unfold current_version. cbn [current_ heap_ set_counters]. rewrite Hc3.
    cbn [mbind option_bind]. exact Hh3. }
  intros vsr Hopt.
  assert (Hcv1 : current_version vs1 = Some base).
  { unfold current_version. change (current_ vs1) with (current_ vs).
    rewrite Hcur. cbn [mbind option_bind]. exact Hc1. }
  destruct (SnapshotEdit_fields vs1 base Hcv1) as (Sc & Sh & Sd & Su & Sat & Smax).
  assert (Hcmp' : forall name,
            VersionEdit.comparator_ record = Some name -> name = Name).
  { intros name. change (VersionEdit.comparator_ record)
      with (VersionEdit.comparator_ filled). rewrite Fc. apply Hcmp. }
  assert (Hrange' : edit_in_range record).
  { unfold edit_in_range.
    change (VersionEdit.updated_files_ record) with (VersionEdit.updated_files_ filled).
    change (VersionEdit.new_files_ record) with (VersionEdit.new_files_ filled).
    change (VersionEdit.deleted_files_ record) with (VersionEdit.deleted_files_ filled).
    change (VersionEdit.max_level_ record) with (VersionEdit.max_level_ filled).
    rewrite Fu, Fn, Fd, Fm. exact Hrange. }
  assert (Hdist' : pairwise distinct_numbers (VersionEdit.new_files_ record)).
  { change (VersionEdit.new_files_ record) with (VersionEdit.new_files_ filled).
    rewrite Fn. exact Hdist. }
  assert (Hfresh' : new_numbers_unused record (files_ base)).
  { unfold new_numbers_unused.
    change (VersionEdit.new_files_ record) with (VersionEdit.new_files_ filled).
    rewrite Fn. exact Hfresh. }
  destruct (Recover_candidate_two (SnapshotEdit vs1) record
              (files_ (Version_new (options_ vsr))) vsr
              (next_file_number_ vs) (last_sequence_ vs)
              (default (log_number_ vs) (VersionEdit.log_number_ edit))
              Sc Sh Hcmp' eq_refl Fls Fln)
    as (Rs & Rb & Rnf & Rls & Rln & Rpl).
  cbv zeta. split; [exact Rs|].
  cbn [next_file_number_ last_sequence_ log_number_ prev_log_number_ set_counters].
  split; [rewrite Rnf, Hnf; reflexivity|].
  split; [rewrite Rls, Hls; reflexivity|].
  split.
  { rewrite Rln. change (VersionEdit.log_number_ record)
      with (VersionEdit.log_number_ filled). rewrite Fln. reflexivity. }
  split; [exact Rpl|].
  intros level g. rewrite Rb, Hopt.
  rewrite (replay_snapshot_then_edit L (options_ vs) (files_ base)
             (compact_pointer_ vsr) (SnapshotEdit vs1) record
             Hsub Sd Su Sat Smax Hrange' Hdist' Hord Hfresh').
  cbn [files_ set_refs]. unfold ver. rewrite Finalize_files.
  pose proof (BuildVersion_files_iff L (options_ vs) (files_ base)
                (compact_pointer_ vs) record Hsub Hrange' Hdist' level) as Hinst.
  split.
  - intros [(f & Hf & Hnd & ->)|(f0 & Hf0 & ->)].
    + exists f. split; [|reflexivity]. apply Hinst. left. auto.
    + exists (set_allowed_seeks (initial_allowed_seeks (file_size f0)) f0).
      split; [|destruct f0; reflexivity].
      apply Hinst. right. exists f0. auto.
  - intros (f & Hf & ->). apply Hinst in Hf as [[Hf Hnd]|(f0 & Hf0 & ->)].
    + left. exists f. auto.
    + right. exists f0. split; [exact Hf0|destruct f0; reflexivity].
Qed.

(** ** The plan of PickCompaction *)

Section Planning.
Context `{Comparator} (L : CmpLaws Compare).

Lemma begin_le_refl ub : begin_le ub ub.
Proof. destruct ub; simpl; [|exact I]. rewrite (cmp_refl (cmp:=Compare)). discriminate. Qed.

Lemma end_le_refl ue : end_le ue ue.
Proof. destruct ue; simpl; [|exact I]. rewrite (cmp_refl (cmp:=Compare)). discriminate. Qed.

(** [GetOverlappingInputs] returns at every level: the files of the level
    that meet a range which contains the range of the query. *)
Lemma GetOverlappingInputs_returns (files : list (list FileMetaData)) (level : nat)
    (begin_ end_ : option InternalKey) :
  exists result ub' ue',
    GetOverlappingInputs files level begin_ end_ = Some result /\
    result = List.filter (file_overlaps ub' ue') (level_files files level) /\
    begin_le ub' (user_key <$> begin_) /\ end_le (user_key <$> end_) ue'.
Proof.
  destruct level as [|level].
  - set (all := level_files files 0).
    set (ub0 := user_key <$> begin_). set (ue0 := user_key <$> end_).
    destruct (GetOverlappingInputs_loop_spec L all ub0 ue0
                (GetOverlappingInputs_fuel (length all)) [] all ub0 ue0 [])
      as (result & ub' & ue' & Hrun & Hres & _ & Hb & He & _); auto.
    + intros f [].
    + unfold GetOverlappingInputs_fuel.
      pose proof (range_measure_bound all ub0 ue0). nia.
    + apply begin_le_refl.
    + apply end_le_refl.
    + exists result, ub', ue'. auto.
  - exists (List.filter (file_overlaps (user_key <$> begin_) (user_key <$> end_))
              (level_files files (S level))),
      (user_key <$> begin_), (user_key <$> end_).
    split; [|split; [reflexivity|split; [apply begin_le_refl|apply end_le_refl]]].
    unfold GetOverlappingInputs.
    rewrite (GetOverlappingInputs_loop_sweep (S level)) by
      (unfold GetOverlappingInputs_fuel; nia).
    reflexivity.
Qed.

Lemma GetOverlappingInputs_of_level files level begin_ end_ result f :
  GetOverlappingInputs files level begin_ end_ = Some result ->
  In f result -> In f (level_files files level).
Proof.
  destruct (GetOverlappingInputs_returns files level begin_ end_)
    as (r & ub' & ue' & -> & -> & _). intros [= <-] Hf.
  apply filter_In in Hf as [Hf _]. exact Hf.
Qed.

(** A file of the level with [smallest <= largest] whose keys lie between
    the bounds of the query is returned. *)
Lemma GetOverlappingInputs_covered files level s l result f :
  GetOverlappingInputs files level (Some s) (Some l) = Some result ->
  In f (level_files files level) -> file_wf f ->
  icmp_Compare s (smallest f) <> Gt -> icmp_Compare (largest f) l <> Gt ->
  In f result.
Proof.
  destruct (GetOverlappingInputs_returns files level (Some s) (Some l))
    as (r & ub' & ue' & -> & -> & Hb & He).
  intros [= <-] Hf Hwf Hs Hl. apply filter_In. split; [exact Hf|].
  apply (file_overlaps_wider L (Some (user_key s)) (Some (user_key l)));
    [exact Hb|exact He|].
  apply icmp_user_key_le in Hwf, Hs, Hl.
  unfold file_overlaps, before_range, after_range.
  apply andb_true_iff. split; apply negb_true_iff.
  - apply is_lt_false. apply (cmp_not_lt_ge Compare).
    exact (cmp_le_trans _ _ _ Hs Hwf).
  - apply is_gt_false. exact (cmp_le_trans _ _ _ Hwf Hl).
Qed.

Lemma GetRange_least (inputs : list FileMetaData) :
  inputs <> [] -> covers inputs (GetRange inputs).1 (GetRange inputs).2.
Proof.
  intros Hne. unfold GetRange. pose proof (icmp_laws L) as LI.
  destruct inputs as [|f inputs]; [contradiction|].
  apply (GetRange_fold_covers L inputs [f]).
  split; [|split].
  - intros g [<-|[]]. rewrite !(cmp_refl (cmp:=icmp_Compare)). split; discriminate.
  - exists f. split; [left|]; reflexivity.
  - exists f. split; [left|]; reflexivity.
Qed.

(** [SetupOtherInputs] returns a plan of the same level.  Its first input
    vector holds files of the seed or of the level, and it keeps every file
    of the seed that is a file of the level with [smallest <= largest]. *)
Lemma SetupOtherInputs_plan (c : Compaction.t) (vs : VersionSet) (cur : Version) :
  current_version vs = Some cur ->
  (1 <= length (Compaction.inputs_ c))%nat ->
  exists c' vs',
    SetupOtherInputs c vs = Some (c', vs') /\
    Compaction.level_ c' = Compaction.level_ c /\
    (forall f, In f (level_files (Compaction.inputs_ c') 0) ->
       In f (level_files (Compaction.inputs_ c) 0) \/
       In f (level_files (files_ cur) (Compaction.level_ c))) /\
    (forall f, In f (level_files (Compaction.inputs_ c) 0) -> file_wf f ->
       In f (level_files (files_ cur) (Compaction.level_ c)) ->
       In f (level_files (Compaction.inputs_ c') 0)).
Proof.
  intros Hcur Hlen. unfold SetupOtherInputs. rewrite Hcur.
  cbn [default from_option]. unfold id.
  set (inputs0 := level_files (Compaction.inputs_ c) 0).
  set (level := Compaction.level_ c).
  destruct (GetRange inputs0) as [smallest0 largest0] eqn:HR.
  destruct (GetOverlappingInputs_returns (files_ cur) (S level)
              (Some smallest0) (Some largest0)) as (inputs1 & ? & ? & -> & _).
  cbn [mbind option_bind].
  destruct (GetRange2 inputs0 inputs1) as [all_start all_limit] eqn:HR2.
  match goal with
  | |- context [mbind _ ?m] =>
      assert (Hmid : exists r, m = Some r /\
                (r.1.1.1.1 = inputs0 \/
                 (inputs1 <> [] /\
                  GetOverlappingInputs (files_ cur) level
                    (Some all_start) (Some all_limit) = Some r.1.1.1.1)) /\
                exists s l, r.1.2 = s /\ r.2 = l)
  end.
  { destruct (bool_decide (inputs1 = [])) eqn:Hempty; cbn [negb].
    - eexists. split; [reflexivity|]. split; [left; reflexivity|eauto].
    - apply bool_decide_eq_false in Hempty.
      destruct (GetOverlappingInputs_returns (files_ cur) level
                  (Some all_start) (Some all_limit))
        as (expanded0 & ? & ? & Hexp & _).
      rewrite Hexp. cbn [mbind option_bind].
      destruct (_ && _).
      + destruct (GetRange expanded0) as [new_start new_limit].
        destruct (GetOverlappingInputs_returns (files_ cur) (S level)
                    (Some new_start) (Some new_limit))
          as (expanded1 & ? & ? & -> & _).
        cbn [mbind option_bind].
        destruct (_ =? _)%nat.
        * destruct (GetRange2 expanded0 expanded1).
          eexists. split; [reflexivity|]. split; [right; split; [exact Hempty|reflexivity]|eauto].
        * eexists. split; [reflexivity|]. split; [left; reflexivity|eauto].
      + eexists. split; [reflexivity|]. split; [left; reflexivity|eauto]. }
  destruct Hmid as ([[[[inputs0' inputs1'] largest'] all_start'] all_limit']
                    & -> & Hor & _).
  cbn [fst snd] in Hor. cbn [mbind option_bind].
  assert (Hgp : exists grandparents,
            (if (level + 2 <? length (files_ cur))%nat
             then GetOverlappingInputs (files_ cur) (level + 2)
                    (Some all_start') (Some all_limit')
             else Some (Compaction.grandparents_ c)) = Some grandparents).
  { destruct (_ <? _)%nat; [|eauto].
    destruct (GetOverlappingInputs_returns (files_ cur) (level + 2)
                (Some all_start') (Some all_limit')) as (gp & ? & ? & -> & _).
    eauto. }
  destruct Hgp as [grandparents ->]. cbn [mbind option_bind].
  eexists _, _. split; [reflexivity|].
  cbn [Compaction.level_ Compaction.inputs_ Compaction.set_grandparents
       Compaction.set_inputs].
  split; [reflexivity|].
  assert (Hin0 : level_files (<[1%nat:=inputs1']> (<[0%nat:=inputs0']>
                    (Compaction.inputs_ c))) 0 = inputs0').
  { unfold level_files. rewrite list_lookup_insert_ne by discriminate.
    rewrite list_lookup_insert_eq by lia. reflexivity. }
  rewrite Hin0. split.
  - intros f Hf. destruct Hor as [->|[_ Hexp]]; [left; exact Hf|].
    right. exact (GetOverlappingInputs_of_level _ _ _ _ _ _ Hexp Hf).
  - intros f Hf Hwf Hlevel. destruct Hor as [->|[Hne Hexp]]; [exact Hf|].
    assert (Hcov : covers (inputs0 ++ inputs1) all_start all_limit).
    { pose proof (GetRange_least (inputs0 ++ inputs1)) as Hc.
      unfold GetRange2 in HR2. rewrite HR2 in Hc. apply Hc.
      destruct inputs0; [exact Hne|discriminate]. }
    destruct Hcov as (Hall & _ & _).
    destruct (Hall f (in_or_app _ _ _ (or_introl Hf))) as [Hs Hl].
    exact (GetOverlappingInputs_covered _ _ _ _ _ _ Hexp Hlevel Hwf Hs Hl).
Qed.
End Planning.
Lemma current_version_Ref (a : nat) (vs : VersionSet) (cur : Version) :
  current_ vs = Some a -> heap_ vs !! a = Some cur ->
  current_version (Version_Ref a vs) = Some (set_refs (refs_ cur + 1) cur).
Proof.
  intros Ha Hcur. rewrite (Version_Ref_spec a vs cur Hcur).
  unfold current_version. cbn [current_ heap_ set_heap]. rewrite Ha.
  cbn [mbind option_bind]. apply lookup_insert_eq.
Qed.

(** Without sublevels [PickCompaction] makes a plan of every seed. *)
Lemma PickCompaction_of_seed `{Comparator} `{SublevelMode} (L : CmpLaws Compare)
    (allow_seek_compaction : bool) (vs : VersionSet) (cur : Version)
    (t : Trigger) (c0 : Compaction.t) (vs1 : VersionSet) (seed : FileMetaData) :
  current_version vs = Some cur ->
  enable_sublevel (options_ vs) = false ->
  PickCompaction_seed allow_seek_compaction vs = Some (Some (t, c0, vs1)) ->
  Compaction.inputs_ c0 = [[seed]; []] ->
  exists c vs',
    PickCompaction allow_seek_compaction vs = Some (Some (c, vs')) /\
    plan_of_seed cur (Compaction.level_ c0) seed c.
Proof.
  intros Hcur Hsub Hseed Hin.
  assert (Ha : exists a, current_ vs = Some a /\ heap_ vs !! a = Some cur).
  { unfold current_version in Hcur. destruct (current_ vs) as [a|]; [|discriminate].
    exists a. split; [reflexivity|exact Hcur]. }
  destruct Ha as (a & Ha & Hheap).
  destruct (PickCompaction_seed_frame _ _ _ _ _ _ Ha Hseed) as [_ ->].
  pose proof (current_version_Ref a vs cur Ha Hheap) as Hcur1.
  set (cur1 := set_refs (refs_ cur + 1) cur) in *.
  unfold PickCompaction. rewrite Hseed. cbn [mbind option_bind].
  rewrite Hsub. cbn [negb]. rewrite Hcur1. cbn [mbind option_bind].
  change (files_ cur1) with (files_ cur).
  destruct (Nat.eqb_spec (Compaction.level_ c0) 0) as [Hzero|Hpos].
  - rewrite Hin. change (level_files [[seed]; []] 0) with [seed].
    change (GetRange [seed]) with (smallest seed, largest seed). cbv beta iota.
    destruct (GetOverlappingInputs_returns L (files_ cur) 0
                (Some (smallest seed)) (Some (largest seed)))
      as (inputs0 & ? & ? & Hg0 & _).
    rewrite Hg0. cbn [mbind option_bind list_insert insert].
    set (c1 := Compaction.set_inputs _ c0).
    assert (Hin1 : Compaction.inputs_ c1 = [inputs0; []]) by reflexivity.
    destruct (SetupOtherInputs_plan L c1 (Version_Ref a vs) cur1 Hcur1)
      as (c & vs' & -> & Hlevel & Hsubset & Hkeep).
    { rewrite Hin1. simpl. lia. }
    cbn [fmap option_fmap option_map]. exists c, vs'. split; [reflexivity|].
    change (Compaction.level_ c1) with (Compaction.level_ c0) in *.
    change (files_ cur1) with (files_ cur) in *.
    rewrite Hin1 in Hsubset, Hkeep.
    change (level_files [inputs0; []] 0) with inputs0 in *.
    rewrite Hzero in *.
    split; [exact Hlevel|]. split.
    + intros f Hf. right. destruct (Hsubset f Hf) as [Hf0|Hf0]; [|exact Hf0].
      exact (GetOverlappingInputs_of_level L _ _ _ _ _ _ Hg0 Hf0).
    + intros Hwf Hfile. apply Hkeep; [|exact Hwf|exact Hfile].
      pose proof (icmp_laws L) as LI.
      apply (GetOverlappingInputs_covered L _ _ _ _ _ _ Hg0 Hfile Hwf);
        rewrite (cmp_refl (cmp:=icmp_Compare)); discriminate.
  - cbn [mbind option_bind].
    destruct (SetupOtherInputs_plan L c0 (Version_Ref a vs) cur1 Hcur1)
      as (c & vs' & -> & Hlevel & Hsubset & Hkeep).
    { rewrite Hin. simpl. lia. }
    cbn [fmap option_fmap option_map]. exists c, vs'. split; [reflexivity|].
    change (files_ cur1) with (files_ cur) in *.
    rewrite Hin in Hsubset, Hkeep.
    change (level_files [[seed]; []] 0) with [seed] in *.
    split; [exact Hlevel|]. split.
    + intros f Hf. destruct (Hsubset f Hf) as [[<-|[]]|Hf0]; auto.
    + intros Hwf Hfile. apply Hkeep; [left; reflexivity|exact Hwf|exact Hfile].
Qed.
(** C4.  [PickCompaction] proceeds in this order.  With a compaction score
    of at least 1 it returns the plan of a size-triggered compaction of the
    level [compaction_level_].  Without sublevels the plan is seeded with the
    first file of the level whose largest key is after
    [compact_pointer_[level]], or with the first file of the level when there
    is none, and [PickCompaction] returns a plan of that level whose first
    input vector holds files of the level, among them the seed when its
    smallest key is not after its largest; with sublevels the inputs are those
    that [SetupSublevelInputs] chooses.  Otherwise, when seek compactions are
    allowed and [file_to_compact_] is set, it returns the plan of a
    seek-triggered compaction of the level [file_to_compact_level_], seeded
    with that file.  Otherwise it returns [NULL]. *)
Theorem PickCompaction_priority `{Comparator} `{SublevelMode} (L : CmpLaws Compare)
    (allow_seek_compaction : bool) (vs : VersionSet) (cur : Version) :
  current_version vs = Some cur ->
  (double_ge (compaction_score_ cur) (double_of_Z 1) = true ->
   0 <= compaction_level_ cur ->
   (enable_sublevel (options_ vs) = false ->
    forall files pointer,
      files_ cur !! Z.to_nat (compaction_level_ cur) = Some files -> files <> [] ->
      compact_pointer_ vs !! Z.to_nat (compaction_level_ cur) = Some pointer ->
      exists seed c0 vs1 c vs',
        PickCompaction_seed allow_seek_compaction vs
        = Some (Some (SizeTriggered, c0, vs1)) /\
        Compaction.level_ c0 = Z.to_nat (compaction_level_ cur) /\
        Compaction.inputs_ c0 = [[seed]; []] /\
        is_seed pointer files seed /\
        PickCompaction allow_seek_compaction vs = Some (Some (c, vs')) /\
        plan_of_seed cur (Z.to_nat (compaction_level_ cur)) seed c /\
        (file_wf seed -> In seed (level_files (Compaction.inputs_ c) 0))) /\
   (enable_sublevel (options_ vs) = true ->
    forall inputs,
      SetupSublevelInputs cur (Z.to_nat (compaction_level_ cur))
        (Compaction.inputs_
           (Compaction_new (options_ vs) (Z.to_nat (compaction_level_ cur)) vs).1)
      = Some inputs ->
      exists c vs',
        PickCompaction_seed allow_seek_compaction vs
        = Some (Some (SizeTriggered, c, vs')) /\
        PickCompaction allow_seek_compaction vs = Some (Some (c, vs')) /\
        Compaction.level_ c = Z.to_nat (compaction_level_ cur) /\
        Compaction.inputs_ c = inputs)) /\
  (double_ge (compaction_score_ cur) (double_of_Z 1) = false ->
   allow_seek_compaction = true ->
   forall f, file_to_compact_ cur = Some f -> 0 <= file_to_compact_level_ cur ->
     exists c0 vs1 c vs',
       PickCompaction_seed allow_seek_compaction vs
       = Some (Some (SeekTriggered, c0, vs1)) /\
       Compaction.level_ c0 = Z.to_nat (file_to_compact_level_ cur) /\
       (Compaction.inputs_ c0 <> [] ->
        level_files (Compaction.inputs_ c0) 0 = [f]) /\
       PickCompaction allow_seek_compaction vs = Some (Some (c, vs')) /\
       (enable_sublevel (options_ vs) = true -> c = c0) /\
       (enable_sublevel (options_ vs) = false ->
        Compaction.inputs_ c0 = [[f]; []] /\
        plan_of_seed cur (Z.to_nat (file_to_compact_level_ cur)) f c)) /\
  (double_ge (compaction_score_ cur) (double_of_Z 1) = false ->
   allow_seek_compaction = false \/ file_to_compact_ cur = None ->
   PickCompaction_seed allow_seek_compaction vs = Some None /\
   PickCompaction allow_seek_compaction vs = Some None).
Proof.
  intros Hcur.
  assert (Hnew : forall level,
            Compaction.level_ (Compaction_new (options_ vs) level vs).1 = level /\
            (enable_sublevel (options_ vs) = false ->
             Compaction.inputs_ (Compaction_new (options_ vs) level vs).1
             = [[]; []])).
  { intros level. unfold Compaction_new.
    cbn [fst Compaction.inputs_ Compaction.level_].
    split; [reflexivity|]. intros ->. reflexivity. }
  split; [|split].
  - intros Hscore Hlevel.
    assert (Hseed : PickCompaction_seed allow_seek_compaction vs
      = (let level := Z.to_nat (compaction_level_ cur) in
         let '(c, vs1) := Compaction_new (options_ vs) level vs in
         if enable_sublevel (options_ vs) then
           inputs ← SetupSublevelInputs cur level (Compaction.inputs_ c);
           Some (Some (SizeTriggered, Compaction.set_inputs inputs c, vs1))
         else
           files ← files_ cur !! level;
           pointer ← compact_pointer_ vs !! level;
           seed ← match first_after pointer files with
                   | Some f => Some f
                   | None => files !! 0%nat
                   end;
           Some (Some (SizeTriggered,
                       Compaction.set_inputs
                         (alter (fun inputs => inputs ++ [seed]) 0%nat
                            (Compaction.inputs_ c)) c, vs1)))).
    { unfold PickCompaction_seed. rewrite Hcur. cbn [mbind option_bind].
      rewrite Hscore.
      destruct (Z.ltb_spec (compaction_level_ cur) 0) as [|_]; [lia|].
      reflexivity. }
    cbv zeta in Hseed.
    destruct (Hnew (Z.to_nat (compaction_level_ cur))) as [Hlv Hin].
    destruct (Compaction_new (options_ vs) (Z.to_nat (compaction_level_ cur)) vs)
      as [c0 vs1]. cbn [fst] in Hlv, Hin. split.
    + intros Hsub files pointer Hfiles Hne Hptr.
      rewrite Hsub, Hfiles, Hptr in Hseed. cbn [mbind option_bind] in Hseed.
      rewrite (Hin Hsub) in Hseed.
      assert (Hfirst : exists seed,
                match first_after pointer files with
                | Some f => Some f
                | None => files !! 0%nat
                end = Some seed /\ is_seed pointer files seed).
      { pose proof (first_after_spec pointer files) as Hfirst.
        destruct (first_after pointer files) as [seed|].
        - exists seed. split; [reflexivity|]. left. exact Hfirst.
        - destruct files as [|seed files]; [congruence|]. exists seed.
          split; [reflexivity|]. right. split; [exact Hfirst|reflexivity]. }
      destruct Hfirst as (seed & Hpick & Hseedof).
      rewrite Hpick in Hseed. cbn [mbind option_bind alter list_alter app] in Hseed.
      destruct (PickCompaction_of_seed L allow_seek_compaction vs cur _ _ _ seed
                  Hcur Hsub Hseed eq_refl) as (c & vs' & Hpc & Hplan).
      cbn [Compaction.level_ Compaction.set_inputs] in Hplan.
      rewrite Hlv in Hplan.
      exists seed, (Compaction.set_inputs [[seed]; []] c0), vs1, c, vs'.
      split; [exact Hseed|]. split; [exact Hlv|]. split; [reflexivity|].
      split; [exact Hseedof|]. split; [exact Hpc|]. split; [exact Hplan|].
      intros Hwf. destruct Hplan as (_ & _ & Hkeep). apply Hkeep; [exact Hwf|].
      unfold level_files. rewrite Hfiles. cbn [default from_option]. unfold id.
      destruct Hseedof as [(i & Hi & _)|[_ Hi]];
        apply list_elem_of_In; eapply list_elem_of_lookup_2; exact Hi.
    + intros Hsub inputs Hsetup. cbn [fst] in Hsetup.
      rewrite Hsub, Hsetup in Hseed. cbn [mbind option_bind] in Hseed.
      exists (Compaction.set_inputs inputs c0), vs1.
      split; [exact Hseed|]. split.
      * unfold PickCompaction. rewrite Hseed. cbn [mbind option_bind].
        rewrite Hsub. reflexivity.
      * split; [exact Hlv|reflexivity].
  - intros Hscore -> f Hf Hlevel.
    assert (Hseed : PickCompaction_seed true vs
      = (let level := Z.to_nat (file_to_compact_level_ cur) in
         let '(c, vs1) := Compaction_new (options_ vs) level vs in
         Some (Some (SeekTriggered,
                     Compaction.set_inputs
                       (alter (fun inputs => inputs ++ [f]) 0%nat
                          (Compaction.inputs_ c)) c, vs1)))).
    { unfold PickCompaction_seed. rewrite Hcur. cbn [mbind option_bind].
      rewrite Hscore, Hf. rewrite bool_decide_eq_true_2 by discriminate.
      cbn [andb mbind option_bind].
      destruct (Z.ltb_spec (file_to_compact_level_ cur) 0) as [|_]; [lia|].
      reflexivity. }
    cbv zeta in Hseed.
    destruct (Hnew (Z.to_nat (file_to_compact_level_ cur))) as [Hlv Hin].
    assert (Hnil : forall x,
              Compaction.inputs_
                (Compaction_new (options_ vs)
                   (Z.to_nat (file_to_compact_level_ cur)) vs).1 !! 0%nat
              = Some x -> x = []).
    { unfold Compaction_new. cbn [fst Compaction.inputs_]. intros x Hx.
      apply lookup_replicate in Hx as [-> _]. reflexivity. }
    destruct (Compaction_new (options_ vs) (Z.to_nat (file_to_compact_level_ cur)) vs)
      as [c0 vs1]. cbn [fst] in Hlv, Hin, Hnil.
    set (c1 := Compaction.set_inputs
                 (alter (fun inputs => inputs ++ [f]) 0%nat (Compaction.inputs_ c0))
                 c0) in *.
    assert (Hfirst : Compaction.inputs_ c1 <> [] ->
                     level_files (Compaction.inputs_ c1) 0 = [f]).
    { cbn [c1 Compaction.inputs_ Compaction.set_inputs]. unfold level_files.
      destruct (Compaction.inputs_ c0) as [|x rest] eqn:E; [intros Hc; contradiction|].
      intros _. cbn. rewrite (Hnil x eq_refl). reflexivity. }
    destruct (enable_sublevel (options_ vs)) eqn:Hsub.
    + exists c1, vs1, c1, vs1. split; [exact Hseed|]. split; [exact Hlv|].
      split; [exact Hfirst|]. split.
      * unfold PickCompaction. rewrite Hseed. cbn [mbind option_bind].
        rewrite Hsub. reflexivity.
      * split; [reflexivity|discriminate].
    + assert (Hin1 : Compaction.inputs_ c1 = [[f]; []]).
      { cbn [c1 Compaction.inputs_ Compaction.set_inputs].
        rewrite (Hin eq_refl). reflexivity. }
      destruct (PickCompaction_of_seed L true vs cur _ _ _ f Hcur Hsub Hseed Hin1)
        as (c & vs' & Hpc & Hplan).
      change (Compaction.level_ c1) with (Compaction.level_ c0) in Hplan.
      rewrite Hlv in Hplan.
      exists c1, vs1, c, vs'. split; [exact Hseed|]. split; [exact Hlv|].
      split; [exact Hfirst|]. split; [exact Hpc|].
      split; [discriminate|]. intros _. split; [exact Hin1|exact Hplan].
  - intros Hscore Hno.
    assert (Hnone : PickCompaction_seed allow_seek_compaction vs = Some None).
    { unfold PickCompaction_seed. rewrite Hcur. cbn [mbind option_bind].
      rewrite Hscore.
      destruct Hno as [->|Hf]; [reflexivity|].
      rewrite Hf. rewrite bool_decide_eq_false_2 by tauto.
      rewrite andb_false_r. reflexivity. }
    split; [exact Hnone|]. unfold PickCompaction. rewrite Hnone. reflexivity.
Qed.

(** ** The counters of a descriptor whose records decode *)

(** Once the status is an error the reading loop is left. *)
Lemma Recover_read_stops `{Comparator} options items st :
  rs_status st <> OK -> fold_left (Recover_read options) items st = st.
Proof.
  intros Hst. induction items as [|item items IH]; [reflexivity|].
  cbn [fold_left].
  assert (Hitem : Recover_read options st item = st).
  { unfold Recover_read. rewrite (ok_false _ Hst). reflexivity. }
  rewrite Hitem. exact IH.
Qed.

(** A record that names another comparator ends the loop with
    [InvalidArgument]. *)
Lemma Recover_read_mismatch `{Comparator} options items :
  List.Forall decodes items -> ~ List.Forall decodes_ok items ->
  forall st, rs_status st = OK ->
    exists msg,
      rs_status (fold_left (Recover_read options) items st) = InvalidArgument msg.
Proof.
  induction items as [|item items IH]; intros Hd Hn st Hst.
  - exfalso. apply Hn. constructor.
  - inversion Hd as [|? ? Hitem Hrest]; subst. cbn [fold_left].
    destruct item as [decoded edit|reported]; [|destruct Hitem].
    destruct decoded; try destruct Hitem.
    assert (Hgood : decodes_ok (ReadRecord OK edit) ->
              exists msg,
                rs_status (fold_left (Recover_read options) items
                             (Recover_read options st (ReadRecord OK edit)))
                = InvalidArgument msg).
    { intros Hok. apply IH; [exact Hrest| |].
      - intros Hall. apply Hn. constructor; [exact Hok|exact Hall].
      - rewrite (Recover_read_record options st edit Hst); [reflexivity|].
        intros name Hname. simpl in Hok. rewrite Hname in Hok. exact Hok. }
    destruct (VersionEdit.comparator_ edit) as [name|] eqn:Hc.
    + destruct (String.eqb_spec name Name) as [->|Hne].
      * apply Hgood. simpl. rewrite Hc. reflexivity.
      * assert (Hbad : exists msg,
                  rs_status (Recover_read options st (ReadRecord OK edit))
                  = InvalidArgument msg).
        { unfold Recover_read. rewrite Hst. cbn [ok negb]. rewrite Hc.
          apply String.eqb_neq in Hne. rewrite Hne. cbn [negb ok rs_status].
          eexists. reflexivity. }
        destruct Hbad as [msg Hbad]. exists msg.
        rewrite Recover_read_stops by (rewrite Hbad; discriminate). exact Hbad.
    + apply Hgood. simpl. rewrite Hc. exact I.
Qed.

(** A counter that the loop holds was supplied by a record. *)
Lemma Recover_read_prev `{Comparator} options items :
  forall st,
    rs_prev_log_number (fold_left (Recover_read options) items st) <> None ->
    rs_prev_log_number st <> None \/ supplied VersionEdit.prev_log_number_ items.
Proof.
  induction items as [|item items IH]; intros st; cbn [fold_left]; [auto|].
  intros Hp. apply IH in Hp as [Hp|(d & e & Hin & Hf)].
  - unfold Recover_read in Hp. destruct (negb (ok (rs_status st))); [auto|].
    destruct item as [decoded edit|reported]; [|auto].
    match type of Hp with
    | context [let '(_, _) := ?x in _] => destruct x
    end.
    cbn [rs_prev_log_number] in Hp. apply latest_not_None in Hp as [Hp|Hp]; [auto|].
    right. exists decoded, edit. split; [left; reflexivity|exact Hp].
  - right. exists d, e. split; [right; exact Hin|exact Hf].
Qed.

(** C3 (amended).  A descriptor whose records all decode and name no other
    comparator is accepted exactly when its edits supply [next_file_number],
    [log_number] and [last_sequence]; otherwise it is rejected with a
    [Corruption] status.  A descriptor whose records all decode, one of which
    names another comparator, is rejected with [InvalidArgument].  A rejected
    candidate is neither kept nor selected.  [prev_log_number] is not
    required: a descriptor that does not supply it is read as 0. *)
Theorem Recover_candidate_counters `{Comparator} (items : list ReadItem)
    (base : list (list FileMetaData)) (vs : VersionSet) :
  List.Forall decodes items ->
  (List.Forall decodes_ok items ->
   (cand_status (Recover_candidate items base vs).1 = OK <->
    supplied VersionEdit.next_file_number_ items /\
    supplied VersionEdit.log_number_ items /\
    supplied VersionEdit.last_sequence_ items) /\
   (cand_status (Recover_candidate items base vs).1 <> OK ->
    exists msg, cand_status (Recover_candidate items base vs).1 = Corruption msg)) /\
  (~ List.Forall decodes_ok items ->
   exists msg,
     cand_status (Recover_candidate items base vs).1 = InvalidArgument msg) /\
  (~ supplied VersionEdit.prev_log_number_ items ->
   cand_prev_log_number (Recover_candidate items base vs).1 = 0) /\
  (forall io cur vs0 status sel kept i name,
     io_Records io name = items -> vs = Version_Ref cur vs0 ->
     cand_status (Recover_candidate items base vs).1 <> OK ->
     (Recover_step io cur base (vs0, status, sel, kept) (i, name)).1.2 = sel /\
     (Recover_step io cur base (vs0, status, sel, kept) (i, name)).2 = kept).
Proof.
  intros Hdec.
  unfold Recover_candidate. cbn [fst cand_status cand_prev_log_number].
  set (st0 := {| rs_status := OK; rs_builder := Builder_new base;
                 rs_compact_pointer := compact_pointer_ vs;
                 rs_log_number := None; rs_prev_log_number := None;
                 rs_next_file := None; rs_last_sequence := None |}).
  set (st := fold_left (Recover_read (options_ vs)) items st0).
  split; [|split; [|split]].
  - intros Hitems.
    pose proof (Recover_read_decoded (options_ vs) items Hitems st0 eq_refl)
      as (Hs & Hn & Hl & Hq & _).
    cbv zeta in Hs, Hn, Hl, Hq. fold st in Hs, Hn, Hl, Hq.
    cbn [rs_next_file rs_log_number rs_last_sequence st0] in Hn, Hl, Hq.
    assert (Hcheck :
              (Recover_check st = OK <->
               rs_next_file st <> None /\ rs_log_number st <> None /\
               rs_last_sequence st <> None) /\
              (Recover_check st <> OK ->
               exists msg, Recover_check st = Corruption msg)).
    { unfold Recover_check. rewrite Hs. cbn [ok].
      destruct (rs_next_file st), (rs_log_number st), (rs_last_sequence st);
        (split; [split; [try discriminate; intros _; repeat split; discriminate|
                         intros (? & ? & ?); try congruence]
                |intros Hne; try congruence; eexists; reflexivity]). }
    destruct Hcheck as [Hok Hbad].
    assert (Hdrop : forall (A S : Prop), (A <-> (@None Z) <> None \/ S) -> (A <-> S)).
    { intros A S HA. split; [intros HA'; apply HA in HA' as [X|X]; [congruence|exact X]|].
      intros HS. apply HA. right. exact HS. }
    apply Hdrop in Hn, Hl, Hq.
    split; [|exact Hbad]. split.
    + intros Hc. apply Hok in Hc as (H1 & H2 & H3).
      split; [apply Hn; exact H1|]. split; [apply Hl; exact H2|apply Hq; exact H3].
    + intros (H1 & H2 & H3). apply Hok.
      split; [apply Hn; exact H1|]. split; [apply Hl; exact H2|apply Hq; exact H3].
  - intros Hbad.
    destruct (Recover_read_mismatch (options_ vs) items Hdec Hbad st0 eq_refl)
      as [msg Hmsg].
    fold st in Hmsg. exists msg. unfold Recover_check. rewrite Hmsg. reflexivity.
  - intros Hno. destruct (rs_prev_log_number st) eqn:E; [|reflexivity].
    exfalso. apply Hno.
    destruct (Recover_read_prev (options_ vs) items st0) as [Hp|Hp];
      [fold st; rewrite E; discriminate|cbn in Hp; congruence|exact Hp].
  - intros io cur vs0 status sel kept i name Hrec -> Hne.
    unfold Recover_step. destruct (String.eqb name ""); [split; reflexivity|].
    destruct (ok (io_NewSequentialFile io name)); [|split; reflexivity].
    rewrite Hrec. unfold Recover_candidate.
    cbn [cand_status]. fold st0. fold st.
    destruct (ok (Recover_check st)) eqn:E; [|split; reflexivity].
    exfalso. apply Hne. destruct (Recover_check st); simpl in E; congruence.
Qed.

(** * Runs on the sample database *)

#[local] Existing Instance BytewiseComparator.
#[local] Existing Instance no_sublevels.

(** C3, counterexample.  The sample descriptor decodes and supplies no
    [prev_log_number]; it is accepted all the same: [Recover] returns [OK],
    installs its files and sets [prev_log_number_] to 0. *)
Lemma Recover_counters_counterexample :
  List.Forall (@decodes_ok BytewiseComparator) sample_descriptor /\
  ~ supplied VersionEdit.prev_log_number_ sample_descriptor /\
  cand_status (@Recover_candidate BytewiseComparator sample_descriptor
                 (files_ (Version_new sample_options)) sample_vs).1 = OK /\
  @Recover BytewiseComparator sample_recover_io sample_vs
  = Some (OK, sample_recovered) /\
  current_version sample_recovered = Some sample_base /\
  number <$> level_files (files_ sample_base) 1 = [7] /\
  log_number_ sample_recovered = 9 /\ prev_log_number_ sample_recovered = 0.
Proof.
  split; [repeat constructor|]. split.
  - intros (decoded & edit & [Heq|[]] & Hfield). injection Heq as _ <-.
    apply Hfield. reflexivity.
  - repeat match goal with
           | |- _ /\ _ => split; [vm_compute; reflexivity|]
           end.
    vm_compute. reflexivity.
Qed.

(** C3, on the sample descriptor, which is accepted. *)
Lemma Recover_candidate_counters_witness :
  cand_status (@Recover_candidate BytewiseComparator sample_descriptor
                 (files_ (Version_new sample_options)) sample_vs).1 = OK /\
  (List.Forall (@decodes_ok BytewiseComparator) sample_descriptor ->
   (cand_status (@Recover_candidate BytewiseComparator sample_descriptor
                   (files_ (Version_new sample_options)) sample_vs).1 = OK <->
    supplied VersionEdit.next_file_number_ sample_descriptor /\
    supplied VersionEdit.log_number_ sample_descriptor /\
    supplied VersionEdit.last_sequence_ sample_descriptor) /\
   (cand_status (@Recover_candidate BytewiseComparator sample_descriptor
                   (files_ (Version_new sample_options)) sample_vs).1 <> OK ->
    exists msg,
      cand_status (@Recover_candidate BytewiseComparator sample_descriptor
                     (files_ (Version_new sample_options)) sample_vs).1
      = Corruption msg)) /\
  (~ List.Forall (@decodes_ok BytewiseComparator) sample_descriptor ->
   exists msg,
     cand_status (@Recover_candidate BytewiseComparator sample_descriptor
                    (files_ (Version_new sample_options)) sample_vs).1
     = InvalidArgument msg) /\
  (~ supplied VersionEdit.prev_log_number_ sample_descriptor ->
   cand_prev_log_number
     (@Recover_candidate BytewiseComparator sample_descriptor
        (files_ (Version_new sample_options)) sample_vs).1 = 0) /\
  (forall io cur vs0 status sel kept i name,
     io_Records io name = sample_descriptor -> sample_vs = Version_Ref cur vs0 ->
     cand_status (@Recover_candidate BytewiseComparator sample_descriptor
                    (files_ (Version_new sample_options)) sample_vs).1 <> OK ->
     (@Recover_step BytewiseComparator io cur
        (files_ (Version_new sample_options)) (vs0, status, sel, kept)
        (i, name)).1.2 = sel /\
     (@Recover_step BytewiseComparator io cur
        (files_ (Version_new sample_options)) (vs0, status, sel, kept)
        (i, name)).2 = kept).
Proof.
  split; [vm_compute; reflexivity|].
  apply (@Recover_candidate_counters BytewiseComparator sample_descriptor
           (files_ (Version_new sample_options)) sample_vs).
  repeat constructor.
Defined.

(** C6, counterexample.  The manual compaction of level 1 of the sample
    database moves table 7 although its grandparent, table 8, has 1000 bytes
    and the limit is 50. *)
Lemma IsTrivialMove_counterexample :
  @CompactRange BytewiseComparator 1 None None sample_recovered
  = Some (Some (sample_compaction, sample_planned)) /\
  enable_sublevel (Compaction.options_ sample_compaction) = false /\
  TotalFileSize (Compaction.grandparents_ sample_compaction) = 1000 /\
  Compaction.max_grand_parent_overlap_bytes_ sample_compaction = 50 /\
  Compaction.IsTrivialMove sample_compaction = true /\
  ~ (Compaction.IsTrivialMove sample_compaction = true <->
     Compaction.num_input_files sample_compaction 0 = 1 /\
     Compaction.num_input_files sample_compaction 1 = 0 /\
     TotalFileSize (Compaction.grandparents_ sample_compaction)
     <= Compaction.max_grand_parent_overlap_bytes_ sample_compaction).
Proof.
  repeat match goal with
         | |- (_ = _) /\ _ => split; [vm_compute; reflexivity|]
         end.
  intros [Hmove _]. destruct Hmove as (_ & _ & Hle); [vm_compute; reflexivity|].
  vm_compute in Hle. apply Hle. reflexivity.
Qed.

(** C6, on the plan of the sample database. *)
Lemma IsTrivialMove_iff_witness :
  Compaction.IsTrivialMove sample_compaction = true <->
  Compaction.num_input_files sample_compaction 0 = 1 /\
  Compaction.num_input_files sample_compaction 1 = 0 /\
  (enable_should_stop_before (Compaction.options_ sample_compaction) = false \/
   TotalFileSize (Compaction.grandparents_ sample_compaction)
   <= Compaction.max_grand_parent_overlap_bytes_ sample_compaction).
Proof.
  apply (@IsTrivialMove_iff BytewiseComparator sample_compaction).
  vm_compute. reflexivity.
Defined.

(** C7, counterexample.  The second sample database has tables of 3, 4 and
    4 bytes at level 1, and the cap is 5.  The manual compaction of level 1
    keeps the first two tables: 7 input bytes at level 1. *)
Lemma CompactRange_cap_counterexample :
  @CompactRange BytewiseComparator 1 None None sample_wide
  = Some (Some (sample_wide_compaction, sample_wide_planned)) /\
  file_size <$> level_files (files_ (default (Version_new sample_options)
                                       (current_version sample_wide))) 1
  = [3; 4; 4] /\
  MaxFileSizeForLevel (options_ sample_wide) 1 = 5 /\
  file_size <$> level_files (Compaction.inputs_ sample_wide_compaction) 0
  = [3; 4] /\
  TotalFileSize (level_files (Compaction.inputs_ sample_wide_compaction) 0) = 7 /\
  ~ (TotalFileSize (level_files (Compaction.inputs_ sample_wide_compaction) 0)
     <= MaxFileSizeForLevel (options_ sample_wide) 1).
Proof.
  repeat match goal with
         | |- (_ = _) /\ _ => split; [vm_compute; reflexivity|]
         end.
  intros Hle. vm_compute in Hle. apply Hle. reflexivity.
Qed.

(** C7, on the second sample database. *)
Lemma CompactRange_seed_cap_witness :
  exists cur all seed rest,
    current_version sample_wide = Some cur /\
    @GetOverlappingInputs BytewiseComparator (files_ cur) 1 None None = Some all /\
    @CompactRange_inputs BytewiseComparator 1 None None sample_wide
    = Some seed /\
    all = seed ++ rest /\ seed <> [] /\
    (level_files (Compaction.inputs_ sample_wide_compaction) 0 = seed \/
     (length seed
      < length (level_files (Compaction.inputs_ sample_wide_compaction) 0))%nat) /\
    (0 < MaxFileSizeForLevel (options_ sample_wide) 1 ->
     List.Forall (fun f => 0 <= file_size f) all ->
     total_bytes all < 2 ^ 64 ->
     total_bytes (removelast seed) < MaxFileSizeForLevel (options_ sample_wide) 1 /\
     (rest = [] \/ MaxFileSizeForLevel (options_ sample_wide) 1 <= total_bytes seed)).
Proof.
  apply (@CompactRange_seed_cap BytewiseComparator 1 None None sample_wide
           sample_wide_planned sample_wide_compaction).
  - lia.
  - vm_compute. reflexivity.
Defined.

(** C8.  The seek budget of a table of 2^45 bytes.  One seek for every
    16 KiB, and at least 100, is [max 100 (2^45 / 16384) = 2^31] seeks;
    [Apply] gives the table 100: the quotient does not fit the 32-bit
    [allowed_seeks], wraps to [-2^31] and is then raised to 100.  A table of
    16384 bytes gets 100 seeks. *)
Theorem Apply_allowed_seeks_overflow :
  added_of (levels_ (@Apply BytewiseComparator sample_options (sample_add (2 ^ 45))
                       (sample_builder, [])).1) 1
  = [set_allowed_seeks 100 (sample_file 7 (2 ^ 45) "a" "c")] /\
  Z.max 100 (2 ^ 45 / 16384) = 2 ^ 31 /\
  int32 (2 ^ 45 / 16384) = - 2 ^ 31 /\
  allowed_seeks (set_allowed_seeks 100 (sample_file 7 (2 ^ 45) "a" "c"))
  <> Z.max 100 (file_size (sample_file 7 (2 ^ 45) "a" "c") / 16384) /\
  added_of (levels_ (@Apply BytewiseComparator sample_options (sample_add 16384)
                       (sample_builder, [])).1) 1
  = [set_allowed_seeks 100 (sample_file 7 16384 "a" "c")].
Proof.
  repeat match goal with
         | |- (_ = _) /\ _ => split; [vm_compute; reflexivity|]
         end.
  split; [vm_compute; discriminate|vm_compute; reflexivity].
Qed.

(** C9, on a level of three tables. *)
Lemma FindFile_smallest_index_witness :
  exists i : nat,
    @FindFile BytewiseComparator sample_level (sample_key "d" 9)
    = Some (Z.of_nat i) /\ (i <= length sample_level)%nat /\
    (forall j f, sample_level !! j = Some f -> (j < i)%nat ->
       @icmp_Compare BytewiseComparator (largest f) (sample_key "d" 9) = Lt) /\
    (forall j f, sample_level !! j = Some f -> (i <= j)%nat ->
       @icmp_Compare BytewiseComparator (largest f) (sample_key "d" 9) <> Lt).
Proof.
  apply (@FindFile_smallest_index BytewiseComparator BytewiseComparator_laws
           sample_level (sample_key "d" 9)).
  - vm_compute. reflexivity.
  - unfold sample_level.
    intros [|[|[|i]]] [|[|[|j]]] fi fj Hij Hi Hj; simpl in Hi, Hj;
      try lia; try discriminate;
      injection Hi as <-; injection Hj as <-; vm_compute; discriminate.
Defined.

(** C5, on a level 0 of four tables. *)
Lemma GetOverlappingInputs_level0_closure_witness :
  exists result ub' ue',
    @GetOverlappingInputs BytewiseComparator sample_level0 0
      (Some (sample_key "a" 9)) (Some (sample_key "a" 1)) = Some result /\
    result = List.filter (@file_overlaps BytewiseComparator ub' ue')
               (level_files sample_level0 0) /\
    @closed_range BytewiseComparator (level_files sample_level0 0) ub' ue' /\
    @begin_le BytewiseComparator ub' (user_key <$> Some (sample_key "a" 9)) /\
    @end_le BytewiseComparator (user_key <$> Some (sample_key "a" 1)) ue' /\
    (forall ub2 ue2,
       @begin_le BytewiseComparator ub2 (user_key <$> Some (sample_key "a" 9)) ->
       @end_le BytewiseComparator (user_key <$> Some (sample_key "a" 1)) ue2 ->
       @closed_range BytewiseComparator (level_files sample_level0 0) ub2 ue2 ->
       @begin_le BytewiseComparator ub2 ub' /\
       @end_le BytewiseComparator ue' ue2) /\
    (forall f g, In f result -> In g (level_files sample_level0 0) ->
       @Compare BytewiseComparator (user_key (smallest g)) (user_key (largest f))
       <> Gt ->
       @Compare BytewiseComparator (user_key (smallest f)) (user_key (largest g))
       <> Gt ->
       In g result).
Proof.
  apply (@GetOverlappingInputs_level0_closure BytewiseComparator
           BytewiseComparator_laws sample_level0
           (Some (sample_key "a" 9)) (Some (sample_key "a" 1))).
Defined.

(** C10, on the sample database after recovery and a flush. *)
Lemma current_version_referenced_witness :
  current_referenced sample_flushed /\
  forall (vs0 : VersionSet) (v : nat) (ver : Version),
    heap_ vs0 !! v = Some ver -> refs_ ver = 0 -> current_ vs0 <> Some v ->
    current_ (AppendVersion v vs0) = Some v /\
    exists ver', heap_ (AppendVersion v vs0) !! v = Some ver' /\
      refs_ ver' = 1 /\ files_ ver' = files_ ver.
Proof.
  apply (@current_version_referenced BytewiseComparator no_sublevels
           sample_flushed).
  apply (@reachable_LogAndApply BytewiseComparator no_sublevels sample_recovered
           sample_flush sample_working_io OK
           (LogAndApply_fill sample_flush sample_recovered) sample_flushed).
  - apply (@reachable_Recover BytewiseComparator no_sublevels sample_vs
             sample_recover_io OK sample_recovered).
    + exact (reachable_new "db" sample_options sample_env).
    + vm_compute. reflexivity.
  - vm_compute. reflexivity.
Defined.

(** C1, on the sample database: the flush fails at the append. *)
Lemma LogAndApply_write_failure_witness :
  (enable_sublevel (options_ sample_recovered) = false ->
   exists r, @LogAndApply BytewiseComparator no_sublevels sample_flush
               sample_failing_io sample_recovered = Some r) /\
  forall s edit' vs',
    @LogAndApply BytewiseComparator no_sublevels sample_flush sample_failing_io
      sample_recovered = Some (s, edit', vs') ->
    s = IOError "disk full" /\
    current_ vs' = current_ sample_recovered /\
    heap_ vs' = heap_ sample_recovered /\
    log_number_ vs' = log_number_ sample_recovered /\
    prev_log_number_ vs' = prev_log_number_ sample_recovered /\
    next_file_number_ vs' = next_file_number_ sample_recovered /\
    last_sequence_ vs' = last_sequence_ sample_recovered /\
    (descriptor_log_ sample_recovered = None ->
     descriptor_log_ vs' = None /\ descriptor_file_ vs' = None /\
     FileExists (DescriptorFileName (dbname_ sample_recovered)
                   (manifest_file_number_ sample_recovered))
       (env_ vs') = false) /\
    (descriptor_log_ sample_recovered <> None ->
     descriptor_log_ vs' = descriptor_log_ sample_recovered /\
     descriptor_file_ vs' = descriptor_file_ sample_recovered).
Proof.
  apply (@LogAndApply_write_failure BytewiseComparator no_sublevels sample_flush
           sample_failing_io sample_recovered (IOError "disk full") 1%nat
           sample_base).
  - vm_compute. reflexivity.
  - vm_compute. reflexivity.
  - vm_compute. discriminate.
  - right. split; reflexivity.
  - discriminate.
  - left. reflexivity.
Defined.

(** C4, on the sample database after a flush of four tables: the score of
    level 0 is 1, the seed is table 11, and the plan grows to the tables 11
    and 12. *)
Lemma PickCompaction_priority_witness :
  (match @PickCompaction BytewiseComparator no_sublevels true sample_flushed with
   | Some (Some (c, _)) =>
       Some (Compaction.level_ c, number <$> level_files (Compaction.inputs_ c) 0)
   | _ => None
   end) = Some (0%nat, [11; 12]) /\
  exists seed c0 vs1 c vs',
    @PickCompaction_seed BytewiseComparator no_sublevels true sample_flushed
    = Some (Some (SizeTriggered, c0, vs1)) /\
    Compaction.level_ c0 = Z.to_nat (compaction_level_ sample_current) /\
    Compaction.inputs_ c0 = [[seed]; []] /\
    @is_seed BytewiseComparator None (level_files (files_ sample_current) 0) seed /\
    @PickCompaction BytewiseComparator no_sublevels true sample_flushed
    = Some (Some (c, vs')) /\
    @plan_of_seed BytewiseComparator sample_current
      (Z.to_nat (compaction_level_ sample_current)) seed c /\
    (@file_wf BytewiseComparator seed ->
     In seed (level_files (Compaction.inputs_ c) 0)).
Proof.
  split; [vm_compute; reflexivity|].
  destruct (@PickCompaction_priority BytewiseComparator no_sublevels
              BytewiseComparator_laws true sample_flushed sample_current)
    as [Hsize _].
  - vm_compute. reflexivity.
  - destruct Hsize as [Hplain _].
    + vm_compute. reflexivity.
    + vm_compute. discriminate.
    + apply Hplain.
      * vm_compute. reflexivity.
      * vm_compute. reflexivity.
      * vm_compute. discriminate.
      * vm_compute. reflexivity.
Defined.

(** C2, on two edits of level 1. *)
Lemma versions_of_edits_no_overlap_witness :
  length (@versions_of_edits BytewiseComparator sample_options
            (Version_new sample_options) [None; None; None] sample_edits)
  = 2%nat /\
  forall v,
    In v (@versions_of_edits BytewiseComparator sample_options
            (Version_new sample_options) [None; None; None] sample_edits) ->
    @no_overlap BytewiseComparator v.
Proof.
  split; [vm_compute; reflexivity|].
  apply (@versions_of_edits_no_overlap BytewiseComparator BytewiseComparator_laws
           sample_options [None; None; None] sample_edits).
  - reflexivity.
  - unfold sample_edits. cbn [valid_edits]. split; [|split; [|exact I]].
    + unfold valid_edit. cbn [sample_edit VersionEdit.updated_files_
        VersionEdit.new_files_ VersionEdit.deleted_files_ VersionEdit.max_level_].
      split; [reflexivity|]. split.
      { intros level f [[= <- <-]|[[= <- <-]|[]]]; vm_compute; discriminate. }
      split; [intros level n []|]. split.
      { intros level f [[= <- <-]|[[= <- <-]|[]]] _; vm_compute; discriminate. }
      split.
      { cbn [pairwise]. split; [|split; [constructor|exact I]].
        constructor; [|constructor]. intros _ _. right. vm_compute. reflexivity. }
      intros level f g [[= <- <-]|[[= <- <-]|[]]] _ Hg; vm_compute in Hg;
        destruct Hg.
    + unfold valid_edit. cbn [sample_edit VersionEdit.updated_files_
        VersionEdit.new_files_ VersionEdit.deleted_files_ VersionEdit.max_level_].
      split; [reflexivity|]. split.
      { intros level f [[= <- <-]|[]]; vm_compute; discriminate. }
      split.
      { intros level n [[= <- <-]|[]]; vm_compute; discriminate. }
      split.
      { intros level f [[= <- <-]|[]] _; vm_compute; discriminate. }
      split; [cbn [pairwise]; split; [constructor|exact I]|].
      intros level f g [[= <- <-]|[]] _ Hg Hsurv. vm_compute in Hg.
      destruct Hg as [<-|[<-|[]]].
      * destruct Hsurv as (f' & [[= <-]|[]] & Hn); [left; reflexivity|].
        vm_compute in Hn. discriminate.
      * left. vm_compute. reflexivity.
Defined.

(** Discharges [Forall P l] on a list that is written out. *)
Ltac forall_list tac :=
  repeat (apply List.Forall_cons; [tac|]); apply List.Forall_nil.

(** X1, on the level 1 of [sample_levels] and the range from b to e. *)
Lemma GetOverlappingInputs_sweep_witness :
  exists result,
    @GetOverlappingInputs BytewiseComparator sample_levels 1
      (Some (sample_key "b" 9)) (Some (sample_key "e" 1)) = Some result /\
    result = List.filter
               (@file_overlaps BytewiseComparator
                  (user_key <$> Some (sample_key "b" 9))
                  (user_key <$> Some (sample_key "e" 1)))
               (level_files sample_levels 1) /\
    forall f, In f result <->
      In f (level_files sample_levels 1) /\
      (forall b, Some (sample_key "b" 9) = Some b ->
         @Compare BytewiseComparator (user_key (largest f)) (user_key b) <> Lt) /\
      (forall e, Some (sample_key "e" 1) = Some e ->
         @Compare BytewiseComparator (user_key (smallest f)) (user_key e) <> Gt).
Proof.
  apply (@GetOverlappingInputs_sweep BytewiseComparator sample_levels 1
           (Some (sample_key "b" 9)) (Some (sample_key "e" 1))).
  simpl. lia.
Defined.

(** X2, on [sample_level] and the range from d to e. *)
Lemma SomeFileOverlapsRange_disjoint_witness :
  exists b,
    @SomeFileOverlapsRange BytewiseComparator true sample_level
      (Some "d"%string) (Some "e"%string) = Some b /\
    @SomeFileOverlapsRange BytewiseComparator false sample_level
      (Some "d"%string) (Some "e"%string) = Some b /\
    (b = true <->
     exists f, In f sample_level /\
       @in_user_range BytewiseComparator (Some "d"%string) (Some "e"%string) f).
Proof.
  apply (@SomeFileOverlapsRange_disjoint BytewiseComparator BytewiseComparator_laws
           sample_level (Some "d"%string) (Some "e"%string)).
  - vm_compute. reflexivity.
  - unfold sample_level. cbn [pairwise]. repeat split;
      forall_list ltac:(vm_compute; reflexivity).
  - unfold sample_level. forall_list ltac:(vm_compute; discriminate).
  - unfold sample_level. forall_list ltac:(vm_compute; discriminate).
Defined.


(** X4, on the tables 9, 7 and 8. *)
Lemma GetRange_covers_witness :
  @covers BytewiseComparator
    ([sample_file 9 4 "d" "f"] ++ [sample_file 7 4 "a" "c"; sample_file 8 4 "g" "i"])
    (@GetRange2 BytewiseComparator [sample_file 9 4 "d" "f"]
       [sample_file 7 4 "a" "c"; sample_file 8 4 "g" "i"]).1
    (@GetRange2 BytewiseComparator [sample_file 9 4 "d" "f"]
       [sample_file 7 4 "a" "c"; sample_file 8 4 "g" "i"]).2 /\
  @GetRange BytewiseComparator
    ([sample_file 9 4 "d" "f"] ++ [sample_file 7 4 "a" "c"; sample_file 8 4 "g" "i"])
  = @GetRange2 BytewiseComparator [sample_file 9 4 "d" "f"]
      [sample_file 7 4 "a" "c"; sample_file 8 4 "g" "i"].
Proof.
  apply (@GetRange_covers BytewiseComparator BytewiseComparator_laws
           [sample_file 9 4 "d" "f"]
           [sample_file 7 4 "a" "c"; sample_file 8 4 "g" "i"]).
  simpl. discriminate.
Defined.

(** X5, on the edit that replaces table 7 by table 9 at level 1. *)
Lemma BuildVersion_files_witness :
  number <$> level_files
               (files_ (@BuildVersion BytewiseComparator sample_options
                          sample_base_levels [] sample_replace).1) 1
  = [9; 8] /\
  forall level f,
    In f (level_files
            (files_ (@BuildVersion BytewiseComparator sample_options
                       sample_base_levels [] sample_replace).1) level) <->
    (In f (level_files sample_base_levels level) /\
     ~ deleted_by sample_replace level (number f)) \/
    (exists f0, In (level, f0) (VersionEdit.new_files_ sample_replace) /\
       f = set_allowed_seeks (initial_allowed_seeks (file_size f0)) f0).
Proof.
  split; [vm_compute; reflexivity|].
  apply (@BuildVersion_files BytewiseComparator BytewiseComparator_laws
           sample_options sample_base_levels [] sample_replace).
  - reflexivity.
  - split; [reflexivity|]. split.
    + intros level f [[= <- <-]|[]]. vm_compute. discriminate.
    + intros level n [[= <- <-]|[]]. vm_compute. discriminate.
  - simpl. split; [apply List.Forall_nil|exact I].
Defined.

(** X6, on the two edits of [sample_edits]. *)
Lemma versions_of_edits_last_level_witness :
  length (@versions_of_edits BytewiseComparator sample_options
            (Version_new sample_options) [None; None; None] sample_edits)
  = 2%nat /\
  forall v,
    In v (@versions_of_edits BytewiseComparator sample_options
            (Version_new sample_options) [None; None; None] sample_edits) ->
    last (files_ v) = Some [] /\
    (kMaxMemCompactLevel sample_options < length (files_ v))%nat.
Proof.
  split; [vm_compute; reflexivity|].
  apply (@versions_of_edits_last_level BytewiseComparator BytewiseComparator_laws
           sample_options [None; None; None] sample_edits).
  - reflexivity.
  - unfold sample_edits.
    apply List.Forall_cons; [|apply List.Forall_cons; [|apply List.Forall_nil]].
    + split; [reflexivity|split].
      * intros level f [[= <- <-]|[[= <- <-]|[]]]; vm_compute; discriminate.
      * intros level n [].
    + split; [reflexivity|split].
      * intros level f [[= <- <-]|[]]; vm_compute; discriminate.
      * intros level n [[= <- <-]|[]]; vm_compute; discriminate.
Defined.

(** X7, on the second sample database, whose level 1 holds three tables. *)
Lemma SnapshotEdit_replay_witness :
  number <$> level_files (files_ sample_wide_base) 1 = [7; 9; 8] /\
  forall level,
    level_files
      (files_ (@BuildVersion BytewiseComparator (options_ sample_wide)
                 (files_ (Version_new (options_ sample_wide))) []
                 (@SnapshotEdit BytewiseComparator sample_wide)).1) level
    = map (fun f => set_allowed_seeks (initial_allowed_seeks (file_size f)) f)
        (level_files (files_ sample_wide_base) level).
Proof.
  split; [vm_compute; reflexivity|].
  apply (@SnapshotEdit_replay BytewiseComparator BytewiseComparator_laws
           sample_wide sample_wide_base []).
  - vm_compute. reflexivity.
  - vm_compute. reflexivity.
  - intros [|[|[|level]]]; vm_compute; repeat split;
      forall_list ltac:(reflexivity).
Defined.

(** X8, on the three entries of [sample_entries]. *)
Lemma BlockBuilder_roundtrip_witness :
  length (BlockBuilder.buffer_ sample_block) = 21%nat /\
  @decode_entries sample_coding
    (BlockBuilder.buffer_
       (@BlockBuilder.AddAll sample_coding sample_entries (BlockBuilder.new 2)))
  = Some sample_entries.
Proof.
  split; [vm_compute; reflexivity|].
  apply (@BlockBuilder_roundtrip sample_coding sample_coding_laws 2 sample_entries).
  unfold sample_entries.
  forall_list ltac:(split; vm_compute; reflexivity).
Defined.

(** X9, on the same entries with a restart every two entries. *)
Lemma BlockBuilder_restart_points_witness :
  BlockBuilder.restarts_ sample_block = [0; 15] /\
  (let b := @BlockBuilder.AddAll sample_coding sample_entries (BlockBuilder.new 2) in
   let interval := Z.to_nat (BlockBuilder.restart_interval_ b) in
   BlockBuilder.restart_interval_ b = Z.max 1 2 /\
   0 <= BlockBuilder.counter_ b <= BlockBuilder.restart_interval_ b /\
   length (BlockBuilder.restarts_ b) = S ((length sample_entries - 1) / interval) /\
   BlockBuilder.restarts_ b !! 0%nat = Some 0 /\
   forall j r, BlockBuilder.restarts_ b !! j = Some r ->
     0 <= r <= Z.of_nat (length (BlockBuilder.buffer_ b)) /\
     @decode_entries sample_coding (drop (Z.to_nat r) (BlockBuilder.buffer_ b))
     = Some (drop (j * interval) sample_entries)).
Proof.
  split; [vm_compute; reflexivity|].
  apply (@BlockBuilder_restart_points sample_coding sample_coding_laws 2
           sample_entries).
  - lia.
  - unfold sample_entries. forall_list ltac:(split; vm_compute; reflexivity).
  - vm_compute. reflexivity.
Defined.

(** X10, on the block of the sample entries. *)
Lemma CurrentSizeEstimate_exact_witness :
  BlockBuilder.CurrentSizeEstimate sample_block
  = Z.of_nat (length (BlockBuilder.buffer_ (@BlockBuilder.Finish sample_coding
                                              sample_block))) /\
  BlockBuilder.CurrentSizeEstimate (@BlockBuilder.Finish sample_coding sample_block)
  = Z.of_nat (length (BlockBuilder.buffer_ (@BlockBuilder.Finish sample_coding
                                              sample_block))) /\
  take (length (BlockBuilder.buffer_ sample_block))
    (BlockBuilder.buffer_ (@BlockBuilder.Finish sample_coding sample_block))
  = BlockBuilder.buffer_ sample_block.
Proof.
  apply (@CurrentSizeEstimate_exact sample_coding sample_coding_laws sample_block).
  - vm_compute. reflexivity.
  - vm_compute. reflexivity.
Defined.

(** X11, on the finished sample block and a target of 64 bytes. *)
Lemma Finalize_padding_witness :
  exists trailer padding,
    BlockBuilder.buffer_
      (@BlockBuilder.Finalize sample_coding 64
         (@BlockBuilder.Finish sample_coding sample_block))
    = BlockBuilder.buffer_ (@BlockBuilder.Finish sample_coding sample_block)
      ++ trailer ++ padding /\
    Z.of_nat (length trailer) = kBlockTrailerSize /\
    trailer !! 0%nat = Some kNoCompression /\
    Forall (fun c => c = Byte.x00) padding /\
    Z.of_nat (length (BlockBuilder.buffer_
                        (@BlockBuilder.Finalize sample_coding 64
                           (@BlockBuilder.Finish sample_coding sample_block))))
    = Z.max (Z.of_nat (length (BlockBuilder.buffer_
                                 (@BlockBuilder.Finish sample_coding sample_block)))
             + kBlockTrailerSize) 64.
Proof.
  apply (@Finalize_padding sample_coding sample_coding_laws 64
           (@BlockBuilder.Finish sample_coding sample_block)).
  lia.
Defined.

(** X12, on the plan of the third database: the key d is in no table of
    level 3, and the pointer of level 3 passes the table that ends at c. *)
Lemma IsBaseLevelForKey_ascending_witness :
  IsBaseLevelForKey "d" sample_stop_compaction sample_stop_planned
  = Some (true, set_level_ptrs [0; 0; 0; 1; 0] sample_stop_compaction) /\
  exists b ptrs,
    IsBaseLevelForKey "d" sample_stop_compaction sample_stop_planned
    = Some (b, set_level_ptrs ptrs sample_stop_compaction) /\
    (b = true <->
     key_below (files_ sample_stop_version)
       (Compaction.level_ sample_stop_compaction + 2) "d") /\
    length ptrs = length (Compaction.level_ptrs_ sample_stop_compaction) /\
    forall key', Compare "d" key' <> Gt ->
      ptrs_behind (files_ sample_stop_version)
        (Compaction.level_ sample_stop_compaction + 2) ptrs key'.
Proof.
  split; [vm_compute; reflexivity|].
  apply (@IsBaseLevelForKey_ascending BytewiseComparator BytewiseComparator_laws
           "d" sample_stop_compaction sample_stop_planned 1%nat sample_stop_version).
  - vm_compute; reflexivity.
  - vm_compute; reflexivity.
  - intros level Hlevel. unfold level_files.
    set (files := files_ sample_stop_version). vm_compute in files. subst files.
    do 5 (destruct level as [|level];
          [cbn [lookup list_lookup default pairwise];
           split; [repeat split; forall_list ltac:(vm_compute; reflexivity)|
                   forall_list ltac:(vm_compute; discriminate)]|]).
    cbn [lookup list_lookup default pairwise]. split; [exact I|apply List.Forall_nil].
  - intros l files Hl Hfiles.
    do 3 (destruct l as [|l]; [vm_compute in Hl; lia|]).
    do 2 (destruct l as [|l];
          [exists 0; split; [vm_compute; reflexivity|];
           split; [lia|intros i f _ Hi; lia]|]).
    vm_compute in Hfiles. discriminate.
Defined.

(** X13, on the plan of the third database after its first key: before the
    key g the call passes the two grandparents that end at c and at f, 60
    bytes against a limit of 50, and answers [true]. *)
Lemma ShouldStopBefore_overlap_witness :
  ShouldStopBefore (sample_key "g" 1) sample_stop_started sample_stop_planned
  = Some (true, set_stop_state 2 true 0 sample_stop_started) /\
  exists (n : nat),
    let passed :=
      take n (drop (Z.to_nat (Compaction.grandparent_index_ sample_stop_started))
                (Compaction.grandparents_ sample_stop_started)) in
    let overlapped :=
      Compaction.overlapped_bytes_ sample_stop_started +
      (if Compaction.seen_key_ sample_stop_started then total_bytes passed else 0) in
    let stop :=
      Compaction.max_grand_parent_overlap_bytes_ sample_stop_started <? overlapped in
    ShouldStopBefore (sample_key "g" 1) sample_stop_started sample_stop_planned
    = Some (stop,
            set_stop_state
              (Compaction.grandparent_index_ sample_stop_started + Z.of_nat n) true
              (if stop then 0 else overlapped) sample_stop_started) /\
    Compaction.grandparent_index_ sample_stop_started + Z.of_nat n
      <= Z.of_nat (length (Compaction.grandparents_ sample_stop_started)) /\
    (forall f, In f passed -> icmp_Compare (sample_key "g" 1) (largest f) = Gt) /\
    (forall f,
       Compaction.grandparents_ sample_stop_started
         !! (Z.to_nat (Compaction.grandparent_index_ sample_stop_started) + n)%nat
       = Some f ->
       icmp_Compare (sample_key "g" 1) (largest f) <> Gt).
Proof.
  split; [vm_compute; reflexivity|].
  apply (@ShouldStopBefore_overlap BytewiseComparator (sample_key "g" 1)
           sample_stop_started sample_stop_planned 1%nat sample_stop_version).
  - vm_compute; reflexivity.
  - vm_compute; reflexivity.
  - vm_compute; reflexivity.
  - vm_compute; reflexivity.
  - vm_compute. forall_list ltac:(vm_compute; discriminate).
  - vm_compute. split; discriminate.
  - vm_compute. discriminate.
  - vm_compute. reflexivity.
Defined.

(** X14, on the plan of a manual compaction of the recovered database. *)
Lemma ReleaseInputs_restores_witness :
  heap_ (ReleaseInputs sample_compaction sample_planned).2 = heap_ sample_recovered /\
  Compaction.input_version_ sample_compaction = current_ sample_recovered /\
  (exists cp,
     ReleaseInputs sample_compaction sample_planned
     = (set_input_version None sample_compaction,
        set_compact_pointer cp sample_recovered)) /\
  forall vs'', ReleaseInputs (set_input_version None sample_compaction) vs''
               = (set_input_version None sample_compaction, vs'').
Proof.
  split; [vm_compute; reflexivity|].
  apply (@ReleaseInputs_restores BytewiseComparator no_sublevels false 1%nat None None
           sample_recovered sample_planned sample_compaction).
  - exists 1%nat, sample_base. split; [vm_compute; reflexivity|].
    split; [vm_compute; reflexivity|]. vm_compute. discriminate.
  - right. vm_compute. reflexivity.
Defined.

(** X15, on the flush of four tables into the recovered database. *)
Lemma LogAndApply_success_witness :
  current_ sample_recovered = Some 1%nat /\ current_ sample_flushed = Some 2%nat /\
  exists edit' vs' v ver,
    LogAndApply sample_flush sample_working_io sample_recovered
    = Some (OK, edit', vs') /\
    heap_ sample_recovered !! v = None /\
    current_ vs' = Some v /\ heap_ vs' !! v = Some ver /\ refs_ ver = 1 /\
    files_ ver
    = files_ (BuildVersion (options_ sample_recovered) (files_ sample_base)
                (compact_pointer_ sample_recovered)
                (LogAndApply_fill sample_flush sample_recovered)).1 /\
    compact_pointer_ vs'
    = (BuildVersion (options_ sample_recovered) (files_ sample_base)
         (compact_pointer_ sample_recovered)
         (LogAndApply_fill sample_flush sample_recovered)).2 /\
    heap_ vs' !! 1%nat
    = (if refs_ sample_base =? 1 then None
       else Some (set_refs (refs_ sample_base - 1) sample_base)) /\
    (forall a, a <> v -> a <> 1%nat -> heap_ vs' !! a = heap_ sample_recovered !! a) /\
    log_number_ vs'
    = default (log_number_ sample_recovered) (VersionEdit.log_number_ sample_flush) /\
    prev_log_number_ vs'
    = default (prev_log_number_ sample_recovered)
        (VersionEdit.prev_log_number_ sample_flush) /\
    next_file_number_ vs' = next_file_number_ sample_recovered /\
    last_sequence_ vs' = last_sequence_ sample_recovered /\
    descriptor_log_ vs' <> None.
Proof.
  split; [vm_compute; reflexivity|]. split; [vm_compute; reflexivity|].
  apply (@LogAndApply_success BytewiseComparator no_sublevels sample_flush
           sample_working_io sample_recovered 1%nat sample_base).
  - vm_compute; reflexivity.
  - vm_compute; reflexivity.
  - vm_compute; discriminate.
  - vm_compute; reflexivity.
  - right. split; [reflexivity|]. split; [reflexivity|]. intros _. reflexivity.
  - reflexivity.
  - reflexivity.
Defined.

(** X16, on the sample directory when MANIFEST-000001 cannot be opened. *)
Lemma Recover_failure_witness :
  fst <$> Recover sample_unreadable_io sample_vs = Some (IOError "unreadable") /\
  exists s vs',
    Recover sample_unreadable_io sample_vs = Some (s, vs') /\
    (s <> OK -> Recover_keeps sample_vs vs') /\
    (s = OK ->
     forall n, n = 1 \/ n = 2 ->
       FileExists (DescriptorFileName (dbname_ sample_vs) n) (env_ sample_vs) = true ->
       descriptor_accepted sample_unreadable_io
         (DescriptorFileName (dbname_ sample_vs) n)).
Proof.
  split; [vm_compute; reflexivity|].
  apply (@Recover_failure BytewiseComparator sample_unreadable_io sample_vs).
  exists 0%nat, (default (Version_new sample_options) (current_version sample_vs)).
  split; [vm_compute; reflexivity|].
  split; [vm_compute; reflexivity|]. vm_compute. discriminate.
Defined.

(** X17, on the flush of four tables applied to the recovered database
    without a write. *)
Lemma ForeighApply_installs_witness :
  fst <$> ForeighApply sample_flush sample_recovered = Some OK /\
  (forall name, VersionEdit.comparator_ sample_flush = Some name -> name <> Name ->
     exists msg,
       ForeighApply sample_flush sample_recovered
       = Some (InvalidArgument msg, sample_recovered)) /\
  ((forall name, VersionEdit.comparator_ sample_flush = Some name -> name = Name) ->
   exists vs' v ver,
     ForeighApply sample_flush sample_recovered = Some (OK, vs') /\
     heap_ sample_recovered !! v = None /\
     current_ vs' = Some v /\ heap_ vs' !! v = Some ver /\ refs_ ver = 1 /\
     files_ ver
     = files_ (BuildVersion (options_ sample_recovered) (files_ sample_base)
                 (compact_pointer_ sample_recovered) sample_flush).1 /\
     compact_pointer_ vs'
     = (BuildVersion (options_ sample_recovered) (files_ sample_base)
          (compact_pointer_ sample_recovered) sample_flush).2 /\
     heap_ vs' !! 1%nat
     = (if refs_ sample_base =? 1 then None
        else Some (set_refs (refs_ sample_base - 1) sample_base)) /\
     (forall a, a <> v -> a <> 1%nat -> heap_ vs' !! a = heap_ sample_recovered !! a) /\
     next_file_number_ vs'
     = default (next_file_number_ sample_recovered)
         (VersionEdit.next_file_number_ sample_flush) /\
     last_sequence_ vs'
     = default (last_sequence_ sample_recovered)
         (VersionEdit.last_sequence_ sample_flush) /\
     log_number_ vs'
     = default (log_number_ sample_recovered) (VersionEdit.log_number_ sample_flush) /\
     prev_log_number_ vs'
     = default (prev_log_number_ sample_recovered)
         (VersionEdit.prev_log_number_ sample_flush) /\
     env_ vs' = env_ sample_recovered /\
     descriptor_log_ vs' = descriptor_log_ sample_recovered /\
     descriptor_file_ vs' = descriptor_file_ sample_recovered).
Proof.
  split; [vm_compute; reflexivity|].
  apply (@ForeighApply_installs BytewiseComparator no_sublevels sample_flush
           sample_recovered 1%nat sample_base).
  - vm_compute; reflexivity.
  - vm_compute; reflexivity.
  - vm_compute; discriminate.
  - vm_compute; reflexivity.
Defined.

(** X18, on the sample database after recovery and a flush: the tables 7
    and 8 of the recovered version and the four tables of the flush are
    live. *)
Lemma AddLiveFiles_reachable_witness :
  (fun live : gset Z => (bool_decide (7 ∈ live), bool_decide (14 ∈ live), size live))
    <$> AddLiveFiles sample_flushed ∅ = Some (true, true, 6%nat) /\
  exists live',
    AddLiveFiles sample_flushed ∅ = Some live' /\
    (forall n, n ∈ live' <->
       n ∈ (∅ : gset Z) \/
       exists a v, In a (dummy_versions_ sample_flushed) /\
                   heap_ sample_flushed !! a = Some v /\ file_number_of v n) /\
    exists cur, current_version sample_flushed = Some cur /\
      forall level files f,
        files_ cur !! level = Some files -> In f files -> number f ∈ live'.
Proof.
  split; [vm_compute; reflexivity|].
  apply (@AddLiveFiles_reachable BytewiseComparator no_sublevels sample_flushed ∅).
  apply (@reachable_LogAndApply BytewiseComparator no_sublevels sample_recovered
           sample_flush sample_working_io OK
           (LogAndApply_fill sample_flush sample_recovered) sample_flushed).
  - apply (@reachable_Recover BytewiseComparator no_sublevels sample_vs
             sample_recover_io OK sample_recovered).
    + exact (reachable_new "db" sample_options sample_env).
    + vm_compute. reflexivity.
  - vm_compute. reflexivity.
Defined.

(** X19, on a version with the four tables of [sample_level0] at level 0
    and the three tables of [sample_level] at level 1: the key b is offered
    the tables 13 and 11 of level 0 and the table 7 of level 1. *)
Lemma ForEachOverlapping_visits_witness :
  ForEachOverlapping (level_files sample_level0 0 :: [sample_level]) "b"
    (sample_key "b" 9) [] sample_note
  = Some [(0%nat, 13); (0%nat, 11); (1%nat, 7)] /\
  exists (zero : list FileMetaData) (deeper : list (nat * FileMetaData)),
    (forall (A : Type) (func : A -> nat -> FileMetaData -> A * bool) (arg : A),
       ForEachOverlapping (level_files sample_level0 0 :: [sample_level]) "b"
         (sample_key "b" 9) arg func
       = Some (visit_until func (map (pair 0%nat) zero ++ deeper) arg)) /\
    (forall f, In f zero <-> In f (level_files sample_level0 0) /\ key_in_file "b" f) /\
    pairwise newer_or_same zero /\
    pairwise (fun x y : nat * FileMetaData => (x.1 < y.1)%nat) deeper /\
    (forall l f, In (l, f) deeper <->
       (1 <= l)%nat /\
       exists files, (level_files sample_level0 0 :: [sample_level]) !! l = Some files /\
                     level_candidate "b" (sample_key "b" 9) files f) /\
    (forall l f, In (l, f) (map (pair 0%nat) zero ++ deeper) -> key_in_file "b" f).
Proof.
  split; [vm_compute; reflexivity|].
  apply (@ForEachOverlapping_visits BytewiseComparator BytewiseComparator_laws
           (level_files sample_level0 0) [sample_level] "b" (sample_key "b" 9)).
  - reflexivity.
  - intros files [<-|[]]. split; [vm_compute; reflexivity|].
    unfold sample_level.
    intros [|[|[|i]]] [|[|[|j]]] fi fj Hij Hi Hj; simpl in Hi, Hj;
      try lia; try discriminate;
      injection Hi as <-; injection Hj as <-; vm_compute; discriminate.
Defined.

(** X20, on the path of a descriptor file. *)
Lemma ResolvePath_splits_witness :
  ResolvePath sample_path
  = Some (list_ascii_of_string "/db", list_ascii_of_string "MANIFEST-000001") /\
  (ResolvePath sample_path = None <-> "/"%char ∉ sample_path) /\
  forall parent base, ResolvePath sample_path = Some (parent, base) ->
    ("/"%char ∉ base) /\
    ((parent = ["/"%char] /\ sample_path = "/"%char :: base) \/
     (parent <> [] /\ sample_path = parent ++ "/"%char :: base)).
Proof.
  split; [vm_compute; reflexivity|].
  apply (ResolvePath_splits sample_path).
  apply (bool_decide_unpack _). vm_compute. exact I.
Defined.

(** X21, on a file of five bytes held in memory. *)
Lemma ReadFileToString_contents_witness :
  ReadFileToString 3 (OK, Some (list_byte_of_string "hello"))
  = Some (OK, list_byte_of_string "hello") /\
  (IOError "gone" <> OK ->
   ReadFileToString 3 (IOError "gone", Some (list_byte_of_string "hello"))
   = Some (IOError "gone", []) /\
   ReadFileToString 3 (IOError "gone", @None (list Byte.byte))
   = Some (IOError "gone", [])) /\
  (Z.of_nat (length (id (list_byte_of_string "hello"))) / kBufferSize + 2
   <= Z.of_nat 3 ->
   ReadFileToString 3 (OK, Some (list_byte_of_string "hello"))
   = Some (OK, id (list_byte_of_string "hello"))).
Proof.
  split; [vm_compute; reflexivity|].
  apply (@ReadFileToString_contents (list Byte.byte) sample_file_in_memory id).
  constructor. intros file n Hn. exists (drop (Z.to_nat n) file).
  split; reflexivity.
Defined.

(** X22, on the version after the flush: four tables at level 0 reach the
    trigger, and level 0 is picked. *)
Lemma Finalize_best_level_witness :
  compaction_level_ (Finalize sample_options sample_current) = 0 /\
  files_ (Finalize sample_options sample_current) = files_ sample_current /\
  refs_ (Finalize sample_options sample_current) = refs_ sample_current /\
  file_to_compact_ (Finalize sample_options sample_current)
  = file_to_compact_ sample_current /\
  file_to_compact_level_ (Finalize sample_options sample_current)
  = file_to_compact_level_ sample_current /\
  ((compaction_level_ (Finalize sample_options sample_current) = -1 /\
    compaction_score_ (Finalize sample_options sample_current) = double_of_Z (-1) /\
    forall l, (l < length (files_ sample_current) - 1)%nat ->
      double_gt (level_score sample_options sample_current l) (double_of_Z (-1))
      = false) \/
   exists level : nat,
     (level < length (files_ sample_current) - 1)%nat /\
     compaction_level_ (Finalize sample_options sample_current) = Z.of_nat level /\
     compaction_score_ (Finalize sample_options sample_current)
     = level_score sample_options sample_current level /\
     double_gt (compaction_score_ (Finalize sample_options sample_current))
       (double_of_Z (-1)) = true /\
     (forall l, (l < length (files_ sample_current) - 1)%nat ->
        double_gt (level_score sample_options sample_current l)
          (compaction_score_ (Finalize sample_options sample_current)) = false) /\
     (forall l, (l < level)%nat ->
        double_ge (level_score sample_options sample_current l)
          (compaction_score_ (Finalize sample_options sample_current)) = false)).
Proof.
  split; [vm_compute; reflexivity|].
  apply (Finalize_best_level sample_options sample_current).
  reflexivity.
Defined.
(** X23, on the plan of a manual compaction of the recovered database, which
    moves the table 7. *)
Lemma IsTrivialMove_only_file_witness :
  number <$> GetTheOnlyFile sample_compaction = Some 7 /\
  exists f, GetTheOnlyFile sample_compaction = Some f /\
            concat (Compaction.inputs_ sample_compaction) = [f].
Proof.
  split; [vm_compute; reflexivity|].
  apply (@IsTrivialMove_only_file BytewiseComparator sample_compaction).
  - vm_compute. reflexivity.
  - vm_compute. reflexivity.
  - intros _. vm_compute. reflexivity.
Defined.

(** X24, on the flush of four tables into the recovered database: the two
    records of the new descriptor, read back, are accepted. *)
Lemma LogAndApply_read_back_witness :
  cand_status
    (@Recover_candidate BytewiseComparator
       (map (fun r => ReadRecord OK r.2) (env_records (env_ sample_flushed)))
       (files_ (Version_new sample_options)) sample_vs).1 = OK /\
  exists edit' vs' snapshot installed,
    @LogAndApply BytewiseComparator no_sublevels sample_flush sample_working_io
      sample_recovered = Some (OK, edit', vs') /\
    env_records (env_ vs')
    = env_records (env_ sample_recovered)
      ++ [(DescriptorFileName (dbname_ sample_recovered)
             (manifest_file_number_ sample_recovered), snapshot);
          (DescriptorFileName (dbname_ sample_recovered)
             (manifest_file_number_ sample_recovered), edit')] /\
    current_version vs' = Some installed /\
    forall vsr, options_ vsr = options_ sample_recovered ->
      let cand := (@Recover_candidate BytewiseComparator
                     [ReadRecord OK snapshot; ReadRecord OK edit']
                     (files_ (Version_new (options_ vsr))) vsr).1 in
      cand_status cand = OK /\
      cand_next_file cand = next_file_number_ vs' /\
      cand_last_seq cand = last_sequence_ vs' /\
      cand_log_number cand = log_number_ vs' /\
      cand_prev_log_number cand = prev_log_number_ vs' /\
      forall level g,
        In g (level_files
                (files_ (@SaveTo BytewiseComparator (cand_builder cand)
                           (Version_new (options_ vsr))))
                level) <->
        exists f, In f (level_files (files_ installed) level) /\
          g = set_allowed_seeks (initial_allowed_seeks (file_size f)) f.
Proof.
  split; [vm_compute; reflexivity|].
  apply (@LogAndApply_read_back BytewiseComparator no_sublevels
           BytewiseComparator_laws sample_flush sample_working_io
           sample_recovered 1%nat sample_base).
  - vm_compute; reflexivity.
  - vm_compute; reflexivity.
  - vm_compute; discriminate.
  - vm_compute; reflexivity.
  - vm_compute; reflexivity.
  - reflexivity.
  - reflexivity.
  - intros _. reflexivity.
  - reflexivity.
  - reflexivity.
  - intros name Hn. discriminate Hn.
  - split; [reflexivity|]. split.
    + intros level f [[= <- <-]|[[= <- <-]|[[= <- <-]|[[= <- <-]|[]]]]];
        vm_compute; discriminate.
    + intros level n [].
  - simpl. repeat split; forall_list ltac:(intros _; vm_compute; discriminate).
  - unfold level_files. set (files := files_ sample_base). vm_compute in files.
    subst files.
    intros [|[|[|[|[|level]]]]]; vm_compute; repeat split;
      forall_list ltac:(reflexivity).
  - unfold new_numbers_unused, level_files.
    set (files := files_ sample_base). vm_compute in files. subst files.
    intros level f0 f [[= <- <-]|[[= <- <-]|[[= <- <-]|[[= <- <-]|[]]]]] Hf;
      vm_compute in Hf; destruct Hf.
Defined.
